(** * Ultronix Hivemind: the task scheduling subsystem

    A shallow embedding of the scheduler package
    (internal/hivemind/service/scheduler: task.go, queue.go, selector.go,
    monitor.go and the scheduler facade) together with the properties of
    its priority queue, node selectors, monitor and facade.

    Conventions of the embedding.
    - A Go struct [T] is a record [T.t] inside a module [T]; a method
      [(x *T) M] is the definition [T.M].
    - Go's [int], [int64] and [time.Duration] are [Z]; where the code does
      arithmetic on them the 64-bit wrap-around is written out ([wrap64]).
    - [float64] is Rocq's primitive binary64 [float].
    - A Go map is a [gmap]; a map used as a set is a [gset].
    - [*protocol.Task] is an address into the store of task objects that the
      scheduler shares with the submitter ([TaskPtr], a [nat]); [nil] is
      [None].
    - [time.Now()] is an argument [now] of the operation that reads it; an
      operation reads the clock once, so the latency it measures is 0. *)

From Stdlib Require Import ZArith Floats Lia Bool.
From stdpp Require Import gmap strings list fin_maps sorting.

Open Scope Z_scope.
Set Warnings "-inexact-float".

(** ** Machine integers and time *)

(** Two's-complement reduction of an integer to 64 bits. *)
Definition wrap64 (z : Z) : Z := (z + 2 ^ 63) mod 2 ^ 64 - 2 ^ 63.

Definition int64_add (a b : Z) : Z := wrap64 (a + b).

Definition maxInt64 : Z := 2 ^ 63 - 1.
Definition minInt64 : Z := - 2 ^ 63.

(** [time.Time] as nanoseconds on one clock, [time.Duration] as its
    [int64] nanosecond count. *)
Definition Time := Z.
Definition Duration := Z.

(** [t.Sub(u)]: the difference, saturated to the range of a Duration. *)
Definition Time_Sub (t u : Time) : Duration :=
  Z.max minInt64 (Z.min maxInt64 (t - u)).

(** [float64(n)] for an [int] or [int64] [n]. *)
Definition float_of_int (n : Z) : float :=
  if 0 <=? n then of_uint63 (Uint63.of_Z n)
  else if n =? minInt64 then (- (of_uint63 (Uint63.of_Z (2 ^ 62)) * 2))%float
  else (- of_uint63 (Uint63.of_Z (- n)))%float.

(** Addresses of task objects. *)
Definition TaskPtr := nat.

(** ** package protocol *)

Module protocol.

(** Modelled from the spec: the declarations of package protocol are not
    among the sources. [TaskStatus] has the seven values the data model
    lists. *)
Inductive TaskStatus :=
| TaskStatusPending
| TaskStatusAssigned
| TaskStatusRunning
| TaskStatusCompleted
| TaskStatusFailed
| TaskStatusCancelled
| TaskStatusTimedOut.

#[global] Instance TaskStatus_eq_dec : EqDecision TaskStatus.
Proof. solve_decision. Defined.

(** Modelled from the spec: "Task: ID, Priority (integer, higher = more
    urgent), Timeout (duration; 0 = default), AssignedNodeID, Status,
    StartedAt, CompletedAt"; the opaque payload is left out. *)
Module Task.
Record t := mk {
  ID : string;
  Priority : Z;
  Timeout : Duration;
  AssignedNodeID : string;
  Status : TaskStatus;
  StartedAt : option Time;
  CompletedAt : option Time }.

Definition set_Status (s : TaskStatus) (x : t) : t :=
  mk (ID x) (Priority x) (Timeout x) (AssignedNodeID x) s
     (StartedAt x) (CompletedAt x).
Definition set_AssignedNodeID (n : string) (x : t) : t :=
  mk (ID x) (Priority x) (Timeout x) n (Status x)
     (StartedAt x) (CompletedAt x).
Definition set_StartedAt (a : option Time) (x : t) : t :=
  mk (ID x) (Priority x) (Timeout x) (AssignedNodeID x) (Status x)
     a (CompletedAt x).
Definition set_CompletedAt (a : option Time) (x : t) : t :=
  mk (ID x) (Priority x) (Timeout x) (AssignedNodeID x) (Status x)
     (StartedAt x) a.
End Task.

(** Modelled from the spec: a capability is read through its [Name]. *)
Module Capability.
Record t := mk { Name : string }.
End Capability.

(** Modelled from the spec: "SystemInfo{CPUCores, MemoryMB, DiskFreeMB}". *)
Module SystemInfo.
Record t := mk { CPUCores : Z; MemoryMB : Z; DiskFreeMB : Z }.
End SystemInfo.

(** Modelled from the spec: "NodeInfo (ID, declared Capabilities set,
    SystemInfo, Status)". *)
Module NodeInfo.
Record t := mk {
  ID : string;
  Capabilities : list Capability.t;
  SystemInfo : SystemInfo.t;
  Status : string }.
End NodeInfo.

(** Modelled from the spec: "Load (CPUPercent, MemoryPercent, ActiveTasks,
    QueuedTasks)". *)
Module NodeLoadInfo.
Record t := mk {
  CPUPercent : float;
  MemoryPercent : float;
  ActiveTasks : Z;
  QueuedTasks : Z }.
End NodeLoadInfo.

(** Modelled from the spec: the scheduler reads only [TaskID]. *)
Module TaskProgress.
Record t := mk { TaskID : string }.
End TaskProgress.

(** Modelled from the spec: the scheduler reads [TaskID], [Success] and
    [Error]. *)
Module TaskResult.
Record t := mk { TaskID : string; Success : bool; Error : string }.
End TaskResult.

End protocol.

Import protocol.

Definition terminal (s : TaskStatus) : bool :=
  match s with
  | TaskStatusCompleted | TaskStatusFailed
  | TaskStatusTimedOut | TaskStatusCancelled => true
  | _ => false
  end.

(** ** task.go *)

(** [ScheduleMode] is a string type; these are its two constants. *)
Definition ScheduleMode := string.
Definition DirectMode : ScheduleMode := "direct".
Definition AIMode : ScheduleMode := "ai".

Module ResourceRequirements.
Record t := mk {
  MinCPUCores : Z;
  MinMemoryMB : Z;
  MinDiskFreeMB : Z;
  MaxCPUPercent : float;
  MaxMemoryPercent : float;
  MaxActiveTasks : Z }.
End ResourceRequirements.

Module ScheduleHints.
Record t := mk {
  Description : string;
  PreferLowLatency : bool;
  PreferHighResources : bool;
  Affinity : string;
  AntiAffinity : list string;
  CustomContext : gmap string string }.
End ScheduleHints.

Module ScheduleRequest.
Record t := mk {
  Task : option TaskPtr;
  Mode : ScheduleMode;
  TargetNodeID : string;
  RequiredCapabilities : list string;
  RequiredSkills : list string;
  RequiredFeatures : list string;
  PreferredTags : gmap string string;
  ResourceRequirements : option ResourceRequirements.t;
  Hints : option ScheduleHints.t;
  RequestedAt : Time }.
End ScheduleRequest.

Module SkillInfo.
Record t := mk {
  ID : string;
  Name : string;
  Version : string;
  Capabilities : list string }.
End SkillInfo.

Module GolemProfile.
Record t := mk {
  NodeInfo : NodeInfo.t;
  Load : NodeLoadInfo.t;
  InstalledSkills : list SkillInfo.t;
  SupportedFeatures : list string;
  Tags : gmap string string;
  HealthScore : float;
  LastUpdated : Time }.
End GolemProfile.

(** The rejection reasons of [constraintChecker.check]. The code renders
    each with [fmt.Sprintf]; the embedding keeps the format's arguments, one
    constructor per format string. Every format has literal text, so a
    rendered reason is never the empty string: the empty string (accepted)
    is [None]. *)
Inductive Rejection :=
| NodeStatusNotOnline (status : string)
| MissingCapability (rc : string)
| MissingSkill (rs : string)
| MissingFeature (rf : string)
| InsufficientCPUCores (have need : Z)
| InsufficientMemory (have need : Z)
| InsufficientDisk (have need : Z)
| CPUUsageTooHigh (cpu limit : float)
| MemoryUsageTooHigh (mem limit : float)
| TooManyActiveTasks (active limit : Z).

Module NodeScore.
Record t := mk {
  NodeID : string;
  TotalScore : float;
  CapabilityScore : float;
  SkillScore : float;
  ResourceScore : float;
  LoadScore : float;
  TagScore : float;
  AffinityScore : float;
  Eligible : bool;
  RejectReason : option Rejection }.

Definition set_eligibility (e : bool) (r : option Rejection) (x : t) : t :=
  mk (NodeID x) (TotalScore x) (CapabilityScore x) (SkillScore x)
     (ResourceScore x) (LoadScore x) (TagScore x) (AffinityScore x) e r.
End NodeScore.

(** The [Reason] string of a decision, by the format that renders it. *)
Inductive DecisionReason :=
| ReasonDirect (target : string)
| ReasonAI (best : NodeScore.t) (eligibleCount : nat).

Module ScheduleDecision.
Record t := mk {
  RequestID : string;
  Mode : ScheduleMode;
  SelectedNodeID : string;
  Reason : DecisionReason;
  Scores : list NodeScore.t;
  CandidateCount : nat;
  EligibleCount : nat;
  DecidedAt : Time;
  Latency : Duration }.

Definition set_RequestID (r : string) (x : t) : t :=
  mk r (Mode x) (SelectedNodeID x) (Reason x) (Scores x)
     (CandidateCount x) (EligibleCount x) (DecidedAt x) (Latency x).
End ScheduleDecision.

Inductive TaskEventType :=
| EventTypeSubmitted
| EventTypeAssigned
| EventTypeProgress
| EventTypeCompleted
| EventTypeFailed
| EventTypeCancelled
| EventTypeTimedOut
| EventTypeRescheduled.

(** ** selector.go: constraintChecker *)

Module constraintChecker.

Definition capSet (profile : GolemProfile.t) : gset string :=
  list_to_set
    (Capability.Name <$> NodeInfo.Capabilities (GolemProfile.NodeInfo profile)).

Definition skillSet (profile : GolemProfile.t) : gset string :=
  list_to_set
    (flat_map (fun sk => [SkillInfo.ID sk; SkillInfo.Name sk])
              (GolemProfile.InstalledSkills profile)).

Definition featureSet (profile : GolemProfile.t) : gset string :=
  list_to_set (GolemProfile.SupportedFeatures profile).

(** The first entry of [required] that is not a key of [have]. *)
Definition firstMissing (required : list string) (have : gset string)
  : option string :=
  snd <$> list_find (fun r => r ∉ have) required.

Definition checkResources (rr : ResourceRequirements.t)
    (profile : GolemProfile.t) : option Rejection :=
  let info := NodeInfo.SystemInfo (GolemProfile.NodeInfo profile) in
  let load := GolemProfile.Load profile in
  if (0 <? ResourceRequirements.MinCPUCores rr)
     && (SystemInfo.CPUCores info <? ResourceRequirements.MinCPUCores rr)
  then Some (InsufficientCPUCores (SystemInfo.CPUCores info)
                                  (ResourceRequirements.MinCPUCores rr))
  else if (0 <? ResourceRequirements.MinMemoryMB rr)
     && (SystemInfo.MemoryMB info <? ResourceRequirements.MinMemoryMB rr)
  then Some (InsufficientMemory (SystemInfo.MemoryMB info)
                                (ResourceRequirements.MinMemoryMB rr))
  else if (0 <? ResourceRequirements.MinDiskFreeMB rr)
     && (SystemInfo.DiskFreeMB info <? ResourceRequirements.MinDiskFreeMB rr)
  then Some (InsufficientDisk (SystemInfo.DiskFreeMB info)
                              (ResourceRequirements.MinDiskFreeMB rr))
  else if (0 <? ResourceRequirements.MaxCPUPercent rr)%float
     && (ResourceRequirements.MaxCPUPercent rr
           <? NodeLoadInfo.CPUPercent load)%float
  then Some (CPUUsageTooHigh (NodeLoadInfo.CPUPercent load)
                             (ResourceRequirements.MaxCPUPercent rr))
  else if (0 <? ResourceRequirements.MaxMemoryPercent rr)%float
     && (ResourceRequirements.MaxMemoryPercent rr
           <? NodeLoadInfo.MemoryPercent load)%float
  then Some (MemoryUsageTooHigh (NodeLoadInfo.MemoryPercent load)
                                (ResourceRequirements.MaxMemoryPercent rr))
  else if (0 <? ResourceRequirements.MaxActiveTasks rr)
     && (ResourceRequirements.MaxActiveTasks rr
           <? NodeLoadInfo.ActiveTasks load)
  then Some (TooManyActiveTasks (NodeLoadInfo.ActiveTasks load)
                                (ResourceRequirements.MaxActiveTasks rr))
  else None.

(** [check] returns [None] (the empty string) if the node passes all
    constraints, or the rejection reason. The guards [len(...) > 0] of the
    code are the empty-list case of the loops they protect. *)
Definition check (req : ScheduleRequest.t) (profile : GolemProfile.t)
  : option Rejection :=
  let status := NodeInfo.Status (GolemProfile.NodeInfo profile) in
  (* 1. Node must be online. *)
  if negb (String.eqb status "online") then Some (NodeStatusNotOnline status)
  else
  (* 2. Required capabilities. *)
  match firstMissing (ScheduleRequest.RequiredCapabilities req)
                     (capSet profile) with
  | Some rc => Some (MissingCapability rc)
  | None =>
  (* 3. Required skills. *)
  match firstMissing (ScheduleRequest.RequiredSkills req)
                     (skillSet profile) with
  | Some rs => Some (MissingSkill rs)
  | None =>
  (* 4. Required features. *)
  match firstMissing (ScheduleRequest.RequiredFeatures req)
                     (featureSet profile) with
  | Some rf => Some (MissingFeature rf)
  | None =>
  (* 5. Resource requirements. *)
  match ScheduleRequest.ResourceRequirements req with
  | Some rr => checkResources rr profile
  | None => None
  end end end end.

End constraintChecker.

(** ** package sort: [sort.Slice]

    [sort.Slice] belongs to Go's standard library, not to the repository.
    It is transcribed here from the library's pattern-defeating quicksort
    (sort/zsortfunc.go, Go 1.19 and later) over a slice held as a list,
    with [lessE] the comparison the caller's closure makes between two
    elements. Loops that Go writes with [for] take fuel; each caller below
    supplies at least as much as the loop can use. *)

Module sort.
Section Slice.
Context {A : Type} (lessE : A -> A -> bool).

(** [less(i, j)] of the caller's closure: it reads the slice being
    sorted. *)
Definition Less (data : list A) (i j : nat) : bool :=
  match data !! i, data !! j with
  | Some x, Some y => lessE x y
  | _, _ => false
  end.

(** The swapper made by [reflectlite.Swapper]. An index out of range is a
    panic in Go; no caller below produces one. *)
Definition Swap (data : list A) (i j : nat) : list A :=
  match data !! i, data !! j with
  | Some x, Some y => <[i := y]> (<[j := x]> data)
  | _, _ => data
  end.

(** The inner loop of [insertionSort_func]:
    [for j := i; j > a && less(j, j-1); j-- { swap(j, j-1) }]. *)
Fixpoint insertionSort_inner (a : nat) (data : list A) (j : nat) : list A :=
  match j with
  | O => data
  | S j' =>
      if (a <? j)%nat && Less data j j'
      then insertionSort_inner a (Swap data j j') j'
      else data
  end.

Definition insertionSort_func (data : list A) (a b : nat) : list A :=
  foldl (insertionSort_inner a) data (seq (a + 1) (b - (a + 1))).

Fixpoint siftDown_loop (fuel : nat) (data : list A) (root hi first : nat)
  : list A :=
  match fuel with
  | O => data
  | S fuel' =>
      let child := (2 * root + 1)%nat in
      if (hi <=? child)%nat then data
      else
        let child :=
          if (child + 1 <? hi)%nat
             && Less data (first + child) (first + child + 1)
          then (child + 1)%nat else child in
        if negb (Less data (first + root) (first + child)) then data
        else siftDown_loop fuel' (Swap data (first + root) (first + child))
                           child hi first
  end.

Definition siftDown_func (data : list A) (lo hi first : nat) : list A :=
  siftDown_loop hi data lo hi first.

Definition heapSort_func (data : list A) (a b : nat) : list A :=
  let first := a in
  let lo := O in
  let hi := (b - a)%nat in
  (* Build heap with greatest element at top. *)
  let data :=
    foldl (fun d i => siftDown_func d i hi first) data
          (rev (seq 0 ((hi - 1) / 2 + 1))) in
  (* Pop elements, largest first, into end of data. *)
  foldl (fun d i => siftDown_func (Swap d first (first + i)) lo i first)
        data (rev (seq 0 hi)).

(** [for i <= j && less(i, a) { i++ }] *)
Fixpoint scanUpLess (fuel : nat) (data : list A) (a i j : nat) : nat :=
  match fuel with
  | O => i
  | S fuel' =>
      if (i <=? j)%nat && Less data i a
      then scanUpLess fuel' data a (S i) j else i
  end.

(** [for i <= j && !less(j, a) { j-- }] *)
Fixpoint scanDownNotLess (fuel : nat) (data : list A) (a i j : nat) : nat :=
  match fuel with
  | O => j
  | S fuel' =>
      if (i <=? j)%nat && negb (Less data j a)
      then scanDownNotLess fuel' data a i (j - 1) else j
  end.

Fixpoint partition_loop (fuel : nat) (data : list A) (a i j : nat)
  : list A * nat :=
  match fuel with
  | O => (data, j)
  | S fuel' =>
      let i := scanUpLess (length data) data a i j in
      let j := scanDownNotLess (length data) data a i j in
      if (j <? i)%nat then (data, j)
      else partition_loop fuel' (Swap data i j) a (i + 1) (j - 1)
  end.

(** [partition_func]: one quicksort partition around [data[pivot]];
    returns the slice, the pivot's new index and whether the range was
    already partitioned. *)
Definition partition_func (data : list A) (a b pivot : nat)
  : list A * nat * bool :=
  let data := Swap data a pivot in
  let i := (a + 1)%nat in
  let j := (b - 1)%nat in
  let i := scanUpLess (length data) data a i j in
  let j := scanDownNotLess (length data) data a i j in
  if (j <? i)%nat then (Swap data j a, j, true)
  else
    let data := Swap data i j in
    let '(data, j) := partition_loop (length data) data a (i + 1) (j - 1) in
    (Swap data j a, j, false).

(** [for i <= j && !less(a, i) { i++ }] *)
Fixpoint scanUpNotGreater (fuel : nat) (data : list A) (a i j : nat) : nat :=
  match fuel with
  | O => i
  | S fuel' =>
      if (i <=? j)%nat && negb (Less data a i)
      then scanUpNotGreater fuel' data a (S i) j else i
  end.

(** [for i <= j && less(a, j) { j-- }] *)
Fixpoint scanDownGreater (fuel : nat) (data : list A) (a i j : nat) : nat :=
  match fuel with
  | O => j
  | S fuel' =>
      if (i <=? j)%nat && Less data a j
      then scanDownGreater fuel' data a i (j - 1) else j
  end.

Fixpoint partitionEqual_loop (fuel : nat) (data : list A) (a i j : nat)
  : list A * nat :=
  match fuel with
  | O => (data, i)
  | S fuel' =>
      let i := scanUpNotGreater (length data) data a i j in
      let j := scanDownGreater (length data) data a i j in
      if (j <? i)%nat then (data, i)
      else partitionEqual_loop fuel' (Swap data i j) a (i + 1) (j - 1)
  end.

Definition partitionEqual_func (data : list A) (a b pivot : nat)
  : list A * nat :=
  let data := Swap data a pivot in
  partitionEqual_loop (length data) data a (a + 1) (b - 1).

(** [for i < b && !less(i, i-1) { i++ }] *)
Fixpoint scanSorted (fuel : nat) (data : list A) (i b : nat) : nat :=
  match fuel with
  | O => i
  | S fuel' =>
      if (i <? b)%nat && negb (Less data i (i - 1))
      then scanSorted fuel' data (S i) b else i
  end.

(** [for j := i - 1; j >= 1; j-- { if !less(j, j-1) { break }; swap(j, j-1) }] *)
Fixpoint shiftLeft (data : list A) (j : nat) : list A :=
  match j with
  | O => data
  | S j' =>
      if negb (Less data j j') then data
      else shiftLeft (Swap data j j') j'
  end.

(** [for j := i + 1; j < b; j++ { if !less(j, j-1) { break }; swap(j, j-1) }] *)
Fixpoint shiftRight (fuel : nat) (data : list A) (j b : nat) : list A :=
  match fuel with
  | O => data
  | S fuel' =>
      if (j <? b)%nat then
        if negb (Less data j (j - 1)) then data
        else shiftRight fuel' (Swap data j (j - 1)) (S j) b
      else data
  end.

(** The body of [partialInsertionSort_func], [steps] iterations left of
    its [maxSteps = 5]; [shortestShifting = 50]. *)
Fixpoint partialInsertionSort_loop (steps : nat) (data : list A)
    (a b i : nat) : list A * bool :=
  match steps with
  | O => (data, false)
  | S steps' =>
      let i := scanSorted (length data) data i b in
      if (i =? b)%nat then (data, true)
      else if (b - a <? 50)%nat then (data, false)
      else
        let data := Swap data i (i - 1) in
        let data := if (2 <=? i - a)%nat then shiftLeft data (i - 1)
                    else data in
        let data := if (2 <=? b - i)%nat
                    then shiftRight (length data) data (i + 1) b
                    else data in
        partialInsertionSort_loop steps' data a b i
  end.

Definition partialInsertionSort_func (data : list A) (a b : nat)
  : list A * bool :=
  partialInsertionSort_loop 5 data a b (a + 1).

(** [xorshift.Next] on a [uint64]. *)
Definition xorshift_Next (r : Z) : Z :=
  let r := Z.lxor r (Z.land (Z.shiftl r 13) (Z.ones 64)) in
  let r := Z.lxor r (Z.shiftr r 7) in
  Z.lxor r (Z.land (Z.shiftl r 17) (Z.ones 64)).

(** [bits.Len]: the number of bits needed to write [x]. *)
Definition bits_Len (x : Z) : Z := if x <=? 0 then 0 else Z.log2 x + 1.

Definition nextPowerOfTwo (length : Z) : Z := Z.shiftl 1 (bits_Len length).

Definition breakPatterns_func (data : list A) (a b : nat) : list A :=
  let length := (b - a)%nat in
  if (8 <=? length)%nat then
    let modulus := nextPowerOfTwo (Z.of_nat length) in
    let idx := (a + (length / 4) * 2 - 1)%nat in
    let step (st : list A * Z) (i : nat) : list A * Z :=
      let random := xorshift_Next (snd st) in
      let other := Z.to_nat (Z.land random (modulus - 1)) in
      let other := if (length <=? other)%nat then (other - length)%nat
                   else other in
      (Swap (fst st) (idx - 1 + i) (a + other), random) in
    fst (foldl step (data, Z.of_nat length) [0; 1; 2]%nat)
  else data.

Inductive sortedHint := unknownHint | increasingHint | decreasingHint.

(** [order2_func]: the pair ordered, and the count of swaps. *)
Definition order2_func (data : list A) (a b swaps : nat) : nat * nat * nat :=
  if Less data b a then (b, a, S swaps) else (a, b, swaps).

Definition median_func (data : list A) (a b c swaps : nat) : nat * nat :=
  let '(a, b, swaps) := order2_func data a b swaps in
  let '(b, c, swaps) := order2_func data b c swaps in
  let '(a, b, swaps) := order2_func data a b swaps in
  (b, swaps).

Definition medianAdjacent_func (data : list A) (a swaps : nat) : nat * nat :=
  median_func data (a - 1) a (a + 1) swaps.

(** [choosePivot_func]; [shortestNinther = 50], [maxSwaps = 4 * 3]. *)
Definition choosePivot_func (data : list A) (a b : nat) : nat * sortedHint :=
  let l := (b - a)%nat in
  let i := (a + l / 4 * 1)%nat in
  let j := (a + l / 4 * 2)%nat in
  let k := (a + l / 4 * 3)%nat in
  let '(j, swaps) :=
    if (8 <=? l)%nat then
      let '(i, j, k, swaps) :=
        if (50 <=? l)%nat then
          let '(i, swaps) := medianAdjacent_func data i 0 in
          let '(j, swaps) := medianAdjacent_func data j swaps in
          let '(k, swaps) := medianAdjacent_func data k swaps in
          (i, j, k, swaps)
        else (i, j, k, O) in
      median_func data i j k swaps
    else (j, O) in
  match swaps with
  | O => (j, increasingHint)
  | 12%nat => (j, decreasingHint)
  | _ => (j, unknownHint)
  end.

(** [for i < j { swap(i, j); i++; j-- }] from [i = a], [j = b - 1]. *)
Fixpoint reverseRange_loop (fuel : nat) (data : list A) (i j : nat) : list A :=
  match fuel with
  | O => data
  | S fuel' =>
      if (i <? j)%nat then reverseRange_loop fuel' (Swap data i j) (S i) (j - 1)
      else data
  end.

Definition reverseRange_func (data : list A) (a b : nat) : list A :=
  reverseRange_loop (length data) data a (b - 1).

Definition is_increasing (h : sortedHint) : bool :=
  match h with increasingHint => true | _ => false end.

(** [pdqsort_func]: one unit of [fuel] per turn of its loop and per
    recursive call; [maxInsertion = 12]. The recursive call starts with its
    own [wasBalanced] and [wasPartitioned], both true. *)
Fixpoint pdqsort_func (fuel : nat) (data : list A) (a b limit : nat)
    (wasBalanced wasPartitioned : bool) : list A :=
  match fuel with
  | O => data
  | S fuel' =>
      let length := (b - a)%nat in
      if (length <=? 12)%nat then insertionSort_func data a b
      else if (limit =? 0)%nat then heapSort_func data a b
      else
        let '(data, limit) :=
          if negb wasBalanced then (breakPatterns_func data a b, (limit - 1)%nat)
          else (data, limit) in
        let '(pivot, hint) := choosePivot_func data a b in
        let '(data, pivot, hint) :=
          match hint with
          | decreasingHint =>
              (reverseRange_func data a b, ((b - 1) - (pivot - a))%nat,
               increasingHint)
          | _ => (data, pivot, hint)
          end in
        let '(data, done) :=
          if wasBalanced && wasPartitioned && is_increasing hint
          then partialInsertionSort_func data a b
          else (data, false) in
        if done then data
        else if (0 <? a)%nat && negb (Less data (a - 1) pivot) then
          let '(data, mid) := partitionEqual_func data a b pivot in
          pdqsort_func fuel' data mid b limit wasBalanced wasPartitioned
        else
          let '(data, mid, alreadyPartitioned) :=
            partition_func data a b pivot in
          let wasPartitioned := alreadyPartitioned in
          let leftLen := (mid - a)%nat in
          let rightLen := (b - mid)%nat in
          let balanceThreshold := (length / 8)%nat in
          if (leftLen <? rightLen)%nat then
            let wasBalanced := (balanceThreshold <=? leftLen)%nat in
            let data := pdqsort_func fuel' data a mid limit true true in
            pdqsort_func fuel' data (mid + 1) b limit wasBalanced wasPartitioned
          else
            let wasBalanced := (balanceThreshold <=? rightLen)%nat in
            let data := pdqsort_func fuel' data (mid + 1) b limit true true in
            pdqsort_func fuel' data a mid limit wasBalanced wasPartitioned
  end.

(** [sort.Slice(x, less)]. Every turn of [pdqsort_func]'s loop and every
    recursive call works on a strictly shorter range, so [length + 1] units
    of fuel are never used up. *)
Definition Slice (data : list A) : list A :=
  let length := length data in
  let limit := Z.to_nat (bits_Len (Z.of_nat length)) in
  pdqsort_func (S length) data 0 length limit true true.

End Slice.
End sort.

(** ** Errors

    Every error the package builds with [fmt.Errorf], by its format string
    and the arguments it renders; [ErrExternal] stands for an error returned
    by the provider or the dispatcher. *)
Inductive SchedError :=
| ErrExternal (msg : string)
| ErrDirectEmptyTarget
| ErrTargetNotFound (target : string) (candidates : nat)
| ErrTargetRejected (target : string) (reason : Rejection)
| ErrAINoCandidates
| ErrNoEligible (candidates : nat)
| ErrNilTask
| ErrListProfiles (inner : SchedError)
| ErrNoNodes
| ErrUnknownMode (mode : ScheduleMode)
| ErrDispatch (taskID nodeID : string) (inner : SchedError)
| ErrQueued (inner : SchedError) (taskID : string)
| ErrTaskNotFound (taskID : string)
| ErrStalled (maxRetries : Z)
| ErrResult (msg : string).

Inductive Result (A : Type) :=
| Ok (a : A)
| Err (e : SchedError).
Arguments Ok {A} a.
Arguments Err {A} e.

(** ** selector.go: DirectSelector *)

Module DirectSelector.

Definition Name : string := "direct".

(** [Select] validates and selects the explicitly targeted node. *)
Definition Select (now : Time) (req : ScheduleRequest.t)
    (candidates : list GolemProfile.t) : Result ScheduleDecision.t :=
  if String.eqb (ScheduleRequest.TargetNodeID req) "" then
    Err ErrDirectEmptyTarget
  else
    (* Find the target among candidates. *)
    match list_find
            (fun c => NodeInfo.ID (GolemProfile.NodeInfo c)
                      = ScheduleRequest.TargetNodeID req) candidates with
    | None =>
        Err (ErrTargetNotFound (ScheduleRequest.TargetNodeID req)
                               (length candidates))
    | Some (_, target) =>
        (* Validate hard constraints. *)
        match constraintChecker.check req target with
        | Some reason =>
            Err (ErrTargetRejected (ScheduleRequest.TargetNodeID req) reason)
        | None =>
            Ok (ScheduleDecision.mk
                  "" DirectMode
                  (NodeInfo.ID (GolemProfile.NodeInfo target))
                  (ReasonDirect (ScheduleRequest.TargetNodeID req))
                  [] (length candidates) 1 now 0)
        end
    end.

End DirectSelector.

(** ** selector.go: AISelector *)

Module ScoringWeights.
Record t := mk {
  Capability : float;
  Skill : float;
  Resource : float;
  Load : float;
  Tag : float;
  Affinity : float }.
End ScoringWeights.

Definition DefaultScoringWeights : ScoringWeights.t :=
  ScoringWeights.mk 0.25 0.20 0.20 0.20 0.10 0.05.

Definition clamp (v lo hi : float) : float :=
  if (v <? lo)%float then lo
  else if (hi <? v)%float then hi
  else v.

Module AISelector.

Record t := mk { weights : ScoringWeights.t }.

Definition NewAISelector (weights : ScoringWeights.t) : t := mk weights.
Definition NewDefaultAISelector : t := NewAISelector DefaultScoringWeights.

Definition Name : string := "ai".

Section Scoring.
(** [math.Exp], of Go's standard library: binary64 has no exponential in
    Rocq's primitive floats, so the function is a parameter. *)
Variable math_Exp : float -> float.

(** The number of entries of [required] that are keys of [have], as the
    loop [for _, r := range required { if _, ok := have[r]; ok { matched++ } }]
    counts them. *)
Definition countMatched (required : list string) (have : gset string) : Z :=
  Z.of_nat (length (filter (fun r => r ∈ have) required)).

(** [scoreCapabilities] returns 1.0 if all required capabilities are
    present, otherwise the fraction of matched capabilities. *)
Definition scoreCapabilities (req : ScheduleRequest.t)
    (profile : GolemProfile.t) : float :=
  let required := ScheduleRequest.RequiredCapabilities req in
  if (length required =? 0)%nat then 1.0%float
  else (float_of_int (countMatched required (constraintChecker.capSet profile))
        / float_of_int (Z.of_nat (length required)))%float.

(** [scoreSkills] returns the fraction of required skills that are
    installed. *)
Definition scoreSkills (req : ScheduleRequest.t)
    (profile : GolemProfile.t) : float :=
  let required := ScheduleRequest.RequiredSkills req in
  if (length required =? 0)%nat then 1.0%float
  else (float_of_int (countMatched required (constraintChecker.skillSet profile))
        / float_of_int (Z.of_nat (length required)))%float.

(** [scoreResources] evaluates available system resources. *)
Definition scoreResources (req : ScheduleRequest.t)
    (profile : GolemProfile.t) : float :=
  let info := NodeInfo.SystemInfo (GolemProfile.NodeInfo profile) in
  let load := GolemProfile.Load profile in
  let cpuScore := (1.0 - clamp (NodeLoadInfo.CPUPercent load / 100.0) 0 1)%float in
  let memScore := (1.0 - clamp (NodeLoadInfo.MemoryPercent load / 100.0) 0 1)%float in
  let diskScore :=
    clamp (float_of_int (SystemInfo.DiskFreeMB info) / 10240.0)%float 0 1 in
  ((cpuScore + memScore + diskScore) / 3.0)%float.

(** [scoreLoad] evaluates how busy the node is. *)
Definition scoreLoad (profile : GolemProfile.t) : float :=
  let active := NodeLoadInfo.ActiveTasks (GolemProfile.Load profile) in
  let queued := NodeLoadInfo.QueuedTasks (GolemProfile.Load profile) in
  let total := int64_add active queued in
  if total =? 0 then 1.0%float
  else math_Exp (-0.3 * float_of_int total)%float.

(** [scoreTags] returns the fraction of preferred tags that match; a key
    absent from the profile's tags reads as the empty string. *)
Definition scoreTags (req : ScheduleRequest.t)
    (profile : GolemProfile.t) : float :=
  let preferred := ScheduleRequest.PreferredTags req in
  if (size preferred =? 0)%nat then 1.0%float
  else
    let matched :=
      length (filter (fun kv => default "" (GolemProfile.Tags profile !! fst kv)
                                = snd kv)
                     (map_to_list preferred)) in
    (float_of_int (Z.of_nat matched)
     / float_of_int (Z.of_nat (size preferred)))%float.

(** [scoreAffinity] returns a score based on affinity / anti-affinity
    hints. *)
Definition scoreAffinity (req : ScheduleRequest.t)
    (profile : GolemProfile.t) : float :=
  match ScheduleRequest.Hints req with
  | None => 0.5%float (* neutral *)
  | Some hints =>
      let nodeID := NodeInfo.ID (GolemProfile.NodeInfo profile) in
      (* Anti-affinity penalty. *)
      if existsb (fun anti => String.eqb anti nodeID)
                 (ScheduleHints.AntiAffinity hints)
      then 0.0%float
      (* Affinity bonus. *)
      else if negb (String.eqb (ScheduleHints.Affinity hints) "")
              && String.eqb (ScheduleHints.Affinity hints) nodeID
      then 1.0%float
      else 0.5%float
  end.

(** [score] computes the multi-dimensional score for a single candidate. *)
Definition score (s : t) (req : ScheduleRequest.t) (profile : GolemProfile.t)
  : NodeScore.t :=
  let capabilityScore := scoreCapabilities req profile in
  let skillScore := scoreSkills req profile in
  let resourceScore := scoreResources req profile in
  let loadScore := scoreLoad profile in
  let tagScore := scoreTags req profile in
  let affinityScore := scoreAffinity req profile in
  let w := weights s in
  (* Weighted aggregate. *)
  let totalScore :=
    (capabilityScore * ScoringWeights.Capability w
     + skillScore * ScoringWeights.Skill w
     + resourceScore * ScoringWeights.Resource w
     + loadScore * ScoringWeights.Load w
     + tagScore * ScoringWeights.Tag w
     + affinityScore * ScoringWeights.Affinity w)%float in
  NodeScore.mk (NodeInfo.ID (GolemProfile.NodeInfo profile)) totalScore
               capabilityScore skillScore resourceScore loadScore tagScore
               affinityScore false None.

(** The body of [Select]'s loop over the candidates: the score of one
    profile with its eligibility filled in. *)
Definition scoreCandidate (s : t) (req : ScheduleRequest.t)
    (profile : GolemProfile.t) : NodeScore.t :=
  let ns := score s req profile in
  (* Hard-constraint check. *)
  match constraintChecker.check req profile with
  | Some reason => NodeScore.set_eligibility false (Some reason) ns
  | None => NodeScore.set_eligibility true (NodeScore.RejectReason ns) ns
  end.

(** The comparison of [Select]'s [sort.Slice] closure:
    [eligible[i].TotalScore > eligible[j].TotalScore]. *)
Definition byTotalScoreDesc (x y : NodeScore.t) : bool :=
  (NodeScore.TotalScore y <? NodeScore.TotalScore x)%float.

(** [Select] evaluates all candidates and returns the highest-scoring
    eligible node. *)
Definition Select (s : t) (now : Time) (req : ScheduleRequest.t)
    (candidates : list GolemProfile.t) : Result ScheduleDecision.t :=
  if (length candidates =? 0)%nat then Err ErrAINoCandidates
  else
    let scores := scoreCandidate s req <$> candidates in
    let eligible := filter (fun ns => NodeScore.Eligible ns = true) scores in
    if (length eligible =? 0)%nat then Err (ErrNoEligible (length candidates))
    else
      (* Sort eligible nodes by TotalScore descending. *)
      let eligible := sort.Slice byTotalScoreDesc eligible in
      match eligible with
      | best :: _ =>
          Ok (ScheduleDecision.mk
                "" AIMode (NodeScore.NodeID best)
                (ReasonAI best (length eligible))
                scores (length candidates) (length eligible) now 0)
      | [] => (* not reached: [sort.Slice] keeps the length *)
          Err (ErrNoEligible (length candidates))
      end.

End Scoring.
End AISelector.

(** ** queue.go: the heap of pending requests *)

Module heapItem.
Record t := mk {
  request : ScheduleRequest.t;
  priority : Z; (* higher = more urgent *)
  seq : Z;      (* lower = inserted earlier (FIFO tiebreaker) *)
  index : Z     (* managed by container/heap *) }.

Definition set_index (i : Z) (x : t) : t :=
  mk (request x) (priority x) (seq x) i.
End heapItem.

(** [requestHeap] and its [heap.Interface] methods. *)
Module requestHeap.

Abbreviation t := (list heapItem.t).

Definition Len (h : t) : nat := length h.

(** [lessItem x y]: [x] should be dequeued before [y]. Higher priority
    first; on tie, earlier insertion first (FIFO). *)
Definition lessItem (x y : heapItem.t) : bool :=
  if negb (heapItem.priority x =? heapItem.priority y)
  then heapItem.priority y <? heapItem.priority x
  else heapItem.seq x <? heapItem.seq y.

(** [Less] returns true if item i should be dequeued before item j. An
    index out of range is a panic in Go; container/heap produces none. *)
Definition Less (h : t) (i j : nat) : bool :=
  match h !! i, h !! j with
  | Some x, Some y => lessItem x y
  | _, _ => false
  end.

Definition Swap (h : t) (i j : nat) : t :=
  match h !! i, h !! j with
  | Some x, Some y =>
      <[j := heapItem.set_index (Z.of_nat j) x]>
        (<[i := heapItem.set_index (Z.of_nat i) y]> h)
  | _, _ => h
  end.

Definition Push (h : t) (item : heapItem.t) : t :=
  h ++ [heapItem.set_index (Z.of_nat (length h)) item].

(** [Pop] removes the last item; [None] on an empty heap, where Go
    panics. *)
Definition Pop (h : t) : option (heapItem.t * t) :=
  match last h with
  | Some item => Some (heapItem.set_index (-1) item, removelast h)
  | None => None
  end.

End requestHeap.

(** ** package container/heap, over [requestHeap]

    Go's standard library, transcribed from container/heap/heap.go. *)
Module heap.

(** [up]: [for { i := (j - 1) / 2; if i == j || !h.Less(j, i) { break };
    h.Swap(i, j); j = i }]. Go's division truncates, so the parent of 0 is
    0, as with the truncated subtraction of [nat]. *)
Fixpoint up_loop (fuel : nat) (h : requestHeap.t) (j : nat) : requestHeap.t :=
  match fuel with
  | O => h
  | S fuel' =>
      let i := ((j - 1) / 2)%nat in (* parent *)
      if (i =? j)%nat || negb (requestHeap.Less h j i) then h
      else up_loop fuel' (requestHeap.Swap h i j) i
  end.

(** [j] halves on every turn, so [j + 1] turns are never used up. *)
Definition up (h : requestHeap.t) (j : nat) : requestHeap.t :=
  up_loop (S j) h j.

Fixpoint down_loop (fuel : nat) (h : requestHeap.t) (i n : nat)
  : requestHeap.t * nat :=
  match fuel with
  | O => (h, i)
  | S fuel' =>
      let j1 := (2 * i + 1)%nat in
      if (n <=? j1)%nat then (h, i)
      else
        let j := (* left child, or the right one when it is less *)
          if (j1 + 1 <? n)%nat && requestHeap.Less h (j1 + 1) j1
          then (j1 + 1)%nat else j1 in
        if negb (requestHeap.Less h j i) then (h, i)
        else down_loop fuel' (requestHeap.Swap h i j) j n
  end.

(** [down] returns the heap and whether the item moved ([i > i0]); [i]
    grows on every turn and stays below [n]. *)
Definition down (h : requestHeap.t) (i0 n : nat) : requestHeap.t * bool :=
  let '(h, i) := down_loop n h i0 n in
  (h, (i0 <? i)%nat).

(** [Init]: [for i := n/2 - 1; i >= 0; i-- { down(h, i, n) }]. *)
Definition Init (h : requestHeap.t) : requestHeap.t :=
  let n := requestHeap.Len h in
  foldl (fun h i => fst (down h i n)) h (rev (seq 0 (n / 2))).

Definition Push (h : requestHeap.t) (x : heapItem.t) : requestHeap.t :=
  let h := requestHeap.Push h x in
  up h (requestHeap.Len h - 1).

Definition Pop (h : requestHeap.t) : option (heapItem.t * requestHeap.t) :=
  let n := (requestHeap.Len h - 1)%nat in
  let h := requestHeap.Swap h 0 n in
  let '(h, _) := down h 0 n in
  requestHeap.Pop h.

Definition Remove (h : requestHeap.t) (i : nat)
  : option (heapItem.t * requestHeap.t) :=
  let n := (requestHeap.Len h - 1)%nat in
  let h :=
    if negb (n =? i)%nat then
      let h := requestHeap.Swap h i n in
      let '(h', moved) := down h i n in
      if negb moved then up h' i else h'
    else h in
  requestHeap.Pop h.

End heap.

(** ** queue.go: PriorityQueue *)

Definition taskPriorityToInt (p : Z) : Z := p.

(** The store of task objects, by address. *)
Abbreviation TaskStore := (gmap TaskPtr Task.t).

(** [*p] for a task pointer. A nil or dangling pointer is a panic in Go;
    the scheduler dereferences a request's task only after [Schedule] has
    checked it, and here such a read gives the zero task. *)
Definition zeroTask : Task.t :=
  Task.mk "" 0 0 "" TaskStatusPending None None.

Definition deref (mem : TaskStore) (p : option TaskPtr) : Task.t :=
  default zeroTask (p ≫= fun a => mem !! a).

Module PriorityQueue.

Record t := mk {
  heap : requestHeap.t;
  seq : Z (* monotonically increasing insertion counter for FIFO tiebreaking *) }.

Definition NewPriorityQueue : t := mk (heap.Init []) 0.

(** [Enqueue] adds a request to the queue; it never fails. *)
Definition Enqueue (mem : TaskStore) (q : t) (req : ScheduleRequest.t) : t :=
  let seq' := int64_add (seq q) 1 in
  let item :=
    heapItem.mk req
      (taskPriorityToInt (Task.Priority (deref mem (ScheduleRequest.Task req))))
      seq' 0 in
  mk (heap.Push (heap q) item) seq'.

(** The popped heap item of [Dequeue], when the queue is not empty. *)
Definition DequeueItem (q : t) : option heapItem.t * t :=
  if (requestHeap.Len (heap q) =? 0)%nat then (None, q)
  else
    match heap.Pop (heap q) with
    | Some (item, h) => (Some item, mk h (seq q))
    | None => (None, q)
    end.

(** [Dequeue] removes and returns the highest-priority request. *)
Definition Dequeue (q : t) : option ScheduleRequest.t * t :=
  let '(item, q) := DequeueItem q in
  (heapItem.request <$> item, q).

(** [Peek] returns the highest-priority request without removing it. *)
Definition Peek (q : t) : option ScheduleRequest.t :=
  heapItem.request <$> heap q !! 0%nat.

Definition Len (q : t) : nat := requestHeap.Len (heap q).

(** [Remove] removes a request by task ID: the first item, in slice order,
    whose task has that ID. *)
Definition Remove (mem : TaskStore) (q : t) (taskID : string) : bool * t :=
  match list_find
          (fun item =>
             Task.ID (deref mem (ScheduleRequest.Task (heapItem.request item)))
             = taskID) (heap q) with
  | Some (i, _) =>
      match heap.Remove (heap q) i with
      | Some (_, h) => (true, mk h (seq q))
      | None => (true, q)
      end
  | None => (false, q)
  end.

(** [Drain] returns all queued requests in priority order and empties the
    queue. Each turn of its loop pops one item. *)
Fixpoint Drain_loop (fuel : nat) (h : requestHeap.t)
    (result : list ScheduleRequest.t) : list ScheduleRequest.t * requestHeap.t :=
  match fuel with
  | O => (result, h)
  | S fuel' =>
      if (0 <? requestHeap.Len h)%nat then
        match heap.Pop h with
        | Some (item, h) => Drain_loop fuel' h (result ++ [heapItem.request item])
        | None => (result, h)
        end
      else (result, h)
  end.

Definition Drain (q : t) : list ScheduleRequest.t * t :=
  let '(result, h) := Drain_loop (requestHeap.Len (heap q)) (heap q) [] in
  (result, mk h (seq q)).

End PriorityQueue.

(** [p.f = v] through a task pointer: the object at the address changes
    for every holder of the pointer. *)
Definition updateTask (p : option TaskPtr) (f : Task.t -> Task.t)
    (mem : TaskStore) : TaskStore :=
  match p with
  | Some a => alter f a mem
  | None => mem
  end.

(** ** monitor.go: the task monitor *)

Module MonitorConfig.
Record t := mk {
  PollInterval : Duration;
  StallThreshold : Duration;
  DefaultTimeout : Duration }.
End MonitorConfig.

Definition second : Duration := 1000000000.
Definition minute : Duration := 60 * second.
Definition millisecond : Duration := 1000000.

Definition DefaultMonitorConfig : MonitorConfig.t :=
  MonitorConfig.mk (10 * second) (60 * second) (5 * minute).

Module watchedTask.
Record t := mk {
  task : option TaskPtr;
  startedAt : Time;
  lastHeartbeat : Time;
  timeout : Duration }.

Definition set_lastHeartbeat (h : Time) (x : t) : t :=
  mk (task x) (startedAt x) h (timeout x).
End watchedTask.

(** One entry of the snapshot [checkTasks] takes of the watched map. *)
Module check.
Record t := mk { id : string; timeout : bool; stalled : bool }.
End check.

Module taskMonitor.

Record t := mk {
  config : MonitorConfig.t;
  watched : gmap string watchedTask.t }.

Definition NewMonitor (config : MonitorConfig.t) : t := mk config ∅.

(** [Watch] begins monitoring a task. *)
Definition Watch (mem : TaskStore) (now : Time) (m : t)
    (task : option TaskPtr) : t :=
  let timeout := Task.Timeout (deref mem task) in
  let timeout :=
    if timeout =? 0 then MonitorConfig.DefaultTimeout (config m)
    else timeout in
  mk (config m)
     (<[Task.ID (deref mem task) := watchedTask.mk task now now timeout]>
        (watched m)).

(** [Unwatch] stops monitoring a task. *)
Definition Unwatch (m : t) (taskID : string) : t :=
  mk (config m) (delete taskID (watched m)).

(** [RecordHeartbeat] resets the stall timer for a task. *)
Definition RecordHeartbeat (now : Time) (m : t) (taskID : string) : t :=
  mk (config m) (alter (watchedTask.set_lastHeartbeat now) taskID (watched m)).

(** [ActiveTasks] returns the IDs of all currently monitored tasks, in the
    order the map is ranged over. *)
Definition ActiveTasks (m : t) : list string :=
  fst <$> map_to_list (watched m).

(** The first half of [checkTasks]: the snapshot taken under the read
    lock. Go ranges over the map in an unspecified order; the entries come
    in the order of [map_to_list]. *)
Definition snapshot (now : Time) (m : t) : list check.t :=
  omap (fun kv : string * watchedTask.t =>
          let '(id, wt) := kv in
          let timeout :=
            watchedTask.timeout wt
              <? Time_Sub now (watchedTask.startedAt wt) in
          let stalled :=
            MonitorConfig.StallThreshold (config m)
              <? Time_Sub now (watchedTask.lastHeartbeat wt) in
          if timeout || stalled then Some (check.mk id timeout stalled)
          else None)
       (map_to_list (watched m)).

Section Handler.
(** The monitor inside the state [S] of the program that owns it, and the
    [MonitorEventHandler] it was built with. *)
Context {S : Type}.
Variable monitorOf : S -> t.
Variable setMonitor : t -> S -> S.
Variable OnTaskTimeout : string -> S -> S.
Variable OnTaskStalled : string -> S -> S.

(** The second half of [checkTasks]: fire events outside the lock. *)
Definition fire (s : S) (c : check.t) : S :=
  if check.timeout c then
    let s := OnTaskTimeout (check.id c) s in
    (* Remove timed-out tasks from watch list. *)
    setMonitor (Unwatch (monitorOf s) (check.id c)) s
  else if check.stalled c then OnTaskStalled (check.id c) s
  else s.

(** [checkTasks] inspects all watched tasks and fires events for timeouts
    and stalls. *)
Definition checkTasks (now : Time) (s : S) : S :=
  foldl fire s (snapshot now (monitorOf s)).

End Handler.
End taskMonitor.

(** A handler that only records the calls it receives, and the monitor
    under it. *)
Inductive HandlerCall :=
| CallOnTaskTimeout (taskID : string)
| CallOnTaskStalled (taskID : string).

#[global] Instance HandlerCall_eq_dec : EqDecision HandlerCall.
Proof. solve_decision. Defined.

Module recordingHandler.

Definition t : Type := taskMonitor.t * list HandlerCall.

Definition OnTaskTimeout (taskID : string) (s : t) : t :=
  (fst s, snd s ++ [CallOnTaskTimeout taskID]).

Definition OnTaskStalled (taskID : string) (s : t) : t :=
  (fst s, snd s ++ [CallOnTaskStalled taskID]).

Definition checkTasks (now : Time) (m : taskMonitor.t)
  : taskMonitor.t * list HandlerCall :=
  taskMonitor.checkTasks fst (fun m s => (m, snd s))
                         OnTaskTimeout OnTaskStalled now (m, []).

End recordingHandler.

(** ** monitor.go: the statistics collector *)

Module NodeSchedulerStats.
Record t := mk {
  NodeID : string;
  TasksAssigned : Z;
  TasksCompleted : Z;
  TasksFailed : Z;
  AverageExecutionTime : Duration;
  LastAssignedAt : Time }.
End NodeSchedulerStats.

Module SchedulerStats.
Record t := mk {
  TotalSubmitted : Z;
  TotalCompleted : Z;
  TotalFailed : Z;
  TotalCancelled : Z;
  TotalTimedOut : Z;
  NodeStats : gmap string NodeSchedulerStats.t }.
End SchedulerStats.

(** [averageDuration]: the mean of the samples, 0 for none. The sum is an
    int64 and wraps around; Go's integer division truncates toward zero. *)
Definition averageDuration (samples : list Duration) : Duration :=
  if (length samples =? 0)%nat then 0
  else Z.quot (foldl int64_add 0 samples) (Z.of_nat (length samples)).

(** The [SchedulerStats] value that [Snapshot] returns: the counters and
    node statistics the collector keeps ([SchedulerStats.t] above) and the
    fields that only [Snapshot] fills in. *)
Module StatsSnapshot.
Record t := mk {
  TotalSubmitted : Z;
  TotalCompleted : Z;
  TotalFailed : Z;
  TotalCancelled : Z;
  TotalTimedOut : Z;
  CurrentQueued : Z;
  CurrentRunning : Z;
  AverageLatency : Duration;
  AverageExecutionTime : Duration;
  NodeStats : gmap string NodeSchedulerStats.t;
  CollectedAt : Time }.
End StatsSnapshot.

Module StatsCollector.

Record t := mk {
  stats : SchedulerStats.t;
  running : gmap string Time; (* taskID -> assignedAt *)
  latencySamples : list Duration;
  executionSamples : list Duration;
  maxSampleCount : nat }.

Definition NewStatsCollector : t :=
  mk (SchedulerStats.mk 0 0 0 0 0 ∅) ∅ [] [] 1000.

Definition getOrCreateNodeStats (c : t) (nodeID : string)
  : NodeSchedulerStats.t :=
  default (NodeSchedulerStats.mk nodeID 0 0 0 0 0)
          (SchedulerStats.NodeStats (stats c) !! nodeID).

Definition setNodeStats (nodeID : string) (ns : NodeSchedulerStats.t)
    (st : SchedulerStats.t) : SchedulerStats.t :=
  SchedulerStats.mk
    (SchedulerStats.TotalSubmitted st) (SchedulerStats.TotalCompleted st)
    (SchedulerStats.TotalFailed st) (SchedulerStats.TotalCancelled st)
    (SchedulerStats.TotalTimedOut st)
    (<[nodeID := ns]> (SchedulerStats.NodeStats st)).

(** [samples = append(samples, x)], dropping the oldest past the cap. *)
Definition addSample (cap : nat) (samples : list Duration) (x : Duration)
  : list Duration :=
  let samples := samples ++ [x] in
  if (cap <? length samples)%nat then drop 1 samples else samples.

Definition RecordSubmission (c : t) : t :=
  let st := stats c in
  mk (SchedulerStats.mk
        (int64_add (SchedulerStats.TotalSubmitted st) 1)
        (SchedulerStats.TotalCompleted st) (SchedulerStats.TotalFailed st)
        (SchedulerStats.TotalCancelled st) (SchedulerStats.TotalTimedOut st)
        (SchedulerStats.NodeStats st))
     (running c) (latencySamples c) (executionSamples c) (maxSampleCount c).

Definition RecordAssignment (now : Time) (c : t) (taskID nodeID : string)
    (latency : Duration) : t :=
  let ns := getOrCreateNodeStats c nodeID in
  let ns :=
    NodeSchedulerStats.mk
      (NodeSchedulerStats.NodeID ns)
      (int64_add (NodeSchedulerStats.TasksAssigned ns) 1)
      (NodeSchedulerStats.TasksCompleted ns)
      (NodeSchedulerStats.TasksFailed ns)
      (NodeSchedulerStats.AverageExecutionTime ns) now in
  mk (setNodeStats nodeID ns (stats c))
     (<[taskID := now]> (running c))
     (addSample (maxSampleCount c) (latencySamples c) latency)
     (executionSamples c) (maxSampleCount c).

Definition RecordCompletion (now : Time) (c : t) (taskID nodeID : string) : t :=
  let st := stats c in
  let st :=
    SchedulerStats.mk
      (SchedulerStats.TotalSubmitted st)
      (int64_add (SchedulerStats.TotalCompleted st) 1)
      (SchedulerStats.TotalFailed st) (SchedulerStats.TotalCancelled st)
      (SchedulerStats.TotalTimedOut st) (SchedulerStats.NodeStats st) in
  let c := mk st (running c) (latencySamples c) (executionSamples c)
              (maxSampleCount c) in
  match running c !! taskID with
  | Some assignedAt =>
      let execTime := Time_Sub now assignedAt in
      let st :=
        if negb (String.eqb nodeID "") then
          let ns := getOrCreateNodeStats c nodeID in
          setNodeStats nodeID
            (NodeSchedulerStats.mk
               (NodeSchedulerStats.NodeID ns)
               (NodeSchedulerStats.TasksAssigned ns)
               (int64_add (NodeSchedulerStats.TasksCompleted ns) 1)
               (NodeSchedulerStats.TasksFailed ns)
               (NodeSchedulerStats.AverageExecutionTime ns)
               (NodeSchedulerStats.LastAssignedAt ns)) st
        else st in
      mk st (delete taskID (running c)) (latencySamples c)
         (addSample (maxSampleCount c) (executionSamples c) execTime)
         (maxSampleCount c)
  | None => c
  end.

Definition RecordFailure (c : t) (taskID nodeID : string) : t :=
  let st := stats c in
  let st :=
    SchedulerStats.mk
      (SchedulerStats.TotalSubmitted st) (SchedulerStats.TotalCompleted st)
      (int64_add (SchedulerStats.TotalFailed st) 1)
      (SchedulerStats.TotalCancelled st) (SchedulerStats.TotalTimedOut st)
      (SchedulerStats.NodeStats st) in
  let c := mk st (delete taskID (running c)) (latencySamples c)
              (executionSamples c) (maxSampleCount c) in
  if negb (String.eqb nodeID "") then
    let ns := getOrCreateNodeStats c nodeID in
    mk (setNodeStats nodeID
          (NodeSchedulerStats.mk
             (NodeSchedulerStats.NodeID ns)
             (NodeSchedulerStats.TasksAssigned ns)
             (NodeSchedulerStats.TasksCompleted ns)
             (int64_add (NodeSchedulerStats.TasksFailed ns) 1)
             (NodeSchedulerStats.AverageExecutionTime ns)
             (NodeSchedulerStats.LastAssignedAt ns)) (stats c))
       (running c) (latencySamples c) (executionSamples c) (maxSampleCount c)
  else c.

(** [RecordCancellation] records a task cancellation. *)
Definition RecordCancellation (c : t) (taskID : string) : t :=
  let st := stats c in
  mk (SchedulerStats.mk
        (SchedulerStats.TotalSubmitted st) (SchedulerStats.TotalCompleted st)
        (SchedulerStats.TotalFailed st)
        (int64_add (SchedulerStats.TotalCancelled st) 1)
        (SchedulerStats.TotalTimedOut st) (SchedulerStats.NodeStats st))
     (delete taskID (running c)) (latencySamples c) (executionSamples c)
     (maxSampleCount c).

(** [RecordTimeout] records a task timeout. *)
Definition RecordTimeout (c : t) (taskID : string) : t :=
  let st := stats c in
  mk (SchedulerStats.mk
        (SchedulerStats.TotalSubmitted st) (SchedulerStats.TotalCompleted st)
        (SchedulerStats.TotalFailed st) (SchedulerStats.TotalCancelled st)
        (int64_add (SchedulerStats.TotalTimedOut st) 1)
        (SchedulerStats.NodeStats st))
     (delete taskID (running c)) (latencySamples c) (executionSamples c)
     (maxSampleCount c).

(** [Snapshot] returns a copy of the current statistics. *)
Definition Snapshot (now : Time) (c : t) (queueLen : Z) : StatsSnapshot.t :=
  let st := stats c in
  StatsSnapshot.mk
    (SchedulerStats.TotalSubmitted st) (SchedulerStats.TotalCompleted st)
    (SchedulerStats.TotalFailed st) (SchedulerStats.TotalCancelled st)
    (SchedulerStats.TotalTimedOut st)
    queueLen (Z.of_nat (size (running c)))
    (averageDuration (latencySamples c))
    (averageDuration (executionSamples c))
    (SchedulerStats.NodeStats st) now.

End StatsCollector.

(** ** task.go: lifecycle events *)

Module TaskEvent.
Record t := mk {
  Type_ : TaskEventType;
  Task : option TaskPtr;
  Decision : option ScheduleDecision.t;
  NodeID : string;
  Progress : option TaskProgress.t;
  Result : option TaskResult.t;
  Error : option SchedError;
  Timestamp : Time }.
End TaskEvent.

(** ** The scheduler facade *)

Module SchedulerConfig.
Record t := mk {
  DispatchConcurrency : Z;
  ScheduleLoopInterval : Duration;
  MaxRetries : Z;
  DefaultScoringWeights : ScoringWeights.t;
  MonitorConfig : MonitorConfig.t }.
End SchedulerConfig.

Definition DefaultSchedulerConfig : SchedulerConfig.t :=
  SchedulerConfig.mk 8 (500 * millisecond) 3 DefaultScoringWeights
                     DefaultMonitorConfig.

Module taskRecord.
Record t := mk {
  task : option TaskPtr;
  decision : option ScheduleDecision.t;
  request : option ScheduleRequest.t;
  retries : Z }.
End taskRecord.

(** What the two collaborators answer during one call of the scheduler:
    [ProfileProvider.ListProfiles] and [TaskDispatcher.Dispatch] ([None] is
    a nil error). *)
Module Env.
Record t := mk {
  now : Time;
  ListProfiles : Result (list GolemProfile.t);
  Dispatch : string -> option TaskPtr -> option SchedError }.
End Env.

Module defaultScheduler.

(** The scheduler's fields, the store of the task objects it holds
    pointers to, and the events handed to the listeners so far.
    [emitEvent] calls every subscribed listener with the event, in order;
    [emitted] is the sequence of events so delivered. *)
Record t := mk {
  config : SchedulerConfig.t;
  queue : PriorityQueue.t;
  aiSel : AISelector.t;
  monitor : taskMonitor.t;
  stats : StatsCollector.t;
  tasks : gmap string taskRecord.t;
  mem : TaskStore;
  emitted : list TaskEvent.t }.

Definition set_queue (q : PriorityQueue.t) (s : t) : t :=
  mk (config s) q (aiSel s) (monitor s) (stats s) (tasks s) (mem s) (emitted s).
Definition set_monitor (m : taskMonitor.t) (s : t) : t :=
  mk (config s) (queue s) (aiSel s) m (stats s) (tasks s) (mem s) (emitted s).
Definition set_stats (c : StatsCollector.t) (s : t) : t :=
  mk (config s) (queue s) (aiSel s) (monitor s) c (tasks s) (mem s) (emitted s).
Definition set_tasks (ts : gmap string taskRecord.t) (s : t) : t :=
  mk (config s) (queue s) (aiSel s) (monitor s) (stats s) ts (mem s) (emitted s).
Definition set_mem (m : TaskStore) (s : t) : t :=
  mk (config s) (queue s) (aiSel s) (monitor s) (stats s) (tasks s) m (emitted s).

(** [CompletedSchedulerConfig.New], over a store of task objects. *)
Definition New (config : SchedulerConfig.t) (mem : TaskStore) : t :=
  mk config PriorityQueue.NewPriorityQueue AISelector.NewDefaultAISelector
     (taskMonitor.NewMonitor (SchedulerConfig.MonitorConfig config))
     StatsCollector.NewStatsCollector ∅ mem [].

Definition emitEvent (event : TaskEvent.t) (s : t) : t :=
  mk (config s) (queue s) (aiSel s) (monitor s) (stats s) (tasks s) (mem s)
     (emitted s ++ [event]).

Definition getTask (s : t) (taskID : string) : option TaskPtr :=
  match tasks s !! taskID with
  | Some rec => taskRecord.task rec
  | None => None
  end.

(** [if rec, ok := s.tasks[taskID]; ok { rec.task.Status = status }] *)
Definition setStatus (taskID : string) (status : TaskStatus) (s : t) : t :=
  match tasks s !! taskID with
  | Some rec =>
      set_mem (updateTask (taskRecord.task rec) (Task.set_Status status) (mem s)) s
  | None => s
  end.

Section Scheduler.
Variable math_Exp : float -> float.

(** [tryDispatch] attempts to immediately select a node and dispatch the
    task. *)
Definition tryDispatch (env : Env.t) (s : t) (req : ScheduleRequest.t)
  : Result ScheduleDecision.t * t :=
  (* Gather candidate profiles. *)
  match Env.ListProfiles env with
  | Err err => (Err (ErrListProfiles err), s)
  | Ok candidates =>
  if (length candidates =? 0)%nat then (Err ErrNoNodes, s)
  else
  (* Choose selector based on mode, and select the best node. *)
  let selected :=
    if String.eqb (ScheduleRequest.Mode req) DirectMode then
      DirectSelector.Select (Env.now env) req candidates
    else if String.eqb (ScheduleRequest.Mode req) AIMode then
      AISelector.Select math_Exp (aiSel s) (Env.now env) req candidates
    else Err (ErrUnknownMode (ScheduleRequest.Mode req)) in
  match selected with
  | Err err => (Err err, s)
  | Ok decision =>
  (* Assign the task to the selected node. *)
  let task := ScheduleRequest.Task req in
  let nodeID := ScheduleDecision.SelectedNodeID decision in
  let s :=
    set_mem
      (updateTask task
         (fun x =>
            Task.set_StartedAt (Some (Env.now env))
              (Task.set_Status TaskStatusAssigned
                 (Task.set_AssignedNodeID nodeID x)))
         (mem s)) s in
  let taskID := Task.ID (deref (mem s) task) in
  let decision := ScheduleDecision.set_RequestID taskID decision in
  (* Record in task map. *)
  let s :=
    set_tasks
      (<[taskID := taskRecord.mk task (Some decision) (Some req) 0]> (tasks s))
      s in
  (* Dispatch to the Golem node. *)
  match Env.Dispatch env nodeID task with
  | Some err => (Err (ErrDispatch taskID nodeID err), s)
  | None =>
  (* Record assignment stats. *)
  let s :=
    set_stats
      (StatsCollector.RecordAssignment (Env.now env) (stats s) taskID nodeID
         (ScheduleDecision.Latency decision)) s in
  (* Start monitoring. *)
  let s := set_monitor (taskMonitor.Watch (mem s) (Env.now env) (monitor s) task) s in
  (* Emit event. *)
  let s :=
    emitEvent
      (TaskEvent.mk EventTypeAssigned task (Some decision) nodeID None None
                    None (Env.now env)) s in
  (Ok decision, s)
  end end end.

(** [Schedule] enqueues a scheduling request and attempts immediate
    dispatch. *)
Definition Schedule (env : Env.t) (s : t) (req : ScheduleRequest.t)
  : Result ScheduleDecision.t * t :=
  match ScheduleRequest.Task req with
  | None => (Err ErrNilTask, s)
  | Some _ =>
      (* Record submission. *)
      let s := set_stats (StatsCollector.RecordSubmission (stats s)) s in
      (* Try immediate dispatch. *)
      match tryDispatch env s req with
      | (Ok decision, s) => (Ok decision, s)
      | (Err err, s) =>
          (* If immediate dispatch fails, enqueue for background
             processing. *)
          let s := set_queue (PriorityQueue.Enqueue (mem s) (queue s) req) s in
          let s :=
            emitEvent
              (TaskEvent.mk EventTypeSubmitted (ScheduleRequest.Task req)
                            None "" None None None (Env.now env)) s in
          (Err (ErrQueued err
                  (Task.ID (deref (mem s) (ScheduleRequest.Task req)))), s)
      end
  end.

(** [Cancel] aborts a pending or running task. Its error is always nil
    ([None]). *)
Definition Cancel (now : Time) (s : t) (taskID : string)
  : option SchedError * t :=
  (* Try to remove from queue first. *)
  let '(removed, q) := PriorityQueue.Remove (mem s) (queue s) taskID in
  if removed then
    let s := set_queue q s in
    let s := set_stats (StatsCollector.RecordCancellation (stats s) taskID) s in
    let s := setStatus taskID TaskStatusCancelled s in
    let s :=
      emitEvent
        (TaskEvent.mk EventTypeCancelled (getTask s taskID) None "" None None
                      None now) s in
    (None, s)
  else
    (* Task might be running: unwatch it. *)
    let s := set_monitor (taskMonitor.Unwatch (monitor s) taskID) s in
    let s := set_stats (StatsCollector.RecordCancellation (stats s) taskID) s in
    let s := setStatus taskID TaskStatusCancelled s in
    let s :=
      emitEvent
        (TaskEvent.mk EventTypeCancelled (getTask s taskID) None "" None None
                      None now) s in
    (None, s).

(** [Status] returns the current state of a task. *)
Definition Status (s : t) (taskID : string) : Result (option TaskPtr) :=
  match tasks s !! taskID with
  | Some rec => Ok (taskRecord.task rec)
  | None => Err (ErrTaskNotFound taskID)
  end.

(** [OnTaskTimeout] handles task timeout events from the monitor. *)
Definition OnTaskTimeout (now : Time) (taskID : string) (s : t) : t :=
  let s := set_stats (StatsCollector.RecordTimeout (stats s) taskID) s in
  let s := setStatus taskID TaskStatusTimedOut s in
  emitEvent
    (TaskEvent.mk EventTypeTimedOut (getTask s taskID) None "" None None None
                  now) s.

(** [OnTaskStalled] handles task stall events from the monitor. *)
Definition OnTaskStalled (now : Time) (taskID : string) (s : t) : t :=
  match tasks s !! taskID with
  | None => s
  | Some rec =>
      (* Attempt rescheduling if retries remain:
         [rec.retries < s.config.MaxRetries && rec.request != nil]. *)
      match (if taskRecord.retries rec <? SchedulerConfig.MaxRetries (config s)
             then taskRecord.request rec else None) with
      | Some req =>
          let rec' :=
            taskRecord.mk (taskRecord.task rec) (taskRecord.decision rec)
                          (taskRecord.request rec)
                          (int64_add (taskRecord.retries rec) 1) in
          let s := set_tasks (<[taskID := rec']> (tasks s)) s in
          (* Re-enqueue. *)
          let s := set_queue (PriorityQueue.Enqueue (mem s) (queue s) req) s in
          emitEvent
            (TaskEvent.mk EventTypeRescheduled (taskRecord.task rec) None ""
                          None None None now) s
      | None =>
          (* Max retries exceeded: mark as failed. *)
          let s := set_stats (StatsCollector.RecordFailure (stats s) taskID "") s in
          emitEvent
            (TaskEvent.mk EventTypeFailed (getTask s taskID) None "" None None
                          (Some (ErrStalled
                                   (SchedulerConfig.MaxRetries (config s))))
                          now) s
      end
  end.

(** One tick of the monitor's poll loop, with the scheduler as the
    monitor's handler. *)
Definition monitorTick (now : Time) (s : t) : t :=
  taskMonitor.checkTasks monitor set_monitor (OnTaskTimeout now)
                         (OnTaskStalled now) now s.

(** [processQueue] attempts to dispatch all pending requests in the queue;
    every turn of its loop but the last removes one request. *)
Fixpoint processQueue_loop (fuel : nat) (env : Env.t) (s : t) : t :=
  match fuel with
  | O => s
  | S fuel' =>
      match PriorityQueue.Peek (queue s) with
      | None => s
      | Some req =>
          match tryDispatch env s req with
          | (Err _, s) =>
              (* Cannot dispatch right now: leave in queue and retry
                 later. *)
              s
          | (Ok _, s) =>
              (* Successfully dispatched: remove from queue. *)
              let s := set_queue (snd (PriorityQueue.Dequeue (queue s))) s in
              processQueue_loop fuel' env s
          end
      end
  end.

Definition processQueue (env : Env.t) (s : t) : t :=
  processQueue_loop (S (PriorityQueue.Len (queue s))) env s.

(** [ReportProgress] records incremental progress from a running task. *)
Definition ReportProgress (now : Time) (s : t) (progress : TaskProgress.t) : t :=
  let s :=
    set_monitor
      (taskMonitor.RecordHeartbeat now (monitor s) (TaskProgress.TaskID progress))
      s in
  emitEvent
    (TaskEvent.mk EventTypeProgress (getTask s (TaskProgress.TaskID progress))
                  None "" (Some progress) None None now) s.

(** [ReportResult] records the final result of a completed task. *)
Definition ReportResult (now : Time) (s : t) (result : TaskResult.t) : t :=
  let taskID := TaskResult.TaskID result in
  let s := set_monitor (taskMonitor.Unwatch (monitor s) taskID) s in
  let rec := tasks s !! taskID in
  let s :=
    match rec with
    | Some rec =>
        set_mem
          (updateTask (taskRecord.task rec)
             (fun x =>
                Task.set_Status
                  (if TaskResult.Success result then TaskStatusCompleted
                   else TaskStatusFailed)
                  (Task.set_CompletedAt (Some now) x))
             (mem s)) s
    | None => s
    end in
  let nodeID :=
    match rec with
    | Some rec =>
        match taskRecord.decision rec with
        | Some decision => ScheduleDecision.SelectedNodeID decision
        | None => ""
        end
    | None => ""
    end in
  if TaskResult.Success result then
    let s :=
      set_stats (StatsCollector.RecordCompletion now (stats s) taskID nodeID) s in
    emitEvent
      (TaskEvent.mk EventTypeCompleted (getTask s taskID) None nodeID None
                    (Some result) None now) s
  else
    let s := set_stats (StatsCollector.RecordFailure (stats s) taskID nodeID) s in
    emitEvent
      (TaskEvent.mk EventTypeFailed (getTask s taskID) None nodeID None
                    (Some result) (Some (ErrResult (TaskResult.Error result)))
                    now) s.

End Scheduler.

(** [Stats] returns aggregate scheduler statistics. *)
Definition Stats (now : Time) (s : t) : StatsSnapshot.t :=
  StatsCollector.Snapshot now (stats s)
                          (Z.of_nat (PriorityQueue.Len (queue s))).

(** [Subscribe] and [Unsubscribe], on the [listeners] slice. [Unsubscribe]
    compares listeners with [==]: the listeners are values of comparable
    types. *)
Section Listeners.
Context {L : Type} `{EqDecision L}.

Definition Subscribe (listeners : list L) (listener : L) : list L :=
  listeners ++ [listener].

(** [for i, l := range s.listeners { if l == listener { remove i; return } }] *)
Fixpoint Unsubscribe (listeners : list L) (listener : L) : list L :=
  match listeners with
  | [] => []
  | l :: listeners' =>
      if decide (l = listener) then listeners'
      else l :: Unsubscribe listeners' listener
  end.

End Listeners.

End defaultScheduler.

(** [SchedulerConfig.Complete] validates the configuration and seals it;
    a nil provider or dispatcher is [None]. *)
Inductive CompleteError :=
| ErrNilProvider
| ErrNilDispatcher.

Module CompletedSchedulerConfig.
Record t {P D : Type} := mk {
  config : SchedulerConfig.t;
  provider : P;
  dispatcher : D }.
Arguments t : clear implicits.
End CompletedSchedulerConfig.

Definition SchedulerConfig_Complete {P D : Type} (c : SchedulerConfig.t)
    (provider : option P) (dispatcher : option D)
  : CompletedSchedulerConfig.t P D + CompleteError :=
  match provider with
  | None => inr ErrNilProvider
  | Some provider =>
      match dispatcher with
      | None => inr ErrNilDispatcher
      | Some dispatcher =>
          let concurrency :=
            if SchedulerConfig.DispatchConcurrency c <=? 0 then 8
            else SchedulerConfig.DispatchConcurrency c in
          let interval :=
            if SchedulerConfig.ScheduleLoopInterval c <=? 0
            then 500 * millisecond
            else SchedulerConfig.ScheduleLoopInterval c in
          inl (CompletedSchedulerConfig.mk P D
                 (SchedulerConfig.mk concurrency interval
                    (SchedulerConfig.MaxRetries c)
                    (SchedulerConfig.DefaultScoringWeights c)
                    (SchedulerConfig.MonitorConfig c))
                 provider dispatcher)
      end
  end.

(** ** selector.go: filters and composed selectors *)

(** [NodeFilter] is a predicate that decides whether a profile is
    eligible. *)
Definition NodeFilter : Type := GolemProfile.t -> bool.

(** [OnlineFilter] only keeps online nodes. *)
Definition OnlineFilter : NodeFilter :=
  fun profile =>
    String.eqb (NodeInfo.Status (GolemProfile.NodeInfo profile)) "online".

(** [HealthyFilter] only keeps nodes at or above the given health
    threshold: [profile.HealthScore >= minHealth]. *)
Definition HealthyFilter (minHealth : float) : NodeFilter :=
  fun profile => (minHealth <=? GolemProfile.HealthScore profile)%float.

(** [FeatureFilter] only keeps nodes supporting all given features. *)
Definition FeatureFilter (features : list string) : NodeFilter :=
  fun profile =>
    forallb (fun required =>
               bool_decide (required ∈ constraintChecker.featureSet profile))
            features.

(** The errors of the selectors: those of [DirectSelector] and
    [AISelector], and the one [CompositeSelector] builds around the last
    error it saw ([None] for a nil [lastErr]). *)
Inductive SelectorError :=
| SelectorErr (e : SchedError)
| ErrAllSelectorsFailed (count : nat) (lastErr : option SelectorError).

Inductive Selection :=
| Chosen (decision : ScheduleDecision.t)
| Failed (e : SelectorError).

(** The [Select] method of a [NodeSelector]. *)
Definition NodeSelector : Type :=
  Time -> ScheduleRequest.t -> list GolemProfile.t -> Selection.

Definition selection (r : Result ScheduleDecision.t) : Selection :=
  match r with
  | Ok decision => Chosen decision
  | Err e => Failed (SelectorErr e)
  end.

(** [DirectSelector] and [AISelector] as [NodeSelector]s. *)
Definition directSel : NodeSelector :=
  fun now req candidates =>
    selection (DirectSelector.Select now req candidates).

Definition aiSel (math_Exp : float -> float) (s : AISelector.t)
  : NodeSelector :=
  fun now req candidates =>
    selection (AISelector.Select math_Exp s now req candidates).

Module CompositeSelector.

Record t := mk { selectors : list NodeSelector }.

Definition NewCompositeSelector (selectors : list NodeSelector) : t :=
  mk selectors.

(** The loop of [Select] from a given [lastErr] on. *)
Fixpoint Select_loop (selectors : list NodeSelector)
    (lastErr : option SelectorError) (now : Time) (req : ScheduleRequest.t)
    (candidates : list GolemProfile.t)
  : ScheduleDecision.t + option SelectorError :=
  match selectors with
  | [] => inr lastErr
  | sel :: selectors' =>
      match sel now req candidates with
      | Chosen decision => inl decision
      | Failed err => Select_loop selectors' (Some err) now req candidates
      end
  end.

(** [Select] tries each selector in order, returning the first successful
    decision. *)
Definition Select (s : t) : NodeSelector :=
  fun now req candidates =>
    match Select_loop (selectors s) None now req candidates with
    | inl decision => Chosen decision
    | inr lastErr =>
        Failed (ErrAllSelectorsFailed (length (selectors s)) lastErr)
    end.

End CompositeSelector.

Module FilterSelector.

Record t := mk { inner : NodeSelector; filters : list NodeFilter }.

Definition NewFilterSelector (inner : NodeSelector)
    (filters : list NodeFilter) : t :=
  mk inner filters.

(** The candidates every filter keeps, in their order. *)
Definition filtered (s : t) (candidates : list GolemProfile.t)
  : list GolemProfile.t :=
  filter (fun profile => forallb (fun f => f profile) (filters s) = true)
         candidates.

(** [Select] applies all filters and delegates to the inner selector. *)
Definition Select (s : t) : NodeSelector :=
  fun now req candidates => inner s now req (filtered s candidates).

End FilterSelector.

(** ** task.go: the request builder *)

Module ScheduleRequestBuilder.

(** The builder holds the request it fills in. *)
Definition t : Type := ScheduleRequest.t.

Definition NewScheduleRequest (now : Time) (task : option TaskPtr) : t :=
  ScheduleRequest.mk task AIMode "" [] [] [] ∅ None None now.

Definition WithDirectMode (nodeID : string) (b : t) : t :=
  ScheduleRequest.mk
    (ScheduleRequest.Task b) DirectMode nodeID
    (ScheduleRequest.RequiredCapabilities b) (ScheduleRequest.RequiredSkills b)
    (ScheduleRequest.RequiredFeatures b) (ScheduleRequest.PreferredTags b)
    (ScheduleRequest.ResourceRequirements b) (ScheduleRequest.Hints b)
    (ScheduleRequest.RequestedAt b).

Definition WithAIMode (b : t) : t :=
  ScheduleRequest.mk
    (ScheduleRequest.Task b) AIMode ""
    (ScheduleRequest.RequiredCapabilities b) (ScheduleRequest.RequiredSkills b)
    (ScheduleRequest.RequiredFeatures b) (ScheduleRequest.PreferredTags b)
    (ScheduleRequest.ResourceRequirements b) (ScheduleRequest.Hints b)
    (ScheduleRequest.RequestedAt b).

Definition WithRequiredCapabilities (caps : list string) (b : t) : t :=
  ScheduleRequest.mk
    (ScheduleRequest.Task b) (ScheduleRequest.Mode b)
    (ScheduleRequest.TargetNodeID b) caps (ScheduleRequest.RequiredSkills b)
    (ScheduleRequest.RequiredFeatures b) (ScheduleRequest.PreferredTags b)
    (ScheduleRequest.ResourceRequirements b) (ScheduleRequest.Hints b)
    (ScheduleRequest.RequestedAt b).

Definition WithRequiredSkills (skills : list string) (b : t) : t :=
  ScheduleRequest.mk
    (ScheduleRequest.Task b) (ScheduleRequest.Mode b)
    (ScheduleRequest.TargetNodeID b) (ScheduleRequest.RequiredCapabilities b)
    skills (ScheduleRequest.RequiredFeatures b)
    (ScheduleRequest.PreferredTags b) (ScheduleRequest.ResourceRequirements b)
    (ScheduleRequest.Hints b) (ScheduleRequest.RequestedAt b).

Definition WithRequiredFeatures (features : list string) (b : t) : t :=
  ScheduleRequest.mk
    (ScheduleRequest.Task b) (ScheduleRequest.Mode b)
    (ScheduleRequest.TargetNodeID b) (ScheduleRequest.RequiredCapabilities b)
    (ScheduleRequest.RequiredSkills b) features
    (ScheduleRequest.PreferredTags b) (ScheduleRequest.ResourceRequirements b)
    (ScheduleRequest.Hints b) (ScheduleRequest.RequestedAt b).

Definition WithPreferredTags (tags : gmap string string) (b : t) : t :=
  ScheduleRequest.mk
    (ScheduleRequest.Task b) (ScheduleRequest.Mode b)
    (ScheduleRequest.TargetNodeID b) (ScheduleRequest.RequiredCapabilities b)
    (ScheduleRequest.RequiredSkills b) (ScheduleRequest.RequiredFeatures b)
    tags (ScheduleRequest.ResourceRequirements b) (ScheduleRequest.Hints b)
    (ScheduleRequest.RequestedAt b).

Definition WithResourceRequirements (req : option ResourceRequirements.t)
    (b : t) : t :=
  ScheduleRequest.mk
    (ScheduleRequest.Task b) (ScheduleRequest.Mode b)
    (ScheduleRequest.TargetNodeID b) (ScheduleRequest.RequiredCapabilities b)
    (ScheduleRequest.RequiredSkills b) (ScheduleRequest.RequiredFeatures b)
    (ScheduleRequest.PreferredTags b) req (ScheduleRequest.Hints b)
    (ScheduleRequest.RequestedAt b).

Definition WithHints (hints : option ScheduleHints.t) (b : t) : t :=
  ScheduleRequest.mk
    (ScheduleRequest.Task b) (ScheduleRequest.Mode b)
    (ScheduleRequest.TargetNodeID b) (ScheduleRequest.RequiredCapabilities b)
    (ScheduleRequest.RequiredSkills b) (ScheduleRequest.RequiredFeatures b)
    (ScheduleRequest.PreferredTags b) (ScheduleRequest.ResourceRequirements b)
    hints (ScheduleRequest.RequestedAt b).

Definition Build (b : t) : ScheduleRequest.t := b.

End ScheduleRequestBuilder.

(** * Properties *)

(** ** Machine integers *)

Lemma wrap64_small z : minInt64 <= z <= maxInt64 -> wrap64 z = z.
Proof.
  unfold wrap64, minInt64, maxInt64. intros Hz.
  rewrite Z.mod_small; lia.
Qed.

Lemma wrap64_range z : minInt64 <= wrap64 z <= maxInt64.
Proof.
  unfold wrap64, minInt64, maxInt64.
  pose proof (Z.mod_pos_bound (z + 2 ^ 63) (2 ^ 64)). lia.
Qed.

Lemma int64_add_1 z : minInt64 <= z < maxInt64 -> int64_add z 1 = z + 1.
Proof. intros Hz. unfold int64_add. apply wrap64_small. lia. Qed.

(** ** The order of binary64 comparisons *)

(** The place of a float that is not a NaN in the order of [<]: the sign
    class, then exponent and mantissa (mirrored for negative numbers). *)
Definition SFrank (f : spec_float) : option (Z * Z * Z) :=
  match f with
  | S754_nan => None
  | S754_infinity true => Some (-2, 0, 0)
  | S754_finite true m e => Some (-1, - e, - Z.pos m)
  | S754_zero _ => Some (0, 0, 0)
  | S754_finite false m e => Some (1, e, Z.pos m)
  | S754_infinity false => Some (2, 0, 0)
  end.

Definition lexlt (a b : Z * Z * Z) : Prop :=
  let '(a1, a2, a3) := a in
  let '(b1, b2, b3) := b in
  a1 < b1 \/ (a1 = b1 /\ (a2 < b2 \/ (a2 = b2 /\ a3 < b3))).

Definition float_key (x : float) : option (Z * Z * Z) := SFrank (Prim2SF x).

Lemma SFltb_rank f g :
  SFltb f g = true <->
  match SFrank f, SFrank g with
  | Some a, Some b => lexlt a b
  | _, _ => False
  end.
Proof.
  unfold SFltb.
  destruct f as [[]|[]| |[] m1 e1], g as [[]|[]| |[] m2 e2]; simpl;
    try (split; [discriminate | lia]); try (split; [lia | discriminate]);
    try (split; [intros _; lia | reflexivity]);
    try tauto.
  - change (Pos.compare_cont Eq m1 m2) with (Pos.compare m1 m2).
    destruct (Z.compare_spec e1 e2), (Pos.compare_spec m1 m2); simpl;
      split; try discriminate; try reflexivity; lia.
  - change (Pos.compare_cont Eq m1 m2) with (Pos.compare m1 m2).
    destruct (Z.compare_spec e1 e2), (Pos.compare_spec m1 m2); simpl;
      split; try discriminate; try reflexivity; lia.
Qed.

Lemma ltb_key x y :
  (x <? y)%float = true <->
  match float_key x, float_key y with
  | Some a, Some b => lexlt a b
  | _, _ => False
  end.
Proof. rewrite FloatAxioms.ltb_spec. apply SFltb_rank. Qed.

Lemma is_nan_key x : is_nan x = false <-> is_Some (float_key x).
Proof.
  unfold is_nan, float_key. rewrite FloatAxioms.eqb_spec. unfold SFeqb.
  destruct (Prim2SF x) as [[]|[]| |[] m e]; simpl;
    rewrite ?Z.compare_refl; simpl;
    try change (Pos.compare_cont Eq m m) with (Pos.compare m m);
    rewrite ?Pos.compare_refl; simpl;
    split; intros H; try reflexivity; try discriminate; eauto;
    destruct H as [? H]; discriminate.
Qed.

Lemma lexlt_irrefl a : ~ lexlt a a.
Proof. destruct a as [[??]?]; simpl; lia. Qed.

Lemma lexlt_trans a b c : lexlt a b -> lexlt b c -> lexlt a c.
Proof. destruct a as [[??]?], b as [[??]?], c as [[??]?]; simpl; lia. Qed.

Lemma lexlt_total a b : lexlt a b \/ a = b \/ lexlt b a.
Proof.
  destruct a as [[a1 a2] a3], b as [[b1 b2] b3]; simpl.
  destruct (Z.lt_trichotomy a1 b1) as [?|[?|?]]; [lia| |lia].
  destruct (Z.lt_trichotomy a2 b2) as [?|[?|?]]; [lia| |lia].
  destruct (Z.lt_trichotomy a3 b3) as [?|[?|?]]; [lia| |lia].
  right; left; congruence.
Qed.

Lemma float_ltb_irrefl x : (x <? x)%float = false.
Proof.
  apply not_true_is_false. rewrite ltb_key.
  destruct (float_key x); [apply lexlt_irrefl | tauto].
Qed.

Lemma float_ltb_trans x y z :
  (x <? y)%float = true -> (y <? z)%float = true -> (x <? z)%float = true.
Proof.
  rewrite !ltb_key.
  destruct (float_key x), (float_key y), (float_key z); try tauto.
  apply lexlt_trans.
Qed.

Lemma float_ltb_asym x y : (x <? y)%float = true -> (y <? x)%float = false.
Proof.
  intros H. apply not_true_is_false. intros H'.
  pose proof (float_ltb_trans _ _ _ H H') as Hxx.
  rewrite float_ltb_irrefl in Hxx. discriminate.
Qed.

Lemma float_ltb_negtrans x y z :
  is_nan x = false -> is_nan y = false -> is_nan z = false ->
  (x <? y)%float = false -> (y <? z)%float = false -> (x <? z)%float = false.
Proof.
  rewrite !is_nan_key. intros [a Ha] [b Hb] [c Hc] Hxy Hyz.
  apply not_true_is_false. intros Hxz.
  apply not_true_iff_false in Hxy, Hyz.
  rewrite ltb_key in Hxy, Hyz, Hxz. rewrite Ha, Hb, Hc in *.
  destruct (lexlt_total a b) as [?|[->|?]]; [tauto | tauto |].
  destruct (lexlt_total b c) as [?|[->|?]]; [tauto | tauto |].
  eapply lexlt_irrefl, lexlt_trans; [exact Hxz |].
  eapply lexlt_trans; eassumption.
Qed.

(** ** constraintChecker.check *)

Module CheckSpec.

(** The five constraint groups, in the words of the specification. *)

Definition statusOnline (profile : GolemProfile.t) : Prop :=
  NodeInfo.Status (GolemProfile.NodeInfo profile) = "online"%string.

Definition hasCapability (profile : GolemProfile.t) (rc : string) : Prop :=
  exists c, c ∈ NodeInfo.Capabilities (GolemProfile.NodeInfo profile)
            /\ Capability.Name c = rc.

Definition hasSkill (profile : GolemProfile.t) (rs : string) : Prop :=
  exists sk, sk ∈ GolemProfile.InstalledSkills profile
             /\ (SkillInfo.ID sk = rs \/ SkillInfo.Name sk = rs).

Definition hasFeature (profile : GolemProfile.t) (rf : string) : Prop :=
  rf ∈ GolemProfile.SupportedFeatures profile.

Definition capabilitiesMet (req : ScheduleRequest.t) (profile : GolemProfile.t)
  : Prop :=
  forall rc, rc ∈ ScheduleRequest.RequiredCapabilities req ->
             hasCapability profile rc.

Definition skillsMet (req : ScheduleRequest.t) (profile : GolemProfile.t)
  : Prop :=
  forall rs, rs ∈ ScheduleRequest.RequiredSkills req -> hasSkill profile rs.

Definition featuresMet (req : ScheduleRequest.t) (profile : GolemProfile.t)
  : Prop :=
  forall rf, rf ∈ ScheduleRequest.RequiredFeatures req -> hasFeature profile rf.

(** [r] is the first entry of [required] that [P] does not hold of. *)
Definition firstUnmet (P : string -> Prop) (required : list string)
    (r : string) : Prop :=
  exists i, required !! i = Some r /\ ~ P r
            /\ forall j y, (j < i)%nat -> required !! j = Some y -> P y.

(** The resource group as the specification words it: every non-zero
    field of the requirements binds the node. *)
Definition resourcesMet_nonzero (req : ScheduleRequest.t)
    (profile : GolemProfile.t) : Prop :=
  match ScheduleRequest.ResourceRequirements req with
  | None => True
  | Some rr =>
      let info := NodeInfo.SystemInfo (GolemProfile.NodeInfo profile) in
      let load := GolemProfile.Load profile in
      (ResourceRequirements.MinCPUCores rr <> 0 ->
       ResourceRequirements.MinCPUCores rr <= SystemInfo.CPUCores info)
      /\ (ResourceRequirements.MinMemoryMB rr <> 0 ->
          ResourceRequirements.MinMemoryMB rr <= SystemInfo.MemoryMB info)
      /\ (ResourceRequirements.MinDiskFreeMB rr <> 0 ->
          ResourceRequirements.MinDiskFreeMB rr <= SystemInfo.DiskFreeMB info)
      /\ ((ResourceRequirements.MaxCPUPercent rr =? 0)%float = false ->
          (ResourceRequirements.MaxCPUPercent rr
             <? NodeLoadInfo.CPUPercent load)%float = false)
      /\ ((ResourceRequirements.MaxMemoryPercent rr =? 0)%float = false ->
          (ResourceRequirements.MaxMemoryPercent rr
             <? NodeLoadInfo.MemoryPercent load)%float = false)
      /\ (ResourceRequirements.MaxActiveTasks rr <> 0 ->
          NodeLoadInfo.ActiveTasks load <= ResourceRequirements.MaxActiveTasks rr)
  end.

(** The resource group with the code's guard: every strictly positive
    field of the requirements binds the node. *)
Definition resourcesMet (req : ScheduleRequest.t) (profile : GolemProfile.t)
  : Prop :=
  match ScheduleRequest.ResourceRequirements req with
  | None => True
  | Some rr =>
      let info := NodeInfo.SystemInfo (GolemProfile.NodeInfo profile) in
      let load := GolemProfile.Load profile in
      (0 < ResourceRequirements.MinCPUCores rr ->
       ResourceRequirements.MinCPUCores rr <= SystemInfo.CPUCores info)
      /\ (0 < ResourceRequirements.MinMemoryMB rr ->
          ResourceRequirements.MinMemoryMB rr <= SystemInfo.MemoryMB info)
      /\ (0 < ResourceRequirements.MinDiskFreeMB rr ->
          ResourceRequirements.MinDiskFreeMB rr <= SystemInfo.DiskFreeMB info)
      /\ ((0 <? ResourceRequirements.MaxCPUPercent rr)%float = true ->
          (ResourceRequirements.MaxCPUPercent rr
             <? NodeLoadInfo.CPUPercent load)%float = false)
      /\ ((0 <? ResourceRequirements.MaxMemoryPercent rr)%float = true ->
          (ResourceRequirements.MaxMemoryPercent rr
             <? NodeLoadInfo.MemoryPercent load)%float = false)
      /\ (0 < ResourceRequirements.MaxActiveTasks rr ->
          NodeLoadInfo.ActiveTasks load <= ResourceRequirements.MaxActiveTasks rr)
  end.

(** [r] reports a strictly positive requirement that the node misses. *)
Definition resourceViolation (req : ScheduleRequest.t)
    (profile : GolemProfile.t) (r : Rejection) : Prop :=
  exists rr, ScheduleRequest.ResourceRequirements req = Some rr /\
  let info := NodeInfo.SystemInfo (GolemProfile.NodeInfo profile) in
  let load := GolemProfile.Load profile in
  match r with
  | InsufficientCPUCores have need =>
      have = SystemInfo.CPUCores info
      /\ need = ResourceRequirements.MinCPUCores rr /\ 0 < need /\ have < need
  | InsufficientMemory have need =>
      have = SystemInfo.MemoryMB info
      /\ need = ResourceRequirements.MinMemoryMB rr /\ 0 < need /\ have < need
  | InsufficientDisk have need =>
      have = SystemInfo.DiskFreeMB info
      /\ need = ResourceRequirements.MinDiskFreeMB rr /\ 0 < need /\ have < need
  | CPUUsageTooHigh cpu limit =>
      cpu = NodeLoadInfo.CPUPercent load
      /\ limit = ResourceRequirements.MaxCPUPercent rr
      /\ (0 <? limit)%float = true /\ (limit <? cpu)%float = true
  | MemoryUsageTooHigh mem limit =>
      mem = NodeLoadInfo.MemoryPercent load
      /\ limit = ResourceRequirements.MaxMemoryPercent rr
      /\ (0 <? limit)%float = true /\ (limit <? mem)%float = true
  | TooManyActiveTasks active limit =>
      active = NodeLoadInfo.ActiveTasks load
      /\ limit = ResourceRequirements.MaxActiveTasks rr
      /\ 0 < limit /\ limit < active
  | _ => False
  end.

End CheckSpec.

Import CheckSpec.

Lemma elem_of_capSet profile rc :
  rc ∈ constraintChecker.capSet profile <-> hasCapability profile rc.
Proof.
  unfold constraintChecker.capSet, hasCapability.
  rewrite elem_of_list_to_set, list_elem_of_fmap. naive_solver.
Qed.

Lemma elem_of_skillSet profile rs :
  rs ∈ constraintChecker.skillSet profile <-> hasSkill profile rs.
Proof.
  unfold constraintChecker.skillSet, hasSkill.
  rewrite elem_of_list_to_set, list_elem_of_In, in_flat_map.
  split.
  - intros (sk & Hsk & Hin). exists sk. rewrite list_elem_of_In.
    simpl in Hin. naive_solver.
  - intros (sk & Hsk & Hrs). exists sk. rewrite <- list_elem_of_In.
    simpl. naive_solver.
Qed.

Lemma elem_of_featureSet profile rf :
  rf ∈ constraintChecker.featureSet profile <-> hasFeature profile rf.
Proof. unfold constraintChecker.featureSet, hasFeature. apply elem_of_list_to_set. Qed.

Lemma firstMissing_None required have :
  constraintChecker.firstMissing required have = None <->
  forall r, r ∈ required -> r ∈ have.
Proof.
  unfold constraintChecker.firstMissing.
  rewrite fmap_None, list_find_None, Forall_forall.
  split; intros H r Hr; specialize (H r Hr).
  - destruct (decide (r ∈ have)); tauto.
  - tauto.
Qed.

Lemma firstMissing_Some required have r :
  constraintChecker.firstMissing required have = Some r ->
  exists i, required !! i = Some r /\ r ∉ have
            /\ forall j y, (j < i)%nat -> required !! j = Some y -> y ∈ have.
Proof.
  unfold constraintChecker.firstMissing. rewrite fmap_Some.
  intros ([i x] & Hfind & ->). apply list_find_Some in Hfind as (Hi & Hx & Hlt).
  exists i. simpl. split; [done |]. split; [done |].
  intros j y Hj Hy. specialize (Hlt j y Hy Hj).
  destruct (decide (y ∈ have)); tauto.
Qed.

Lemma firstMissing_firstUnmet (P : string -> Prop) required have r :
  (forall x, x ∈ have <-> P x) ->
  constraintChecker.firstMissing required have = Some r ->
  firstUnmet P required r.
Proof.
  intros HP Hr. apply firstMissing_Some in Hr as (i & Hi & Hn & Hlt).
  exists i. rewrite <- HP. split; [done |]. split; [done |].
  intros j y Hj Hy. apply HP. eauto.
Qed.

Lemma firstMissing_met (P : string -> Prop) required have :
  (forall x, x ∈ have <-> P x) ->
  constraintChecker.firstMissing required have = None <->
  forall r, r ∈ required -> P r.
Proof.
  intros HP. rewrite firstMissing_None.
  split; intros H r Hr; apply HP; auto.
Qed.

Lemma checkResources_None req profile rr :
  ScheduleRequest.ResourceRequirements req = Some rr ->
  constraintChecker.checkResources rr profile = None <->
  resourcesMet req profile.
Proof.
  intros Hrr. unfold resourcesMet, constraintChecker.checkResources.
  rewrite Hrr. cbv zeta.
  repeat match goal with
  | |- context [(?a <? ?b)%float] =>
      let H := fresh "F" in destruct (a <? b)%float eqn:H
  | |- context [?a <? ?b] => destruct (Z.ltb_spec a b)
  end; simpl; split; try discriminate; try reflexivity;
    intros; try lia; try (split_and!; intros; try lia; try congruence).
  all: naive_solver lia.
Qed.

Lemma checkResources_Some req profile rr r :
  ScheduleRequest.ResourceRequirements req = Some rr ->
  constraintChecker.checkResources rr profile = Some r ->
  resourceViolation req profile r.
Proof.
  intros Hrr. unfold constraintChecker.checkResources.
  repeat match goal with
  | |- context [(?a <? ?b)%float] =>
      let H := fresh "F" in destruct (a <? b)%float eqn:H
  | |- context [?a <? ?b] => destruct (Z.ltb_spec a b)
  end; simpl; intros [= <-]; exists rr; (split; [done |]); simpl;
    split_and!; try done; try lia.
Qed.

(** C3 (as amended): [check] accepts exactly when the five constraint
    groups hold, where the resource group binds through the strictly
    positive fields of the requirements; otherwise it returns the reason of
    the first failing group in the order status, capabilities, skills,
    features, resources, naming the first unmet entry of the failing list;
    a node that is not online is rejected for its status whatever else
    fails. *)
Theorem check_first_failing_group (req : ScheduleRequest.t)
    (profile : GolemProfile.t) :
  (constraintChecker.check req profile = None <->
     statusOnline profile /\ capabilitiesMet req profile
     /\ skillsMet req profile /\ featuresMet req profile
     /\ resourcesMet req profile)
  /\ (~ statusOnline profile ->
      constraintChecker.check req profile
      = Some (NodeStatusNotOnline
                (NodeInfo.Status (GolemProfile.NodeInfo profile))))
  /\ (statusOnline profile -> ~ capabilitiesMet req profile ->
      exists rc,
        constraintChecker.check req profile = Some (MissingCapability rc)
        /\ firstUnmet (hasCapability profile)
                      (ScheduleRequest.RequiredCapabilities req) rc)
  /\ (statusOnline profile -> capabilitiesMet req profile ->
      ~ skillsMet req profile ->
      exists rs,
        constraintChecker.check req profile = Some (MissingSkill rs)
        /\ firstUnmet (hasSkill profile)
                      (ScheduleRequest.RequiredSkills req) rs)
  /\ (statusOnline profile -> capabilitiesMet req profile ->
      skillsMet req profile -> ~ featuresMet req profile ->
      exists rf,
        constraintChecker.check req profile = Some (MissingFeature rf)
        /\ firstUnmet (hasFeature profile)
                      (ScheduleRequest.RequiredFeatures req) rf)
  /\ (statusOnline profile -> capabilitiesMet req profile ->
      skillsMet req profile -> featuresMet req profile ->
      ~ resourcesMet req profile ->
      exists r,
        constraintChecker.check req profile = Some r
        /\ resourceViolation req profile r).
Proof.
  unfold constraintChecker.check, statusOnline.
  destruct (String.eqb_spec
              (NodeInfo.Status (GolemProfile.NodeInfo profile)) "online")
    as [Hon | Hoff]; simpl.
  2: { repeat split; try tauto; try discriminate. }
  pose proof (firstMissing_met (hasCapability profile)
                (ScheduleRequest.RequiredCapabilities req) _
                (elem_of_capSet profile)) as Hc.
  pose proof (firstMissing_met (hasSkill profile)
                (ScheduleRequest.RequiredSkills req) _
                (elem_of_skillSet profile)) as Hs.
  pose proof (firstMissing_met (hasFeature profile)
                (ScheduleRequest.RequiredFeatures req) _
                (elem_of_featureSet profile)) as Hf.
  fold (capabilitiesMet req profile) in Hc.
  fold (skillsMet req profile) in Hs.
  fold (featuresMet req profile) in Hf.
  destruct (constraintChecker.firstMissing
              (ScheduleRequest.RequiredCapabilities req) _) as [rc|] eqn:Ec.
  { assert (~ capabilitiesMet req profile) as Hn
      by (rewrite <- Hc; discriminate).
    repeat split; try tauto; try discriminate.
    intros _ _. exists rc. split; [done |].
    eapply firstMissing_firstUnmet; [apply elem_of_capSet | done]. }
  assert (capabilitiesMet req profile) as Hcm by (apply Hc; done).
  destruct (constraintChecker.firstMissing
              (ScheduleRequest.RequiredSkills req) _) as [rs|] eqn:Es.
  { assert (~ skillsMet req profile) as Hn by (rewrite <- Hs; discriminate).
    repeat split; try tauto; try discriminate.
    intros _ _ _. exists rs. split; [done |].
    eapply firstMissing_firstUnmet; [apply elem_of_skillSet | done]. }
  assert (skillsMet req profile) as Hsm by (apply Hs; done).
  destruct (constraintChecker.firstMissing
              (ScheduleRequest.RequiredFeatures req) _) as [rf|] eqn:Ef.
  { assert (~ featuresMet req profile) as Hn by (rewrite <- Hf; discriminate).
    repeat split; try tauto; try discriminate.
    intros _ _ _ _. exists rf. split; [done |].
    eapply firstMissing_firstUnmet; [apply elem_of_featureSet | done]. }
  assert (featuresMet req profile) as Hfm by (apply Hf; done).
  destruct (ScheduleRequest.ResourceRequirements req) as [rr|] eqn:Err.
  2: { assert (resourcesMet req profile) as Hr
         by (unfold resourcesMet; rewrite Err; exact I).
       repeat split; try tauto; try discriminate. }
  pose proof (checkResources_None req profile rr Err) as Hr.
  destruct (constraintChecker.checkResources rr profile) as [r|] eqn:Er.
  - assert (~ resourcesMet req profile) as Hn by (rewrite <- Hr; discriminate).
    repeat split; try tauto; try discriminate.
    intros _ _ _ _ _. exists r. split; [done |].
    eapply checkResources_Some; eauto.
  - assert (resourcesMet req profile) as Hm by (apply Hr; done).
    repeat split; try tauto; try discriminate.
Qed.

(** An idle online node and a request whose only requirement is a
    negative cap on active tasks. *)
Definition idleNode (id : string) : GolemProfile.t :=
  GolemProfile.mk
    (NodeInfo.mk id [] (SystemInfo.mk 4 8192 20480) "online")
    (NodeLoadInfo.mk 10 20 0 0) [] [] ∅ 1 0.

Definition negativeCapRequest : ScheduleRequest.t :=
  ScheduleRequest.mk (Some 0%nat) AIMode "" [] [] [] ∅
    (Some (ResourceRequirements.mk 0 0 0 0 0 (-1))) None 0.

(** C3 (as stated) fails: [MaxActiveTasks = -1] is a non-zero field that
    no node stays under, yet [check] accepts the node. *)
Lemma check_ignores_negative_limit :
  constraintChecker.check negativeCapRequest (idleNode "g1") = None
  /\ ~ resourcesMet_nonzero negativeCapRequest (idleNode "g1").
Proof.
  split; [reflexivity |].
  unfold resourcesMet_nonzero. simpl. intros (_ & _ & _ & _ & _ & H).
  specialize (H ltac:(lia)). lia.
Qed.

(** ** sort.Slice on short slices *)

Lemma Slice_two {A} (lessE : A -> A -> bool) (x y : A) :
  sort.Slice lessE [x; y] = if lessE y x then [y; x] else [x; y].
Proof. cbn. destruct (lessE y x); reflexivity. Qed.

(** ** AISelector.scoreAffinity *)

(** [profile] with another node ID. *)
Definition withNodeID (id : string) (profile : GolemProfile.t)
  : GolemProfile.t :=
  let info := GolemProfile.NodeInfo profile in
  GolemProfile.mk
    (NodeInfo.mk id (NodeInfo.Capabilities info) (NodeInfo.SystemInfo info)
                 (NodeInfo.Status info))
    (GolemProfile.Load profile) (GolemProfile.InstalledSkills profile)
    (GolemProfile.SupportedFeatures profile) (GolemProfile.Tags profile)
    (GolemProfile.HealthScore profile) (GolemProfile.LastUpdated profile).

(** The part of [score]'s weighted sum that comes before the affinity
    term. *)
Definition scoreBeforeAffinity (math_Exp : float -> float) (s : AISelector.t)
    (req : ScheduleRequest.t) (profile : GolemProfile.t) : float :=
  let w := AISelector.weights s in
  (AISelector.scoreCapabilities req profile * ScoringWeights.Capability w
   + AISelector.scoreSkills req profile * ScoringWeights.Skill w
   + AISelector.scoreResources req profile * ScoringWeights.Resource w
   + AISelector.scoreLoad math_Exp profile * ScoringWeights.Load w
   + AISelector.scoreTags req profile * ScoringWeights.Tag w)%float.

Lemma existsb_eqb_elem (l : list string) (x : string) :
  existsb (fun y => String.eqb y x) l = bool_decide (x ∈ l).
Proof.
  induction l as [|y l IH]; cbn [existsb].
  - symmetry. apply bool_decide_eq_false_2. apply not_elem_of_nil.
  - rewrite IH. destruct (String.eqb_spec y x) as [->|Hne].
    + symmetry. apply bool_decide_eq_true_2. left.
    + rewrite orb_false_l. apply bool_decide_ext. rewrite elem_of_cons. naive_solver.
Qed.

Lemma check_withNodeID req id profile :
  constraintChecker.check req (withNodeID id profile)
  = constraintChecker.check req profile.
Proof. reflexivity. Qed.

Lemma scoreBeforeAffinity_withNodeID math_Exp s req id profile :
  scoreBeforeAffinity math_Exp s req (withNodeID id profile)
  = scoreBeforeAffinity math_Exp s req profile.
Proof. reflexivity. Qed.

Lemma TotalScore_score math_Exp s req profile :
  NodeScore.TotalScore (AISelector.score math_Exp s req profile)
  = (scoreBeforeAffinity math_Exp s req profile
     + AISelector.scoreAffinity req profile
       * ScoringWeights.Affinity (AISelector.weights s))%float.
Proof. reflexivity. Qed.

Lemma TotalScore_set_eligibility e r x :
  NodeScore.TotalScore (NodeScore.set_eligibility e r x) = NodeScore.TotalScore x.
Proof. reflexivity. Qed.

Lemma scoreCandidate_eligible math_Exp s req profile :
  constraintChecker.check req profile = None ->
  AISelector.scoreCandidate math_Exp s req profile
  = NodeScore.set_eligibility true None (AISelector.score math_Exp s req profile).
Proof. unfold AISelector.scoreCandidate. intros ->. reflexivity. Qed.

(** C9: the affinity subscore is 0.0 for a node listed in
    [Hints.AntiAffinity] (even when it is also the affinity hint), 1.0 for
    a node that equals a non-empty affinity hint and is not listed, and 0.5
    otherwise, also without hints. Hence Scenario D: of two eligible nodes
    that differ only in their ID, [g1] and [g2], with [g1] the only
    anti-affinity hint and default weights, [g1] has affinity score 0, [g2]
    has 0.5 and, the rest of the float64 sum being a value that the term
    0.5 * 0.05 raises, [g2] is selected, in either order of the
    candidates. *)
Theorem scoreAffinity_cases_and_scenario_D :
  (forall req profile,
     let nodeID := NodeInfo.ID (GolemProfile.NodeInfo profile) in
     (ScheduleRequest.Hints req = None ->
      AISelector.scoreAffinity req profile = 0.5%float)
     /\ (forall hints, ScheduleRequest.Hints req = Some hints ->
         (nodeID ∈ ScheduleHints.AntiAffinity hints ->
          AISelector.scoreAffinity req profile = 0.0%float)
         /\ (nodeID ∉ ScheduleHints.AntiAffinity hints ->
             ScheduleHints.Affinity hints <> ""%string ->
             ScheduleHints.Affinity hints = nodeID ->
             AISelector.scoreAffinity req profile = 1.0%float)
         /\ (nodeID ∉ ScheduleHints.AntiAffinity hints ->
             (ScheduleHints.Affinity hints = ""%string
              \/ ScheduleHints.Affinity hints <> nodeID) ->
             AISelector.scoreAffinity req profile = 0.5%float)))
  /\ (forall math_Exp now req hints g1 g2 candidates,
        NodeInfo.ID (GolemProfile.NodeInfo g1) = "g1"%string ->
        g2 = withNodeID "g2" g1 ->
        ScheduleRequest.Hints req = Some hints ->
        ScheduleHints.AntiAffinity hints = ["g1"%string] ->
        ScheduleHints.Affinity hints = ""%string ->
        constraintChecker.check req g1 = None ->
        (let x := scoreBeforeAffinity math_Exp AISelector.NewDefaultAISelector
                                      req g1 in
         (x + 0.0 * 0.05 <? x + 0.5 * 0.05)%float = true) ->
        candidates = [g1; g2] \/ candidates = [g2; g1] ->
        NodeScore.AffinityScore
          (AISelector.score math_Exp AISelector.NewDefaultAISelector req g1)
        = 0.0%float
        /\ NodeScore.AffinityScore
             (AISelector.score math_Exp AISelector.NewDefaultAISelector req g2)
           = 0.5%float
        /\ exists decision,
             AISelector.Select math_Exp AISelector.NewDefaultAISelector now
                               req candidates = Ok decision
             /\ ScheduleDecision.SelectedNodeID decision = "g2"%string
             /\ ScheduleDecision.EligibleCount decision = 2%nat).
Proof.
  split.
  - intros req profile nodeID. unfold AISelector.scoreAffinity.
    split; [intros ->; reflexivity |].
    intros hints ->. fold nodeID. rewrite existsb_eqb_elem.
    split; [| split].
    + intros Hin. rewrite bool_decide_eq_true_2 by done. reflexivity.
    + intros Hnin Hne Heq. rewrite bool_decide_eq_false_2 by done.
      rewrite Heq, String.eqb_refl.
      destruct (String.eqb_spec nodeID "") as [E|_]; [congruence | reflexivity].
    + intros Hnin Hor. rewrite bool_decide_eq_false_2 by done.
      destruct Hor as [-> | Hne]; [reflexivity |].
      destruct (String.eqb_spec (ScheduleHints.Affinity hints) nodeID);
        [congruence |].
      rewrite andb_false_r. reflexivity.
  - intros math_Exp now req hints g1 g2 candidates Hid -> Hh Hanti Haff Hchk
      Hlt Hcands.
    set (s := AISelector.NewDefaultAISelector) in *.
    assert (AISelector.scoreAffinity req g1 = 0.0%float) as Ha1.
    { unfold AISelector.scoreAffinity. rewrite Hh, Hanti, Hid. reflexivity. }
    assert (AISelector.scoreAffinity req (withNodeID "g2" g1) = 0.5%float)
      as Ha2.
    { unfold AISelector.scoreAffinity. rewrite Hh, Hanti, Haff. reflexivity. }
    split; [exact Ha1 |]. split; [exact Ha2 |].
    pose proof (TotalScore_score math_Exp s req g1) as Ht1.
    pose proof (TotalScore_score math_Exp s req (withNodeID "g2" g1)) as Ht2.
    rewrite scoreBeforeAffinity_withNodeID in Ht2.
    rewrite Ha1 in Ht1. rewrite Ha2 in Ht2.
    change (ScoringWeights.Affinity (AISelector.weights s)) with 0.05%float
      in Ht1, Ht2.
    cbv zeta in Hlt. rewrite <- Ht1, <- Ht2 in Hlt.
    pose proof (float_ltb_asym _ _ Hlt) as Hge.
    assert (constraintChecker.check req (withNodeID "g2" g1) = None) as Hchk2
      by (rewrite check_withNodeID; exact Hchk).
    unfold AISelector.Select.
    destruct Hcands as [-> | ->]; simpl length; simpl Nat.eqb; cbv iota;
      rewrite !fmap_cons, fmap_nil,
        (scoreCandidate_eligible _ _ _ g1 Hchk),
        (scoreCandidate_eligible _ _ _ _ Hchk2);
      rewrite !filter_cons_True, filter_nil by reflexivity;
      simpl length; simpl Nat.eqb; cbv iota;
      rewrite Slice_two; unfold AISelector.byTotalScoreDesc;
      rewrite !TotalScore_set_eligibility.
    + rewrite Hlt. eexists. split; [reflexivity |]. split; reflexivity.
    + rewrite Hge. eexists. split; [reflexivity |]. split; reflexivity.
Qed.

(** Scenario D on two idle nodes. *)
Definition antiAffinityRequest : ScheduleRequest.t :=
  ScheduleRequest.mk (Some 0%nat) AIMode "" [] [] [] ∅ None
    (Some (ScheduleHints.mk "" false false "" ["g1"%string] ∅)) 0.

Lemma scenario_D_witness :
  exists decision,
    AISelector.Select (fun x => x) AISelector.NewDefaultAISelector 0
                      antiAffinityRequest
                      [idleNode "g1"; idleNode "g2"] = Ok decision
    /\ ScheduleDecision.SelectedNodeID decision = "g2"%string
    /\ ScheduleDecision.EligibleCount decision = 2%nat.
Proof.
  refine (proj2 (proj2 (proj2 scoreAffinity_cases_and_scenario_D
            (fun x => x) 0 antiAffinityRequest
            (ScheduleHints.mk "" false false "" ["g1"%string] ∅)
            (idleNode "g1") (idleNode "g2") _
            eq_refl eq_refl eq_refl eq_refl eq_refl eq_refl _ (or_introl eq_refl)))).
  vm_compute. reflexivity.
Defined.

(** ** The monitor's tick *)

Module MonitorFacts.

(** The two conditions [checkTasks] evaluates for a watched entry. *)
Definition timedOut (now : Time) (wt : watchedTask.t) : Prop :=
  watchedTask.timeout wt < Time_Sub now (watchedTask.startedAt wt).

Definition stalled (m : taskMonitor.t) (now : Time) (wt : watchedTask.t)
  : Prop :=
  MonitorConfig.StallThreshold (taskMonitor.config m)
  < Time_Sub now (watchedTask.lastHeartbeat wt).

#[global] Instance timedOut_dec now wt : Decision (timedOut now wt).
Proof. unfold timedOut. apply _. Defined.

#[global] Instance stalled_dec m now wt : Decision (stalled m now wt).
Proof. unfold stalled. apply _. Defined.

Lemma Zltb_bool_decide (a b : Z) : (a <? b) = bool_decide (a < b).
Proof.
  destruct (Z.ltb_spec a b).
  - by rewrite bool_decide_eq_true_2.
  - rewrite bool_decide_eq_false_2; [done | lia].
Qed.

Definition callOf (c : check.t) : HandlerCall :=
  if check.timeout c then CallOnTaskTimeout (check.id c)
  else CallOnTaskStalled (check.id c).

Definition unwatchTimedOut (m : taskMonitor.t) (c : check.t) : taskMonitor.t :=
  if check.timeout c then taskMonitor.Unwatch m (check.id c) else m.

Lemma elem_of_snapshot now m c :
  c ∈ taskMonitor.snapshot now m <->
  exists wt,
    taskMonitor.watched m !! check.id c = Some wt
    /\ check.timeout c
       = (watchedTask.timeout wt <? Time_Sub now (watchedTask.startedAt wt))
    /\ check.stalled c
       = (MonitorConfig.StallThreshold (taskMonitor.config m)
            <? Time_Sub now (watchedTask.lastHeartbeat wt))
    /\ check.timeout c || check.stalled c = true.
Proof.
  unfold taskMonitor.snapshot. rewrite list_elem_of_omap. split.
  - intros ([id wt] & Hin & Hc). apply elem_of_map_to_list in Hin.
    destruct (_ || _) eqn:E; [| discriminate].
    injection Hc as <-. simpl. exists wt. auto.
  - intros (wt & Hwt & Ht & Hs & Hor). exists (check.id c, wt).
    split; [by apply elem_of_map_to_list |].
    rewrite <- Ht, <- Hs, Hor. by destruct c.
Qed.

Lemma snapshot_ids_NoDup now m :
  NoDup (check.id <$> taskMonitor.snapshot now m).
Proof.
  unfold taskMonitor.snapshot.
  pose proof (NoDup_fst_map_to_list (taskMonitor.watched m)) as Hnd.
  induction (map_to_list (taskMonitor.watched m)) as [|[id wt] l IH];
    simpl; [constructor |].
  inversion Hnd as [|? ? Hnotin Hnd']; subst.
  destruct (_ || _) eqn:E; simpl; [| by apply IH].
  constructor; [| by apply IH].
  intros Hin. apply Hnotin. clear -Hin.
  apply list_elem_of_fmap in Hin as (c & -> & Hc).
  apply list_elem_of_omap in Hc as ([id' wt'] & Hin' & Hc).
  destruct (_ || _); [| discriminate]. injection Hc as <-. simpl.
  apply list_elem_of_fmap. by exists (id', wt').
Qed.

Lemma fire_recording_step (c : check.t) (m : taskMonitor.t)
    (log : list HandlerCall) :
  check.timeout c || check.stalled c = true ->
  taskMonitor.fire fst (fun m s => (m, snd s))
    recordingHandler.OnTaskTimeout recordingHandler.OnTaskStalled (m, log) c
  = (unwatchTimedOut m c, log ++ [callOf c]).
Proof.
  unfold taskMonitor.fire, unwatchTimedOut, callOf.
  destruct (check.timeout c); simpl; [done |]. by intros ->.
Qed.

Lemma fire_recording (cs : list check.t) (m : taskMonitor.t)
    (log : list HandlerCall) :
  Forall (fun c => check.timeout c || check.stalled c = true) cs ->
  foldl (taskMonitor.fire fst (fun m s => (m, snd s))
           recordingHandler.OnTaskTimeout recordingHandler.OnTaskStalled)
        (m, log) cs
  = (foldl unwatchTimedOut m cs, log ++ (callOf <$> cs)).
Proof.
  intros Hcs. revert m log.
  induction Hcs as [|c cs Hc _ IH]; intros m log; simpl.
  - by rewrite app_nil_r.
  - rewrite fire_recording_step by done. rewrite IH.
    by rewrite <- app_assoc.
Qed.

Lemma unwatchTimedOut_other (cs : list check.t) (m : taskMonitor.t) id :
  ~ Exists (fun c => check.id c = id /\ check.timeout c = true) cs ->
  taskMonitor.watched (foldl unwatchTimedOut m cs) !! id
  = taskMonitor.watched m !! id.
Proof.
  revert m. induction cs as [|c cs IH]; intros m Hno; cbn [foldl]; [done |].
  rewrite Exists_cons in Hno. rewrite IH by tauto.
  unfold unwatchTimedOut. destruct (check.timeout c) eqn:Et; [| done].
  simpl. apply lookup_delete_ne. intros Hid. tauto.
Qed.

Lemma unwatchTimedOut_gone (cs : list check.t) (m : taskMonitor.t) id :
  Exists (fun c => check.id c = id /\ check.timeout c = true) cs ->
  taskMonitor.watched (foldl unwatchTimedOut m cs) !! id = None.
Proof.
  revert m. induction cs as [|c cs IH]; intros m Hex; cbn [foldl].
  - by apply Exists_nil in Hex.
  - destruct (decide (Exists (fun c => check.id c = id
                                       /\ check.timeout c = true) cs))
      as [Hcs | Hcs]; [by apply IH |].
    apply Exists_cons in Hex as [[Hid Ht] | Hex]; [| done].
    rewrite unwatchTimedOut_other by done.
    unfold unwatchTimedOut. rewrite Ht, <- Hid. simpl.
    apply lookup_delete_eq.
Qed.

Lemma checkTasks_recording now m :
  recordingHandler.checkTasks now m
  = (foldl unwatchTimedOut m (taskMonitor.snapshot now m),
     callOf <$> taskMonitor.snapshot now m).
Proof.
  unfold recordingHandler.checkTasks, taskMonitor.checkTasks. simpl.
  rewrite fire_recording; [done |].
  apply Forall_forall. intros c Hc.
  apply elem_of_snapshot in Hc as (? & ? & ? & ? & ?). done.
Qed.

End MonitorFacts.

Import MonitorFacts.

(** C6: on a tick at time [now], for every watched entry: if
    [now - startedAt] exceeds the entry's timeout, [OnTaskTimeout] is
    invoked, [OnTaskStalled] is not, and the entry is removed from the
    watched set, also when it is stalled as well; otherwise, if
    [now - lastHeartbeat] exceeds [StallThreshold], [OnTaskStalled] is
    invoked and the entry stays watched as it was; otherwise nothing is
    invoked for it and it stays. No call is made twice. [Watch] sets the
    entry's timeout to the task's [Timeout], or to [DefaultTimeout] when
    that is zero. *)
Theorem checkTasks_timeout_then_stall (now : Time) (m : taskMonitor.t) :
  (forall id wt,
     taskMonitor.watched m !! id = Some wt ->
     let m' := fst (recordingHandler.checkTasks now m) in
     let calls := snd (recordingHandler.checkTasks now m) in
     (timedOut now wt ->
        (CallOnTaskTimeout id ∈ calls) /\ (CallOnTaskStalled id ∉ calls)
        /\ taskMonitor.watched m' !! id = None)
     /\ (~ timedOut now wt -> stalled m now wt ->
           (CallOnTaskStalled id ∈ calls) /\ (CallOnTaskTimeout id ∉ calls)
           /\ taskMonitor.watched m' !! id = Some wt)
     /\ (~ timedOut now wt -> ~ stalled m now wt ->
           (CallOnTaskStalled id ∉ calls) /\ (CallOnTaskTimeout id ∉ calls)
           /\ taskMonitor.watched m' !! id = Some wt))
  /\ NoDup (snd (recordingHandler.checkTasks now m))
  /\ (forall mem task,
        taskMonitor.watched (taskMonitor.Watch mem now m task)
          !! Task.ID (deref mem task)
        = Some (watchedTask.mk task now now
                  (if Task.Timeout (deref mem task) =? 0
                   then MonitorConfig.DefaultTimeout (taskMonitor.config m)
                   else Task.Timeout (deref mem task)))).
Proof.
  rewrite checkTasks_recording. simpl.
  split; [| split].
  - intros id wt Hwt.
    assert (forall c, c ∈ taskMonitor.snapshot now m -> check.id c = id ->
              check.timeout c = bool_decide (timedOut now wt)
              /\ check.stalled c = bool_decide (stalled m now wt)) as Hsnap.
    { intros c Hc Hid. apply elem_of_snapshot in Hc as (wt' & Hwt' & Ht & Hs & _).
      rewrite Hid, Hwt in Hwt'. injection Hwt' as <-.
      rewrite Ht, Hs. unfold timedOut, stalled.
      split; apply Zltb_bool_decide. }
    assert (timedOut now wt \/ stalled m now wt ->
              check.mk id (bool_decide (timedOut now wt))
                          (bool_decide (stalled m now wt))
              ∈ taskMonitor.snapshot now m) as Hin.
    { intros Hor. apply elem_of_snapshot. exists wt. simpl.
      split; [done |]. unfold timedOut, stalled in *.
      split; [| split].
      - symmetry. apply Zltb_bool_decide.
      - symmetry. apply Zltb_bool_decide.
      - apply orb_true_iff. rewrite !bool_decide_eq_true. done. }
    assert (forall call, call ∈ callOf <$> taskMonitor.snapshot now m ->
              (call = CallOnTaskTimeout id -> timedOut now wt)
              /\ (call = CallOnTaskStalled id ->
                  ~ timedOut now wt /\ stalled m now wt)) as Hcalls.
    { intros call Hcall. apply list_elem_of_fmap in Hcall as (c & -> & Hc).
      unfold callOf. destruct (check.timeout c) eqn:Et.
      - split; [| discriminate]. intros [= Hid].
        destruct (Hsnap c Hc Hid) as [Ht' _]. rewrite Et in Ht'.
        symmetry in Ht'. by apply bool_decide_eq_true_1 in Ht'.
      - split; [discriminate |]. intros [= Hid].
        destruct (Hsnap c Hc Hid) as [Ht' Hs']. rewrite Et in Ht'.
        symmetry in Ht'. apply bool_decide_eq_false_1 in Ht'.
        apply elem_of_snapshot in Hc as (_ & _ & _ & _ & Hor).
        rewrite Et in Hor. simpl in Hor. rewrite Hor in Hs'.
        symmetry in Hs'. by apply bool_decide_eq_true_1 in Hs'. }
    split; [| split].
    + intros Hto. split; [| split].
      * apply list_elem_of_fmap. eexists. split; [| apply Hin; auto].
        unfold callOf. simpl. by rewrite bool_decide_eq_true_2.
      * intros Hcall. apply Hcalls in Hcall as [_ Hs]. by destruct Hs.
      * apply unwatchTimedOut_gone, Exists_exists.
        eexists. split; [apply Hin; auto |]. simpl.
        by rewrite bool_decide_eq_true_2.
    + intros Hnto Hst. split; [| split].
      * apply list_elem_of_fmap. eexists. split; [| apply Hin; auto].
        unfold callOf. simpl. by rewrite bool_decide_eq_false_2.
      * intros Hcall. apply Hcalls in Hcall as [Ht _]. by apply Hnto, Ht.
      * rewrite unwatchTimedOut_other; [done |]. rewrite Exists_exists.
        intros (c & Hc & Hid & Ht). destruct (Hsnap c Hc Hid) as [Ht' _].
        rewrite Ht in Ht'. symmetry in Ht'.
        by apply bool_decide_eq_true_1 in Ht'.
    + intros Hnto Hnst. split; [| split].
      * intros Hcall. apply Hcalls in Hcall as [_ Hs]. by destruct Hs.
      * intros Hcall. apply Hcalls in Hcall as [Ht _]. by apply Hnto, Ht.
      * rewrite unwatchTimedOut_other; [done |]. rewrite Exists_exists.
        intros (c & Hc & Hid & Ht). destruct (Hsnap c Hc Hid) as [Ht' _].
        rewrite Ht in Ht'. symmetry in Ht'.
        by apply bool_decide_eq_true_1 in Ht'.
  - pose proof (snapshot_ids_NoDup now m) as Hnd.
    induction (taskMonitor.snapshot now m) as [|c cs IH]; simpl;
      [constructor |].
    inversion Hnd as [|? ? Hnotin Hnd']; subst.
    constructor; [| by apply IH].
    intros Hin. apply Hnotin.
    apply list_elem_of_fmap in Hin as (c' & Heq & Hc').
    apply list_elem_of_fmap. exists c'. split; [| done].
    unfold callOf in Heq.
    destruct (check.timeout c), (check.timeout c'); congruence.
  - intros mem task. unfold taskMonitor.Watch. simpl.
    by rewrite lookup_insert_eq.
Qed.

(** ** The scheduler facade *)

Module SchedulerFacts.
Import defaultScheduler.

(** The events of the facade, by type and task pointer. *)
Definition eventOf (ty : TaskEventType) (task : option TaskPtr) (now : Time)
  : TaskEvent.t :=
  TaskEvent.mk ty task None "" None None None now.

Definition statusOf (s : t) (p : TaskPtr) : option TaskStatus :=
  Task.Status <$> mem s !! p.

Definition unknownMode (req : ScheduleRequest.t) : Prop :=
  ScheduleRequest.Mode req <> DirectMode /\ ScheduleRequest.Mode req <> AIMode.

Definition directWithoutTarget (req : ScheduleRequest.t) : Prop :=
  ScheduleRequest.Mode req = DirectMode
  /\ ScheduleRequest.TargetNodeID req = ""%string.

(** What [Schedule] does to the state when immediate dispatch fails before
    a node is selected: the submission is counted, the request is queued
    and [Submitted] is emitted. *)
Definition queuedForRetry (now : Time) (req : ScheduleRequest.t) (s : t) : t :=
  let s := set_stats (StatsCollector.RecordSubmission (stats s)) s in
  let s := set_queue (PriorityQueue.Enqueue (mem s) (queue s) req) s in
  emitEvent (eventOf EventTypeSubmitted (ScheduleRequest.Task req) now) s.

Lemma tryDispatch_invalid math_Exp env s req :
  unknownMode req \/ directWithoutTarget req ->
  exists err, tryDispatch math_Exp env s req = (Err err, s).
Proof.
  intros Hbad. unfold tryDispatch.
  destruct (Env.ListProfiles env) as [candidates | err]; [| eauto].
  destruct (length candidates =? 0)%nat; [eauto |].
  destruct Hbad as [[Hd Ha] | [Hd Ht]].
  - destruct (String.eqb_spec (ScheduleRequest.Mode req) DirectMode);
      [done |].
    destruct (String.eqb_spec (ScheduleRequest.Mode req) AIMode); [done |].
    eauto.
  - rewrite Hd. rewrite String.eqb_refl.
    unfold DirectSelector.Select. rewrite Ht. simpl. eauto.
Qed.

End SchedulerFacts.

Import SchedulerFacts.

(** C7 (as amended): [Schedule] with a nil task returns an error and
    leaves the state as it was. With a task and an unknown mode, or direct
    mode and an empty target ID, it also returns an error, but the state
    changes: the submission counter is incremented, the request is
    enqueued and a [Submitted] event is emitted; the task table, the task
    objects and the monitor stay as they were. *)
Theorem Schedule_validation_errors math_Exp env s req :
  (ScheduleRequest.Task req = None ->
   defaultScheduler.Schedule math_Exp env s req = (Err ErrNilTask, s))
  /\ (is_Some (ScheduleRequest.Task req) ->
      unknownMode req \/ directWithoutTarget req ->
      exists err,
        defaultScheduler.Schedule math_Exp env s req
        = (Err (ErrQueued err
                  (Task.ID (deref (defaultScheduler.mem s)
                                  (ScheduleRequest.Task req)))),
           queuedForRetry (Env.now env) req s)
        /\ SchedulerStats.TotalSubmitted
             (StatsCollector.stats
                (defaultScheduler.stats (queuedForRetry (Env.now env) req s)))
           = int64_add
               (SchedulerStats.TotalSubmitted
                  (StatsCollector.stats (defaultScheduler.stats s))) 1
        /\ defaultScheduler.queue (queuedForRetry (Env.now env) req s)
           = PriorityQueue.Enqueue (defaultScheduler.mem s)
                                   (defaultScheduler.queue s) req
        /\ defaultScheduler.emitted (queuedForRetry (Env.now env) req s)
           = defaultScheduler.emitted s
             ++ [eventOf EventTypeSubmitted (ScheduleRequest.Task req)
                         (Env.now env)]
        /\ defaultScheduler.tasks (queuedForRetry (Env.now env) req s)
           = defaultScheduler.tasks s
        /\ defaultScheduler.mem (queuedForRetry (Env.now env) req s)
           = defaultScheduler.mem s
        /\ defaultScheduler.monitor (queuedForRetry (Env.now env) req s)
           = defaultScheduler.monitor s).
Proof.
  unfold defaultScheduler.Schedule. split.
  - intros ->. reflexivity.
  - intros [p Hp] Hbad. rewrite Hp.
    destruct (tryDispatch_invalid math_Exp env
                (defaultScheduler.set_stats
                   (StatsCollector.RecordSubmission (defaultScheduler.stats s)) s)
                req Hbad) as [err Herr].
    rewrite Herr. exists err. rewrite <- Hp.
    repeat split.
Qed.

(** Fixtures: one task object at address 0, one idle online node. *)
Definition task1 : Task.t := Task.mk "t1" 0 0 "" TaskStatusPending None None.

Definition store1 : gmap TaskPtr Task.t := {[ 0%nat := task1 ]}.

Definition envOK (now : Time) : Env.t :=
  Env.mk now (Ok [idleNode "g1"]) (fun _ _ => None).

Definition aiRequest : ScheduleRequest.t :=
  ScheduleRequest.mk (Some 0%nat) AIMode "" [] [] [] ∅ None None 0.

Definition bogusModeRequest : ScheduleRequest.t :=
  ScheduleRequest.mk (Some 0%nat) "bogus" "" [] [] [] ∅ None None 0.

Definition scheduler0 : defaultScheduler.t :=
  defaultScheduler.New DefaultSchedulerConfig store1.

Definition totalCancelled (s : defaultScheduler.t) : Z :=
  SchedulerStats.TotalCancelled (StatsCollector.stats (defaultScheduler.stats s)).

Definition totalSubmitted (s : defaultScheduler.t) : Z :=
  SchedulerStats.TotalSubmitted (StatsCollector.stats (defaultScheduler.stats s)).

Definition eventTypes (s : defaultScheduler.t) : list TaskEventType :=
  TaskEvent.Type_ <$> defaultScheduler.emitted s.

(** C7 (as stated) fails: a request with an unknown mode is counted,
    queued and announced. *)
Lemma Schedule_unknown_mode_mutates :
  fst (defaultScheduler.Schedule (fun x => x) (envOK 0) scheduler0
         bogusModeRequest)
  = Err (ErrQueued (ErrUnknownMode "bogus") "t1")
  /\ totalSubmitted scheduler0 = 0
  /\ totalSubmitted
       (snd (defaultScheduler.Schedule (fun x => x) (envOK 0) scheduler0
               bogusModeRequest)) = 1
  /\ PriorityQueue.Len
       (defaultScheduler.queue
          (snd (defaultScheduler.Schedule (fun x => x) (envOK 0) scheduler0
                  bogusModeRequest))) = 1%nat
  /\ eventTypes
       (snd (defaultScheduler.Schedule (fun x => x) (envOK 0) scheduler0
               bogusModeRequest)) = [EventTypeSubmitted].
Proof. vm_compute. repeat split. Qed.

Lemma set_Status_same (x : Task.t) :
  Task.set_Status (Task.Status x) x = x.
Proof. by destruct x. Qed.

Lemma updateTask_same p f (mem : gmap TaskPtr Task.t) :
  (forall a x, p = Some a -> mem !! a = Some x -> f x = x) ->
  updateTask p f mem = mem.
Proof.
  intros Hf. destruct p as [a|]; simpl; [| done].
  apply map_eq. intros b. rewrite lookup_alter.
  case_decide as Hab; [| done]. subst b.
  destruct (mem !! a) as [x|] eqn:E; simpl; [| done].
  f_equal. eauto.
Qed.

Lemma deref_Some p (mem : gmap TaskPtr Task.t) a x :
  p = Some a -> mem !! a = Some x -> deref mem p = x.
Proof. intros -> H. unfold deref. simpl. by rewrite H. Qed.

(** A task is already cancelled when its record's task object has status
    [Cancelled]; it is unknown when it has no record. *)
Definition alreadyCancelled (s : defaultScheduler.t) (taskID : string) : Prop :=
  exists rec,
    defaultScheduler.tasks s !! taskID = Some rec
    /\ Task.Status (deref (defaultScheduler.mem s) (taskRecord.task rec))
       = TaskStatusCancelled.

Definition unknownTask (s : defaultScheduler.t) (taskID : string) : Prop :=
  defaultScheduler.tasks s !! taskID = None.

Lemma setStatus_alreadyCancelled s taskID :
  alreadyCancelled s taskID \/ unknownTask s taskID ->
  defaultScheduler.setStatus taskID TaskStatusCancelled s = s.
Proof.
  unfold defaultScheduler.setStatus, alreadyCancelled, unknownTask.
  intros [(rec & Hrec & Hst) | Hnone].
  - rewrite Hrec. rewrite updateTask_same; [by destruct s |].
    intros a x Hp Hx. rewrite (deref_Some _ _ a x Hp Hx) in Hst.
    rewrite <- Hst. apply set_Status_same.
  - by rewrite Hnone.
Qed.

(** [Cancel] as a step on everything but the queue and the monitor. *)
Lemma Cancel_effect now s taskID :
  let s' := snd (defaultScheduler.Cancel now s taskID) in
  fst (defaultScheduler.Cancel now s taskID) = None
  /\ defaultScheduler.stats s'
     = StatsCollector.RecordCancellation (defaultScheduler.stats s) taskID
  /\ defaultScheduler.tasks s' = defaultScheduler.tasks s
  /\ defaultScheduler.mem s'
     = defaultScheduler.mem
         (defaultScheduler.setStatus taskID TaskStatusCancelled s)
  /\ defaultScheduler.emitted s'
     = defaultScheduler.emitted s
       ++ [eventOf EventTypeCancelled (defaultScheduler.getTask s taskID) now].
Proof.
  unfold defaultScheduler.Cancel.
  destruct (PriorityQueue.Remove _ _ _) as [[] q]; simpl;
    unfold defaultScheduler.setStatus, defaultScheduler.getTask; simpl;
    destruct (defaultScheduler.tasks s !! taskID) eqn:E; simpl;
    rewrite ?E; repeat split.
Qed.

(** C8 (as amended): [Cancel] on a task that is already cancelled, or
    unknown, returns nil and changes no task object, so no status; but it
    is not a no-op: it increments [TotalCancelled] and emits one more
    [Cancelled] event. *)
Theorem Cancel_again_counts_again now s taskID :
  alreadyCancelled s taskID \/ unknownTask s taskID ->
  fst (defaultScheduler.Cancel now s taskID) = None
  /\ defaultScheduler.mem (snd (defaultScheduler.Cancel now s taskID))
     = defaultScheduler.mem s
  /\ defaultScheduler.tasks (snd (defaultScheduler.Cancel now s taskID))
     = defaultScheduler.tasks s
  /\ totalCancelled (snd (defaultScheduler.Cancel now s taskID))
     = int64_add (totalCancelled s) 1
  /\ defaultScheduler.emitted (snd (defaultScheduler.Cancel now s taskID))
     = defaultScheduler.emitted s
       ++ [eventOf EventTypeCancelled (defaultScheduler.getTask s taskID) now].
Proof.
  intros Hc. destruct (Cancel_effect now s taskID) as (He & Hs & Ht & Hm & Hev).
  split; [done |]. split.
  - rewrite Hm. by rewrite setStatus_alreadyCancelled.
  - split; [done |]. split; [| done].
    unfold totalCancelled. by rewrite Hs.
Qed.

(** The scheduler after [t1] was dispatched and then cancelled. *)
Definition cancelledOnce : defaultScheduler.t :=
  snd (defaultScheduler.Cancel 1
         (snd (defaultScheduler.Schedule (fun x => x) (envOK 0) scheduler0
                 aiRequest)) "t1").

Lemma Cancel_again_witness :
  totalCancelled (snd (defaultScheduler.Cancel 2 cancelledOnce "t1"))
  = int64_add (totalCancelled cancelledOnce) 1.
Proof.
  refine (proj1 (proj2 (proj2 (proj2
            (Cancel_again_counts_again 2 cancelledOnce "t1" _))))).
  left. eexists. split; vm_compute; reflexivity.
Defined.

(** C8 (as stated) fails: the second [Cancel] of a cancelled task counts
    and announces the cancellation again. *)
Lemma Cancel_twice_counts_twice :
  statusOf cancelledOnce 0%nat = Some TaskStatusCancelled
  /\ totalCancelled cancelledOnce = 1
  /\ eventTypes cancelledOnce = [EventTypeAssigned; EventTypeCancelled]
  /\ fst (defaultScheduler.Cancel 2 cancelledOnce "t1") = None
  /\ totalCancelled (snd (defaultScheduler.Cancel 2 cancelledOnce "t1")) = 2
  /\ eventTypes (snd (defaultScheduler.Cancel 2 cancelledOnce "t1"))
     = [EventTypeAssigned; EventTypeCancelled; EventTypeCancelled].
Proof. vm_compute. repeat split. Qed.

(** [Cancel] of a task ID that has no record in the task table returns nil
    after incrementing [TotalCancelled] and emitting a [Cancelled] event
    whose task pointer is nil. *)
Lemma Cancel_without_record now s taskID :
  unknownTask s taskID ->
  fst (defaultScheduler.Cancel now s taskID) = None
  /\ totalCancelled (snd (defaultScheduler.Cancel now s taskID))
     = int64_add (totalCancelled s) 1
  /\ (totalCancelled s < maxInt64 -> minInt64 <= totalCancelled s ->
      totalCancelled (snd (defaultScheduler.Cancel now s taskID))
      = totalCancelled s + 1)
  /\ defaultScheduler.emitted (snd (defaultScheduler.Cancel now s taskID))
     = defaultScheduler.emitted s
       ++ [TaskEvent.mk EventTypeCancelled None None "" None None None now].
Proof.
  intros Hu. destruct (Cancel_effect now s taskID) as (He & Hs & Ht & Hm & Hev).
  assert (totalCancelled (snd (defaultScheduler.Cancel now s taskID))
          = int64_add (totalCancelled s) 1) as Hc
    by (unfold totalCancelled; by rewrite Hs).
  split; [done |]. split; [done |]. split.
  - intros ? ?. rewrite Hc. apply int64_add_1. lia.
  - rewrite Hev. unfold eventOf, defaultScheduler.getTask.
    unfold unknownTask in Hu. by rewrite Hu.
Qed.

(** ** Status transitions *)

(** What a write of [status] through a record's task pointer does to the
    object at address [p]: it is left as it was or gets [status]. *)
Lemma updateTask_status q (f : Task.t -> Task.t) status
    (mem : gmap TaskPtr Task.t) p x :
  (forall y, Task.Status (f y) = status) ->
  mem !! p = Some x ->
  exists x', updateTask q f mem !! p = Some x'
             /\ (Task.Status x' = Task.Status x \/ Task.Status x' = status).
Proof.
  intros Hf Hx. destruct q as [a|]; simpl; [| eauto].
  rewrite lookup_alter. case_decide as Hap.
  - subst a. rewrite Hx. simpl. eauto.
  - eauto.
Qed.

Lemma setStatus_status taskID status s p x :
  defaultScheduler.mem s !! p = Some x ->
  exists x',
    defaultScheduler.mem (defaultScheduler.setStatus taskID status s) !! p
    = Some x'
    /\ (Task.Status x' = Task.Status x \/ Task.Status x' = status).
Proof.
  intros Hx. unfold defaultScheduler.setStatus.
  destruct (defaultScheduler.tasks s !! taskID) as [rec|]; [| eauto].
  simpl. by apply updateTask_status.
Qed.

Lemma OnTaskTimeout_mem now taskID s :
  defaultScheduler.mem (defaultScheduler.OnTaskTimeout now taskID s)
  = defaultScheduler.mem
      (defaultScheduler.setStatus taskID TaskStatusTimedOut s).
Proof.
  unfold defaultScheduler.OnTaskTimeout, defaultScheduler.setStatus. simpl.
  by destruct (defaultScheduler.tasks s !! taskID).
Qed.

Lemma OnTaskStalled_mem now taskID s :
  defaultScheduler.mem (defaultScheduler.OnTaskStalled now taskID s)
  = defaultScheduler.mem s.
Proof.
  unfold defaultScheduler.OnTaskStalled.
  destruct (defaultScheduler.tasks s !! taskID) as [rec|]; [| done].
  by destruct (if _ <? _ then _ else _).
Qed.

Definition resultStatus (result : TaskResult.t) : TaskStatus :=
  if TaskResult.Success result then TaskStatusCompleted else TaskStatusFailed.

Lemma ReportResult_status now s result p x :
  defaultScheduler.mem s !! p = Some x ->
  exists x',
    defaultScheduler.mem (defaultScheduler.ReportResult now s result) !! p
    = Some x'
    /\ (Task.Status x' = Task.Status x
        \/ Task.Status x' = resultStatus result).
Proof.
  intros Hx. unfold defaultScheduler.ReportResult. simpl.
  destruct (defaultScheduler.tasks s !! TaskResult.TaskID result) as [rec|];
    simpl.
  - destruct (updateTask_status (taskRecord.task rec)
                (fun x0 => Task.set_Status (resultStatus result)
                             (Task.set_CompletedAt (Some now) x0))
                (resultStatus result) (defaultScheduler.mem s) p x)
      as (x' & Hx' & Hst); [done | done |].
    exists x'. split; [| done].
    unfold resultStatus in Hx'. by destruct (TaskResult.Success result).
  - exists x. split; [| by left]. by destruct (TaskResult.Success result).
Qed.

(** C5 (as amended): once a task object's status is terminal, [Cancel],
    [ReportResult], [OnTaskTimeout] and [OnTaskStalled] leave it terminal.
    [OnTaskStalled] changes no task object; each of the other three leaves
    the status as it is or overwrites it with its own terminal value
    ([Cancelled]; [Completed] or [Failed]; [TimedOut]), whatever it was. *)
Theorem terminal_status_stays_terminal s p x :
  defaultScheduler.mem s !! p = Some x ->
  terminal (Task.Status x) = true ->
  (forall now taskID, exists x',
      defaultScheduler.mem (snd (defaultScheduler.Cancel now s taskID)) !! p
      = Some x'
      /\ terminal (Task.Status x') = true
      /\ (Task.Status x' = Task.Status x
          \/ Task.Status x' = TaskStatusCancelled))
  /\ (forall now result, exists x',
      defaultScheduler.mem (defaultScheduler.ReportResult now s result) !! p
      = Some x'
      /\ terminal (Task.Status x') = true
      /\ (Task.Status x' = Task.Status x
          \/ Task.Status x' = resultStatus result))
  /\ (forall now taskID, exists x',
      defaultScheduler.mem (defaultScheduler.OnTaskTimeout now taskID s) !! p
      = Some x'
      /\ terminal (Task.Status x') = true
      /\ (Task.Status x' = Task.Status x
          \/ Task.Status x' = TaskStatusTimedOut))
  /\ (forall now taskID,
      defaultScheduler.mem (defaultScheduler.OnTaskStalled now taskID s)
      = defaultScheduler.mem s).
Proof.
  intros Hx Hterm. split; [| split; [| split]].
  - intros now taskID.
    destruct (Cancel_effect now s taskID) as (_ & _ & _ & Hm & _).
    rewrite Hm.
    destruct (setStatus_status taskID TaskStatusCancelled s p x Hx)
      as (x' & Hx' & Hst).
    exists x'. split; [done |]. split; [| done].
    by destruct Hst as [-> | ->].
  - intros now result.
    destruct (ReportResult_status now s result p x Hx) as (x' & Hx' & Hst).
    exists x'. split; [done |]. split; [| done].
    destruct Hst as [-> | ->]; [done |].
    unfold resultStatus. by destruct (TaskResult.Success result).
  - intros now taskID. rewrite OnTaskTimeout_mem.
    destruct (setStatus_status taskID TaskStatusTimedOut s p x Hx)
      as (x' & Hx' & Hst).
    exists x'. split; [done |]. split; [| done].
    by destruct Hst as [-> | ->].
  - intros now taskID. apply OnTaskStalled_mem.
Qed.

(** The scheduler after [t1] was dispatched and reported successful. *)
Definition completedOnce : defaultScheduler.t :=
  defaultScheduler.ReportResult 1
    (snd (defaultScheduler.Schedule (fun x => x) (envOK 0) scheduler0 aiRequest))
    (TaskResult.mk "t1" true "").

Lemma terminal_status_witness :
  exists x',
    defaultScheduler.mem (defaultScheduler.OnTaskTimeout 2 "t1" completedOnce)
      !! 0%nat = Some x'
    /\ terminal (Task.Status x') = true
    /\ (Task.Status x' = TaskStatusCompleted
        \/ Task.Status x' = TaskStatusTimedOut).
Proof.
  refine (proj1 (proj2 (proj2
            (terminal_status_stays_terminal completedOnce 0%nat
               (Task.mk "t1" 0 0 "g1" TaskStatusCompleted (Some 0) (Some 1))
               _ _))) 2 "t1").
  - vm_compute. reflexivity.
  - reflexivity.
Defined.

(** C5 (as stated) fails: [Cancel] turns a [Completed] task into a
    [Cancelled] one. *)
Lemma Cancel_overwrites_Completed :
  statusOf completedOnce 0%nat = Some TaskStatusCompleted
  /\ statusOf (snd (defaultScheduler.Cancel 2 completedOnce "t1")) 0%nat
     = Some TaskStatusCancelled.
Proof. vm_compute. split; reflexivity. Qed.

(** ** A stalled task *)

(** The scheduler after [t1] was dispatched at time 0 and the monitor
    ticked 61 seconds later, no heartbeat received: with the default
    configuration the task is stalled and not timed out. *)
Definition stalledOnce : defaultScheduler.t :=
  defaultScheduler.monitorTick (61 * second)
    (snd (defaultScheduler.Schedule (fun x => x) (envOK 0) scheduler0 aiRequest)).

(** C4, on the code: after [OnTaskStalled] reschedules [t1], the task is
    not terminal, its request is in the queue and it is still watched. *)
Lemma rescheduled_task_queued_and_watched :
  eventTypes stalledOnce = [EventTypeAssigned; EventTypeRescheduled]
  /\ statusOf stalledOnce 0%nat = Some TaskStatusAssigned
  /\ PriorityQueue.Peek (defaultScheduler.queue stalledOnce) = Some aiRequest
  /\ taskMonitor.ActiveTasks (defaultScheduler.monitor stalledOnce)
     = ["t1"%string].
Proof. vm_compute. repeat split. Qed.

(** ** The heap of pending requests *)

Module HeapFacts.

(** An item without the slot bookkeeping of container/heap. *)
Definition core (x : heapItem.t) : heapItem.t := heapItem.set_index 0 x.

(** [x] is dequeued before [y]: strictly higher priority, or the same
    priority and inserted earlier. *)
Definition before (x y : heapItem.t) : Prop :=
  heapItem.priority y < heapItem.priority x
  \/ (heapItem.priority x = heapItem.priority y
      /\ heapItem.seq x < heapItem.seq y).

(** [x] may stand above [y] in the heap. *)
Definition le (x y : heapItem.t) : Prop := ~ before y x.

Definition parent (k : nat) : nat := ((k - 1) / 2)%nat.

Lemma lessItem_before x y : requestHeap.lessItem x y = true <-> before x y.
Proof.
  unfold requestHeap.lessItem, before.
  destruct (Z.eqb_spec (heapItem.priority x) (heapItem.priority y)); simpl.
  - rewrite Z.ltb_lt. lia.
  - rewrite Z.ltb_lt. lia.
Qed.

Lemma lessItem_false x y : requestHeap.lessItem x y = false <-> le y x.
Proof. rewrite <- not_true_iff_false, lessItem_before. reflexivity. Qed.

Lemma before_core x y : before (core x) (core y) <-> before x y.
Proof. reflexivity. Qed.

Lemma before_set_index_l i x y : before (heapItem.set_index i x) y <-> before x y.
Proof. reflexivity. Qed.

Lemma before_set_index_r i x y : before x (heapItem.set_index i y) <-> before x y.
Proof. reflexivity. Qed.

Lemma le_set_index i j x y :
  le (heapItem.set_index i x) (heapItem.set_index j y) <-> le x y.
Proof. reflexivity. Qed.

Lemma le_refl x : le x x.
Proof. unfold le, before. lia. Qed.

Lemma le_trans x y z : le x y -> le y z -> le x z.
Proof. unfold le, before. lia. Qed.

Lemma before_le x y : before x y -> le x y.
Proof. unfold le, before. lia. Qed.

Lemma before_total x y :
  heapItem.seq x <> heapItem.seq y -> before x y \/ before y x.
Proof. unfold before. lia. Qed.

Lemma before_asym x y : before x y -> ~ before y x.
Proof. unfold before. lia. Qed.

Lemma parent_lt k : (0 < k)%nat -> (parent k < k)%nat.
Proof.
  intros Hk. unfold parent.
  apply Nat.Div0.div_lt_upper_bound; lia.
Qed.

Lemma parent_children k i :
  (0 < k)%nat -> parent k = i <-> (k = 2 * i + 1 \/ k = 2 * i + 2)%nat.
Proof.
  intros Hk. unfold parent.
  pose proof (Nat.div_mod_eq (k - 1) 2) as Hdm.
  pose proof (Nat.mod_upper_bound (k - 1) 2 ltac:(lia)) as Hm.
  lia.
Qed.

(** The heap order on the first [n] slots, and its two weakenings during
    a sift: at [j] the item may be too small for its parent ([UpInv]), at
    [i] it may be too large for its children and of unknown order with
    its parent ([DownInv]). *)
Definition edgeOK (h : requestHeap.t) (k : nat) : Prop :=
  forall x y, h !! parent k = Some x -> h !! k = Some y -> le x y.

Definition aboveChildren (h : requestHeap.t) (n i : nat) : Prop :=
  forall k x y, (0 < k < n)%nat -> parent k = i ->
                h !! parent i = Some x -> h !! k = Some y -> le x y.

Definition Heap (h : requestHeap.t) (n : nat) : Prop :=
  forall k, (0 < k < n)%nat -> edgeOK h k.

Definition UpInv (h : requestHeap.t) (n j : nat) : Prop :=
  (forall k, (0 < k < n)%nat -> k <> j -> edgeOK h k)
  /\ ((0 < j)%nat -> aboveChildren h n j).

Definition DownInv (h : requestHeap.t) (n i : nat) : Prop :=
  (forall k, (0 < k < n)%nat -> k <> i -> parent k <> i -> edgeOK h k)
  /\ ((0 < i)%nat -> aboveChildren h n i).

(** *** Swap *)

Lemma Less_lookup h i j x y :
  h !! i = Some x -> h !! j = Some y ->
  requestHeap.Less h i j = requestHeap.lessItem x y.
Proof. intros Hx Hy. unfold requestHeap.Less. by rewrite Hx, Hy. Qed.

Lemma Swap_length h i j : length (requestHeap.Swap h i j) = length h.
Proof.
  unfold requestHeap.Swap.
  destruct (h !! i), (h !! j); try done.
  by rewrite !length_insert.
Qed.

Lemma Swap_lookup h i j k :
  (i < length h)%nat -> (j < length h)%nat ->
  requestHeap.Swap h i j !! k
  = if decide (k = j) then heapItem.set_index (Z.of_nat j) <$> h !! i
    else if decide (k = i) then heapItem.set_index (Z.of_nat i) <$> h !! j
    else h !! k.
Proof.
  intros Hi Hj. unfold requestHeap.Swap.
  destruct (lookup_lt_is_Some_2 h i Hi) as [x Hx].
  destruct (lookup_lt_is_Some_2 h j Hj) as [y Hy].
  rewrite Hx, Hy. simpl.
  destruct (decide (k = j)) as [-> | Hkj].
  - rewrite list_lookup_insert_eq; [done |]. by rewrite length_insert.
  - rewrite list_lookup_insert_ne by done.
    destruct (decide (k = i)) as [-> | Hki].
    + by rewrite list_lookup_insert_eq.
    + by rewrite list_lookup_insert_ne.
Qed.

Lemma Swap_lookup_other h i j k :
  k <> i -> k <> j -> requestHeap.Swap h i j !! k = h !! k.
Proof.
  intros Hi Hj. unfold requestHeap.Swap.
  destruct (h !! i), (h !! j); try done.
  by rewrite !list_lookup_insert_ne.
Qed.

Lemma Swap_core_perm h i j :
  core <$> requestHeap.Swap h i j ≡ₚ core <$> h.
Proof.
  unfold requestHeap.Swap.
  destruct (h !! i) as [x|] eqn:Hx, (h !! j) as [y|] eqn:Hy; try done.
  destruct (decide (i = j)) as [-> | Hne].
  - rewrite list_insert_insert_eq. rewrite list_fmap_insert.
    rewrite list_insert_id; [done |].
    rewrite list_lookup_fmap, Hx. reflexivity.
  - rewrite !list_fmap_insert.
    change (core (heapItem.set_index (Z.of_nat j) x)) with (core x).
    change (core (heapItem.set_index (Z.of_nat i) y)) with (core y).
    assert ((core <$> h) !! i = Some (core x)) as Hcx
      by (by rewrite list_lookup_fmap, Hx).
    assert ((core <$> h) !! j = Some (core y)) as Hcy
      by (by rewrite list_lookup_fmap, Hy).
    generalize dependent (core <$> h). intros l Hcx Hcy.
    apply Permutation_inj. split; [by rewrite !length_insert |].
    exists (fun k => if decide (k = i) then j else if decide (k = j) then i else k).
    split.
    + intros a b. repeat case_decide; congruence.
    + intros k. repeat case_decide; subst.
      * rewrite list_lookup_insert_ne by done.
        rewrite list_lookup_insert_eq by (by eapply lookup_lt_Some). done.
      * rewrite list_lookup_insert_eq
          by (rewrite length_insert; by eapply lookup_lt_Some). done.
      * by rewrite !list_lookup_insert_ne.
Qed.

Ltac order := unfold le, before in *; simpl in *; lia.

(** *** up *)

Lemma UpInv_Swap h n i j x p :
  (0 < j < n)%nat -> (n <= length h)%nat -> i = parent j ->
  h !! j = Some x -> h !! i = Some p -> before x p ->
  UpInv h n j -> UpInv (requestHeap.Swap h i j) n i.
Proof.
  intros Hj Hn -> Hx Hp Hxp [Hedges Habove].
  pose proof (parent_lt j ltac:(lia)) as Hij.
  assert (forall k, requestHeap.Swap h (parent j) j !! k
          = if decide (k = j) then Some (heapItem.set_index (Z.of_nat j) p)
            else if decide (k = parent j)
                 then Some (heapItem.set_index (Z.of_nat (parent j)) x)
                 else h !! k) as Hsw.
  { intros k. rewrite Swap_lookup by lia. by rewrite Hx, Hp. }
  split.
  - intros k Hk Hki a b Ha Hb. rewrite Hsw in Ha, Hb.
    pose proof (parent_lt k ltac:(lia)) as Hpk.
    destruct (decide (k = j)) as [-> | Hkj].
    + rewrite decide_False in Ha by lia. rewrite decide_True in Ha by done.
      injection Ha as <-. injection Hb as <-. order.
    + rewrite decide_False in Hb by done.
      destruct (decide (parent k = j)) as [Hpj | Hpj].
      * injection Ha as <-.
        specialize (Habove ltac:(lia) k p b ltac:(lia) Hpj Hp Hb). order.
      * destruct (decide (parent k = parent j)) as [Hpp | Hpp].
        -- injection Ha as <-. rewrite <- Hpp in Hp.
           specialize (Hedges k ltac:(lia) Hkj p b Hp Hb). order.
        -- exact (Hedges k ltac:(lia) Hkj a b Ha Hb).
  - intros Hi k a b Hk Hpk Ha Hb. rewrite Hsw in Ha, Hb.
    pose proof (parent_lt (parent j) Hi) as Hppj.
    rewrite decide_False in Ha by lia. rewrite decide_False in Ha by lia.
    pose proof (Hedges (parent j) ltac:(lia) ltac:(lia) a p Ha Hp) as Hap.
    destruct (decide (k = j)) as [-> | Hkj].
    + injection Hb as <-. order.
    + rewrite decide_False in Hb by (pose proof (parent_lt k); lia).
      rewrite <- Hpk in Hp.
      specialize (Hedges k ltac:(lia) Hkj p b Hp Hb). order.
Qed.

Lemma UpInv_Heap h n j :
  UpInv h n j -> (j = 0%nat \/ edgeOK h j) -> Heap h n.
Proof.
  intros [Hedges _] Hj k Hk.
  destruct (decide (k = j)) as [-> | Hkj]; [| by apply Hedges].
  destruct Hj as [-> | Hj]; [lia | done].
Qed.

Lemma up_loop_S fuel h j :
  heap.up_loop (S fuel) h j
  = if (parent j =? j)%nat || negb (requestHeap.Less h j (parent j)) then h
    else heap.up_loop fuel (requestHeap.Swap h (parent j) j) (parent j).
Proof. reflexivity. Qed.

Lemma up_loop_spec fuel h n j :
  (j < fuel)%nat -> (j < n <= length h)%nat -> UpInv h n j ->
  Heap (heap.up_loop fuel h j) n
  /\ length (heap.up_loop fuel h j) = length h
  /\ core <$> heap.up_loop fuel h j ≡ₚ core <$> h
  /\ forall m, (j < m)%nat -> heap.up_loop fuel h j !! m = h !! m.
Proof.
  revert h j. induction fuel as [|fuel IH]; intros h j Hfuel Hj Hinv; [lia |].
  rewrite up_loop_S.
  destruct (Nat.eqb_spec (parent j) j) as [Heq | Hne]; cbn [orb].
  { split; [| done]. apply (UpInv_Heap h n j Hinv). left.
    destruct j; [done |]. pose proof (parent_lt (S j)). lia. }
  assert (0 < j)%nat as Hj0 by (destruct j; [done | lia]).
  pose proof (parent_lt j Hj0) as Hpj.
  destruct (lookup_lt_is_Some_2 h j ltac:(lia)) as [x Hx].
  destruct (lookup_lt_is_Some_2 h (parent j) ltac:(lia)) as [p Hp].
  assert (requestHeap.Less h j (parent j) = requestHeap.lessItem x p) as ->
    by (unfold requestHeap.Less; by rewrite Hx, Hp).
  destruct (requestHeap.lessItem x p) eqn:Hless; cbn [negb].
  - apply lessItem_before in Hless.
    destruct (IH (requestHeap.Swap h (parent j) j) (parent j))
      as (Hheap & Hlen & Hperm & Hfar).
    + lia.
    + rewrite Swap_length. lia.
    + apply (UpInv_Swap h n (parent j) j x p); auto with lia.
    + split; [done |]. split; [by rewrite Hlen, Swap_length |].
      split; [by rewrite Hperm, Swap_core_perm |].
      intros m Hm. rewrite Hfar by lia. apply Swap_lookup_other; lia.
  - apply lessItem_false in Hless.
    split; [| done]. apply (UpInv_Heap h n j Hinv). right.
    intros a b Ha Hb. simplify_eq. done.
Qed.

(** *** down *)

(** [c], at slot [j], is a least child of slot [i] among the first [n]
    slots. *)
Definition leastChild (h : requestHeap.t) (n i j : nat) (c : heapItem.t)
  : Prop :=
  (0 < j < n)%nat /\ parent j = i /\ h !! j = Some c
  /\ forall k b, (0 < k < n)%nat -> parent k = i -> h !! k = Some b -> le c b.

Lemma DownInv_Swap h n i j v c :
  (n <= length h)%nat -> h !! i = Some v -> leastChild h n i j c ->
  before c v -> DownInv h n i ->
  DownInv (requestHeap.Swap h i j) n j /\ edgeOK (requestHeap.Swap h i j) j.
Proof.
  intros Hn Hv (Hj & Hpj & Hc & Hleast) Hcv [Hedges Habove].
  pose proof (parent_lt j ltac:(lia)) as Hij. rewrite Hpj in Hij.
  assert (forall k, requestHeap.Swap h i j !! k
          = if decide (k = j) then Some (heapItem.set_index (Z.of_nat j) v)
            else if decide (k = i)
                 then Some (heapItem.set_index (Z.of_nat i) c)
                 else h !! k) as Hsw.
  { intros k. rewrite Swap_lookup by lia. by rewrite Hv, Hc. }
  split; [split |].
  - intros k Hk Hkj Hpkj a b Ha Hb. rewrite Hsw in Ha, Hb.
    pose proof (parent_lt k ltac:(lia)) as Hpk.
    rewrite decide_False in Ha by done. rewrite decide_False in Hb by done.
    destruct (decide (k = i)) as [-> | Hki].
    + injection Hb as <-. rewrite decide_False in Ha by lia.
      specialize (Habove ltac:(lia) j a c ltac:(lia) Hpj Ha Hc). order.
    + destruct (decide (parent k = i)) as [Hpki | Hpki].
      * injection Ha as <-. specialize (Hleast k b ltac:(lia) Hpki Hb). order.
      * exact (Hedges k ltac:(lia) Hki Hpki a b Ha Hb).
  - intros _ k a b Hk Hpk Ha Hb. rewrite Hsw in Ha, Hb.
    pose proof (parent_lt k ltac:(lia)) as Hpk'.
    rewrite Hpj in Ha. rewrite decide_False in Ha by lia.
    rewrite decide_True in Ha by done. injection Ha as <-.
    rewrite decide_False in Hb by lia. rewrite decide_False in Hb by lia.
    rewrite <- Hpk in Hc.
    specialize (Hedges k ltac:(lia) ltac:(lia) ltac:(lia) c b Hc Hb). order.
  - intros a b Ha Hb. rewrite Hsw in Ha, Hb. rewrite Hpj in Ha.
    rewrite decide_False in Ha by lia. rewrite decide_True in Ha by done.
    rewrite decide_True in Hb by done.
    injection Ha as <-. injection Hb as <-. order.
Qed.

(** A slot whose children, if any, are in order below it. *)
Lemma DownInv_settled h n i :
  DownInv h n i ->
  (forall k, (0 < k < n)%nat -> parent k = i -> edgeOK h k) ->
  UpInv h n i /\ ((i = 0%nat \/ edgeOK h i) -> Heap h n).
Proof.
  intros [Hedges Habove] Hchildren.
  assert (forall k, (0 < k < n)%nat -> k <> i -> edgeOK h k) as Hall.
  { intros k Hk Hki. destruct (decide (parent k = i)); auto. }
  split; [by split |].
  intros Hi. apply (UpInv_Heap h n i); [by split | done].
Qed.

Lemma down_loop_S fuel h i n :
  heap.down_loop (S fuel) h i n
  = if (n <=? 2 * i + 1)%nat then (h, i)
    else
      let j := if (2 * i + 1 + 1 <? n)%nat
                  && requestHeap.Less h (2 * i + 1 + 1) (2 * i + 1)
               then (2 * i + 1 + 1)%nat else (2 * i + 1)%nat in
      if negb (requestHeap.Less h j i) then (h, i)
      else heap.down_loop fuel (requestHeap.Swap h i j) j n.
Proof. reflexivity. Qed.

(** The child [down] compares with is a least child. *)
Lemma down_choice h n i :
  (2 * i + 1 < n <= length h)%nat ->
  exists c,
    leastChild h n i
      (if (2 * i + 1 + 1 <? n)%nat
          && requestHeap.Less h (2 * i + 1 + 1) (2 * i + 1)
       then (2 * i + 1 + 1)%nat else (2 * i + 1)%nat) c.
Proof.
  intros Hn.
  destruct (lookup_lt_is_Some_2 h (2 * i + 1) ltac:(lia)) as [c1 Hc1].
  assert (forall k, (0 < k < n)%nat -> parent k = i ->
            k = (2 * i + 1)%nat \/ (k = (2 * i + 1 + 1)%nat
                                    /\ (2 * i + 1 + 1 < n)%nat)) as Hkids.
  { intros k Hk Hpk. apply parent_children in Hpk; lia. }
  assert (parent (2 * i + 1) = i) as Hp1 by (apply parent_children; lia).
  assert (parent (2 * i + 1 + 1) = i) as Hp2 by (apply parent_children; lia).
  destruct (Nat.ltb_spec (2 * i + 1 + 1) n) as [H2 | H2]; cbn [andb].
  - destruct (lookup_lt_is_Some_2 h (2 * i + 1 + 1) ltac:(lia)) as [c2 Hc2].
    rewrite (Less_lookup h _ _ c2 c1 Hc2 Hc1).
    destruct (requestHeap.lessItem c2 c1) eqn:Hless.
    + apply lessItem_before in Hless. exists c2.
      split; [lia |]. split; [done |]. split; [done |].
      intros k b Hk Hpk Hb.
      destruct (Hkids k Hk Hpk) as [-> | [-> _]]; simplify_eq; order.
    + apply lessItem_false in Hless. exists c1.
      split; [lia |]. split; [done |]. split; [done |].
      intros k b Hk Hpk Hb.
      destruct (Hkids k Hk Hpk) as [-> | [-> _]]; simplify_eq; order.
  - exists c1. split; [lia |]. split; [done |]. split; [done |].
    intros k b Hk Hpk Hb.
    destruct (Hkids k Hk Hpk) as [-> | [-> ?]]; [| lia].
    simplify_eq. order.
Qed.

Lemma down_loop_spec fuel h n i :
  (n <= i + fuel)%nat -> (i < n <= length h)%nat -> DownInv h n i ->
  length (heap.down_loop fuel h i n).1 = length h
  /\ core <$> (heap.down_loop fuel h i n).1 ≡ₚ core <$> h
  /\ (forall m, (n <= m \/ m < i)%nat ->
        (heap.down_loop fuel h i n).1 !! m = h !! m)
  /\ (i <= (heap.down_loop fuel h i n).2)%nat
  /\ ((i = 0%nat \/ edgeOK h i) -> Heap (heap.down_loop fuel h i n).1 n)
  /\ ((i < (heap.down_loop fuel h i n).2)%nat ->
      Heap (heap.down_loop fuel h i n).1 n)
  /\ ((heap.down_loop fuel h i n).2 = i ->
      (heap.down_loop fuel h i n).1 = h /\ UpInv h n i).
Proof.
  revert h i. induction fuel as [|fuel IH]; intros h i Hfuel Hi Hinv; [lia |].
  rewrite down_loop_S.
  destruct (Nat.leb_spec n (2 * i + 1)) as [Hleaf | Hkid].
  { destruct (DownInv_settled h n i Hinv) as [Hup Hheap].
    - intros k Hk Hpk. apply parent_children in Hpk; [exfalso |]; lia.
    - cbn [fst snd]. split_and!; [done | done | done | lia | done | lia | done]. }
  destruct (down_choice h n i ltac:(lia)) as [c Hleast].
  set (j := if (2 * i + 1 + 1 <? n)%nat && _ then _ else _) in *.
  cbv zeta.
  destruct (lookup_lt_is_Some_2 h i ltac:(lia)) as [v Hv].
  pose proof Hleast as (Hj & Hpj & Hc & Hle).
  rewrite (Less_lookup h j i c v Hc Hv).
  pose proof (parent_lt j ltac:(lia)) as Hij. rewrite Hpj in Hij.
  destruct (requestHeap.lessItem c v) eqn:Hless; cbn [negb].
  - apply lessItem_before in Hless.
    destruct (DownInv_Swap h n i j v c ltac:(lia) Hv Hleast Hless Hinv)
      as [Hinv' Hedge'].
    destruct (IH (requestHeap.Swap h i j) j)
      as (Hlen & Hperm & Hfar & Hmono & Hheap & _ & _).
    + lia.
    + rewrite Swap_length. lia.
    + done.
    + split; [by rewrite Hlen, Swap_length |].
      split; [by rewrite Hperm, Swap_core_perm |].
      split.
      { intros m Hm. rewrite Hfar by lia. apply Swap_lookup_other; lia. }
      split; [lia |]. split; [auto |]. split; [auto |]. lia.
  - apply lessItem_false in Hless.
    destruct (DownInv_settled h n i Hinv) as [Hup Hheap].
    + intros k Hk Hpk a b Ha Hb. rewrite Hpk in Ha. simplify_eq.
      specialize (Hle k b Hk Hpk Hb). order.
    + cbn [fst snd]. split_and!; [done | done | done | lia | done | lia | done].
Qed.

(** *** Push, Pop, Remove *)

(** In a heap the root is dequeued no later than any other item. *)
Lemma Heap_root h n r k y :
  Heap h n -> (k < n)%nat -> h !! 0%nat = Some r -> h !! k = Some y -> le r y.
Proof.
  intros Hheap. revert y.
  induction (lt_wf k) as [k _ IH]. intros y Hk Hr Hy.
  destruct (decide (k = 0%nat)) as [-> | Hk0].
  { simplify_eq. apply le_refl. }
  pose proof (parent_lt k ltac:(lia)) as Hpk.
  destruct (lookup_lt_is_Some_2 h (parent k)) as [p Hp].
  { apply lookup_lt_Some in Hy. lia. }
  eapply le_trans; [apply (IH (parent k)); [lia | lia | done | done] |].
  by apply (Hheap k ltac:(lia) p y).
Qed.

Lemma Heap_take h n m :
  (n <= m)%nat -> Heap h n -> Heap (take m h) n.
Proof.
  intros Hnm Hheap k Hk a b Ha Hb.
  pose proof (parent_lt k ltac:(lia)).
  rewrite lookup_take_lt in Ha, Hb by lia. by apply (Hheap k Hk).
Qed.

Lemma Heap_ext h h' n :
  (forall k, (k < n)%nat -> h' !! k = h !! k) -> Heap h n -> Heap h' n.
Proof.
  intros Hext Hheap k Hk a b Ha Hb.
  pose proof (parent_lt k ltac:(lia)).
  rewrite Hext in Ha, Hb by lia. by apply (Hheap k Hk).
Qed.

Lemma requestHeap_Pop_last (h : requestHeap.t) n x :
  length h = S n -> h !! n = Some x ->
  requestHeap.Pop h = Some (heapItem.set_index (-1) x, take n h).
Proof.
  intros Hlen Hx. unfold requestHeap.Pop.
  rewrite last_lookup, Hlen. simpl. rewrite Hx.
  by rewrite removelast_firstn_len, Hlen.
Qed.

Lemma take_snoc_lookup {A} (l : list A) n x :
  length l = S n -> l !! n = Some x -> l = take n l ++ [x].
Proof.
  intros Hlen Hx. rewrite <- (take_drop n l) at 1. f_equal.
  apply list_eq. intros [|k].
  - rewrite lookup_drop, Nat.add_0_r. done.
  - rewrite lookup_drop. simpl. apply lookup_ge_None_2. lia.
Qed.

Lemma Push_spec h x :
  Heap h (length h) ->
  Heap (heap.Push h x) (S (length h))
  /\ length (heap.Push h x) = S (length h)
  /\ core <$> heap.Push h x ≡ₚ core <$> (h ++ [x]).
Proof.
  intros Hheap.
  assert (heap.Push h x
          = heap.up_loop (S (length h))
              (h ++ [heapItem.set_index (Z.of_nat (length h)) x]) (length h))
    as ->.
  { unfold heap.Push, heap.up, requestHeap.Push, requestHeap.Len.
    rewrite length_app. cbn [length].
    by replace (length h + 1 - 1)%nat with (length h) by lia. }
  destruct (up_loop_spec (S (length h))
              (h ++ [heapItem.set_index (Z.of_nat (length h)) x])
              (S (length h)) (length h))
    as (Hh & Hlen & Hperm & _).
  - lia.
  - rewrite length_app. simpl. lia.
  - split.
    + intros k Hk Hkn a b Ha Hb.
      pose proof (parent_lt k ltac:(lia)).
      rewrite lookup_app_l in Ha, Hb by lia.
      by apply (Hheap k ltac:(lia)).
    + intros _ k a b Hk Hpk. pose proof (parent_lt k ltac:(lia)). lia.
  - split; [done |]. split.
    + rewrite Hlen, length_app. simpl. lia.
    + rewrite Hperm. by rewrite !fmap_app.
Qed.

(** The heap after its last slot, holding [r], is cut off. *)
Lemma cut_last (h h2 : requestHeap.t) n r :
  length h2 = S n -> h2 !! n = Some r -> Heap h2 n ->
  core <$> h2 ≡ₚ core <$> h ->
  exists h',
    requestHeap.Pop h2 = Some (heapItem.set_index (-1) r, h')
    /\ Heap h' (length h') /\ length h' = n
    /\ core <$> h ≡ₚ core r :: (core <$> h').
Proof.
  intros Hlen Hr Hheap Hperm. exists (take n h2).
  split; [by apply requestHeap_Pop_last |].
  assert (length (take n h2) = n) as Hlen' by (rewrite length_take; lia).
  split; [rewrite Hlen'; by apply Heap_take |].
  split; [done |].
  rewrite <- Hperm. rewrite (take_snoc_lookup h2 n r Hlen Hr) at 1.
  rewrite fmap_app. simpl. by rewrite Permutation_app_comm.
Qed.

Lemma Pop_spec h r :
  Heap h (length h) -> h !! 0%nat = Some r ->
  exists x h',
    heap.Pop h = Some (x, h') /\ core x = core r
    /\ Heap h' (length h') /\ S (length h') = length h
    /\ core <$> h ≡ₚ core r :: (core <$> h')
    /\ forall y, y ∈ h' -> le r y.
Proof.
  intros Hheap Hr.
  assert (0 < length h)%nat as Hpos by (by eapply lookup_lt_Some).
  destruct (length h) as [|n] eqn:Hlen; [lia |].
  assert (forall h' : requestHeap.t,
            core <$> h ≡ₚ core r :: (core <$> h') ->
            forall y, y ∈ h' -> le r y) as Hmin.
  { intros h' Hperm y Hy.
    assert (core y ∈ core <$> h) as Hin.
    { rewrite Hperm. right. by apply list_elem_of_fmap_2. }
    apply list_elem_of_fmap in Hin as (y' & Hyy' & Hy').
    apply list_elem_of_lookup in Hy' as [k Hk].
    pose proof (Heap_root h (length h) r k y') as Hle.
    rewrite Hlen in Hle. specialize (Hle Hheap).
    apply lookup_lt_Some in Hk as Hklt.
    specialize (Hle ltac:(lia) Hr Hk).
    unfold core in Hyy'. destruct y, y'. simpl in *. simplify_eq. order. }
  unfold heap.Pop, requestHeap.Len. rewrite Hlen. simpl.
  rewrite Nat.sub_0_r.
  destruct (lookup_lt_is_Some_2 h n ltac:(lia)) as [w Hw].
  destruct (decide (n = 0%nat)) as [-> | Hn].
  - (* a single item *)
    unfold heap.down. simpl.
    destruct (cut_last h (requestHeap.Swap h 0 0) 0
                (heapItem.set_index 0 r))
      as (h' & Hpop & Hh' & Hlen' & Hperm).
    + by rewrite Swap_length.
    + rewrite Swap_lookup by lia. rewrite Hr. done.
    + intros k Hk. lia.
    + apply Swap_core_perm.
    + rewrite Hpop. eexists _, h'.
      split; [done |]. split; [done |]. split; [done |].
      split; [lia |]. split; [done |]. by eapply Hmin.
  - unfold heap.down.
    destruct (down_loop_spec n (requestHeap.Swap h 0 n) n 0)
      as (Hlen2 & Hperm2 & Hfar & _ & Hheap2 & _ & _).
    + lia.
    + rewrite Swap_length. lia.
    + split; [| lia].
      intros k Hk Hk0 Hpk0 a b Ha Hb.
      pose proof (parent_lt k ltac:(lia)).
      rewrite Swap_lookup_other in Ha, Hb by lia.
      by apply (Hheap k ltac:(lia)).
    + destruct (heap.down_loop n (requestHeap.Swap h 0 n) 0 n) as [h2 i2].
      simpl in *.
      destruct (cut_last h h2 n (heapItem.set_index (Z.of_nat n) r))
        as (h' & Hpop & Hh' & Hlen' & Hperm).
      * rewrite Hlen2, Swap_length. done.
      * rewrite Hfar by lia. rewrite Swap_lookup by lia.
        rewrite decide_True by done. by rewrite Hr.
      * auto.
      * by rewrite Hperm2, Swap_core_perm.
      * rewrite Hpop. eexists _, h'.
        split; [done |]. split; [done |]. split; [done |].
        split; [lia |]. split; [done |]. by eapply Hmin.
Qed.

Lemma Remove_spec h i r :
  Heap h (length h) -> h !! i = Some r ->
  exists x h',
    heap.Remove h i = Some (x, h') /\ core x = core r
    /\ Heap h' (length h') /\ S (length h') = length h
    /\ core <$> h ≡ₚ core r :: (core <$> h').
Proof.
  intros Hheap Hr.
  assert (i < length h)%nat as Hi by (by eapply lookup_lt_Some).
  destruct (length h) as [|n] eqn:Hlen; [lia |].
  unfold heap.Remove, requestHeap.Len. rewrite Hlen. simpl.
  rewrite Nat.sub_0_r.
  destruct (Nat.eqb_spec n i) as [-> | Hni]; cbn [negb].
  - destruct (cut_last h h i r) as (h' & Hpop & Hh' & Hlen' & Hperm); try done.
    { intros k Hk. apply Hheap. lia. }
    rewrite Hpop. eexists _, h'. split; [done |]. split; [done |].
    split; [done |]. split; [lia | done].
  - destruct (lookup_lt_is_Some_2 h n ltac:(lia)) as [w Hw].
    assert (DownInv (requestHeap.Swap h i n) n i) as Hinv.
    { split.
      - intros k Hk Hki Hpki a b Ha Hb.
        pose proof (parent_lt k ltac:(lia)).
        rewrite Swap_lookup_other in Ha, Hb by lia.
        by apply (Hheap k ltac:(lia)).
      - intros Hi0 k a b Hk Hpk Ha Hb.
        pose proof (parent_lt k ltac:(lia)).
        pose proof (parent_lt i ltac:(lia)).
        rewrite Swap_lookup_other in Ha, Hb by lia.
        pose proof (Hheap i ltac:(lia) a r Ha Hr).
        rewrite <- Hpk in Hr.
        pose proof (Hheap k ltac:(lia) r b Hr Hb). order. }
    assert (requestHeap.Swap h i n !! n
            = Some (heapItem.set_index (Z.of_nat n) r)) as Hlast.
    { rewrite Swap_lookup by lia. rewrite decide_True by done. by rewrite Hr. }
    unfold heap.down.
    destruct (down_loop_spec n (requestHeap.Swap h i n) n i)
      as (Hlen2 & Hperm2 & Hfar & Hmono & _ & Hmoved & Hstay);
      [lia | rewrite Swap_length; lia | done |].
    destruct (heap.down_loop n (requestHeap.Swap h i n) i n) as [h2 i2].
    simpl in *.
    assert (exists h3,
              (if negb (i <? i2)%nat then heap.up h2 i else h2) = h3
              /\ length h3 = S n /\ Heap h3 n
              /\ h3 !! n = Some (heapItem.set_index (Z.of_nat n) r)
              /\ core <$> h3 ≡ₚ core <$> h) as (h3 & -> & Hl3 & Hh3 & Hn3 & Hp3).
    { destruct (Nat.ltb_spec i i2) as [Hlt | Hge]; cbn [negb].
      - exists h2. split; [done |].
        split; [by rewrite Hlen2, Swap_length |].
        split; [auto |].
        split; [rewrite Hfar by lia; done |].
        by rewrite Hperm2, Swap_core_perm.
      - destruct Hstay as [-> Hup]; [lia |].
        destruct (up_loop_spec (S i) (requestHeap.Swap h i n) n i)
          as (Hh & Hl & Hp & Hfar'); [lia | rewrite Swap_length; lia | done |].
        eexists. split; [reflexivity |]. unfold heap.up.
        split; [by rewrite Hl, Swap_length |].
        split; [done |].
        split; [rewrite Hfar' by lia; done |].
        by rewrite Hp, Swap_core_perm. }
    destruct (cut_last h h3 n (heapItem.set_index (Z.of_nat n) r))
      as (h' & Hpop & Hh' & Hlen' & Hperm); try done.
    rewrite Hpop. eexists _, h'. split; [done |]. split; [done |].
    split; [done |]. split; [lia | done].
Qed.

End HeapFacts.

Import HeapFacts.

(** ** The priority queue over a history of operations *)

Module QueueFacts.

(** The operations that change a queue. Each reads the task objects as
    they are when it runs. *)
Inductive QueueOp :=
| OpEnqueue (mem : gmap TaskPtr Task.t) (req : ScheduleRequest.t)
| OpDequeue
| OpRemove (mem : gmap TaskPtr Task.t) (taskID : string).

(** The queue after a history, and the items its [Dequeue] calls popped,
    in order. *)
Fixpoint runQ (ops : list QueueOp) (q : PriorityQueue.t)
  : PriorityQueue.t * list heapItem.t :=
  match ops with
  | [] => (q, [])
  | OpEnqueue mem req :: ops => runQ ops (PriorityQueue.Enqueue mem q req)
  | OpDequeue :: ops =>
      let '(x, q) := PriorityQueue.DequeueItem q in
      let '(q', out) := runQ ops q in
      (q', option_list x ++ out)
  | OpRemove mem taskID :: ops =>
      runQ ops (PriorityQueue.Remove mem q taskID).2
  end.

(** The arguments of the [Enqueue] calls of a history, in order. *)
Fixpoint enqueued (ops : list QueueOp)
  : list (gmap TaskPtr Task.t * ScheduleRequest.t) :=
  match ops with
  | [] => []
  | OpEnqueue mem req :: ops => (mem, req) :: enqueued ops
  | _ :: ops => enqueued ops
  end.

(** [x] is the item that the [k]-th [Enqueue] call made (counting from
    1): it carries that call's request, the priority the request's task
    had then, and [k] as its sequence number. *)
Definition madeBy (E : list (gmap TaskPtr Task.t * ScheduleRequest.t))
    (k : nat) (x : heapItem.t) : Prop :=
  exists mem req,
    E !! (k - 1)%nat = Some (mem, req) /\ (1 <= k)%nat
    /\ heapItem.seq x = Z.of_nat k
    /\ heapItem.request x = req
    /\ heapItem.priority x
       = Task.Priority (deref mem (ScheduleRequest.Task req)).

(** What holds of a queue after the [Enqueue] calls [E], fewer than
    2^63 - 1 of them. *)
Definition Inv (E : list (gmap TaskPtr Task.t * ScheduleRequest.t))
    (q : PriorityQueue.t) : Prop :=
  Heap (PriorityQueue.heap q) (length (PriorityQueue.heap q))
  /\ NoDup (heapItem.seq <$> PriorityQueue.heap q)
  /\ PriorityQueue.seq q = Z.of_nat (length E)
  /\ forall x, x ∈ PriorityQueue.heap q ->
               exists k, madeBy E k x.

Lemma seq_core (h : requestHeap.t) :
  heapItem.seq <$> h = heapItem.seq <$> (core <$> h).
Proof. rewrite <- list_fmap_compose. done. Qed.

Lemma core_perm_seq (h l : list heapItem.t) :
  core <$> h ≡ₚ l -> heapItem.seq <$> h ≡ₚ heapItem.seq <$> l.
Proof. intros H. rewrite seq_core. by rewrite H. Qed.

Lemma elem_of_core (h : requestHeap.t) c :
  c ∈ core <$> h <-> exists x, x ∈ h /\ core x = c.
Proof. rewrite list_elem_of_fmap. naive_solver. Qed.

Lemma madeBy_core E k x : madeBy E k (core x) <-> madeBy E k x.
Proof. reflexivity. Qed.

Lemma madeBy_mono E E' k x : madeBy E k x -> madeBy (E ++ E') k x.
Proof.
  intros (mem & req & Hk & H1 & Hrest). exists mem, req.
  split; [| done]. by apply lookup_app_l_Some.
Qed.

Lemma madeBy_bound E k x : madeBy E k x -> 1 <= heapItem.seq x <= Z.of_nat (length E).
Proof.
  intros (mem & req & Hk & H1 & Hs & _). apply lookup_lt_Some in Hk. lia.
Qed.

Lemma NoDup_seq_inj (l : list heapItem.t) a b :
  NoDup (heapItem.seq <$> l) -> a ∈ l -> b ∈ l ->
  heapItem.seq a = heapItem.seq b -> a = b.
Proof.
  intros Hnd Ha Hb Hab.
  apply list_elem_of_lookup in Ha as [i Hi], Hb as [j Hj].
  assert (i = j) as ->; [| congruence].
  eapply NoDup_lookup; [exact Hnd | |].
  - rewrite list_lookup_fmap, Hi. reflexivity.
  - rewrite list_lookup_fmap, Hj. simpl. by rewrite Hab.
Qed.

Lemma Inv_New : Inv [] PriorityQueue.NewPriorityQueue.
Proof.
  split; [| split; [| split]]; simpl.
  - intros k Hk. lia.
  - constructor.
  - done.
  - intros x Hx. by apply not_elem_of_nil in Hx.
Qed.

Lemma Inv_Enqueue E q mem req :
  Inv E q -> Z.of_nat (length E) < maxInt64 ->
  Inv (E ++ [(mem, req)]) (PriorityQueue.Enqueue mem q req)
  /\ PriorityQueue.seq (PriorityQueue.Enqueue mem q req)
     = PriorityQueue.seq q + 1
  /\ exists x0,
       heapItem.seq x0 = PriorityQueue.seq q + 1
       /\ core <$> PriorityQueue.heap (PriorityQueue.Enqueue mem q req)
          ≡ₚ core <$> (PriorityQueue.heap q ++ [x0]).
Proof.
  intros (Hheap & Hnd & Hseq & Hmade) Hbound.
  assert (int64_add (PriorityQueue.seq q) 1 = PriorityQueue.seq q + 1) as Hadd.
  { apply int64_add_1. unfold minInt64. lia. }
  unfold PriorityQueue.Enqueue. rewrite Hadd.
  cbn [PriorityQueue.heap PriorityQueue.seq].
  set (x0 := heapItem.mk req _ _ 0).
  destruct (Push_spec (PriorityQueue.heap q) x0 Hheap) as (Hh & Hlen & Hperm).
  assert (madeBy (E ++ [(mem, req)]) (S (length E)) x0) as Hx0.
  { exists mem, req. cbn [Nat.sub]. rewrite Nat.sub_0_r.
    rewrite lookup_app_r by lia. rewrite Nat.sub_diag.
    split; [done |]. split; [lia |]. split; [simpl; lia | done]. }
  split; [| split; [done | by exists x0]].
  unfold Inv. cbn [PriorityQueue.heap PriorityQueue.seq].
  split; [by rewrite Hlen | split; [| split]].
  - rewrite (core_perm_seq _ _ Hperm). rewrite <- seq_core.
    rewrite fmap_app. cbn [fmap list_fmap].
    rewrite Permutation_app_comm. cbn [app].
    constructor; [| done].
    intros Hin. apply list_elem_of_fmap in Hin as (x & Hsx & Hx).
    destruct (Hmade x Hx) as [k Hk]. apply madeBy_bound in Hk.
    simpl in Hsx. lia.
  - rewrite length_app. simpl. lia.
  - intros x Hx.
    assert (core x ∈ core <$> (PriorityQueue.heap q ++ [x0])) as Hin.
    { rewrite <- Hperm. by apply list_elem_of_fmap_2. }
    apply elem_of_core in Hin as (x' & Hx' & Hcore).
    apply elem_of_app in Hx' as [Hx' | Hx'].
    + destruct (Hmade x' Hx') as [k Hk]. exists k.
      apply madeBy_mono. change (madeBy E k (core x)).
      rewrite <- Hcore. exact Hk.
    + apply list_elem_of_singleton in Hx' as ->. exists (S (length E)).
      change (madeBy (E ++ [(mem, req)]) (S (length E)) (core x)).
      rewrite <- Hcore. exact Hx0.
Qed.

(** A smaller heap keeps the invariant. *)
Lemma Inv_sub E q h' r :
  Inv E q -> Heap h' (length h') ->
  core <$> PriorityQueue.heap q ≡ₚ core r :: (core <$> h') ->
  Inv E (PriorityQueue.mk h' (PriorityQueue.seq q)).
Proof.
  intros (Hheap & Hnd & Hseq & Hmade) Hh' Hperm.
  unfold Inv. cbn [PriorityQueue.heap PriorityQueue.seq].
  split; [done | split; [| split; [done |]]].
  - rewrite (core_perm_seq _ _ Hperm) in Hnd. simpl in Hnd.
    apply NoDup_cons in Hnd as [_ Hnd]. by rewrite seq_core.
  - intros x Hx.
    assert (core x ∈ core <$> PriorityQueue.heap q) as Hin.
    { rewrite Hperm. right. by apply list_elem_of_fmap_2. }
    apply elem_of_core in Hin as (x' & Hx' & Hcore).
    destruct (Hmade x' Hx') as [k Hk]. exists k.
    change (madeBy E k (core x)). rewrite <- Hcore. exact Hk.
Qed.

Lemma DequeueItem_spec E q :
  Inv E q ->
  match PriorityQueue.DequeueItem q with
  | (None, q') => q' = q /\ PriorityQueue.heap q = []
  | (Some m, q') =>
      Inv E q' /\ PriorityQueue.seq q' = PriorityQueue.seq q
      /\ core <$> PriorityQueue.heap q
         ≡ₚ core m :: (core <$> PriorityQueue.heap q')
      /\ forall y, y ∈ PriorityQueue.heap q' -> before m y
  end.
Proof.
  intros HInv. pose proof HInv as (Hheap & Hnd & Hseq & Hmade).
  unfold PriorityQueue.DequeueItem, requestHeap.Len.
  destruct (PriorityQueue.heap q) as [|r h] eqn:Hq; [done |].
  cbn [length Nat.eqb].
  destruct (Pop_spec (r :: h) r Hheap eq_refl)
    as (x & h' & Hpop & Hcore & Hh' & Hlen & Hperm & Hmin).
  rewrite Hpop.
  split; [apply (Inv_sub E q h' r); [done | done | by rewrite Hq] |].
  split; [done |].
  rewrite Hcore. split; [done |].
  cbn [PriorityQueue.heap]. intros y Hy.
  assert (heapItem.seq r <> heapItem.seq y) as Hne.
  { rewrite (core_perm_seq _ _ Hperm) in Hnd. cbn [fmap list_fmap] in Hnd.
    apply NoDup_cons in Hnd as [Hnotin _].
    intros Heq. apply Hnotin. rewrite <- seq_core.
    apply list_elem_of_fmap. exists y. split; [| done]. exact Heq. }
  specialize (Hmin y Hy).
  change (before x y) with (before (core x) y).
  rewrite Hcore.
  destruct (before_total (core r) y Hne) as [? | Hyr]; [done |].
  exfalso. apply Hmin. done.
Qed.

Lemma Remove_queue_spec E q mem taskID :
  Inv E q ->
  Inv E (PriorityQueue.Remove mem q taskID).2
  /\ PriorityQueue.seq (PriorityQueue.Remove mem q taskID).2
     = PriorityQueue.seq q
  /\ forall c, c ∈ core <$> PriorityQueue.heap
                            (PriorityQueue.Remove mem q taskID).2 ->
               c ∈ core <$> PriorityQueue.heap q.
Proof.
  intros HInv. pose proof HInv as (Hheap & Hnd & Hseq & Hmade).
  unfold PriorityQueue.Remove.
  destruct (list_find _ (PriorityQueue.heap q)) as [[i item]|] eqn:Hfind;
    [| done].
  apply list_find_Some in Hfind as (Hi & _ & _).
  destruct (Remove_spec (PriorityQueue.heap q) i item Hheap Hi)
    as (x & h' & Hrem & Hcore & Hh' & Hlen & Hperm).
  rewrite Hrem. simpl.
  split; [by eapply Inv_sub |]. split; [done |].
  intros c Hc. rewrite Hperm. by right.
Qed.

Lemma enqueued_app ops1 ops2 :
  enqueued (ops1 ++ ops2) = enqueued ops1 ++ enqueued ops2.
Proof.
  induction ops1 as [|[] ops1 IH]; simpl; [done | | done | done].
  by rewrite IH.
Qed.

Lemma runQ_Inv ops : forall E q,
  Inv E q -> Z.of_nat (length (E ++ enqueued ops)) < 2 ^ 63 ->
  Inv (E ++ enqueued ops) (runQ ops q).1.
Proof.
  induction ops as [|[mem req| |mem taskID] ops IH]; intros E q HInv Hbound;
    simpl in *.
  - by rewrite app_nil_r.
  - rewrite cons_middle, app_assoc in *. apply IH; [| done].
    apply Inv_Enqueue; [done |]. rewrite !length_app in Hbound.
    unfold maxInt64. simpl in Hbound. lia.
  - pose proof (DequeueItem_spec E q HInv) as Hd.
    destruct (PriorityQueue.DequeueItem q) as [[m|] q'].
    + destruct Hd as (HInv' & _). specialize (IH E q' HInv' Hbound).
      by destruct (runQ ops q').
    + destruct Hd as [-> _]. specialize (IH E q HInv Hbound).
      by destruct (runQ ops q).
  - apply IH; [| done]. by apply Remove_queue_spec.
Qed.

(** An item popped later was in the queue, or is made by a later
    [Enqueue]. *)
Lemma popped_origin ops : forall E q s,
  Inv E q -> Z.of_nat (length (E ++ enqueued ops)) < 2 ^ 63 ->
  s ∈ heapItem.seq <$> (runQ ops q).2 ->
  s ∈ heapItem.seq <$> PriorityQueue.heap q \/ PriorityQueue.seq q < s.
Proof.
  induction ops as [|[mem req| |mem taskID] ops IH]; intros E q s HInv Hbound Hs;
    simpl in *.
  - by apply not_elem_of_nil in Hs.
  - rewrite cons_middle, app_assoc in Hbound.
    destruct (Inv_Enqueue E q mem req HInv) as (HInv' & Hseq' & x0 & Hx0 & Hperm).
    { rewrite !length_app in Hbound. unfold maxInt64. simpl in Hbound. lia. }
    destruct (IH _ _ s HInv' Hbound Hs) as [Hin | Hlt]; [| lia].
    rewrite (core_perm_seq _ _ Hperm), <- seq_core in Hin.
    rewrite fmap_app in Hin. apply elem_of_app in Hin as [Hin | Hin];
      [by left |].
    apply list_elem_of_singleton in Hin. lia.
  - pose proof (DequeueItem_spec E q HInv) as Hd.
    destruct (PriorityQueue.DequeueItem q) as [[m|] q'].
    + destruct Hd as (HInv' & Hseq' & Hperm & _).
      specialize (IH E q' s HInv' Hbound).
      destruct (runQ ops q') as [qf out]. simpl in *.
      rewrite (core_perm_seq _ _ Hperm). simpl.
      apply elem_of_cons in Hs as [-> | Hs]; [left; by left |].
      destruct (IH Hs) as [Hin | Hlt]; [| lia].
      left. right. by rewrite <- seq_core.
    + destruct Hd as [-> _]. specialize (IH E q s HInv Hbound).
      destruct (runQ ops q) as [qf out]. simpl in *. auto.
  - destruct (Remove_queue_spec E q mem taskID HInv) as (HInv' & Hseq' & Hsub).
    destruct (IH _ _ s HInv' Hbound Hs) as [Hin | Hlt]; [| lia].
    left. rewrite seq_core in Hin.
    apply list_elem_of_fmap in Hin as (c & -> & Hc).
    rewrite seq_core. apply list_elem_of_fmap_2. auto.
Qed.

Lemma core_of_seq (h : requestHeap.t) x s :
  NoDup (heapItem.seq <$> h) -> core x ∈ core <$> h ->
  heapItem.seq x = s ->
  forall h' : requestHeap.t,
    (forall c, c ∈ core <$> h' -> c ∈ core <$> h) ->
    s ∈ heapItem.seq <$> h' -> core x ∈ core <$> h'.
Proof.
  intros Hnd Hx Hsx h' Hsub Hs'.
  rewrite seq_core in Hs'. apply list_elem_of_fmap in Hs' as (c & Hsc & Hc).
  assert (c = core x) as <-; [| done].
  rewrite seq_core in Hnd.
  apply (NoDup_seq_inj (core <$> h)); auto. simpl. congruence.
Qed.

(** Of two items that are in the queue together, the one popped first is
    the one [before] the other. *)
Lemma popped_in_order ops : forall E q x y a b,
  Inv E q -> Z.of_nat (length (E ++ enqueued ops)) < 2 ^ 63 ->
  core x ∈ core <$> PriorityQueue.heap q ->
  core y ∈ core <$> PriorityQueue.heap q ->
  (heapItem.seq <$> (runQ ops q).2) !! a = Some (heapItem.seq x) ->
  (heapItem.seq <$> (runQ ops q).2) !! b = Some (heapItem.seq y) ->
  (a < b)%nat -> before x y.
Proof.
  induction ops as [|[mem req| |mem taskID] ops IH];
    intros E q x y a b HInv Hbound Hx Hy Ha Hb Hab; simpl in *.
  - done.
  - rewrite cons_middle, app_assoc in Hbound.
    destruct (Inv_Enqueue E q mem req HInv) as (HInv' & Hseq' & x0 & Hx0 & Hperm).
    { rewrite !length_app in Hbound. unfold maxInt64. simpl in Hbound. lia. }
    apply (IH _ _ x y a b HInv' Hbound); try done.
    + rewrite Hperm, fmap_app. apply elem_of_app. by left.
    + rewrite Hperm, fmap_app. apply elem_of_app. by left.
  - pose proof HInv as (_ & Hnd & Hseq & Hmade).
    pose proof (DequeueItem_spec E q HInv) as Hd.
    destruct (PriorityQueue.DequeueItem q) as [[m|] q'].
    + destruct Hd as (HInv' & Hseq' & Hperm & Hmin).
      pose proof (popped_origin ops E q') as Horigin.
      specialize (IH E q' x y).
      destruct (runQ ops q') as [qf out]. simpl in *.
      assert (forall z, core z ∈ core <$> PriorityQueue.heap q ->
                heapItem.seq z <> heapItem.seq m ->
                core z ∈ core <$> PriorityQueue.heap q') as Hrest.
      { intros z Hz Hzm. rewrite Hperm in Hz.
        apply elem_of_cons in Hz as [Hz | Hz]; [| done].
        exfalso. apply Hzm.
        change (heapItem.seq (core z) = heapItem.seq (core m)). by rewrite Hz. }
      assert (forall z k, core z ∈ core <$> PriorityQueue.heap q ->
                (heapItem.seq <$> out) !! k = Some (heapItem.seq z) ->
                heapItem.seq z <> heapItem.seq m) as Hlater.
      { intros z k Hz Hk Hzm.
        destruct (Horigin (heapItem.seq z) HInv' Hbound) as [Hin | Hlt].
        - by eapply list_elem_of_lookup_2.
        - rewrite (core_perm_seq _ _ Hperm) in Hnd. simpl in Hnd.
          apply NoDup_cons in Hnd as [Hnotin _].
          apply Hnotin. rewrite <- seq_core.
          change (heapItem.seq (core m)) with (heapItem.seq m).
          by rewrite <- Hzm.
        - apply elem_of_core in Hz as (z' & Hz' & Hcz).
          destruct (Hmade z' Hz') as [k' Hk']. apply madeBy_bound in Hk'.
          change (heapItem.seq z') with (heapItem.seq (core z')) in Hk'.
          rewrite Hcz in Hk'. simpl in Hk'. lia. }
      destruct a as [|a], b as [|b]; try lia; simpl in Ha, Hb.
      * (* [x] is popped now, [y] later *)
        injection Ha as Ha.
        pose proof (Hlater y b Hy Hb) as Hym.
        apply Hrest in Hym; [| done].
        apply elem_of_core in Hym as (y' & Hy' & Hcy).
        specialize (Hmin y' Hy').
        assert (core m = core x) as Hmx.
        { rewrite seq_core in Hnd.
          apply (NoDup_seq_inj (core <$> PriorityQueue.heap q)); auto.
          rewrite Hperm. by left. }
        change (before (core x) (core y)). rewrite <- Hmx, <- Hcy. exact Hmin.
      * apply (IH a b); auto with lia.
        -- apply Hrest; [done |]. by eapply Hlater.
        -- apply Hrest; [done |]. by eapply Hlater.
    + destruct Hd as [-> _]. specialize (IH E q x y a b).
      destruct (runQ ops q) as [qf out]. simpl in *. auto.
  - pose proof HInv as (_ & Hnd & Hseq & Hmade).
    destruct (Remove_queue_spec E q mem taskID HInv) as (HInv' & Hseq' & Hsub).
    pose proof (popped_origin ops E (PriorityQueue.Remove mem q taskID).2)
      as Horigin.
    assert (forall z k, core z ∈ core <$> PriorityQueue.heap q ->
              (heapItem.seq <$> (runQ ops (PriorityQueue.Remove mem q taskID).2).2)
                !! k = Some (heapItem.seq z) ->
              core z ∈ core <$> PriorityQueue.heap
                                  (PriorityQueue.Remove mem q taskID).2)
      as Hstill.
    { intros z k Hz Hk.
      destruct (Horigin (heapItem.seq z) HInv' Hbound) as [Hin | Hlt].
      - by eapply list_elem_of_lookup_2.
      - eapply (core_of_seq (PriorityQueue.heap q)); eauto.
      - apply elem_of_core in Hz as (z' & Hz' & Hcz).
        destruct (Hmade z' Hz') as [k' Hk']. apply madeBy_bound in Hk'.
        change (heapItem.seq z') with (heapItem.seq (core z')) in Hk'.
        rewrite Hcz in Hk'. simpl in Hk'. lia. }
    apply (IH _ _ x y a b HInv' Hbound); eauto.
Qed.

End QueueFacts.

Import QueueFacts.

Lemma Dequeue_DequeueItem q :
  PriorityQueue.Dequeue q
  = (heapItem.request <$> (PriorityQueue.DequeueItem q).1,
     (PriorityQueue.DequeueItem q).2).
Proof. unfold PriorityQueue.Dequeue. by destruct (PriorityQueue.DequeueItem q). Qed.

(** C1: take any history of [Enqueue], [Dequeue] and [Remove] calls on a
    new queue, with fewer than 2^63 [Enqueue] calls so that the insertion
    counter does not wrap. If two entries [x] and [y] are in the queue
    together after the first part of the history, they are the items made
    by two [Enqueue] calls, the [kx]-th and the [ky]-th, and if both are
    dequeued in the rest of the history, [x] as the [a]-th item and [y] as
    the [b]-th, then [x] is dequeued before [y] exactly when its priority
    is strictly higher, or the priorities are equal and [x] was enqueued
    first. *)
Theorem dequeue_order_priority_then_fifo ops1 ops2 x y a b :
  Z.of_nat (length (enqueued (ops1 ++ ops2))) < 2 ^ 63 ->
  x ∈ PriorityQueue.heap (runQ ops1 PriorityQueue.NewPriorityQueue).1 ->
  y ∈ PriorityQueue.heap (runQ ops1 PriorityQueue.NewPriorityQueue).1 ->
  heapItem.seq x <> heapItem.seq y ->
  (heapItem.seq
     <$> (runQ ops2 (runQ ops1 PriorityQueue.NewPriorityQueue).1).2) !! a
  = Some (heapItem.seq x) ->
  (heapItem.seq
     <$> (runQ ops2 (runQ ops1 PriorityQueue.NewPriorityQueue).1).2) !! b
  = Some (heapItem.seq y) ->
  exists kx ky,
    madeBy (enqueued ops1) kx x /\ madeBy (enqueued ops1) ky y
    /\ ((a < b)%nat <->
        heapItem.priority y < heapItem.priority x
        \/ (heapItem.priority x = heapItem.priority y /\ (kx < ky)%nat)).
Proof.
  intros Hbound Hx Hy Hne Ha Hb.
  rewrite enqueued_app in Hbound.
  assert (Inv (enqueued ops1) (runQ ops1 PriorityQueue.NewPriorityQueue).1)
    as HInv.
  { apply (runQ_Inv ops1 [] _ Inv_New). simpl.
    rewrite length_app in Hbound. lia. }
  pose proof HInv as (_ & _ & _ & Hmade).
  destruct (Hmade x Hx) as [kx Hkx]. destruct (Hmade y Hy) as [ky Hky].
  exists kx, ky. split; [done |]. split; [done |].
  assert (heapItem.seq x = Z.of_nat kx) as Hsx by (by destruct Hkx as (?&?&?&?&?&?)).
  assert (heapItem.seq y = Z.of_nat ky) as Hsy by (by destruct Hky as (?&?&?&?&?&?)).
  assert (forall u v c d,
            u ∈ PriorityQueue.heap (runQ ops1 PriorityQueue.NewPriorityQueue).1 ->
            v ∈ PriorityQueue.heap (runQ ops1 PriorityQueue.NewPriorityQueue).1 ->
            (heapItem.seq
               <$> (runQ ops2 (runQ ops1 PriorityQueue.NewPriorityQueue).1).2)
              !! c = Some (heapItem.seq u) ->
            (heapItem.seq
               <$> (runQ ops2 (runQ ops1 PriorityQueue.NewPriorityQueue).1).2)
              !! d = Some (heapItem.seq v) ->
            (c < d)%nat -> before u v) as Horder.
  { intros u v c d Hu Hv Hc Hd Hcd.
    apply (popped_in_order ops2 (enqueued ops1) _ u v c d HInv Hbound);
      try done; by apply list_elem_of_fmap_2. }
  split.
  - intros Hab. pose proof (Horder x y a b Hx Hy Ha Hb Hab) as Hbef.
    unfold before in Hbef. lia.
  - intros Hrhs.
    destruct (Nat.lt_trichotomy a b) as [? | [-> | Hba]]; [done | |].
    + rewrite Ha in Hb. injection Hb as Hb. done.
    + pose proof (Horder y x b a Hy Hx Hb Ha Hba) as Hbef.
      unfold before in Hbef. lia.
Qed.

(** Two tasks of priorities 1 and 5, enqueued in that order and dequeued. *)
Definition lowTask : Task.t := Task.mk "low" 1 0 "" TaskStatusPending None None.
Definition highTask : Task.t := Task.mk "high" 5 0 "" TaskStatusPending None None.

Definition store2 : gmap TaskPtr Task.t :=
  {[ 0%nat := lowTask; 1%nat := highTask ]}.

Definition requestFor (p : TaskPtr) : ScheduleRequest.t :=
  ScheduleRequest.mk (Some p) AIMode "" [] [] [] ∅ None None 0.

Lemma dequeue_order_witness :
  exists kx ky,
    madeBy [(store2, requestFor 0%nat); (store2, requestFor 1%nat)] kx
           (heapItem.mk (requestFor 0%nat) 1 1 1)
    /\ madeBy [(store2, requestFor 0%nat); (store2, requestFor 1%nat)] ky
              (heapItem.mk (requestFor 1%nat) 5 2 0)
    /\ ((1 < 0)%nat <->
        5 < 1 \/ (1 = 5 /\ (kx < ky)%nat)).
Proof.
  refine (dequeue_order_priority_then_fifo
            [OpEnqueue store2 (requestFor 0%nat); OpEnqueue store2 (requestFor 1%nat)]
            [OpDequeue; OpDequeue]
            (heapItem.mk (requestFor 0%nat) 1 1 1)
            (heapItem.mk (requestFor 1%nat) 5 2 0) 1 0 _ _ _ _ _ _).
  - vm_compute. reflexivity.
  - apply (list_elem_of_lookup_2 _ 1%nat). vm_compute. reflexivity.
  - apply (list_elem_of_lookup_2 _ 0%nat). vm_compute. reflexivity.
  - simpl. lia.
  - vm_compute. reflexivity.
  - vm_compute. reflexivity.
Defined.

(** ** sort.Slice sorts *)

Module SortFacts.
Section Sorting.
Context {A : Type} (lessE : A -> A -> bool).

(** The comparison is a strict weak order. *)
Hypothesis lessE_irrefl : forall x, lessE x x = false.
Hypothesis lessE_trans :
  forall x y z, lessE x y = true -> lessE y z = true -> lessE x z = true.
Hypothesis lessE_negtrans :
  forall x y z, lessE x y = false -> lessE y z = false -> lessE x z = false.

(** [x] may stand before [y]. *)
Definition le (x y : A) : Prop := lessE y x = false.

Lemma lessE_le_refl x : le x x.
Proof. apply lessE_irrefl. Qed.

Lemma lessE_le_trans x y z : le x y -> le y z -> le x z.
Proof. unfold le. intros Hxy Hyz. by apply (lessE_negtrans z y x). Qed.

Lemma lt_le x y : lessE x y = true -> le x y.
Proof.
  unfold le. intros Hxy. destruct (lessE y x) eqn:Hyx; [| done].
  pose proof (lessE_trans x y x Hxy Hyx) as H. by rewrite lessE_irrefl in H.
Qed.

Lemma lt_le_trans x y z : lessE x y = true -> le y z -> lessE x z = true.
Proof.
  unfold le. intros Hxy Hyz. destruct (lessE x z) eqn:Hxz; [done |].
  pose proof (lessE_negtrans x z y Hxz Hyz). congruence.
Qed.

Lemma le_lt_trans x y z : le x y -> lessE y z = true -> lessE x z = true.
Proof.
  unfold le. intros Hxy Hyz. destruct (lessE x z) eqn:Hxz; [done |].
  pose proof (lessE_negtrans y x z Hxy Hxz). congruence.
Qed.

Lemma le_total x y : le x y \/ le y x.
Proof.
  unfold le. destruct (lessE y x) eqn:Hyx; [| by left].
  right. by apply lt_le.
Qed.

Lemma not_lt_le x y : lessE x y = false -> le y x.
Proof. done. Qed.

(** *** Slices as arrays *)

Lemma Swap_same_length (data : list A) i j : length (sort.Swap data i j) = length data.
Proof.
  unfold sort.Swap. destruct (data !! i), (data !! j); try done.
  by rewrite !length_insert.
Qed.

Lemma Swap_at (data : list A) i j k :
  (i < length data)%nat -> (j < length data)%nat ->
  sort.Swap data i j !! k
  = if decide (k = i) then data !! j
    else if decide (k = j) then data !! i else data !! k.
Proof.
  intros Hi Hj. unfold sort.Swap.
  destruct (lookup_lt_is_Some_2 data i Hi) as [x Hx].
  destruct (lookup_lt_is_Some_2 data j Hj) as [y Hy].
  rewrite Hx, Hy.
  destruct (decide (k = i)) as [-> | Hki].
  - rewrite list_lookup_insert_eq; [done |]. by rewrite length_insert.
  - rewrite list_lookup_insert_ne by done.
    destruct (decide (k = j)) as [-> | Hkj].
    + by rewrite list_lookup_insert_eq.
    + by rewrite list_lookup_insert_ne.
Qed.

Lemma Swap_at_other (data : list A) i j k :
  k <> i -> k <> j -> sort.Swap data i j !! k = data !! k.
Proof.
  intros Hi Hj. unfold sort.Swap.
  destruct (data !! i), (data !! j); try done.
  by rewrite !list_lookup_insert_ne.
Qed.

Lemma Swap_perm (data : list A) i j : sort.Swap data i j ≡ₚ data.
Proof.
  unfold sort.Swap.
  destruct (data !! i) as [x|] eqn:Hx, (data !! j) as [y|] eqn:Hy; try done.
  apply Permutation_inj. split; [by rewrite !length_insert |].
  exists (fun k => if decide (k = i) then j else if decide (k = j) then i else k).
  split.
  - intros a b. repeat case_decide; congruence.
  - intros k. repeat case_decide; subst.
    + rewrite list_lookup_insert_eq
        by (rewrite length_insert; by eapply lookup_lt_Some).
      congruence.
    + destruct (decide (i = j)) as [-> | Hne]; [done |].
      rewrite list_lookup_insert_ne by done.
      rewrite list_lookup_insert_eq by (by eapply lookup_lt_Some). done.
    + by rewrite !list_lookup_insert_ne.
Qed.

Lemma Less_at (data : list A) i j x y :
  data !! i = Some x -> data !! j = Some y ->
  sort.Less lessE data i j = lessE x y.
Proof. intros Hx Hy. unfold sort.Less. by rewrite Hx, Hy. Qed.

(** [data'] rearranges the slots [a, b) of [data] and keeps the rest. *)
Definition RP (a b : nat) (data data' : list A) : Prop :=
  length data' = length data
  /\ (forall k, ~ (a <= k < b)%nat -> data' !! k = data !! k)
  /\ data' ≡ₚ data.

Lemma RP_refl a b data : RP a b data data.
Proof. done. Qed.

Lemma RP_trans a b d1 d2 d3 : RP a b d1 d2 -> RP a b d2 d3 -> RP a b d1 d3.
Proof.
  intros (Hl1 & Ho1 & Hp1) (Hl2 & Ho2 & Hp2).
  split; [congruence |]. split; [| by etrans].
  intros k Hk. rewrite Ho2, Ho1; done.
Qed.

Lemma RP_weaken a b a' b' d1 d2 :
  (a' <= a)%nat -> (b <= b')%nat -> RP a b d1 d2 -> RP a' b' d1 d2.
Proof.
  intros Ha Hb (Hl & Ho & Hp). split; [done |]. split; [| done].
  intros k Hk. apply Ho. lia.
Qed.

Lemma RP_Swap a b data i j :
  (a <= i < b)%nat -> (a <= j < b)%nat -> RP a b data (sort.Swap data i j).
Proof.
  intros Hi Hj. split; [apply Swap_same_length |]. split; [| apply Swap_perm].
  intros k Hk. apply Swap_at_other; lia.
Qed.

(** The slots [a, b) as a list. *)
Definition seg (a b : nat) (data : list A) : list A :=
  take (b - a) (drop a data).

Lemma seg_lookup a b data k :
  (a <= k < b)%nat -> seg a b data !! (k - a)%nat = data !! k.
Proof.
  intros Hk. unfold seg. rewrite lookup_take_lt by lia.
  rewrite lookup_drop. f_equal. lia.
Qed.

Lemma seg_split a b data :
  (a <= b)%nat -> data = take a data ++ seg a b data ++ drop b data.
Proof.
  intros Hab. unfold seg.
  rewrite <- (take_drop a data) at 1. f_equal.
  rewrite <- (take_drop (b - a) (drop a data)) at 1. f_equal.
  rewrite drop_drop. f_equal. lia.
Qed.

Lemma RP_seg a b data data' :
  (a <= b)%nat -> RP a b data data' -> seg a b data' ≡ₚ seg a b data.
Proof.
  intros Hab (Hl & Ho & Hp).
  rewrite (seg_split a b data Hab) in Hp at 1.
  rewrite (seg_split a b data' Hab) in Hp at 1.
  assert (take a data' = take a data) as Ht.
  { apply list_eq. intros k. destruct (decide (k < a)%nat).
    - rewrite !lookup_take_lt by done. apply Ho. lia.
    - rewrite !lookup_take_ge by lia. done. }
  assert (drop b data' = drop b data) as Hd.
  { apply list_eq. intros k. rewrite !lookup_drop. apply Ho. lia. }
  rewrite Ht, Hd in Hp.
  apply Permutation_app_inv_l in Hp. by apply Permutation_app_inv_r in Hp.
Qed.

(** What holds of every item in the slots [a, b). *)
Definition allIn (Q : A -> Prop) (a b : nat) (data : list A) : Prop :=
  forall k x, (a <= k < b)%nat -> data !! k = Some x -> Q x.

Lemma allIn_seg Q a b data :
  (a <= b <= length data)%nat -> allIn Q a b data <-> Forall Q (seg a b data).
Proof.
  intros Hab. rewrite Forall_lookup. split.
  - intros H k x Hk. pose proof (lookup_lt_Some _ _ _ Hk) as Hlt.
    unfold seg in Hlt. rewrite length_take, length_drop in Hlt.
    apply (H (a + k)%nat x); [lia |].
    rewrite <- (seg_lookup a b) by lia.
    by replace (a + k - a)%nat with k by lia.
  - intros H k x Hk Hx. apply (H (k - a)%nat). by rewrite seg_lookup.
Qed.

Lemma RP_allIn Q a b data data' :
  (a <= b <= length data)%nat -> RP a b data data' ->
  allIn Q a b data -> allIn Q a b data'.
Proof.
  intros Hab HRP. pose proof HRP as (Hl & _ & _).
  rewrite !allIn_seg by lia. by rewrite (RP_seg a b data data') by (lia || done).
Qed.

(** The slots [a, b) are in order. *)
Definition sortedR (a b : nat) (data : list A) : Prop :=
  forall i j x y, (a <= i)%nat -> (i < j)%nat -> (j < b)%nat ->
                  data !! i = Some x -> data !! j = Some y -> le x y.

(** *** insertionSort_func *)

(** [x] moves left through the items before it, given latest first, past
    every item it is less than. *)
Fixpoint insertLeft (x : A) (before : list A) : list A :=
  match before with
  | [] => [x]
  | y :: before' =>
      if lessE x y then y :: insertLeft x before' else x :: y :: before'
  end.

(** Insertion sort as a function of the items; the result is given latest
    first. *)
Definition insertAll (acc items : list A) : list A :=
  foldl (fun acc x => insertLeft x acc) acc items.

Lemma Swap_adjacent (l1 l2 : list A) x y :
  sort.Swap (l1 ++ y :: x :: l2) (S (length l1)) (length l1)
  = l1 ++ x :: y :: l2.
Proof.
  unfold sort.Swap.
  rewrite (lookup_app_r l1 _ (S (length l1))) by lia.
  rewrite (lookup_app_r l1 _ (length l1)) by lia.
  replace (S (length l1) - length l1)%nat with 1%nat by lia.
  rewrite Nat.sub_diag. simpl.
  rewrite (insert_app_r_alt l1 _ (length l1)) by lia.
  rewrite Nat.sub_diag. simpl.
  rewrite (insert_app_r_alt l1 _ (S (length l1))) by lia.
  replace (S (length l1) - length l1)%nat with 1%nat by lia. done.
Qed.

Lemma insertionSort_inner_insertLeft front before x rest :
  sort.insertionSort_inner lessE (length front)
    (front ++ reverse before ++ x :: rest) (length front + length before)
  = front ++ reverse (insertLeft x before) ++ rest.
Proof.
  revert rest. induction before as [| y before IH]; intros rest.
  - simpl. rewrite Nat.add_0_r. destruct (length front) as [| n] eqn:E; [done |].
    simpl. replace (n <=? n)%nat with true by (symmetry; by apply Nat.leb_le).
    rewrite Nat.ltb_irrefl. done.
  - replace (length front + length (y :: before))%nat
      with (S (length front + length before)) by (simpl; lia).
    cbn [sort.insertionSort_inner insertLeft].
    replace (length front <? S (length front + length before))%nat with true
      by (symmetry; apply Nat.ltb_lt; lia).
    rewrite reverse_cons, <- !(assoc_L (++)). cbn [app].
    rewrite !(assoc_L (++) front).
    assert (length (front ++ reverse before) = length front + length before)%nat
      as Hlen by (by rewrite length_app, length_reverse).
    rewrite <- Hlen.
    rewrite (Less_at _ _ _ x y).
    2:{ rewrite lookup_app_r by lia.
        replace (S (length (front ++ reverse before))
                 - length (front ++ reverse before))%nat with 1%nat by lia.
        done. }
    2:{ rewrite lookup_app_r by lia. by rewrite Nat.sub_diag. }
    destruct (lessE x y) eqn:Hxy; cbn [andb].
    + rewrite Swap_adjacent. rewrite Hlen.
      rewrite <- (assoc_L (++) front). rewrite IH.
      by rewrite reverse_cons, <- !(assoc_L (++)).
    + by rewrite !reverse_cons, <- !(assoc_L (++)).
Qed.

Lemma insertionSort_fold front acc items back :
  foldl (sort.insertionSort_inner lessE (length front))
        (front ++ reverse acc ++ items ++ back)
        (seq (length front + length acc) (length items))
  = front ++ reverse (insertAll acc items) ++ back.
Proof.
  revert acc. induction items as [| x items IH]; intros acc; [done |].
  cbn [length seq foldl app insertAll].
  rewrite insertionSort_inner_insertLeft.
  specialize (IH (insertLeft x acc)).
  assert (length (insertLeft x acc) = S (length acc)) as Hlen.
  { clear. induction acc as [| y acc IH]; [done |].
    simpl. destruct (lessE x y); simpl; by rewrite ?IH. }
  rewrite Hlen in IH. rewrite Nat.add_succ_r in IH. exact IH.
Qed.

(** The slots [a, b) after [insertionSort_func] hold [insertAll] of what they
    held, earliest first. *)
Lemma insertionSort_func_spec front items back :
  sort.insertionSort_func lessE (front ++ items ++ back)
    (length front) (length front + length items)
  = front ++ reverse (insertAll [] items) ++ back.
Proof.
  unfold sort.insertionSort_func.
  destruct items as [| x items].
  - simpl. rewrite Nat.add_0_r.
    replace (length front - (length front + 1))%nat with 0%nat by lia. done.
  - replace (length front + length (x :: items) - (length front + 1))%nat
      with (length items) by (simpl; lia).
    pose proof (insertionSort_fold front [x] items back) as H.
    cbn [length] in H. rewrite reverse_singleton in H.
    replace (length front + 1)%nat with (length front + 1)%nat by done.
    exact H.
Qed.

Lemma insertLeft_perm x before : insertLeft x before ≡ₚ x :: before.
Proof.
  induction before as [| y before IH]; [done |].
  simpl. destruct (lessE x y); [| done].
  rewrite IH. apply Permutation_swap.
Qed.

Lemma insertAll_perm acc items : insertAll acc items ≡ₚ acc ++ items.
Proof.
  revert acc. induction items as [| x items IH]; intros acc.
  - by rewrite app_nil_r.
  - cbn [insertAll foldl]. fold (insertAll (insertLeft x acc) items).
    rewrite IH, insertLeft_perm. simpl. apply Permutation_middle.
Qed.

(** Latest first, every item may stand after the ones that follow it. *)
Definition descending (l : list A) : Prop :=
  StronglySorted (fun y x => le x y) l.

Lemma insertLeft_descending x before :
  descending before -> descending (insertLeft x before).
Proof.
  unfold descending. induction before as [| y before IH]; intros Hs.
  - simpl. by repeat constructor.
  - apply StronglySorted_cons in Hs as [Hy Hs]. simpl.
    destruct (lessE x y) eqn:Hxy.
    + apply StronglySorted_cons. split; [| by apply IH].
      rewrite insertLeft_perm. constructor; [by apply lt_le | done].
    + apply StronglySorted_cons. split.
      * constructor; [done |].
        eapply Forall_impl; [exact Hy |]. intros z Hz. simpl in Hz.
        by apply (lessE_le_trans z y x).
      * by apply StronglySorted_cons.
Qed.

Lemma insertAll_descending acc items :
  descending acc -> descending (insertAll acc items).
Proof.
  revert acc. induction items as [| x items IH]; intros acc Hs; [done |].
  apply IH. by apply insertLeft_descending.
Qed.

Lemma StronglySorted_lookup (R : A -> A -> Prop) l i j x y :
  StronglySorted R l -> (i < j)%nat ->
  l !! i = Some x -> l !! j = Some y -> R x y.
Proof.
  intros Hs. revert i j. induction Hs as [| z l Hs IH Hz]; intros i j Hij Hi Hj.
  - done.
  - destruct j as [| j]; [lia |]. destruct i as [| i].
    + simpl in *. injection Hi as ->.
      rewrite Forall_forall in Hz. apply Hz. by eapply list_elem_of_lookup_2.
    + simpl in *. apply (IH i j); (lia || done).
Qed.

Lemma descending_reverse_lookup l i j x y :
  descending l -> (i < j)%nat ->
  reverse l !! i = Some x -> reverse l !! j = Some y -> le x y.
Proof.
  intros Hs Hij Hi Hj.
  pose proof (lookup_lt_Some _ _ _ Hi) as Hli.
  pose proof (lookup_lt_Some _ _ _ Hj) as Hlj.
  rewrite length_reverse in Hli, Hlj.
  rewrite reverse_lookup in Hi by done. rewrite reverse_lookup in Hj by done.
  apply (StronglySorted_lookup _ l (length l - S j) (length l - S i) y x Hs);
    (lia || done).
Qed.

Lemma insertionSort_func_sorts data a b :
  (a <= b <= length data)%nat ->
  RP a b data (sort.insertionSort_func lessE data a b)
  /\ sortedR a b (sort.insertionSort_func lessE data a b).
Proof.
  intros Hab.
  pose proof (seg_split a b data ltac:(lia)) as Hsplit.
  assert (length (take a data) = a) as Hla by (rewrite length_take; lia).
  assert (length (seg a b data) = (b - a)%nat) as Hls.
  { unfold seg. rewrite length_take, length_drop. lia. }
  pose proof (insertionSort_func_spec (take a data) (seg a b data) (drop b data))
    as Hspec.
  rewrite <- Hsplit, Hla, Hls in Hspec.
  replace (a + (b - a))%nat with b in Hspec by lia.
  rewrite Hspec. clear Hspec.
  set (sorted := reverse (insertAll [] (seg a b data))).
  assert (sorted ≡ₚ seg a b data) as Hperm.
  { unfold sorted. by rewrite reverse_Permutation, insertAll_perm. }
  assert (length sorted = (b - a)%nat) as Hlsorted by (by rewrite Hperm).
  split.
  - split; [| split].
    + rewrite !length_app, Hlsorted, Hla, length_drop. lia.
    + intros k Hk.
      etrans; [| symmetry; exact (f_equal (fun l => l !! k) Hsplit)].
      destruct (decide (k < a)%nat).
      * rewrite !lookup_app_l by lia. done.
      * rewrite !(lookup_app_r (take a data)) by lia.
        rewrite !lookup_app_r by lia. by rewrite Hlsorted, Hls.
    + etrans; [| symmetry; by rewrite Hsplit at 1]. by rewrite Hperm.
  - intros i j x y Hai Hij Hjb Hi Hj.
    rewrite lookup_app_r in Hi by lia. rewrite lookup_app_l in Hi by lia.
    rewrite lookup_app_r in Hj by lia. rewrite lookup_app_l in Hj by lia.
    rewrite Hla in Hi, Hj.
    apply (descending_reverse_lookup (insertAll [] (seg a b data))
             (i - a) (j - a)); try done; [| lia].
    apply insertAll_descending. constructor.
Qed.

(** *** partition_func *)

Lemma allIn_empty Q a b data : (b <= a)%nat -> allIn Q a b data.
Proof. intros Hab k x Hk. lia. Qed.

Lemma allIn_snoc Q a b data x :
  allIn Q a b data -> data !! b = Some x -> Q x -> allIn Q a (S b) data.
Proof.
  intros H Hb Hx k y Hk Hy. destruct (decide (k = b)) as [-> | Hne].
  - congruence.
  - apply (H k); [lia | done].
Qed.

Lemma allIn_cons Q a b data x :
  allIn Q (S a) b data -> data !! a = Some x -> Q x -> allIn Q a b data.
Proof.
  intros H Ha Hx k y Hk Hy. destruct (decide (k = a)) as [-> | Hne].
  - congruence.
  - apply (H k); [lia | done].
Qed.

Lemma allIn_weaken Q a b a' b' data :
  (a <= a')%nat -> (b' <= b)%nat -> allIn Q a b data -> allIn Q a' b' data.
Proof. intros Ha Hb H k x Hk. apply H. lia. Qed.

Lemma scanUpLess_spec data a p j fuel i :
  data !! a = Some p -> (i <= j + 1)%nat -> (j < length data)%nat ->
  (j + 1 - i <= fuel)%nat ->
  let i' := sort.scanUpLess lessE fuel data a i j in
  (i <= i' <= j + 1)%nat
  /\ allIn (fun x => lessE x p = true) i i' data
  /\ ((i' <= j)%nat -> forall x, data !! i' = Some x -> lessE x p = false).
Proof.
  intros Ha. revert i. induction fuel as [| fuel IH]; intros i Hij Hj Hfuel.
  - simpl. split; [lia |]. split; [by apply allIn_empty | lia].
  - simpl. destruct (i <=? j)%nat eqn:Hle; cbn [andb].
    + apply Nat.leb_le in Hle.
      destruct (lookup_lt_is_Some_2 data i ltac:(lia)) as [x Hx].
      rewrite (Less_at _ _ _ x p Hx Ha).
      destruct (lessE x p) eqn:Hxp.
      * destruct (IH (S i) ltac:(lia) Hj ltac:(lia)) as (Hr & Hall & Hstop).
        split; [lia |]. split; [| done].
        by apply (allIn_cons _ _ _ _ x).
      * split; [lia |]. split; [by apply allIn_empty |].
        intros _ y Hy. congruence.
    + apply Nat.leb_gt in Hle.
      split; [lia |]. split; [by apply allIn_empty | lia].
Qed.

Lemma scanDownNotLess_spec data a p i fuel j :
  data !! a = Some p -> (1 <= i <= j + 1)%nat -> (j < length data)%nat ->
  (j + 1 - i <= fuel)%nat ->
  let j' := sort.scanDownNotLess lessE fuel data a i j in
  (i <= j' + 1 <= j + 1)%nat
  /\ allIn (fun x => lessE x p = false) (j' + 1) (j + 1) data
  /\ ((i <= j')%nat -> forall x, data !! j' = Some x -> lessE x p = true).
Proof.
  intros Ha. revert j. induction fuel as [| fuel IH]; intros j Hij Hj Hfuel.
  - simpl. split; [lia |]. split; [by apply allIn_empty | lia].
  - simpl. destruct (i <=? j)%nat eqn:Hle; cbn [andb].
    + apply Nat.leb_le in Hle.
      destruct (lookup_lt_is_Some_2 data j ltac:(lia)) as [x Hx].
      rewrite (Less_at _ _ _ x p Hx Ha).
      destruct (lessE x p) eqn:Hxp; cbn [negb].
      * split; [lia |]. split; [by apply allIn_empty |].
        intros _ y Hy. congruence.
      * destruct (IH (j - 1)%nat ltac:(lia) ltac:(lia) ltac:(lia))
          as (Hr & Hall & Hstop).
        split; [lia |]. split; [| done].
        replace (j + 1)%nat with (S j) by lia.
        apply (allIn_snoc _ _ _ _ x); [| done | done].
        by replace (j - 1 + 1)%nat with j in Hall by lia.
    + apply Nat.leb_gt in Hle.
      split; [lia |]. split; [by apply allIn_empty | lia].
Qed.

(** What the scanning loop of [partition_func] keeps: the pivot [p] waits in
    slot [a], the slots before [i] are less than it and the slots after [j]
    are not. *)
Definition Parted (p : A) (a b i j : nat) (data : list A) : Prop :=
  data !! a = Some p
  /\ (a + 1 <= i <= j + 1)%nat /\ (j < b <= length data)%nat
  /\ allIn (fun x => lessE x p = true) (a + 1) i data
  /\ allIn (fun x => lessE x p = false) (j + 1) b data.

Lemma partition_loop_spec p a b fuel data i j :
  Parted p a b i j data -> (j + 1 - i < fuel)%nat ->
  let '(data', j') := sort.partition_loop lessE fuel data a i j in
  RP (a + 1) b data data' /\ Parted p a b (j' + 1) j' data'.
Proof.
  revert data i j. induction fuel as [| fuel IH]; intros data i j HP Hfuel;
    [lia |].
  destruct HP as (Ha & Hij & Hjb & Hlt & Hge).
  cbn [sort.partition_loop].
  pose proof (scanUpLess_spec data a p j (length data) i Ha
                ltac:(lia) ltac:(lia) ltac:(lia)) as (Hi1 & Hlt1 & Hstop1).
  set (i1 := sort.scanUpLess lessE (length data) data a i j) in *.
  pose proof (scanDownNotLess_spec data a p i1 (length data) j Ha
                ltac:(lia) ltac:(lia) ltac:(lia)) as (Hj1 & Hge1 & Hstop2).
  set (j1 := sort.scanDownNotLess lessE (length data) data a i1 j) in *.
  assert (allIn (fun x => lessE x p = true) (a + 1) i1 data) as Hlt'.
  { intros k x Hk Hx. destruct (decide (k < i)%nat).
    - apply (Hlt k); [lia | done].
    - apply (Hlt1 k); [lia | done]. }
  assert (allIn (fun x => lessE x p = false) (j1 + 1) b data) as Hge'.
  { intros k x Hk Hx. destruct (decide (k < j + 1)%nat).
    - apply (Hge1 k); [lia | done].
    - apply (Hge k); [lia | done]. }
  clearbody i1 j1.
  destruct (j1 <? i1)%nat eqn:Hcmp.
  - apply Nat.ltb_lt in Hcmp. split; [apply RP_refl |].
    split; [done |]. split; [lia |]. split; [lia |].
    split; [| done].
    replace (j1 + 1)%nat with i1 by lia. done.
  - apply Nat.ltb_ge in Hcmp.
    destruct (lookup_lt_is_Some_2 data i1 ltac:(lia)) as [x Hx].
    destruct (lookup_lt_is_Some_2 data j1 ltac:(lia)) as [y Hy].
    pose proof (Hstop1 ltac:(lia) x Hx) as Hxp.
    pose proof (Hstop2 ltac:(lia) y Hy) as Hyp.
    assert (i1 <> j1) as Hne by (intros ->; congruence).
    specialize (IH (sort.Swap data i1 j1) (i1 + 1)%nat (j1 - 1)%nat).
    destruct (sort.partition_loop lessE fuel (sort.Swap data i1 j1) a
                (i1 + 1) (j1 - 1)) as [data' j'].
    destruct IH as [HRP HP'].
    + split; [rewrite Swap_at_other by lia; done |].
      split; [lia |]. split; [rewrite Swap_same_length; lia |].
      split.
      * intros k z Hk Hz. rewrite Swap_at in Hz by lia.
        repeat case_decide; subst.
        -- congruence.
        -- lia.
        -- apply (Hlt' k); [lia | done].
      * intros k z Hk Hz. rewrite Swap_at in Hz by lia.
        repeat case_decide; subst.
        -- lia.
        -- congruence.
        -- apply (Hge' k); [lia | done].
    + lia.
    + split; [| done].
      eapply RP_trans; [| exact HRP]. apply RP_Swap; lia.
Qed.

Lemma partition_func_loop data a b pivot :
  sort.partition_func lessE data a b pivot
  = let '(data', j) :=
      sort.partition_loop lessE (S (length data)) (sort.Swap data a pivot) a
        (a + 1) (b - 1) in
    (sort.Swap data' j a, j,
     (sort.scanDownNotLess lessE (length data) (sort.Swap data a pivot) a
        (sort.scanUpLess lessE (length data) (sort.Swap data a pivot) a
           (a + 1) (b - 1)) (b - 1)
      <? sort.scanUpLess lessE (length data) (sort.Swap data a pivot) a
           (a + 1) (b - 1))%nat).
Proof.
  unfold sort.partition_func. cbn [sort.partition_loop].
  rewrite !Swap_same_length.
  destruct (_ <? _)%nat; [done |].
  by destruct (sort.partition_loop _ _ _ _ _ _).
Qed.

(** [partition_func] puts the pivot in slot [mid], what is less than it
    before, and what is not after. *)
Lemma partition_func_spec data a b pivot p :
  (a <= pivot < b)%nat -> (b <= length data)%nat -> data !! pivot = Some p ->
  let '(data', mid, _) := sort.partition_func lessE data a b pivot in
  (a <= mid < b)%nat /\ RP a b data data' /\ data' !! mid = Some p
  /\ allIn (fun x => lessE x p = true) a mid data'
  /\ allIn (fun x => lessE x p = false) (mid + 1) b data'.
Proof.
  intros Hpivot Hb Hp. rewrite partition_func_loop.
  assert (Parted p a b (a + 1) (b - 1) (sort.Swap data a pivot)) as HP.
  { split.
    { rewrite Swap_at by lia. by rewrite decide_True. }
    split; [lia |]. split; [rewrite Swap_same_length; lia |].
    split; apply allIn_empty; lia. }
  pose proof (partition_loop_spec p a b (S (length data)) _ _ _ HP ltac:(lia))
    as Hloop.
  destruct (sort.partition_loop _ _ _ _ _ _) as [data' j].
  destruct Hloop as [HRP (Ha & Hij & Hjb & Hlt & Hge)].
  pose proof HRP as (Hlen & _ & _). rewrite Swap_same_length in Hlen.
  split; [lia |]. split.
  { eapply RP_trans; [apply (RP_Swap a b data a pivot); lia |].
    eapply RP_trans; [eapply RP_weaken; [| | exact HRP]; lia |].
    apply RP_Swap; lia. }
  split; [rewrite Swap_at by lia; by rewrite decide_True |].
  split.
  - intros k x Hk Hx. rewrite Swap_at in Hx by lia.
    repeat case_decide; subst.
    + lia.
    + apply (Hlt j); [lia | done].
    + apply (Hlt k); [lia | done].
  - intros k x Hk Hx. rewrite Swap_at_other in Hx by lia.
    apply (Hge k); [lia | done].
Qed.

(** *** partitionEqual_func *)

Lemma scanUpNotGreater_spec data a p j fuel i :
  data !! a = Some p -> (i <= j + 1)%nat -> (j < length data)%nat ->
  (j + 1 - i <= fuel)%nat ->
  let i' := sort.scanUpNotGreater lessE fuel data a i j in
  (i <= i' <= j + 1)%nat
  /\ allIn (fun x => lessE p x = false) i i' data
  /\ ((i' <= j)%nat -> forall x, data !! i' = Some x -> lessE p x = true).
Proof.
  intros Ha. revert i. induction fuel as [| fuel IH]; intros i Hij Hj Hfuel.
  - simpl. split; [lia |]. split; [by apply allIn_empty | lia].
  - simpl. destruct (i <=? j)%nat eqn:Hle; cbn [andb].
    + apply Nat.leb_le in Hle.
      destruct (lookup_lt_is_Some_2 data i ltac:(lia)) as [x Hx].
      rewrite (Less_at _ _ _ p x Ha Hx).
      destruct (lessE p x) eqn:Hxp; cbn [negb].
      * split; [lia |]. split; [by apply allIn_empty |].
        intros _ y Hy. congruence.
      * destruct (IH (S i) ltac:(lia) Hj ltac:(lia)) as (Hr & Hall & Hstop).
        split; [lia |]. split; [| done].
        by apply (allIn_cons _ _ _ _ x).
    + apply Nat.leb_gt in Hle.
      split; [lia |]. split; [by apply allIn_empty | lia].
Qed.

Lemma scanDownGreater_spec data a p i fuel j :
  data !! a = Some p -> (1 <= i <= j + 1)%nat -> (j < length data)%nat ->
  (j + 1 - i <= fuel)%nat ->
  let j' := sort.scanDownGreater lessE fuel data a i j in
  (i <= j' + 1 <= j + 1)%nat
  /\ allIn (fun x => lessE p x = true) (j' + 1) (j + 1) data
  /\ ((i <= j')%nat -> forall x, data !! j' = Some x -> lessE p x = false).
Proof.
  intros Ha. revert j. induction fuel as [| fuel IH]; intros j Hij Hj Hfuel.
  - simpl. split; [lia |]. split; [by apply allIn_empty | lia].
  - simpl. destruct (i <=? j)%nat eqn:Hle; cbn [andb].
    + apply Nat.leb_le in Hle.
      destruct (lookup_lt_is_Some_2 data j ltac:(lia)) as [x Hx].
      rewrite (Less_at _ _ _ p x Ha Hx).
      destruct (lessE p x) eqn:Hxp.
      * destruct (IH (j - 1)%nat ltac:(lia) ltac:(lia) ltac:(lia))
          as (Hr & Hall & Hstop).
        split; [lia |]. split; [| done].
        replace (j + 1)%nat with (S j) by lia.
        apply (allIn_snoc _ _ _ _ x); [| done | done].
        by replace (j - 1 + 1)%nat with j in Hall by lia.
      * split; [lia |]. split; [by apply allIn_empty |].
        intros _ y Hy. congruence.
    + apply Nat.leb_gt in Hle.
      split; [lia |]. split; [by apply allIn_empty | lia].
Qed.

(** What the scanning loop of [partitionEqual_func] keeps: the pivot [p]
    waits in slot [a], it is less than none of the slots before [i] and
    less than each of the slots after [j]. *)
Definition PartedEq (p : A) (a b i j : nat) (data : list A) : Prop :=
  data !! a = Some p
  /\ (a + 1 <= i <= j + 1)%nat /\ (j < b <= length data)%nat
  /\ allIn (fun x => lessE p x = false) (a + 1) i data
  /\ allIn (fun x => lessE p x = true) (j + 1) b data.

Lemma partitionEqual_loop_spec p a b fuel data i j :
  PartedEq p a b i j data -> (j + 1 - i < fuel)%nat ->
  let '(data', i') := sort.partitionEqual_loop lessE fuel data a i j in
  RP (a + 1) b data data' /\ PartedEq p a b i' (i' - 1) data'.
Proof.
  revert data i j. induction fuel as [| fuel IH]; intros data i j HP Hfuel;
    [lia |].
  destruct HP as (Ha & Hij & Hjb & Hlt & Hge).
  cbn [sort.partitionEqual_loop].
  pose proof (scanUpNotGreater_spec data a p j (length data) i Ha
                ltac:(lia) ltac:(lia) ltac:(lia)) as (Hi1 & Hlt1 & Hstop1).
  set (i1 := sort.scanUpNotGreater lessE (length data) data a i j) in *.
  pose proof (scanDownGreater_spec data a p i1 (length data) j Ha
                ltac:(lia) ltac:(lia) ltac:(lia)) as (Hj1 & Hge1 & Hstop2).
  set (j1 := sort.scanDownGreater lessE (length data) data a i1 j) in *.
  assert (allIn (fun x => lessE p x = false) (a + 1) i1 data) as Hlt'.
  { intros k x Hk Hx. destruct (decide (k < i)%nat).
    - apply (Hlt k); [lia | done].
    - apply (Hlt1 k); [lia | done]. }
  assert (allIn (fun x => lessE p x = true) (j1 + 1) b data) as Hge'.
  { intros k x Hk Hx. destruct (decide (k < j + 1)%nat).
    - apply (Hge1 k); [lia | done].
    - apply (Hge k); [lia | done]. }
  clearbody i1 j1.
  destruct (j1 <? i1)%nat eqn:Hcmp.
  - apply Nat.ltb_lt in Hcmp. split; [apply RP_refl |].
    split; [done |]. split; [lia |]. split; [lia |].
    split; [done |].
    replace (i1 - 1 + 1)%nat with (j1 + 1)%nat by lia. done.
  - apply Nat.ltb_ge in Hcmp.
    destruct (lookup_lt_is_Some_2 data i1 ltac:(lia)) as [x Hx].
    destruct (lookup_lt_is_Some_2 data j1 ltac:(lia)) as [y Hy].
    pose proof (Hstop1 ltac:(lia) x Hx) as Hxp.
    pose proof (Hstop2 ltac:(lia) y Hy) as Hyp.
    assert (i1 <> j1) as Hne by (intros ->; congruence).
    specialize (IH (sort.Swap data i1 j1) (i1 + 1)%nat (j1 - 1)%nat).
    destruct (sort.partitionEqual_loop lessE fuel (sort.Swap data i1 j1) a
                (i1 + 1) (j1 - 1)) as [data' i'].
    destruct IH as [HRP HP'].
    + split; [rewrite Swap_at_other by lia; done |].
      split; [lia |]. split; [rewrite Swap_same_length; lia |].
      split.
      * intros k z Hk Hz. rewrite Swap_at in Hz by lia.
        repeat case_decide; subst.
        -- congruence.
        -- lia.
        -- apply (Hlt' k); [lia | done].
      * intros k z Hk Hz. rewrite Swap_at in Hz by lia.
        repeat case_decide; subst.
        -- lia.
        -- congruence.
        -- apply (Hge' k); [lia | done].
    + lia.
    + split; [| done].
      eapply RP_trans; [| exact HRP]. apply RP_Swap; lia.
Qed.

(** [partitionEqual_func] puts before [mid] what the pivot is not less
    than, and from [mid] on what it is less than. *)
Lemma partitionEqual_func_spec data a b pivot p :
  (a <= pivot < b)%nat -> (b <= length data)%nat -> data !! pivot = Some p ->
  let '(data', mid) := sort.partitionEqual_func lessE data a b pivot in
  (a < mid <= b)%nat /\ RP a b data data'
  /\ allIn (fun x => lessE p x = false) a mid data'
  /\ allIn (fun x => lessE p x = true) mid b data'.
Proof.
  intros Hpivot Hb Hp. unfold sort.partitionEqual_func.
  assert (PartedEq p a b (a + 1) (b - 1) (sort.Swap data a pivot)) as HP.
  { split.
    { rewrite Swap_at by lia. by rewrite decide_True. }
    split; [lia |]. split; [rewrite Swap_same_length; lia |].
    split; apply allIn_empty; lia. }
  pose proof (partitionEqual_loop_spec p a b
                (length (sort.Swap data a pivot)) _ _ _ HP
                ltac:(rewrite Swap_same_length; lia)) as Hloop.
  destruct (sort.partitionEqual_loop _ _ _ _ _ _) as [data' i].
  destruct Hloop as [HRP (Ha & Hij & Hjb & Hlt & Hge)].
  split; [lia |]. split.
  { eapply RP_trans; [apply (RP_Swap a b data a pivot); lia |].
    eapply RP_weaken; [| | exact HRP]; lia. }
  split.
  - apply (allIn_cons _ _ _ _ p); [| done | apply lessE_irrefl].
    by replace (S a) with (a + 1)%nat by lia.
  - by replace (i - 1 + 1)%nat with i in Hge by lia.
Qed.

(** *** heapSort_func *)

(** The slots [first + k], [s <= k < hi], form a heap with the greatest on
    top: no item is less than a child of its own. *)
Definition child (k c : nat) : Prop := c = (2 * k + 1)%nat \/ c = (2 * k + 2)%nat.

Definition edge (first : nat) (data : list A) (k c : nat) : Prop :=
  forall x y, data !! (first + k)%nat = Some x ->
              data !! (first + c)%nat = Some y -> le y x.

Definition heapFrom (first s hi : nat) (data : list A) : Prop :=
  forall k c, (s <= k)%nat -> child k c -> (c < hi)%nat -> edge first data k c.

(** A heap but for the children of [root], which are no greater than the
    parent of [root]. *)
Definition heapExcept (first s hi root : nat) (data : list A) : Prop :=
  (forall k c, (s <= k)%nat -> k <> root -> child k c -> (c < hi)%nat ->
               edge first data k c)
  /\ (forall k c, (s <= k)%nat -> child k root -> child root c -> (c < hi)%nat ->
                  edge first data k c).

Lemma siftDown_loop_spec first s hi fuel data root :
  (first + hi <= length data)%nat -> (s <= root)%nat ->
  (hi - root <= fuel)%nat ->
  heapExcept first s hi root data ->
  RP (first + s) (first + hi) data
     (sort.siftDown_loop lessE fuel data root hi first)
  /\ heapFrom first s hi (sort.siftDown_loop lessE fuel data root hi first).
Proof.
  revert data root.
  induction fuel as [| fuel IH]; intros data root Hlen Hs Hfuel [Hedges Hgrand].
  - simpl. split; [apply RP_refl |].
    intros k c Hk Hc Hhi. destruct (decide (k = root)) as [-> | Hne].
    + unfold child in Hc. lia.
    + by apply Hedges.
  - cbn [sort.siftDown_loop].
    destruct (hi <=? 2 * root + 1)%nat eqn:Hchild.
    { apply Nat.leb_le in Hchild. split; [apply RP_refl |].
      intros k c Hk Hc Hhi. destruct (decide (k = root)) as [-> | Hne].
      - unfold child in Hc. lia.
      - by apply Hedges. }
    apply Nat.leb_gt in Hchild.
    set (c1 := (2 * root + 1)%nat) in *.
    destruct (lookup_lt_is_Some_2 data (first + root) ltac:(lia)) as [x Hx].
    destruct (lookup_lt_is_Some_2 data (first + c1) ltac:(lia)) as [y1 Hy1].
    (* the greater child *)
    set (c := if (c1 + 1 <? hi)%nat
                   && sort.Less lessE data (first + c1) (first + c1 + 1)
              then (c1 + 1)%nat else c1).
    assert (child root c /\ (c < hi)%nat
            /\ forall c', child root c' -> (c' < hi)%nat ->
                 forall y y', data !! (first + c)%nat = Some y ->
                              data !! (first + c')%nat = Some y' -> le y' y)
      as (Hc & Hchi & Hmax).
    { unfold c. destruct (c1 + 1 <? hi)%nat eqn:Hc2; cbn [andb].
      - apply Nat.ltb_lt in Hc2.
        destruct (lookup_lt_is_Some_2 data (first + c1 + 1) ltac:(lia))
          as [y2 Hy2].
        rewrite (Less_at _ _ _ y1 y2 Hy1 Hy2).
        destruct (lessE y1 y2) eqn:H12.
        + split; [right; unfold c1; lia |]. split; [lia |].
          intros c' [-> | ->] Hc' y y' Hy Hy'.
          * fold c1 in Hy'. replace (first + (c1 + 1))%nat
              with (first + c1 + 1)%nat in Hy by lia.
            assert (y = y2) by congruence. assert (y' = y1) by congruence.
            subst. by apply lt_le.
          * replace (first + (2 * root + 2))%nat
              with (first + (c1 + 1))%nat in Hy' by (unfold c1; lia).
            assert (y' = y) by congruence. subst. apply lessE_le_refl.
        + split; [by left |]. split; [lia |].
          intros c' [-> | ->] Hc' y y' Hy Hy'.
          * fold c1 in Hy'. assert (y' = y) by congruence. subst.
            apply lessE_le_refl.
          * replace (first + (2 * root + 2))%nat
              with (first + c1 + 1)%nat in Hy' by (unfold c1; lia).
            assert (y = y1) by congruence. assert (y' = y2) by congruence.
            subst. exact H12.
      - apply Nat.ltb_ge in Hc2. split; [by left |]. split; [lia |].
        intros c' [-> | ->] Hc' y y' Hy Hy'.
        + fold c1 in Hy'. assert (y' = y) by congruence. subst. apply lessE_le_refl.
        + unfold c1 in Hc2. lia. }
    clearbody c.
    destruct (lookup_lt_is_Some_2 data (first + c) ltac:(lia)) as [y Hy].
    rewrite (Less_at _ _ _ x y Hx Hy).
    destruct (lessE x y) eqn:Hxy; cbn [negb].
    + (* swap and go on from the child *)
      assert (root < c)%nat as Hrc by (unfold child, c1 in *; lia).
      destruct (IH (sort.Swap data (first + root) (first + c)) c) as [HRP Hheap].
      * rewrite Swap_same_length. lia.
      * lia.
      * lia.
      * split.
        -- intros k c' Hk Hne Hc' Hhi' u v Hu Hv.
           rewrite Swap_at in Hu by lia. rewrite Swap_at in Hv by lia.
           destruct (decide (k = root)) as [-> | Hkroot].
           ++ rewrite decide_True in Hu by done.
              assert (u = y) by congruence. subst u.
              destruct (decide (c' = c)) as [-> | Hc'c].
              ** rewrite decide_False in Hv by lia.
                 rewrite decide_True in Hv by done.
                 assert (v = x) by congruence. subst v. by apply lt_le.
              ** rewrite decide_False in Hv by (unfold child in *; lia).
                 rewrite decide_False in Hv by lia.
                 by apply (Hmax c' Hc' Hhi' y v).
           ++ rewrite decide_False in Hu by lia.
              rewrite decide_False in Hu by lia.
              destruct (decide (c' = root)) as [-> | Hc'root].
              ** rewrite decide_True in Hv by done.
                 assert (v = y) by congruence. subst v.
                 by apply (Hgrand k c Hk Hc' Hc Hchi u y).
              ** rewrite decide_False in Hv by lia.
                 destruct (decide (c' = c)) as [-> | Hc'c].
                 { unfold child in *. lia. }
                 rewrite decide_False in Hv by lia.
                 by apply (Hedges k c' Hk Hkroot Hc' Hhi' u v).
        -- intros k c' Hk Hkc Hc' Hhi' u v Hu Hv.
           assert (k = root) as -> by (unfold child in *; lia).
           rewrite Swap_at in Hu by lia. rewrite Swap_at in Hv by lia.
           rewrite decide_True in Hu by done.
           assert (u = y) by congruence. subst u.
           rewrite decide_False in Hv by (unfold child in *; lia).
           rewrite decide_False in Hv by (unfold child in *; lia).
           apply (Hedges c c' ltac:(lia) ltac:(lia) Hc' Hhi' y v); done.
      * split; [| done].
        eapply RP_trans; [| exact HRP]. apply RP_Swap; lia.
    + split; [apply RP_refl |].
      intros k c' Hk Hc' Hhi'. destruct (decide (k = root)) as [-> | Hne].
      * intros u v Hu Hv. assert (u = x) by congruence. subst u.
        apply (lessE_le_trans v y x); [by apply (Hmax c' Hc' Hhi' y v) | exact Hxy].
      * by apply Hedges.
Qed.

Lemma siftDown_func_spec first s hi data :
  (first + hi <= length data)%nat ->
  heapExcept first s hi s data ->
  RP (first + s) (first + hi) data (sort.siftDown_func lessE data s hi first)
  /\ heapFrom first s hi (sort.siftDown_func lessE data s hi first).
Proof.
  intros Hlen HE. apply siftDown_loop_spec; (lia || done).
Qed.

Lemma heapFrom_heapExcept first s hi data :
  heapFrom first (S s) hi data -> heapExcept first s hi s data.
Proof.
  intros H. split.
  - intros k c Hk Hne Hc Hhi. apply H; (lia || done).
  - intros k c Hk Hks. unfold child in Hks. lia.
Qed.

Lemma heapSort_build first hi n data :
  (first + hi <= length data)%nat -> heapFrom first n hi data ->
  let data' := foldl (fun d i => sort.siftDown_func lessE d i hi first) data
                     (rev (seq 0 n)) in
  RP first (first + hi) data data' /\ heapFrom first 0 hi data'.
Proof.
  revert data. induction n as [| n IH]; intros data Hlen Hheap.
  - simpl. split; [apply RP_refl | done].
  - rewrite seq_S, rev_unit. cbn [foldl Nat.add].
    destruct (siftDown_func_spec first n hi data Hlen
                (heapFrom_heapExcept _ _ _ _ Hheap)) as [HRP Hheap'].
    pose proof HRP as (Hlen' & _ & _).
    destruct (IH (sort.siftDown_func lessE data n hi first)
                ltac:(lia) Hheap') as [HRP' Hheap''].
    split; [| done].
    eapply RP_trans; [| exact HRP']. eapply RP_weaken; [| | exact HRP]; lia.
Qed.

(** The top of a heap is its greatest item. *)
Lemma heapFrom_top first n data k x r :
  heapFrom first 0 n data -> (k < n)%nat ->
  data !! (first + k)%nat = Some x -> data !! first = Some r -> le x r.
Proof.
  intros Hheap. revert x. induction (lt_wf k) as [k _ IH]. intros x Hk Hx Hr.
  destruct k as [| k].
  - rewrite Nat.add_0_r in Hx. assert (x = r) by congruence. subst.
    apply lessE_le_refl.
  - assert (exists m, child m (S k)) as [m Hm].
    { destruct (Nat.Even_or_Odd k) as [[j ->] | [j ->]].
      - exists j. left. lia.
      - exists j. right. lia. }
    assert (m < S k)%nat as Hlt by (unfold child in Hm; lia).
    assert (is_Some (data !! (first + m)%nat)) as [y Hy].
    { apply lookup_lt_is_Some_2. apply lookup_lt_Some in Hx. lia. }
    apply (lessE_le_trans x y r).
    + by apply (Hheap m (S k) ltac:(lia) Hm Hk y x).
    + apply (IH m); (lia || done).
Qed.

Lemma heapSort_extract first hi n data :
  (n <= hi)%nat -> (first + hi <= length data)%nat ->
  heapFrom first 0 n data ->
  sortedR (first + n) (first + hi) data ->
  (forall p q x y, (first <= p < first + n)%nat ->
                   (first + n <= q < first + hi)%nat ->
                   data !! p = Some x -> data !! q = Some y -> le x y) ->
  let data' :=
    foldl (fun d i => sort.siftDown_func lessE
                        (sort.Swap d first (first + i)) 0 i first)
          data (rev (seq 0 n)) in
  RP first (first + hi) data data' /\ sortedR first (first + hi) data'.
Proof.
  revert data. induction n as [| n IH]; intros data Hn Hlen Hheap Hsorted Hcross.
  - simpl. split; [apply RP_refl |]. by rewrite Nat.add_0_r in Hsorted.
  - rewrite seq_S, rev_unit. cbn [foldl Nat.add].
    set (d1 := sort.Swap data first (first + n)).
    assert (length d1 = length data) as Hlen1 by apply Swap_same_length.
    destruct (lookup_lt_is_Some_2 data first ltac:(lia)) as [r Hr].
    destruct (lookup_lt_is_Some_2 data (first + n) ltac:(lia)) as [z Hz].
    assert (forall k, d1 !! k
              = if decide (k = first) then Some z
                else if decide (k = first + n)%nat then Some r
                     else data !! k) as Hd1.
    { intros k. unfold d1. rewrite Swap_at by lia.
      repeat case_decide; done. }
    assert (heapExcept first 0 n 0 d1) as HE.
    { split.
      - intros k c Hk Hne Hc Hc' u v Hu Hv.
        rewrite Hd1 in Hu, Hv.
        rewrite decide_False in Hu by lia. rewrite decide_False in Hu
          by (unfold child in Hc; lia).
        rewrite decide_False in Hv by (unfold child in Hc; lia).
        rewrite decide_False in Hv by lia.
        by apply (Hheap k c Hk Hc ltac:(lia) u v).
      - intros k c Hk Hk0. unfold child in Hk0. lia. }
    destruct (siftDown_func_spec first 0 n d1 ltac:(lia) HE) as [HRP Hheap'].
    set (d2 := sort.siftDown_func lessE d1 0 n first) in *.
    pose proof HRP as (Hlen2 & Hout2 & _).
    rewrite Nat.add_0_r in HRP, Hout2.
    assert (forall k, (first + n <= k)%nat -> d2 !! k
              = if decide (k = first + n)%nat then Some r else data !! k)
      as Hd2.
    { intros k Hk. rewrite Hout2 by lia. rewrite Hd1.
      destruct (decide (k = first)); [| done].
      subst k. assert (n = 0)%nat as -> by lia.
      rewrite Nat.add_0_r in *. rewrite decide_True by done. congruence. }
    assert (sortedR (first + n) (first + hi) d2) as Hs2.
    { intros i j x y Hi Hij Hj Hx Hy.
      rewrite Hd2 in Hx by lia. rewrite Hd2 in Hy by lia.
      rewrite decide_False in Hy by lia.
      destruct (decide (i = first + n)%nat) as [-> | Hne].
      * assert (x = r) by congruence. subst x.
        apply (Hcross first j r y); (lia || done).
      * apply (Hsorted i j x y); (lia || done). }
    assert (forall p q x y, (first <= p < first + n)%nat ->
                   (first + n <= q < first + hi)%nat ->
                   d2 !! p = Some x -> d2 !! q = Some y -> le x y) as Hc2.
    { assert (allIn (fun x => le x r
                 /\ forall q y, (first + n < q < first + hi)%nat ->
                                data !! q = Some y -> le x y)
                first (first + n) d1) as Hall.
      { intros k x Hk Hx. rewrite Hd1 in Hx.
        assert (exists k', (first <= k' < first + S n)%nat
                           /\ data !! k' = Some x) as (k' & Hk' & Hx').
        { destruct (decide (k = first)).
          - exists (first + n)%nat. split; [lia | congruence].
          - rewrite decide_False in Hx by lia. exists k. split; [lia | done]. }
        split.
        - apply (heapFrom_top first (S n) data (k' - first)); try done; [lia |].
          by replace (first + (k' - first))%nat with k' by lia.
        - intros q y Hq Hy. apply (Hcross k' q x y); (lia || done). }
      apply (RP_allIn _ first (first + n) d1 d2 ltac:(lia) HRP) in Hall.
      intros p q x y Hp Hq Hx Hy.
      destruct (Hall p x ltac:(lia) Hx) as [Hxr Hxq].
      rewrite Hd2 in Hy by lia.
      destruct (decide (q = first + n)%nat) as [-> | Hne].
      * assert (y = r) by congruence. by subst y.
      * apply (Hxq q y); [lia | done]. }
    destruct (IH d2 ltac:(lia) ltac:(lia) Hheap' Hs2 Hc2) as [HRP' Hsorted'].
    split; [| done].
    eapply RP_trans; [apply (RP_Swap first (first + hi) data first (first + n));
                      lia |].
    eapply RP_trans; [| exact HRP'].
    eapply RP_weaken; [| | exact HRP]; lia.
Qed.

Lemma heapSort_func_sorts data a b :
  (a <= b <= length data)%nat ->
  RP a b data (sort.heapSort_func lessE data a b)
  /\ sortedR a b (sort.heapSort_func lessE data a b).
Proof.
  intros Hab. unfold sort.heapSort_func.
  assert (a + (b - a) = b)%nat as Hb by lia.
  destruct (heapSort_build a (b - a) ((b - a - 1) / 2 + 1) data) as [HRP Hheap].
  - lia.
  - intros k c Hk Hc Hhi. exfalso.
    pose proof (Nat.div_mod_eq (b - a - 1) 2) as Hdiv.
    pose proof (Nat.mod_upper_bound (b - a - 1) 2 ltac:(lia)) as Hmod.
    unfold child in Hc. lia.
  - pose proof HRP as (Hlen & _ & _).
    edestruct (heapSort_extract a (b - a) (b - a)) as [HRP' Hsorted];
      [| | exact Hheap | | |].
    + lia.
    + lia.
    + intros i j x y Hi Hij Hj. lia.
    + intros p q x y Hp Hq. lia.
    + rewrite Hb in *. split; [| done]. by eapply RP_trans.
Qed.

(** *** partialInsertionSort_func *)

(** The item before slot [a], if there is one, may stand before every item
    of the slots [a, b): what [pdqsort_func] has arranged before it works
    on a range that does not start the slice. *)
Definition lowerBound (a b : nat) (data : list A) : Prop :=
  forall y, (1 <= a)%nat -> data !! (a - 1)%nat = Some y -> allIn (le y) a b data.

Lemma lowerBound_RP a b data data' :
  (a <= b <= length data)%nat -> RP a b data data' ->
  lowerBound a b data -> lowerBound a b data'.
Proof.
  intros Hab HRP HLB y Ha Hy. pose proof HRP as (_ & Hout & _).
  rewrite Hout in Hy by lia.
  by apply (RP_allIn _ a b data data' Hab HRP), HLB.
Qed.

Lemma lowerBound_weaken a b b' data :
  (b' <= b)%nat -> lowerBound a b data -> lowerBound a b' data.
Proof.
  intros Hb HLB y Ha Hy. eapply allIn_weaken; [| | by apply HLB]; lia.
Qed.

Lemma allIn_outside Q a b a' b' data data' :
  RP a' b' data data' -> (b <= a' \/ b' <= a)%nat ->
  allIn Q a b data -> allIn Q a b data'.
Proof.
  intros (_ & Hout & _) Hdisj H k x Hk Hx.
  rewrite Hout in Hx by lia. by apply (H k).
Qed.

Lemma sortedR_outside a b a' b' data data' :
  RP a' b' data data' -> (b <= a' \/ b' <= a)%nat ->
  sortedR a b data -> sortedR a b data'.
Proof.
  intros (_ & Hout & _) Hdisj H i j x y Hi Hij Hj Hx Hy.
  rewrite Hout in Hx by lia. rewrite Hout in Hy by lia.
  by apply (H i j).
Qed.

Lemma sortedR_snoc a i data x y :
  sortedR a i data -> (1 <= i)%nat ->
  data !! (i - 1)%nat = Some x -> data !! i = Some y -> le x y ->
  sortedR a (S i) data.
Proof.
  intros Hs Hi Hx Hy Hxy p q u v Hp Hpq Hq Hu Hv.
  destruct (decide (q = i)) as [-> | Hne].
  - assert (v = y) by congruence. subst v.
    destruct (decide (p = i - 1)%nat) as [-> | Hne'].
    + assert (u = x) by congruence. by subst u.
    + apply (lessE_le_trans u x y); [| done].
      apply (Hs p (i - 1)%nat); (lia || done).
  - apply (Hs p q); (lia || done).
Qed.

Lemma scanSorted_spec a b data fuel i :
  sortedR a i data -> (a + 1 <= i <= b)%nat -> (b <= length data)%nat ->
  (b - i <= fuel)%nat ->
  let i' := sort.scanSorted lessE fuel data i b in
  (i <= i' <= b)%nat /\ sortedR a i' data
  /\ ((i' < b)%nat -> sort.Less lessE data i' (i' - 1) = true).
Proof.
  revert i. induction fuel as [| fuel IH]; intros i Hs Hi Hb Hfuel.
  - simpl. split; [lia |]. split; [done | lia].
  - simpl. destruct (i <? b)%nat eqn:Hlt; cbn [andb].
    + apply Nat.ltb_lt in Hlt.
      destruct (sort.Less lessE data i (i - 1)) eqn:Hless; cbn [negb].
      * split; [lia |]. done.
      * destruct (lookup_lt_is_Some_2 data i ltac:(lia)) as [y Hy].
        destruct (lookup_lt_is_Some_2 data (i - 1) ltac:(lia)) as [x Hx].
        rewrite (Less_at _ _ _ y x Hy Hx) in Hless.
        destruct (IH (S i)) as (Hr & Hs' & Hstop); try lia.
        { apply (sortedR_snoc a i data x y); (lia || done). }
        split; [lia |]. done.
    + apply Nat.ltb_ge in Hlt. split; [lia |]. split; [done | lia].
Qed.

(** While an item moves left from slot [j], the slots [a, top] but for
    slot [j] are in order, and the item is less than those it has passed. *)
Definition shifting (a top j : nat) (x : A) (data : list A) : Prop :=
  data !! j = Some x
  /\ (forall p q u v, (a <= p)%nat -> (p < q)%nat -> (q <= top)%nat ->
        p <> j -> q <> j -> data !! p = Some u -> data !! q = Some v -> le u v)
  /\ allIn (fun y => lessE x y = true) (j + 1) (top + 1) data.

Lemma shiftLeft_spec a top j data x :
  (a <= j <= top)%nat -> (top < length data)%nat ->
  (forall y, (1 <= a)%nat -> data !! (a - 1)%nat = Some y -> le y x) ->
  shifting a top j x data ->
  RP a (top + 1) data (sort.shiftLeft lessE data j)
  /\ sortedR a (top + 1) (sort.shiftLeft lessE data j).
Proof.
  revert data. induction j as [| j IH]; intros data Hj Htop HLB (Hx & Hpairs & Hlt).
  - simpl. split; [apply RP_refl |].
    intros p q u v Hp Hpq Hq Hu Hv.
    destruct (decide (p = 0)%nat) as [-> | Hne].
    + assert (u = x) by congruence. subst u.
      apply lt_le. apply (Hlt q); [lia | done].
    + apply (Hpairs p q); (lia || done).
  - cbn [sort.shiftLeft].
    destruct (lookup_lt_is_Some_2 data j ltac:(lia)) as [y Hy].
    rewrite (Less_at _ _ _ x y Hx Hy).
    destruct (lessE x y) eqn:Hxy; cbn [negb].
    + assert (a <= j)%nat as Haj.
      { destruct (decide (a <= j)%nat); [done |].
        assert (a = S j) as -> by lia.
        specialize (HLB y ltac:(lia)).
        replace (S j - 1)%nat with j in HLB by lia.
        specialize (HLB Hy). unfold le in HLB. congruence. }
      destruct (IH (sort.Swap data (S j) j)) as [HRP Hsorted].
      * lia.
      * rewrite Swap_same_length. lia.
      * intros z Ha Hz. rewrite Swap_at_other in Hz by lia. by apply HLB.
      * split; [rewrite Swap_at by lia; rewrite decide_False by lia;
                by rewrite decide_True |].
        split.
        -- intros p q u v Hp Hpq Hq Hpj Hqj Hu Hv.
           rewrite Swap_at in Hu by lia. rewrite Swap_at in Hv by lia.
           rewrite (decide_False (P := q = j)) in Hv by done.
           rewrite (decide_False (P := p = j)) in Hu by done.
           destruct (decide (p = S j)) as [-> | Hp'];
             destruct (decide (q = S j)) as [-> | Hq']; try lia.
           ++ assert (u = y) by congruence. subst u.
              apply (Hpairs j q); (lia || done).
           ++ assert (v = y) by congruence. subst v.
              apply (Hpairs p j); (lia || done).
           ++ apply (Hpairs p q); (lia || done).
        -- intros k z Hk Hz. rewrite Swap_at in Hz by lia.
           destruct (decide (k = S j)) as [-> | Hk'].
           ++ congruence.
           ++ rewrite decide_False in Hz by lia.
              apply (Hlt k); [lia | done].
      * split; [| done].
        eapply RP_trans; [| exact HRP]. apply RP_Swap; lia.
    + split; [apply RP_refl |].
      intros p q u v Hp Hpq Hq Hu Hv.
      destruct (decide (p = S j)) as [-> | Hp'].
      * assert (u = x) by congruence. subst u.
        apply lt_le. apply (Hlt q); [lia | done].
      * destruct (decide (q = S j)) as [-> | Hq'].
        -- assert (v = x) by congruence. subst v.
           destruct (decide (p = j)) as [-> | Hpj].
           ++ assert (u = y) by congruence. subst u. exact Hxy.
           ++ apply (lessE_le_trans u y x); [| exact Hxy].
              apply (Hpairs p j); (lia || done).
        -- apply (Hpairs p q); (lia || done).
Qed.

Lemma shiftRight_spec b fuel data j :
  (1 <= j)%nat -> (b <= length data)%nat ->
  RP (j - 1) b data (sort.shiftRight lessE fuel data j b).
Proof.
  revert data j. induction fuel as [| fuel IH]; intros data j Hj Hb.
  - apply RP_refl.
  - simpl. destruct (j <? b)%nat eqn:Hlt; [| apply RP_refl].
    apply Nat.ltb_lt in Hlt.
    destruct (sort.Less lessE data j (j - 1)); cbn [negb]; [| apply RP_refl].
    eapply RP_trans; [apply (RP_Swap (j - 1) b data j (j - 1)); lia |].
    eapply RP_weaken; [| | apply IH]; rewrite ?Swap_same_length; lia.
Qed.

Lemma partialInsertionSort_loop_spec a b steps data i :
  (a + 1 <= i <= b)%nat -> (b <= length data)%nat ->
  sortedR a i data -> lowerBound a b data ->
  let '(data', sorted) := sort.partialInsertionSort_loop lessE steps data a b i in
  RP a b data data' /\ (sorted = true -> sortedR a b data').
Proof.
  revert data i. induction steps as [| steps IH]; intros data i Hi Hb Hs HLB.
  - simpl. split; [apply RP_refl | done].
  - cbn [sort.partialInsertionSort_loop].
    destruct (scanSorted_spec a b data (length data) i Hs Hi Hb ltac:(lia))
      as (Hi1 & Hs1 & Hstop).
    set (i1 := sort.scanSorted lessE (length data) data i b) in *.
    clearbody i1.
    destruct (i1 =? b)%nat eqn:Heq.
    { apply Nat.eqb_eq in Heq. subst i1. split; [apply RP_refl | done]. }
    apply Nat.eqb_neq in Heq.
    destruct (b - a <? 50)%nat; [split; [apply RP_refl | done] |].
    specialize (Hstop ltac:(lia)).
    destruct (lookup_lt_is_Some_2 data i1 ltac:(lia)) as [x Hx].
    destruct (lookup_lt_is_Some_2 data (i1 - 1) ltac:(lia)) as [y Hy].
    rewrite (Less_at _ _ _ x y Hx Hy) in Hstop.
    set (d1 := sort.Swap data i1 (i1 - 1)).
    assert (RP a b data d1) as HRP1 by (apply RP_Swap; lia).
    assert (lowerBound a b d1) as HLB1
      by (by apply (lowerBound_RP a b data d1 ltac:(lia))).
    assert (length d1 = length data) as Hlen1 by apply Swap_same_length.
    assert (sortedR a (i1 - 1) d1) as Hs1'.
    { intros p q u v Hp Hpq Hq Hu Hv. unfold d1 in Hu, Hv.
      rewrite Swap_at_other in Hu by lia.
      rewrite Swap_at_other in Hv by lia.
      apply (Hs1 p q); (lia || done). }
    assert (d1 !! (i1 - 1)%nat = Some x) as Hx1.
    { unfold d1. rewrite Swap_at by lia.
      rewrite decide_False by lia. by rewrite decide_True. }
    set (d2 := if (2 <=? i1 - a)%nat then sort.shiftLeft lessE d1 (i1 - 1)
               else d1).
    assert (RP a i1 d1 d2 /\ sortedR a i1 d2) as [HRP2 Hs2].
    { unfold d2. destruct (2 <=? i1 - a)%nat eqn:H2.
      - apply Nat.leb_le in H2.
        destruct (shiftLeft_spec a (i1 - 1) (i1 - 1) d1 x) as [HRP Hsorted].
        + lia.
        + lia.
        + intros z Ha Hz. apply (HLB1 z Ha Hz (i1 - 1)%nat x); [lia | done].
        + split; [done |]. split.
          * intros p q u v Hp Hpq Hq Hpj Hqj. apply Hs1'; lia.
          * apply allIn_empty. lia.
        + replace (i1 - 1 + 1)%nat with i1 in * by lia. done.
      - apply Nat.leb_gt in H2. split; [apply RP_refl |].
        intros p q u v Hp Hpq Hq. lia. }
    assert (length d2 = length data) as Hlen2.
    { destruct HRP2 as (Hl & _). lia. }
    set (d3 := if (2 <=? b - i1)%nat
               then sort.shiftRight lessE (length d2) d2 (i1 + 1) b else d2).
    assert (RP i1 b d2 d3) as HRP3.
    { unfold d3. destruct (2 <=? b - i1)%nat; [| apply RP_refl].
      pose proof (shiftRight_spec b (length d2) d2 (i1 + 1) ltac:(lia)
                    ltac:(lia)) as H.
      by replace (i1 + 1 - 1)%nat with i1 in H by lia. }
    assert (RP a b data d3) as HRP.
    { eapply RP_trans; [exact HRP1 |].
      eapply RP_trans; eapply RP_weaken; try eassumption; lia. }
    specialize (IH d3 i1).
    fold d1. fold d2. fold d3.
    destruct (sort.partialInsertionSort_loop lessE steps d3 a b i1)
      as [data' sorted].
    destruct IH as [HRP' Hsorted'].
    + lia.
    + destruct HRP3 as (Hl & _). lia.
    + by apply (sortedR_outside a i1 i1 b d2 d3 HRP3 ltac:(lia)).
    + by apply (lowerBound_RP a b data d3 ltac:(lia)).
    + split; [by eapply RP_trans | done].
Qed.

Lemma partialInsertionSort_func_spec a b data :
  (a < b <= length data)%nat -> lowerBound a b data ->
  let '(data', sorted) := sort.partialInsertionSort_func lessE data a b in
  RP a b data data' /\ (sorted = true -> sortedR a b data').
Proof.
  intros Hab HLB. apply partialInsertionSort_loop_spec; try done; [lia | lia |].
  intros p q u v Hp Hpq Hq. lia.
Qed.

(** *** breakPatterns_func, choosePivot_func, reverseRange_func *)

Lemma breakPatterns_other (l : nat) (random : Z) :
  (8 <= l)%nat ->
  let other :=
    Z.to_nat (Z.land random (sort.nextPowerOfTwo (Z.of_nat l) - 1)) in
  ((if (l <=? other)%nat then (other - l)%nat else other) < l)%nat.
Proof.
  intros Hl other.
  assert (other < 2 * l)%nat as Hother.
  { unfold other, sort.nextPowerOfTwo, sort.bits_Len.
    destruct (Z.of_nat l <=? 0) eqn:H0; [apply Z.leb_le in H0; lia |].
    pose proof (Z.log2_nonneg (Z.of_nat l)) as Hlog.
    replace (Z.shiftl 1 (Z.log2 (Z.of_nat l) + 1) - 1)
      with (Z.ones (Z.log2 (Z.of_nat l) + 1))
      by (unfold Z.ones; lia).
    rewrite Z.land_ones by lia.
    pose proof (Z.mod_pos_bound random (2 ^ (Z.log2 (Z.of_nat l) + 1))
                  ltac:(apply Z.pow_pos_nonneg; lia)) as Hmod.
    pose proof (Z.log2_spec (Z.of_nat l) ltac:(lia)) as [Hlo _].
    set (X := random mod _) in *. clearbody X.
    replace (Z.log2 (Z.of_nat l) + 1) with (Z.succ (Z.log2 (Z.of_nat l)))
      in Hmod by lia.
    rewrite Z.pow_succ_r in Hmod by lia. lia. }
  destruct (l <=? other)%nat eqn:Hle.
  - apply Nat.leb_le in Hle. lia.
  - by apply Nat.leb_gt in Hle.
Qed.

Lemma RP_Swap_r a b data data' i j :
  RP a b data data' -> (a <= i < b)%nat -> (a <= j < b)%nat ->
  RP a b data (sort.Swap data' i j).
Proof.
  intros HRP Hi Hj. eapply RP_trans; [exact HRP |]. by apply RP_Swap.
Qed.

Lemma breakPatterns_func_spec data a b :
  (a <= b)%nat -> RP a b data (sort.breakPatterns_func data a b).
Proof.
  intros Hab. unfold sort.breakPatterns_func.
  destruct (8 <=? b - a)%nat eqn:H8; [| apply RP_refl].
  apply Nat.leb_le in H8.
  pose proof (Nat.div_mod_eq (b - a) 4) as Hdiv.
  pose proof (Nat.mod_upper_bound (b - a) 4 ltac:(lia)) as Hmod.
  cbn [foldl fst snd].
  repeat (apply RP_Swap_r;
          [| lia
           | match goal with
             | |- context [Z.land ?r _] =>
                 pose proof (breakPatterns_other (b - a) r H8) as H;
                 cbn zeta in H; lia
             end]).
  apply RP_refl.
Qed.

Lemma median_func_in data a b c swaps :
  let m := fst (sort.median_func lessE data a b c swaps) in
  m = a \/ m = b \/ m = c.
Proof.
  unfold sort.median_func, sort.order2_func.
  repeat match goal with
         | |- context [if ?t then _ else _] => destruct t
         end; simpl; auto.
Qed.

Lemma choosePivot_func_range data a b :
  (a < b)%nat ->
  (a <= fst (sort.choosePivot_func lessE data a b) < b)%nat.
Proof.
  intros Hab. unfold sort.choosePivot_func.
  pose proof (Nat.div_mod_eq (b - a) 4) as Hdiv.
  pose proof (Nat.mod_upper_bound (b - a) 4 ltac:(lia)) as Hmod.
  set (q := ((b - a) / 4)%nat) in *. clearbody q.
  assert (forall (r : nat * nat),
            (a <= fst r < b)%nat ->
            (a <= fst (let '(j, swaps) := r in
                       match swaps with
                       | 0%nat => (j, sort.increasingHint)
                       | 12%nat => (j, sort.decreasingHint)
                       | _ => (j, sort.unknownHint)
                       end) < b)%nat) as Hfinal.
  { intros [j swaps] Hj. simpl in Hj.
    do 13 (destruct swaps as [| swaps]; [simpl; lia |]). simpl. lia. }
  apply Hfinal. clear Hfinal.
  destruct (8 <=? b - a)%nat eqn:H8; [| simpl; apply Nat.leb_gt in H8; lia].
  apply Nat.leb_le in H8.
  destruct (50 <=? b - a)%nat eqn:H50.
  - apply Nat.leb_le in H50. unfold sort.medianAdjacent_func.
    pose proof (median_func_in data (a + q * 1 - 1) (a + q * 1)
                  (a + q * 1 + 1) 0) as Hi.
    destruct (sort.median_func lessE data (a + q * 1 - 1) (a + q * 1)
                (a + q * 1 + 1) 0) as [i s1].
    pose proof (median_func_in data (a + q * 2 - 1) (a + q * 2)
                  (a + q * 2 + 1) s1) as Hj.
    destruct (sort.median_func lessE data (a + q * 2 - 1) (a + q * 2)
                (a + q * 2 + 1) s1) as [j s2].
    pose proof (median_func_in data (a + q * 3 - 1) (a + q * 3)
                  (a + q * 3 + 1) s2) as Hk.
    destruct (sort.median_func lessE data (a + q * 3 - 1) (a + q * 3)
                (a + q * 3 + 1) s2) as [k s3].
    pose proof (median_func_in data i j k s3) as Hm.
    cbn [fst] in *. lia.
  - pose proof (median_func_in data (a + q * 1) (a + q * 2) (a + q * 3) 0)
      as Hm.
    cbn [fst] in *. lia.
Qed.

Lemma reverseRange_loop_spec a b fuel data i j :
  (a <= i)%nat -> (j < b)%nat ->
  RP a b data (sort.reverseRange_loop fuel data i j).
Proof.
  revert data i j. induction fuel as [| fuel IH]; intros data i j Hi Hj.
  - apply RP_refl.
  - simpl. destruct (i <? j)%nat eqn:Hlt; [| apply RP_refl].
    apply Nat.ltb_lt in Hlt.
    eapply RP_trans; [apply (RP_Swap a b data i j); lia |].
    apply IH; lia.
Qed.

Lemma reverseRange_func_spec data a b :
  (a < b)%nat -> RP a b data (sort.reverseRange_func data a b).
Proof.
  intros Hab. apply reverseRange_loop_spec; lia.
Qed.

(** *** pdqsort_func *)

Lemma sortedR_join a mid b p data :
  data !! mid = Some p ->
  allIn (fun x => lessE x p = true) a mid data ->
  allIn (fun x => lessE x p = false) (mid + 1) b data ->
  sortedR a mid data -> sortedR (mid + 1) b data ->
  sortedR a b data.
Proof.
  intros Hp Hlt Hge Hl Hr i j u v Hi Hij Hj Hu Hv.
  destruct (decide (j < mid)%nat); [apply (Hl i j); (lia || done) |].
  destruct (decide (mid < i)%nat); [apply (Hr i j); (lia || done) |].
  destruct (decide (i = mid)) as [-> | Hne].
  - assert (u = p) by congruence. subst u.
    apply (Hge j); [lia | done].
  - pose proof (Hlt i u ltac:(lia) Hu) as Hup. simpl in Hup.
    destruct (decide (j = mid)) as [-> | Hne'].
    + assert (v = p) by congruence. subst v. by apply lt_le.
    + apply lt_le. apply (lt_le_trans u p v); [done |].
      apply (Hge j); [lia | done].
Qed.

Lemma sortedR_join_equal a mid b p data :
  allIn (le p) a mid data ->
  allIn (fun x => lessE p x = false) a mid data ->
  allIn (fun x => lessE p x = true) mid b data ->
  sortedR mid b data ->
  sortedR a b data.
Proof.
  intros Hle Heq Hgt Hr i j u v Hi Hij Hj Hu Hv.
  destruct (decide (mid <= i)%nat); [apply (Hr i j); (lia || done) |].
  pose proof (Heq i u ltac:(lia) Hu) as Hup. simpl in Hup.
  destruct (decide (j < mid)%nat).
  - apply (lessE_le_trans u p v); [exact Hup |]. apply (Hle j); [lia | done].
  - apply lt_le. apply (le_lt_trans u p v); [exact Hup |].
    apply (Hgt j); [lia | done].
Qed.

Lemma RP_length a b data data' : RP a b data data' -> length data' = length data.
Proof. by intros (H & _). Qed.

Lemma RP_lookup_out a b data data' k :
  RP a b data data' -> ~ (a <= k < b)%nat -> data' !! k = data !! k.
Proof. intros (_ & H & _). apply H. Qed.

Lemma pdqsort_func_sorts fuel data a b limit wasBalanced wasPartitioned :
  (a <= b <= length data)%nat -> (b - a < fuel)%nat -> lowerBound a b data ->
  RP a b data
     (sort.pdqsort_func lessE fuel data a b limit wasBalanced wasPartitioned)
  /\ sortedR a b
       (sort.pdqsort_func lessE fuel data a b limit wasBalanced wasPartitioned).
Proof.
  revert data a b limit wasBalanced wasPartitioned.
  induction fuel as [| fuel IH];
    intros data a b limit wasBalanced wasPartitioned Hab Hfuel HLB; [lia |].
  cbn [sort.pdqsort_func].
  destruct (b - a <=? 12)%nat eqn:H12; [by apply insertionSort_func_sorts |].
  apply Nat.leb_gt in H12.
  destruct (limit =? 0)%nat; [by apply heapSort_func_sorts |].
  (* breakPatterns *)
  destruct (if negb wasBalanced
            then (sort.breakPatterns_func data a b, (limit - 1)%nat)
            else (data, limit)) as [d1 limit1] eqn:E1.
  assert (RP a b data d1) as HRP1.
  { destruct wasBalanced; injection E1 as <- <-;
      [apply RP_refl | apply breakPatterns_func_spec; lia]. }
  (* choosePivot *)
  pose proof (choosePivot_func_range d1 a b ltac:(lia)) as Hpivot.
  destruct (sort.choosePivot_func lessE d1 a b) as [pivot hint].
  cbn [fst] in Hpivot.
  destruct (match hint with
            | sort.decreasingHint =>
                (sort.reverseRange_func d1 a b, (b - 1 - (pivot - a))%nat,
                 sort.increasingHint)
            | _ => (d1, pivot, hint)
            end) as [[d2 pivot2] hint2] eqn:E2.
  assert (RP a b d1 d2 /\ (a <= pivot2 < b)%nat) as [HRP2 Hpivot2].
  { destruct hint; injection E2 as <- <- <-;
      (split; [first [apply RP_refl | apply reverseRange_func_spec; lia]
              | lia]). }
  assert (RP a b data d2) as HRP12 by (by eapply RP_trans).
  (* partialInsertionSort *)
  destruct (if wasBalanced && wasPartitioned && sort.is_increasing hint2
            then sort.partialInsertionSort_func lessE d2 a b
            else (d2, false)) as [d3 sorted] eqn:E3.
  assert (RP a b d2 d3 /\ (sorted = true -> sortedR a b d3)) as [HRP3 Hsorted].
  { destruct (wasBalanced && wasPartitioned && sort.is_increasing hint2).
    - pose proof (partialInsertionSort_func_spec a b d2) as H.
      rewrite E3 in H. apply H.
      + rewrite (RP_length _ _ _ _ HRP12). lia.
      + by apply (lowerBound_RP a b data d2 ltac:(lia)).
    - injection E3 as <- <-. split; [apply RP_refl | done]. }
  assert (RP a b data d3) as HRP13 by (by eapply RP_trans).
  pose proof (RP_length _ _ _ _ HRP13) as Hlen3.
  assert (lowerBound a b d3) as HLB3
    by (by apply (lowerBound_RP a b data d3 ltac:(lia))).
  destruct sorted; [by split; [| apply Hsorted] |].
  clear Hsorted E1 E2 E3 HRP1 HRP2 HRP3 HRP12 Hpivot d1 d2 hint hint2 limit pivot.
  destruct (lookup_lt_is_Some_2 d3 pivot2 ltac:(lia)) as [p Hp].
  destruct ((0 <? a)%nat && negb (sort.Less lessE d3 (a - 1) pivot2)) eqn:Hdup.
  - (* many equal items *)
    apply andb_prop in Hdup as [Ha Hless]. apply Nat.ltb_lt in Ha.
    destruct (lookup_lt_is_Some_2 d3 (a - 1) ltac:(lia)) as [y Hy].
    rewrite (Less_at _ _ _ y p Hy Hp) in Hless.
    apply negb_true_iff in Hless.
    assert (allIn (le p) a b d3) as Hmin.
    { intros k z Hk Hz. apply (lessE_le_trans p y z); [exact Hless |].
      apply (HLB3 y ltac:(lia) Hy k z Hk Hz). }
    pose proof (partitionEqual_func_spec d3 a b pivot2 p Hpivot2 ltac:(lia) Hp)
      as Hpart.
    destruct (sort.partitionEqual_func lessE d3 a b pivot2) as [d4 mid].
    destruct Hpart as (Hmid & HRP4 & Heq & Hgt).
    pose proof (RP_length _ _ _ _ HRP4) as Hlen4.
    apply (RP_allIn _ a b d3 d4 ltac:(lia) HRP4) in Hmin.
    destruct (IH d4 mid b limit1 wasBalanced wasPartitioned) as [HRP5 Hs5].
    + lia.
    + lia.
    + intros w _ Hw k z Hk Hz.
      pose proof (Heq (mid - 1)%nat w ltac:(lia) Hw) as Hpw. simpl in Hpw.
      apply lt_le. apply (le_lt_trans w p z); [exact Hpw |].
      by apply (Hgt k).
    + split.
      * eapply RP_trans; [exact HRP13 |]. eapply RP_trans; [exact HRP4 |].
        eapply RP_weaken; [| | exact HRP5]; lia.
      * apply (sortedR_join_equal a mid b p); try done.
        -- apply (allIn_outside _ a mid mid b d4 _ HRP5); [lia |].
           eapply allIn_weaken; [| | exact Hmin]; lia.
        -- by apply (allIn_outside _ a mid mid b d4 _ HRP5); [lia |].
        -- apply (RP_allIn _ mid b d4 _ ltac:(lia) HRP5). done.
  - clear Hdup.
    pose proof (partition_func_spec d3 a b pivot2 p Hpivot2 ltac:(lia) Hp)
      as Hpart.
    destruct (sort.partition_func lessE d3 a b pivot2) as [[d4 mid] already].
    destruct Hpart as (Hmid & HRP4 & Hpm & Hlt & Hge).
    pose proof (RP_length _ _ _ _ HRP4) as Hlen4.
    assert (lowerBound a b d4) as HLB4
      by (by apply (lowerBound_RP a b d3 d4 ltac:(lia))).
    assert (RP a b data d4) as HRP14 by (by eapply RP_trans).
    destruct (mid - a <? b - mid)%nat.
    + (* the left part first *)
      destruct (IH d4 a mid limit1 true true) as [HRP5 Hs5].
      * lia.
      * lia.
      * by apply (lowerBound_weaken a b mid); [lia |].
      * set (d5 := sort.pdqsort_func lessE fuel d4 a mid limit1 true true) in *.
        pose proof (RP_length _ _ _ _ HRP5) as Hlen5.
        assert (d5 !! mid = Some p) as Hpm5
          by (by rewrite (RP_lookup_out _ _ _ _ _ HRP5) by lia).
        assert (allIn (fun x => lessE x p = false) (mid + 1) b d5) as Hge5
          by (by apply (allIn_outside _ _ _ a mid d4 _ HRP5); [lia |]).
        assert (allIn (fun x => lessE x p = true) a mid d5) as Hlt5
          by (by apply (RP_allIn _ a mid d4 _ ltac:(lia) HRP5)).
        destruct (IH d5 (mid + 1)%nat b limit1
                    ((b - a) / 8 <=? mid - a)%nat already) as [HRP6 Hs6].
        -- lia.
        -- lia.
        -- intros w _ Hw. replace (mid + 1 - 1)%nat with mid in Hw by lia.
           assert (w = p) by congruence. subst w. exact Hge5.
        -- split.
           ++ eapply RP_trans; [exact HRP14 |].
              eapply RP_trans; eapply RP_weaken; try eassumption; lia.
           ++ apply (sortedR_join a mid b p).
              ** by rewrite (RP_lookup_out _ _ _ _ _ HRP6) by lia.
              ** by apply (allIn_outside _ _ _ (mid + 1) b d5 _ HRP6); [lia |].
              ** by apply (RP_allIn _ (mid + 1) b d5 _ ltac:(lia) HRP6).
              ** by apply (sortedR_outside _ _ (mid + 1) b d5 _ HRP6); [lia |].
              ** done.
    + (* the right part first *)
      destruct (IH d4 (mid + 1)%nat b limit1 true true) as [HRP5 Hs5].
      * lia.
      * lia.
      * intros w _ Hw. replace (mid + 1 - 1)%nat with mid in Hw by lia.
        assert (w = p) by congruence. subst w. exact Hge.
      * set (d5 := sort.pdqsort_func lessE fuel d4 (mid + 1) b limit1 true true)
          in *.
        pose proof (RP_length _ _ _ _ HRP5) as Hlen5.
        assert (d5 !! mid = Some p) as Hpm5
          by (by rewrite (RP_lookup_out _ _ _ _ _ HRP5) by lia).
        assert (allIn (fun x => lessE x p = true) a mid d5) as Hlt5
          by (by apply (allIn_outside _ _ _ (mid + 1) b d4 _ HRP5); [lia |]).
        assert (allIn (fun x => lessE x p = false) (mid + 1) b d5) as Hge5
          by (by apply (RP_allIn _ (mid + 1) b d4 _ ltac:(lia) HRP5)).
        destruct (IH d5 a mid limit1
                    ((b - a) / 8 <=? b - mid)%nat already) as [HRP6 Hs6].
        -- lia.
        -- lia.
        -- apply (lowerBound_weaken a b mid); [lia |].
           apply (lowerBound_RP a b d4 d5 ltac:(lia)); [| done].
           eapply RP_weaken; [| | exact HRP5]; lia.
        -- split.
           ++ eapply RP_trans; [exact HRP14 |].
              eapply RP_trans; eapply RP_weaken; try eassumption; lia.
           ++ apply (sortedR_join a mid b p).
              ** by rewrite (RP_lookup_out _ _ _ _ _ HRP6) by lia.
              ** by apply (RP_allIn _ a mid d5 _ ltac:(lia) HRP6).
              ** by apply (allIn_outside _ _ _ a mid d5 _ HRP6); [lia |].
              ** done.
              ** by apply (sortedR_outside _ _ a mid d5 _ HRP6); [lia |].
Qed.

(** [sort.Slice] rearranges the slice and leaves it in order. *)
Lemma Slice_sorts data :
  sort.Slice lessE data ≡ₚ data
  /\ length (sort.Slice lessE data) = length data
  /\ sortedR 0 (length data) (sort.Slice lessE data).
Proof.
  unfold sort.Slice.
  destruct (pdqsort_func_sorts (S (length data)) data 0 (length data)
              (Z.to_nat (sort.bits_Len (Z.of_nat (length data)))) true true)
    as [(Hlen & _ & Hperm) Hsorted].
  - lia.
  - lia.
  - intros y Ha. lia.
  - done.
Qed.

(** *** The head of a sorted slice *)

Lemma Slice_head_least data :
  data <> [] ->
  exists m, head (sort.Slice lessE data) = Some m /\ m ∈ data
            /\ Forall (fun x => lessE x m = false) data.
Proof.
  intros Hne. destruct (Slice_sorts data) as (Hperm & Hlen & Hsorted).
  destruct (sort.Slice lessE data) as [| m sorted] eqn:E.
  { destruct data; [done | simpl in Hlen; lia]. }
  exists m. split; [done |]. split; [rewrite <- Hperm; left |].
  apply Forall_forall. intros x Hx. rewrite <- Hperm in Hx.
  apply list_elem_of_lookup_1 in Hx as [j Hj].
  destruct j as [| j].
  - simpl in Hj. injection Hj as ->. apply lessE_irrefl.
  - pose proof (lookup_lt_Some _ _ _ Hj) as Hlt. rewrite Hlen in Hlt.
    apply (Hsorted 0%nat (S j) m x); [lia | lia | exact Hlt | done | done].
Qed.

(** The scan that keeps the earliest item no other is less than. *)
Definition better (best : option A) (x : A) : option A :=
  match best with
  | None => Some x
  | Some m => if lessE x m then Some x else Some m
  end.

Definition firstLeast (l : list A) : option A := foldl better None l.

Lemma insertLeft_all_less x acc :
  Forall (fun y => lessE x y = true) acc -> insertLeft x acc = acc ++ [x].
Proof.
  induction 1 as [| y acc Hy _ IH]; [done |].
  simpl. by rewrite Hy, IH.
Qed.

Lemma insertLeft_last_keep x acc m :
  last acc = Some m -> lessE x m = false ->
  last (insertLeft x acc) = Some m.
Proof.
  intros Hlast Hxm. induction acc as [| y acc IH]; [done |].
  simpl. destruct (lessE x y) eqn:Hxy.
  - destruct acc as [| z acc].
    + simpl in Hlast. congruence.
    + rewrite last_cons. rewrite IH by done. done.
  - done.
Qed.

(** What the last item of [insertAll]'s result and the scan have in
    common. *)
Definition scanned (acc : list A) (best : option A) : Prop :=
  match best with
  | None => acc = []
  | Some m => last acc = Some m /\ Forall (le m) acc
  end.

Lemma scanned_step acc best x :
  scanned acc best -> scanned (insertLeft x acc) (better best x).
Proof.
  destruct best as [m |]; simpl.
  - intros [Hlast Hmin]. destruct (lessE x m) eqn:Hxm.
    + assert (Forall (fun y => lessE x y = true) acc) as Hall.
      { eapply Forall_impl; [exact Hmin |]. intros y Hy.
        by apply (lt_le_trans x m y). }
      rewrite insertLeft_all_less by done. split; [apply last_snoc |].
      apply Forall_app. split.
      * eapply Forall_impl; [exact Hall |]. intros y. apply lt_le.
      * repeat constructor. apply lessE_le_refl.
    + split; [by apply insertLeft_last_keep |].
      rewrite insertLeft_perm. by constructor.
  - intros ->. simpl. split; [done |]. repeat constructor. apply lessE_le_refl.
Qed.

Lemma scanned_all acc best l :
  scanned acc best -> scanned (insertAll acc l) (foldl better best l).
Proof.
  revert acc best. induction l as [| x l IH]; intros acc best H; [done |].
  apply IH. by apply scanned_step.
Qed.

Lemma last_insertAll l : last (insertAll [] l) = firstLeast l.
Proof.
  pose proof (scanned_all [] None l eq_refl) as H.
  fold (firstLeast l) in H. destruct (firstLeast l); simpl in H.
  - by destruct H.
  - by rewrite H.
Qed.

(** The scan's result stands in the list after items it is less than and
    before items that are not less than it. *)
Definition splitAt (l : list A) (best : option A) : Prop :=
  match best with
  | None => l = []
  | Some m =>
      exists l1 l2, l = l1 ++ m :: l2
                    /\ Forall (fun x => lessE m x = true) l1
                    /\ Forall (fun x => lessE x m = false) l2
  end.

Lemma splitAt_step l best x :
  splitAt l best -> splitAt (l ++ [x]) (better best x).
Proof.
  destruct best as [m |]; simpl.
  - intros (l1 & l2 & -> & H1 & H2). destruct (lessE x m) eqn:Hxm.
    + exists (l1 ++ m :: l2), []. split; [done |]. split; [| done].
      apply Forall_app. split; [| constructor; [done |]].
      * eapply Forall_impl; [exact H1 |]. intros y Hy.
        by apply (lessE_trans x m y).
      * eapply Forall_impl; [exact H2 |]. intros y Hy.
        by apply (lt_le_trans x m y).
    + exists l1, (l2 ++ [x]). split; [by rewrite <- (assoc_L (++)) |].
      split; [done |]. apply Forall_app. split; [done |]. by repeat constructor.
  - intros ->. by exists [], [].
Qed.

Lemma splitAt_all l best l' :
  splitAt l best -> splitAt (l ++ l') (foldl better best l').
Proof.
  revert l best. induction l' as [| x l' IH]; intros l best H.
  - by rewrite app_nil_r.
  - simpl. replace (l ++ x :: l') with ((l ++ [x]) ++ l')
      by (by rewrite <- (assoc_L (++))).
    apply IH. by apply splitAt_step.
Qed.

Lemma Slice_small data :
  (length data <= 12)%nat ->
  sort.Slice lessE data = reverse (insertAll [] data).
Proof.
  intros Hlen. unfold sort.Slice. cbn [sort.pdqsort_func].
  replace (length data - 0 <=? 12)%nat with true
    by (symmetry; apply Nat.leb_le; lia).
  pose proof (insertionSort_func_spec [] data []) as H.
  simpl in H. by rewrite !app_nil_r in H.
Qed.

(** On a slice of at most [maxInsertion = 12] items [sort.Slice] is the
    insertion sort, and the head of its result is the earliest least
    item. *)
Lemma Slice_small_head data :
  (length data <= 12)%nat -> data <> [] ->
  exists m l1 l2,
    head (sort.Slice lessE data) = Some m /\ data = l1 ++ m :: l2
    /\ Forall (fun x => lessE m x = true) l1
    /\ Forall (fun x => lessE x m = false) l2.
Proof.
  intros Hlen Hne. rewrite Slice_small by done.
  rewrite head_reverse, last_insertAll.
  pose proof (splitAt_all [] None data eq_refl) as H.
  fold (firstLeast data) in H. simpl in H.
  destruct (firstLeast data) as [m |]; simpl in H; [| done].
  destruct H as (l1 & l2 & -> & H1 & H2). by exists m, l1, l2.
Qed.

End Sorting.

(** *** sort.Slice and maps of the items

    [sort.Slice] looks at the items only through [less], so sorting the
    images of the items under [f] is sorting the items by the comparison
    of their images. *)
Section Mapped.
Context {A B : Type} (f : B -> A).
Context (lessA : A -> A -> bool) (lessB : B -> B -> bool).
Hypothesis less_f : forall x y, lessA (f x) (f y) = lessB x y.

Lemma Less_fmap data i j :
  sort.Less lessA (f <$> data) i j = sort.Less lessB data i j.
Proof.
  unfold sort.Less. rewrite !list_lookup_fmap.
  destruct (data !! i), (data !! j); simpl; auto.
Qed.

Lemma Swap_fmap (data : list B) i j :
  sort.Swap (f <$> data) i j = f <$> sort.Swap data i j.
Proof.
  unfold sort.Swap. rewrite !list_lookup_fmap.
  destruct (data !! i), (data !! j); simpl; auto.
  by rewrite !list_fmap_insert.
Qed.

Lemma foldl_fmap {I} (g : list A -> I -> list A) (g' : list B -> I -> list B)
    (l : list I) data :
  (forall d i, g (f <$> d) i = f <$> g' d i) ->
  foldl g (f <$> data) l = f <$> foldl g' data l.
Proof.
  intros Hg. revert data. induction l as [| i l IH]; intros data; [done |].
  simpl. by rewrite Hg, IH.
Qed.

Lemma insertionSort_inner_fmap a data j :
  sort.insertionSort_inner lessA a (f <$> data) j
  = f <$> sort.insertionSort_inner lessB a data j.
Proof.
  revert data. induction j as [| j IH]; intros data; [done |].
  simpl. rewrite Less_fmap.
  destruct (_ && _); [| done]. by rewrite Swap_fmap, IH.
Qed.

Lemma insertionSort_func_fmap data a b :
  sort.insertionSort_func lessA (f <$> data) a b
  = f <$> sort.insertionSort_func lessB data a b.
Proof.
  unfold sort.insertionSort_func. apply foldl_fmap.
  intros d i. apply insertionSort_inner_fmap.
Qed.

Lemma siftDown_loop_fmap fuel data root hi first :
  sort.siftDown_loop lessA fuel (f <$> data) root hi first
  = f <$> sort.siftDown_loop lessB fuel data root hi first.
Proof.
  revert data root. induction fuel as [| fuel IH]; intros data root; [done |].
  simpl. rewrite !Less_fmap.
  destruct (hi <=? _)%nat; [done |].
  destruct (negb _); [done |]. by rewrite Swap_fmap, IH.
Qed.

Lemma heapSort_func_fmap data a b :
  sort.heapSort_func lessA (f <$> data) a b
  = f <$> sort.heapSort_func lessB data a b.
Proof.
  unfold sort.heapSort_func.
  rewrite (foldl_fmap _
             (fun d i => sort.siftDown_func lessB d i (b - a) a)).
  2:{ intros d i. apply siftDown_loop_fmap. }
  apply foldl_fmap. intros d i. unfold sort.siftDown_func.
  by rewrite Swap_fmap, siftDown_loop_fmap.
Qed.

Lemma scanUpLess_fmap fuel data a i j :
  sort.scanUpLess lessA fuel (f <$> data) a i j
  = sort.scanUpLess lessB fuel data a i j.
Proof.
  revert i. induction fuel as [| fuel IH]; intros i; [done |].
  simpl. rewrite Less_fmap. by rewrite IH.
Qed.

Lemma scanDownNotLess_fmap fuel data a i j :
  sort.scanDownNotLess lessA fuel (f <$> data) a i j
  = sort.scanDownNotLess lessB fuel data a i j.
Proof.
  revert j. induction fuel as [| fuel IH]; intros j; [done |].
  simpl. rewrite Less_fmap. by rewrite IH.
Qed.

Lemma partition_loop_fmap fuel data a i j :
  sort.partition_loop lessA fuel (f <$> data) a i j
  = prod_map (fmap f) id (sort.partition_loop lessB fuel data a i j).
Proof.
  revert data i j. induction fuel as [| fuel IH]; intros data i j; [done |].
  simpl. rewrite !length_fmap, !scanUpLess_fmap, !scanDownNotLess_fmap.
  destruct (_ <? _)%nat; [done |]. by rewrite Swap_fmap, IH.
Qed.

Lemma partition_func_fmap data a b pivot :
  sort.partition_func lessA (f <$> data) a b pivot
  = prod_map (prod_map (fmap f) id) id
      (sort.partition_func lessB data a b pivot).
Proof.
  unfold sort.partition_func.
  rewrite !Swap_fmap, !length_fmap, !scanUpLess_fmap, !scanDownNotLess_fmap.
  destruct (_ <? _)%nat; [by rewrite ?Swap_fmap |].
  rewrite ?Swap_fmap, ?length_fmap, partition_loop_fmap.
  destruct (sort.partition_loop lessB _ _ _ _ _) as [d j]. simpl.
  by rewrite ?Swap_fmap.
Qed.

Lemma scanUpNotGreater_fmap fuel data a i j :
  sort.scanUpNotGreater lessA fuel (f <$> data) a i j
  = sort.scanUpNotGreater lessB fuel data a i j.
Proof.
  revert i. induction fuel as [| fuel IH]; intros i; [done |].
  simpl. rewrite Less_fmap. by rewrite IH.
Qed.

Lemma scanDownGreater_fmap fuel data a i j :
  sort.scanDownGreater lessA fuel (f <$> data) a i j
  = sort.scanDownGreater lessB fuel data a i j.
Proof.
  revert j. induction fuel as [| fuel IH]; intros j; [done |].
  simpl. rewrite Less_fmap. by rewrite IH.
Qed.

Lemma partitionEqual_loop_fmap fuel data a i j :
  sort.partitionEqual_loop lessA fuel (f <$> data) a i j
  = prod_map (fmap f) id (sort.partitionEqual_loop lessB fuel data a i j).
Proof.
  revert data i j. induction fuel as [| fuel IH]; intros data i j; [done |].
  simpl. rewrite !length_fmap, !scanUpNotGreater_fmap, !scanDownGreater_fmap.
  destruct (_ <? _)%nat; [done |]. by rewrite Swap_fmap, IH.
Qed.

Lemma partitionEqual_func_fmap data a b pivot :
  sort.partitionEqual_func lessA (f <$> data) a b pivot
  = prod_map (fmap f) id (sort.partitionEqual_func lessB data a b pivot).
Proof.
  unfold sort.partitionEqual_func.
  by rewrite Swap_fmap, length_fmap, partitionEqual_loop_fmap.
Qed.

Lemma scanSorted_fmap fuel data i b :
  sort.scanSorted lessA fuel (f <$> data) i b
  = sort.scanSorted lessB fuel data i b.
Proof.
  revert i. induction fuel as [| fuel IH]; intros i; [done |].
  simpl. rewrite Less_fmap. by rewrite IH.
Qed.

Lemma shiftLeft_fmap data j :
  sort.shiftLeft lessA (f <$> data) j = f <$> sort.shiftLeft lessB data j.
Proof.
  revert data. induction j as [| j IH]; intros data; [done |].
  simpl. rewrite Less_fmap. destruct (negb _); [done |].
  by rewrite Swap_fmap, IH.
Qed.

Lemma shiftRight_fmap fuel data j b :
  sort.shiftRight lessA fuel (f <$> data) j b
  = f <$> sort.shiftRight lessB fuel data j b.
Proof.
  revert data j. induction fuel as [| fuel IH]; intros data j; [done |].
  simpl. rewrite Less_fmap. destruct (j <? b)%nat; [| done].
  destruct (negb _); [done |]. by rewrite Swap_fmap, IH.
Qed.

Lemma partialInsertionSort_loop_fmap steps data a b i :
  sort.partialInsertionSort_loop lessA steps (f <$> data) a b i
  = prod_map (fmap f) id
      (sort.partialInsertionSort_loop lessB steps data a b i).
Proof.
  revert data i. induction steps as [| steps IH]; intros data i; [done |].
  cbn [sort.partialInsertionSort_loop].
  rewrite length_fmap, scanSorted_fmap.
  set (i1 := sort.scanSorted lessB (length data) data i b).
  destruct (i1 =? b)%nat; [done |]. destruct (b - a <? 50)%nat; [done |].
  rewrite Swap_fmap.
  destruct (2 <=? i1 - a)%nat, (2 <=? b - i1)%nat;
    rewrite ?shiftLeft_fmap, ?length_fmap, ?shiftRight_fmap; apply IH.
Qed.

Lemma breakPatterns_func_fmap (data : list B) a b :
  sort.breakPatterns_func (f <$> data) a b
  = f <$> sort.breakPatterns_func data a b.
Proof.
  unfold sort.breakPatterns_func. destruct (8 <=? b - a)%nat; [| done].
  cbn [foldl fst snd]. by rewrite !Swap_fmap.
Qed.

Lemma median_func_fmap data a b c swaps :
  sort.median_func lessA (f <$> data) a b c swaps
  = sort.median_func lessB data a b c swaps.
Proof.
  unfold sort.median_func, sort.order2_func. rewrite !Less_fmap.
  destruct (sort.Less lessB data b a); rewrite !Less_fmap;
    destruct (sort.Less lessB data c _); by rewrite !Less_fmap.
Qed.

Lemma choosePivot_func_fmap data a b :
  sort.choosePivot_func lessA (f <$> data) a b
  = sort.choosePivot_func lessB data a b.
Proof.
  unfold sort.choosePivot_func, sort.medianAdjacent_func.
  destruct (8 <=? b - a)%nat; [| done].
  destruct (50 <=? b - a)%nat.
  - rewrite median_func_fmap. destruct (sort.median_func lessB _ _ _ _ _).
    rewrite median_func_fmap. destruct (sort.median_func lessB _ _ _ _ _).
    rewrite median_func_fmap. destruct (sort.median_func lessB _ _ _ _ _).
    by rewrite median_func_fmap.
  - by rewrite median_func_fmap.
Qed.

Lemma reverseRange_loop_fmap fuel (data : list B) i j :
  sort.reverseRange_loop fuel (f <$> data) i j
  = f <$> sort.reverseRange_loop fuel data i j.
Proof.
  revert data i j. induction fuel as [| fuel IH]; intros data i j; [done |].
  simpl. destruct (i <? j)%nat; [| done]. by rewrite Swap_fmap, IH.
Qed.

Lemma pdqsort_func_fmap fuel data a b limit wasBalanced wasPartitioned :
  sort.pdqsort_func lessA fuel (f <$> data) a b limit wasBalanced wasPartitioned
  = f <$> sort.pdqsort_func lessB fuel data a b limit wasBalanced wasPartitioned.
Proof.
  revert data a b limit wasBalanced wasPartitioned.
  induction fuel as [| fuel IH];
    intros data a b limit wasBalanced wasPartitioned; [done |].
  cbn [sort.pdqsort_func].
  destruct (b - a <=? 12)%nat; [apply insertionSort_func_fmap |].
  destruct (limit =? 0)%nat; [apply heapSort_func_fmap |].
  assert ((if negb wasBalanced
           then (sort.breakPatterns_func (f <$> data) a b, (limit - 1)%nat)
           else (f <$> data, limit))
          = prod_map (fmap f) id
              (if negb wasBalanced
               then (sort.breakPatterns_func data a b, (limit - 1)%nat)
               else (data, limit))) as ->.
  { destruct (negb wasBalanced); [| done].
    by rewrite breakPatterns_func_fmap. }
  destruct (if negb wasBalanced then _ else _) as [d1 limit1].
  cbn [prod_map fst snd id].
  rewrite choosePivot_func_fmap.
  destruct (sort.choosePivot_func lessB d1 a b) as [pivot hint].
  assert (match hint with
          | sort.decreasingHint =>
              (sort.reverseRange_func (f <$> d1) a b,
               (b - 1 - (pivot - a))%nat, sort.increasingHint)
          | _ => (f <$> d1, pivot, hint)
          end
          = prod_map (prod_map (fmap f) id) id
              match hint with
              | sort.decreasingHint =>
                  (sort.reverseRange_func d1 a b,
                   (b - 1 - (pivot - a))%nat, sort.increasingHint)
              | _ => (d1, pivot, hint)
              end) as ->.
  { destruct hint; try done. unfold sort.reverseRange_func.
    by rewrite length_fmap, reverseRange_loop_fmap. }
  destruct (match hint with sort.decreasingHint => _ | _ => _ end)
    as [[d2 pivot2] hint2].
  cbn [prod_map fst snd id].
  assert ((if wasBalanced && wasPartitioned && sort.is_increasing hint2
           then sort.partialInsertionSort_func lessA (f <$> d2) a b
           else (f <$> d2, false))
          = prod_map (fmap f) id
              (if wasBalanced && wasPartitioned && sort.is_increasing hint2
               then sort.partialInsertionSort_func lessB d2 a b
               else (d2, false))) as ->.
  { destruct (_ && _); [| done]. apply partialInsertionSort_loop_fmap. }
  destruct (if wasBalanced && wasPartitioned && sort.is_increasing hint2
            then _ else _) as [d3 sorted].
  cbn [prod_map fst snd id].
  destruct sorted; [done |].
  rewrite Less_fmap.
  destruct (_ && _).
  - rewrite partitionEqual_func_fmap.
    destruct (sort.partitionEqual_func lessB d3 a b pivot2) as [d4 mid].
    cbn [prod_map fst snd id]. apply IH.
  - rewrite partition_func_fmap.
    destruct (sort.partition_func lessB d3 a b pivot2) as [[d4 mid] already].
    cbn [prod_map fst snd id].
    destruct (_ <? _)%nat; by rewrite !IH.
Qed.

Lemma Slice_fmap data :
  sort.Slice lessA (f <$> data) = f <$> sort.Slice lessB data.
Proof.
  unfold sort.Slice. rewrite length_fmap. apply pdqsort_func_fmap.
Qed.

End Mapped.

(** *** A comparison that is a strict weak order on some of the items

    [ok] marks the items the comparison orders: the test of a float
    comparison orders the numbers, not NaN. *)
Section Restricted.
Context {A : Type} (lessE : A -> A -> bool) (ok : A -> Prop).
Hypothesis irrefl_ok : forall x, ok x -> lessE x x = false.
Hypothesis trans_ok :
  forall x y z, ok x -> ok y -> ok z ->
                lessE x y = true -> lessE y z = true -> lessE x z = true.
Hypothesis negtrans_ok :
  forall x y z, ok x -> ok y -> ok z ->
                lessE x y = false -> lessE y z = false -> lessE x z = false.

Definition lessOk (x y : sig ok) : bool := lessE (`x) (`y).

Lemma lessOk_irrefl x : lessOk x x = false.
Proof. destruct x as [x Hx]. by apply irrefl_ok. Qed.

Lemma lessOk_trans x y z :
  lessOk x y = true -> lessOk y z = true -> lessOk x z = true.
Proof. destruct x, y, z. by apply trans_ok. Qed.

Lemma lessOk_negtrans x y z :
  lessOk x y = false -> lessOk y z = false -> lessOk x z = false.
Proof. destruct x, y, z. by apply negtrans_ok. Qed.

Lemma Forall_sig (l : list A) :
  Forall ok l -> exists l' : list (sig ok), l = proj1_sig <$> l'.
Proof.
  induction 1 as [| x l Hx _ [l' ->]]; [by exists [] |].
  by exists ((x ↾ Hx) :: l').
Qed.

Lemma Slice_on data :
  Forall ok data ->
  exists data' : list (sig ok),
    data = proj1_sig <$> data'
    /\ sort.Slice lessE data = proj1_sig <$> sort.Slice lessOk data'.
Proof.
  intros Hok. destruct (Forall_sig data Hok) as [data' ->].
  exists data'. split; [done |]. by apply Slice_fmap.
Qed.

Lemma Slice_length_on data :
  Forall ok data -> length (sort.Slice lessE data) = length data.
Proof.
  intros Hok. destruct (Slice_on data Hok) as (data' & -> & ->).
  rewrite !length_fmap.
  apply (Slice_sorts lessOk lessOk_irrefl lessOk_trans lessOk_negtrans).
Qed.

Lemma Slice_head_least_on data :
  Forall ok data -> data <> [] ->
  exists m, head (sort.Slice lessE data) = Some m /\ m ∈ data
            /\ Forall (fun x => lessE x m = false) data.
Proof.
  intros Hok Hne. destruct (Slice_on data Hok) as (data' & -> & ->).
  destruct (Slice_head_least lessOk lessOk_irrefl lessOk_trans lessOk_negtrans
              data') as (m & Hhead & Hin & Hall).
  { by intros ->. }
  exists (`m). split; [| split].
  - destruct (sort.Slice lessOk data'); simpl in *; congruence.
  - by apply list_elem_of_fmap_2.
  - by apply Forall_fmap.
Qed.

Lemma Slice_small_head_on data :
  Forall ok data -> (length data <= 12)%nat -> data <> [] ->
  exists m l1 l2,
    head (sort.Slice lessE data) = Some m /\ data = l1 ++ m :: l2
    /\ Forall (fun x => lessE m x = true) l1
    /\ Forall (fun x => lessE x m = false) l2.
Proof.
  intros Hok Hlen Hne. destruct (Slice_on data Hok) as (data' & -> & ->).
  rewrite length_fmap in Hlen.
  destruct (Slice_small_head lessOk lessOk_irrefl lessOk_trans lessOk_negtrans
              data' Hlen) as (m & l1 & l2 & Hhead & -> & H1 & H2).
  { by intros ->. }
  exists (`m), (proj1_sig <$> l1), (proj1_sig <$> l2). split; [| split; [| split]].
  - destruct (sort.Slice lessOk _); simpl in *; congruence.
  - by rewrite fmap_app.
  - by apply Forall_fmap.
  - by apply Forall_fmap.
Qed.

End Restricted.
End SortFacts.

(** ** AISelector.Select returns a best eligible node *)

Module SelectFacts.

(** Candidate [p] stands at position [i] of the input and passes the hard
    constraints. *)
Definition eligibleAt (req : ScheduleRequest.t)
    (candidates : list GolemProfile.t) (i : nat) (p : GolemProfile.t) : Prop :=
  candidates !! i = Some p /\ constraintChecker.check req p = None.

(** The [TotalScore] that [score] gives a candidate. *)
Definition totalScore (math_Exp : float -> float) (s : AISelector.t)
    (req : ScheduleRequest.t) (p : GolemProfile.t) : float :=
  NodeScore.TotalScore (AISelector.score math_Exp s req p).

(** A [TotalScore] that is a number. *)
Definition numeric (ns : NodeScore.t) : Prop :=
  is_nan (NodeScore.TotalScore ns) = false.

Lemma byTotalScoreDesc_irrefl x : AISelector.byTotalScoreDesc x x = false.
Proof. apply float_ltb_irrefl. Qed.

Lemma byTotalScoreDesc_trans x y z :
  AISelector.byTotalScoreDesc x y = true ->
  AISelector.byTotalScoreDesc y z = true ->
  AISelector.byTotalScoreDesc x z = true.
Proof.
  unfold AISelector.byTotalScoreDesc. intros Hxy Hyz.
  by apply (float_ltb_trans _ (NodeScore.TotalScore y)).
Qed.

Lemma byTotalScoreDesc_negtrans x y z :
  numeric x -> numeric y -> numeric z ->
  AISelector.byTotalScoreDesc x y = false ->
  AISelector.byTotalScoreDesc y z = false ->
  AISelector.byTotalScoreDesc x z = false.
Proof.
  unfold AISelector.byTotalScoreDesc, numeric. intros Hx Hy Hz Hxy Hyz.
  by apply (float_ltb_negtrans _ (NodeScore.TotalScore y)).
Qed.

Section Select.
Variable math_Exp : float -> float.
Variables (s : AISelector.t) (req : ScheduleRequest.t).

Lemma scoreCandidate_Eligible p :
  NodeScore.Eligible (AISelector.scoreCandidate math_Exp s req p) = true
  <-> constraintChecker.check req p = None.
Proof.
  unfold AISelector.scoreCandidate.
  destruct (constraintChecker.check req p); simpl; split; done.
Qed.

Lemma scoreCandidate_TotalScore p :
  NodeScore.TotalScore (AISelector.scoreCandidate math_Exp s req p)
  = totalScore math_Exp s req p.
Proof.
  unfold AISelector.scoreCandidate, totalScore.
  by destruct (constraintChecker.check req p).
Qed.

Lemma scoreCandidate_NodeID p :
  NodeScore.NodeID (AISelector.scoreCandidate math_Exp s req p)
  = NodeInfo.ID (GolemProfile.NodeInfo p).
Proof.
  unfold AISelector.scoreCandidate.
  by destruct (constraintChecker.check req p).
Qed.

(** The eligible scores, in the order of the candidates. *)
Definition eligibleScores (candidates : list GolemProfile.t)
  : list NodeScore.t :=
  filter (fun ns => NodeScore.Eligible ns = true)
         (AISelector.scoreCandidate math_Exp s req <$> candidates).

Lemma elem_of_eligibleScores candidates x :
  x ∈ eligibleScores candidates
  <-> exists i p, eligibleAt req candidates i p
                  /\ x = AISelector.scoreCandidate math_Exp s req p.
Proof.
  unfold eligibleScores, eligibleAt.
  rewrite list_elem_of_filter, list_elem_of_fmap. split.
  - intros (He & p & -> & Hp). apply list_elem_of_lookup_1 in Hp as [i Hi].
    exists i, p. by rewrite <- scoreCandidate_Eligible.
  - intros (i & p & [Hi Hc] & ->). split; [by apply scoreCandidate_Eligible |].
    exists p. split; [done |]. by eapply list_elem_of_lookup_2.
Qed.

(** Where an eligible score stands among the eligible ones tells where its
    candidate stands in the input. *)
Lemma eligibleScores_split candidates l1 m l2 :
  eligibleScores candidates = l1 ++ m :: l2 ->
  exists c1 p c2,
    candidates = c1 ++ p :: c2
    /\ AISelector.scoreCandidate math_Exp s req p = m
    /\ constraintChecker.check req p = None
    /\ eligibleScores c1 = l1 /\ eligibleScores c2 = l2.
Proof.
  unfold eligibleScores. revert l1.
  induction candidates as [| c candidates IH]; intros l1 H.
  - by destruct l1.
  - rewrite fmap_cons, filter_cons in H. case_decide as Hc.
    + destruct l1 as [| y l1]; simpl in H; injection H as Hy H.
      * exists [], c, candidates. repeat split; try done.
        by apply scoreCandidate_Eligible.
      * destruct (IH l1 H) as (c1 & p & c2 & -> & Hp & Hcheck & H1 & H2).
        exists (c :: c1), p, c2. repeat split; try done.
        rewrite fmap_cons, filter_cons, decide_True by done. congruence.
    + destruct (IH l1 H) as (c1 & p & c2 & -> & Hp & Hcheck & H1 & H2).
      exists (c :: c1), p, c2. repeat split; try done.
      by rewrite fmap_cons, filter_cons, decide_False.
Qed.

Lemma Select_unfold now candidates :
  AISelector.Select math_Exp s now req candidates
  = if (length candidates =? 0)%nat then Err ErrAINoCandidates
    else if (length (eligibleScores candidates) =? 0)%nat
         then Err (ErrNoEligible (length candidates))
         else match sort.Slice AISelector.byTotalScoreDesc
                      (eligibleScores candidates) with
              | best :: _ =>
                  Ok (ScheduleDecision.mk
                        "" AIMode (NodeScore.NodeID best)
                        (ReasonAI best
                           (length (sort.Slice AISelector.byTotalScoreDesc
                                      (eligibleScores candidates))))
                        (AISelector.scoreCandidate math_Exp s req <$> candidates)
                        (length candidates)
                        (length (sort.Slice AISelector.byTotalScoreDesc
                                   (eligibleScores candidates)))
                        now 0)
              | [] => Err (ErrNoEligible (length candidates))
              end.
Proof. reflexivity. Qed.

End Select.

End SelectFacts.
Import SelectFacts.

(** C2 (as amended): when the eligible candidates' [TotalScore]s are
    numbers, [AISelector.Select] fails if no candidate is eligible, and
    otherwise returns an eligible candidate that no eligible candidate
    outscores; the decision counts the eligible candidates, and when there
    are at most twelve of them every eligible candidate earlier in the input
    scores strictly less than the winner, so that of several with the
    maximum the earliest wins. *)
Theorem Select_returns_a_best_eligible
    (math_Exp : float -> float) (s : AISelector.t) (now : Time)
    (req : ScheduleRequest.t) (candidates : list GolemProfile.t) :
  (forall i p, eligibleAt req candidates i p ->
               is_nan (totalScore math_Exp s req p) = false) ->
  ((forall i p, ~ eligibleAt req candidates i p) ->
   exists e, AISelector.Select math_Exp s now req candidates = Err e)
  /\ ((exists i p, eligibleAt req candidates i p) ->
      exists decision i p,
        AISelector.Select math_Exp s now req candidates = Ok decision
        /\ eligibleAt req candidates i p
        /\ ScheduleDecision.SelectedNodeID decision
           = NodeInfo.ID (GolemProfile.NodeInfo p)
        /\ ScheduleDecision.EligibleCount decision
           = length (filter (fun q => constraintChecker.check req q = None)
                            candidates)
        /\ (forall j q, eligibleAt req candidates j q ->
              (totalScore math_Exp s req p <? totalScore math_Exp s req q)%float
              = false)
        /\ ((ScheduleDecision.EligibleCount decision <= 12)%nat ->
            forall j q, eligibleAt req candidates j q -> (j < i)%nat ->
              (totalScore math_Exp s req q <? totalScore math_Exp s req p)%float
              = true)).
Proof.
  intros Hnum. rewrite Select_unfold.
  set (eligible := eligibleScores math_Exp s req candidates).
  assert (Forall numeric eligible) as Hok.
  { apply Forall_forall. intros x Hx.
    apply elem_of_eligibleScores in Hx as (i & p & Hp & ->).
    unfold numeric. rewrite scoreCandidate_TotalScore. by apply (Hnum i). }
  assert (length eligible
          = length (filter (fun q => constraintChecker.check req q = None)
                           candidates)) as Hcount.
  { unfold eligible, eligibleScores. clear.
    induction candidates as [| c candidates IH]; [done |].
    rewrite fmap_cons, !filter_cons.
    destruct (decide (constraintChecker.check req c = None)) as [Hc | Hc].
    - rewrite decide_True by (by apply scoreCandidate_Eligible).
      simpl. by rewrite IH.
    - rewrite decide_False; [done |].
      by rewrite scoreCandidate_Eligible. }
  split.
  - intros Hnone. destruct (length candidates =? 0)%nat; [by eexists |].
    assert (eligible = []) as ->.
    { destruct eligible as [| x l] eqn:E; [done |]. exfalso.
      assert (x ∈ eligible) as Hx by (rewrite E; left).
      apply elem_of_eligibleScores in Hx as (i & p & Hp & _).
      by apply (Hnone i p). }
    by eexists.
  - intros (i0 & p0 & Hp0).
    assert (AISelector.scoreCandidate math_Exp s req p0 ∈ eligible) as Hin0.
    { apply elem_of_eligibleScores. by exists i0, p0. }
    assert (eligible <> []) as Hne by (intros E; rewrite E in Hin0; inversion Hin0).
    replace (length candidates =? 0)%nat with false.
    2:{ symmetry. apply Nat.eqb_neq. destruct Hp0 as [Hl _].
        apply lookup_lt_Some in Hl. lia. }
    replace (length eligible =? 0)%nat with false.
    2:{ symmetry. apply Nat.eqb_neq. destruct eligible; [done | simpl; lia]. }
    pose proof (SortFacts.Slice_length_on AISelector.byTotalScoreDesc numeric
                  (fun x _ => byTotalScoreDesc_irrefl x)
                  (fun x y z _ _ _ => byTotalScoreDesc_trans x y z)
                  byTotalScoreDesc_negtrans eligible Hok) as Hlen.
    (* the winner, and where it stood *)
    assert (exists m i p,
              head (sort.Slice AISelector.byTotalScoreDesc eligible) = Some m
              /\ eligibleAt req candidates i p
              /\ m = AISelector.scoreCandidate math_Exp s req p
              /\ Forall (fun x => AISelector.byTotalScoreDesc x m = false)
                        eligible
              /\ ((length eligible <= 12)%nat ->
                  forall j q, eligibleAt req candidates j q -> (j < i)%nat ->
                    AISelector.byTotalScoreDesc m
                      (AISelector.scoreCandidate math_Exp s req q) = true))
      as (m & i & p & Hhead & Hp & -> & Hbest & Hfirst).
    { destruct (decide (length eligible <= 12)%nat) as [Hsmall | Hlarge].
      - destruct (SortFacts.Slice_small_head_on AISelector.byTotalScoreDesc
                    numeric
                    (fun x _ => byTotalScoreDesc_irrefl x)
                    (fun x y z _ _ _ => byTotalScoreDesc_trans x y z)
                    byTotalScoreDesc_negtrans eligible Hok Hsmall Hne)
          as (m & l1 & l2 & Hhead & Hsplit & H1 & H2).
        destruct (eligibleScores_split math_Exp s req candidates l1 m l2 Hsplit)
          as (c1 & p & c2 & Hcand & <- & Hcheck & Hc1 & Hc2).
        exists (AISelector.scoreCandidate math_Exp s req p), (length c1), p.
        split; [done |]. split.
        { split; [| done]. rewrite Hcand.
          by rewrite lookup_app_r, Nat.sub_diag by lia. }
        split; [done |]. split.
        + fold eligible in Hsplit. rewrite Hsplit.
          apply Forall_app. split; [| constructor;
                                       [apply byTotalScoreDesc_irrefl | done]].
          eapply Forall_impl; [exact H1 |]. intros x Hx.
          unfold AISelector.byTotalScoreDesc in *.
          by apply float_ltb_asym.
        + intros _ j q [Hj Hq] Hji. rewrite Forall_forall in H1. apply H1.
          rewrite <- Hc1. apply elem_of_eligibleScores.
          exists j, q. split; [| done]. split; [| done].
          rewrite Hcand in Hj. by rewrite lookup_app_l in Hj by lia.
      - destruct (SortFacts.Slice_head_least_on AISelector.byTotalScoreDesc
                    numeric
                    (fun x _ => byTotalScoreDesc_irrefl x)
                    (fun x y z _ _ _ => byTotalScoreDesc_trans x y z)
                    byTotalScoreDesc_negtrans eligible Hok Hne)
          as (m & Hhead & Hin & Hbest).
        apply elem_of_eligibleScores in Hin as (i & p & Hp & ->).
        exists (AISelector.scoreCandidate math_Exp s req p), i, p.
        split; [done |]. split; [done |]. split; [done |].
        split; [done |]. intros Hle. lia. }
    destruct (sort.Slice AISelector.byTotalScoreDesc eligible)
      as [| best rest] eqn:Hsorted; [done |].
    injection Hhead as ->.
    eexists _, i, p. split; [reflexivity |]. split; [done |].
    cbn [ScheduleDecision.SelectedNodeID ScheduleDecision.EligibleCount].
    split; [apply scoreCandidate_NodeID |].
    split; [by rewrite Hlen |].
    split.
    + intros j q Hq. rewrite Forall_forall in Hbest.
      specialize (Hbest (AISelector.scoreCandidate math_Exp s req q)).
      unfold AISelector.byTotalScoreDesc in Hbest.
      rewrite !scoreCandidate_TotalScore in Hbest. apply Hbest.
      apply elem_of_eligibleScores. by exists j, q.
    + rewrite Hlen. intros Hle j q Hq Hji.
      specialize (Hfirst Hle j q Hq Hji).
      unfold AISelector.byTotalScoreDesc in Hfirst.
      by rewrite !scoreCandidate_TotalScore in Hfirst.
Qed.

(** Thirteen idle nodes that differ in their IDs only, and a request whose
    anti-affinity hint names all of them but ["g1"] and ["g2"]. The nodes
    are idle, so [scoreLoad] calls [math.Exp] for none of them. *)
Definition thirteenNodes : list GolemProfile.t :=
  idleNode <$> ["g0"; "g1"; "g2"; "g3"; "g4"; "g5"; "g6"; "g7"; "g8"; "g9";
                "g10"; "g11"; "g12"]%string.

Definition avoidAllButTwo : ScheduleRequest.t :=
  ScheduleRequest.mk (Some 0%nat) AIMode "" [] [] [] ∅ None
    (Some (ScheduleHints.mk "" false false ""
             ["g0"; "g3"; "g4"; "g5"; "g6"; "g7"; "g8"; "g9"; "g10"; "g11";
              "g12"]%string ∅)) 0.

(** C2 (as stated) fails: ["g1"] and ["g2"] are eligible and share the
    maximum [TotalScore], ["g1"] stands earlier in the input, and [Select]
    returns ["g2"]: with more than twelve eligible nodes [sort.Slice]
    partitions the slice, and the partition moves ["g2"] before ["g1"]. *)
Lemma Select_later_of_two_best_wins :
  exists decision,
    AISelector.Select (fun x => x) AISelector.NewDefaultAISelector 0
                      avoidAllButTwo thirteenNodes = Ok decision
    /\ ScheduleDecision.SelectedNodeID decision = "g2"%string
    /\ eligibleAt avoidAllButTwo thirteenNodes 1 (idleNode "g1")
    /\ eligibleAt avoidAllButTwo thirteenNodes 2 (idleNode "g2")
    /\ totalScore (fun x => x) AISelector.NewDefaultAISelector avoidAllButTwo
                  (idleNode "g1")
       = totalScore (fun x => x) AISelector.NewDefaultAISelector avoidAllButTwo
                    (idleNode "g2")
    /\ Forall (fun q =>
                 (totalScore (fun x => x) AISelector.NewDefaultAISelector
                             avoidAllButTwo (idleNode "g1")
                  <? totalScore (fun x => x) AISelector.NewDefaultAISelector
                                avoidAllButTwo q)%float = false)
              thirteenNodes.
Proof.
  eexists. split; [vm_compute; reflexivity |].
  split; [reflexivity |].
  split; [split; reflexivity |].
  split; [split; reflexivity |].
  split; [vm_compute; reflexivity |].
  unfold thirteenNodes. cbn [fmap list_fmap].
  repeat constructor; vm_compute; reflexivity.
Qed.

(** Of two idle nodes with the same score the first wins. *)
Lemma Select_first_of_two_wins :
  exists decision,
    AISelector.Select (fun x => x) AISelector.NewDefaultAISelector 0
                      aiRequest [idleNode "g1"; idleNode "g2"] = Ok decision
    /\ ScheduleDecision.SelectedNodeID decision = "g1"%string.
Proof.
  destruct (Select_returns_a_best_eligible
              (fun x => x) AISelector.NewDefaultAISelector 0 aiRequest
              [idleNode "g1"; idleNode "g2"]) as [_ H].
  - intros i p [Hl _].
    destruct i as [| [| i]]; simpl in Hl; try discriminate;
      injection Hl as <-; reflexivity.
  - destruct H as (decision & i & p & Hsel & [Hl Hc] & Hid & Hcount & _ & Hfirst).
    { exists 0%nat, (idleNode "g1"). split; reflexivity. }
    exists decision. split; [exact Hsel |]. rewrite Hid.
    destruct i as [| [| i]]; simpl in Hl.
    + by injection Hl as <-.
    + injection Hl as <-.
      specialize (Hfirst ltac:(rewrite Hcount; vm_compute; lia) 0%nat
                         (idleNode "g1") ltac:(split; reflexivity) ltac:(lia)).
      vm_compute in Hfirst. discriminate.
    + discriminate.
Defined.

(** ** Histories of the scheduler *)

Module RunFacts.
Import HeapFacts.

(** The calls that change the scheduler: its interface, the monitor's
    handler and the two background loops. *)
Inductive SchedulerCall :=
| DoSchedule (env : Env.t) (req : ScheduleRequest.t)
| DoCancel (now : Time) (taskID : string)
| DoReportProgress (now : Time) (progress : TaskProgress.t)
| DoReportResult (now : Time) (result : TaskResult.t)
| DoOnTaskTimeout (now : Time) (taskID : string)
| DoOnTaskStalled (now : Time) (taskID : string)
| DoMonitorTick (now : Time)
| DoProcessQueue (env : Env.t).

(** The ID of the task of a request, read through its pointer. *)
Definition taskIDOf (s : defaultScheduler.t) (req : ScheduleRequest.t)
  : string :=
  Task.ID (deref (defaultScheduler.mem s) (ScheduleRequest.Task req)).

Section Run.
Variable math_Exp : float -> float.

Definition step (s : defaultScheduler.t) (c : SchedulerCall)
  : defaultScheduler.t :=
  match c with
  | DoSchedule env req => snd (defaultScheduler.Schedule math_Exp env s req)
  | DoCancel now taskID => snd (defaultScheduler.Cancel now s taskID)
  | DoReportProgress now progress =>
      defaultScheduler.ReportProgress now s progress
  | DoReportResult now result => defaultScheduler.ReportResult now s result
  | DoOnTaskTimeout now taskID => defaultScheduler.OnTaskTimeout now taskID s
  | DoOnTaskStalled now taskID => defaultScheduler.OnTaskStalled now taskID s
  | DoMonitorTick now => defaultScheduler.monitorTick now s
  | DoProcessQueue env => defaultScheduler.processQueue math_Exp env s
  end.

Definition run (calls : list SchedulerCall) (s : defaultScheduler.t)
  : defaultScheduler.t :=
  foldl step s calls.

(** The task ID a call hands to [Schedule], if it is such a call with a
    task. *)
Definition scheduledBy (s : defaultScheduler.t) (c : SchedulerCall)
  : option string :=
  match c with
  | DoSchedule _ req =>
      match ScheduleRequest.Task req with
      | Some _ => Some (taskIDOf s req)
      | None => None
      end
  | _ => None
  end.

(** The task IDs scheduled in a history that starts in state [s]. *)
Fixpoint scheduledIDs (calls : list SchedulerCall) (s : defaultScheduler.t)
  : list string :=
  match calls with
  | [] => []
  | c :: calls =>
      match scheduledBy s c with
      | Some id => id :: scheduledIDs calls (step s c)
      | None => scheduledIDs calls (step s c)
      end
  end.

(** All task IDs the scheduler keeps, as keys of records and through the
    requests it holds, satisfy [P]; and the queue is a heap. *)
Definition Known (P : string -> Prop) (s : defaultScheduler.t) : Prop :=
  Heap (PriorityQueue.heap (defaultScheduler.queue s))
       (length (PriorityQueue.heap (defaultScheduler.queue s)))
  /\ (forall id rec, defaultScheduler.tasks s !! id = Some rec ->
        P id /\ forall req, taskRecord.request rec = Some req ->
                            P (taskIDOf s req))
  /\ (forall item, item ∈ PriorityQueue.heap (defaultScheduler.queue s) ->
        P (taskIDOf s (heapItem.request item))).

(** No call changes the ID of a task object. *)
Definition sameIDs (s s' : defaultScheduler.t) : Prop :=
  forall p, Task.ID (deref (defaultScheduler.mem s') p)
            = Task.ID (deref (defaultScheduler.mem s) p).

Lemma sameIDs_refl s : sameIDs s s.
Proof. done. Qed.

Lemma sameIDs_trans s1 s2 s3 : sameIDs s1 s2 -> sameIDs s2 s3 -> sameIDs s1 s3.
Proof. intros H1 H2 p. by rewrite H2, H1. Qed.

Lemma sameIDs_mem s s' :
  defaultScheduler.mem s' = defaultScheduler.mem s -> sameIDs s s'.
Proof. intros H p. by rewrite H. Qed.

Lemma deref_updateTask_ID q f (mem : gmap TaskPtr Task.t) p :
  (forall x, Task.ID (f x) = Task.ID x) ->
  Task.ID (deref (updateTask q f mem) p) = Task.ID (deref mem p).
Proof.
  intros Hf. destruct q as [a |]; [| done]. destruct p as [b |]; [| done].
  unfold deref. simpl. rewrite lookup_alter. case_decide as Hab; [| done].
  subst b. destruct (mem !! a); simpl; [apply Hf | done].
Qed.

Lemma Known_transfer P s s' :
  sameIDs s s' ->
  defaultScheduler.queue s' = defaultScheduler.queue s ->
  defaultScheduler.tasks s' = defaultScheduler.tasks s ->
  Known P s -> Known P s'.
Proof.
  intros Hid Hq Ht (Hheap & Hrec & Hitem). unfold Known, taskIDOf.
  rewrite Hq, Ht. split; [done |]. split.
  - intros id rec Hr. destruct (Hrec id rec Hr) as [HP Hreq].
    split; [done |]. intros req Hrq. rewrite Hid. by apply Hreq.
  - intros item Hin. rewrite Hid. by apply Hitem.
Qed.

(** *** The queue's requests *)

Lemma request_core x : heapItem.request (core x) = heapItem.request x.
Proof. done. Qed.

Lemma core_perm_requests (h h' : list heapItem.t) item :
  core <$> h' ≡ₚ core <$> h -> item ∈ h' ->
  exists item', item' ∈ h /\ heapItem.request item' = heapItem.request item.
Proof.
  intros Hperm Hin.
  assert (core item ∈ core <$> h) as Hc.
  { rewrite <- Hperm. by apply list_elem_of_fmap_2. }
  apply list_elem_of_fmap in Hc as (item' & Heq & Hin').
  exists item'. split; [done |].
  by rewrite <- (request_core item'), <- Heq.
Qed.

Lemma Enqueue_requests mem q req :
  Heap (PriorityQueue.heap q) (length (PriorityQueue.heap q)) ->
  let q' := PriorityQueue.Enqueue mem q req in
  Heap (PriorityQueue.heap q') (length (PriorityQueue.heap q'))
  /\ forall item, item ∈ PriorityQueue.heap q' ->
       heapItem.request item = req
       \/ exists item', item' ∈ PriorityQueue.heap q
                        /\ heapItem.request item' = heapItem.request item.
Proof.
  intros Hheap. unfold PriorityQueue.Enqueue.
  cbn [PriorityQueue.heap].
  set (x := heapItem.mk req _ _ 0).
  destruct (Push_spec (PriorityQueue.heap q) x Hheap) as (Hheap' & Hlen & Hperm).
  split; [by rewrite Hlen |].
  intros item Hin.
  destruct (core_perm_requests _ _ item Hperm Hin) as (item' & Hin' & Hreq).
  apply elem_of_app in Hin' as [Hin' | Hin'].
  - right. by exists item'.
  - left. apply list_elem_of_singleton in Hin'. by subst item'.
Qed.

Lemma Dequeue_requests q :
  Heap (PriorityQueue.heap q) (length (PriorityQueue.heap q)) ->
  let q' := snd (PriorityQueue.Dequeue q) in
  Heap (PriorityQueue.heap q') (length (PriorityQueue.heap q'))
  /\ forall item, item ∈ PriorityQueue.heap q' ->
       exists item', item' ∈ PriorityQueue.heap q
                     /\ heapItem.request item' = heapItem.request item.
Proof.
  intros Hheap. unfold PriorityQueue.Dequeue, PriorityQueue.DequeueItem.
  unfold requestHeap.Len.
  destruct (PriorityQueue.heap q) as [| r h] eqn:Hh; simpl.
  { rewrite Hh. split; [done |]. intros item Hin. by exists item. }
  rewrite <- Hh in *.
  destruct (Pop_spec (PriorityQueue.heap q) r Hheap ltac:(by rewrite Hh))
    as (x & h' & Hpop & Hx & Hheap' & Hlen & Hperm & _).
  rewrite Hpop. simpl. split; [done |].
  intros item Hin.
  assert (core item ∈ core <$> PriorityQueue.heap q) as Hc.
  { rewrite Hperm. right. by apply list_elem_of_fmap_2. }
  apply list_elem_of_fmap in Hc as (item' & Heq & Hin').
  exists item'. split; [done |].
  by rewrite <- (request_core item'), <- Heq.
Qed.

Lemma Remove_requests mem q taskID :
  Heap (PriorityQueue.heap q) (length (PriorityQueue.heap q)) ->
  let q' := snd (PriorityQueue.Remove mem q taskID) in
  Heap (PriorityQueue.heap q') (length (PriorityQueue.heap q'))
  /\ forall item, item ∈ PriorityQueue.heap q' ->
       exists item', item' ∈ PriorityQueue.heap q
                     /\ heapItem.request item' = heapItem.request item.
Proof.
  intros Hheap. unfold PriorityQueue.Remove.
  destruct (list_find _ (PriorityQueue.heap q)) as [[i r] |] eqn:Hfind; simpl.
  2:{ split; [done |]. intros item Hin. by exists item. }
  apply list_find_Some in Hfind as (Hi & _ & _).
  destruct (Remove_spec (PriorityQueue.heap q) i r Hheap Hi)
    as (x & h' & Hrem & Hx & Hheap' & Hlen & Hperm).
  rewrite Hrem. simpl. split; [done |].
  intros item Hin.
  assert (core item ∈ core <$> PriorityQueue.heap q) as Hc.
  { rewrite Hperm. right. by apply list_elem_of_fmap_2. }
  apply list_elem_of_fmap in Hc as (item' & Heq & Hin').
  exists item'. split; [done |].
  by rewrite <- (request_core item'), <- Heq.
Qed.

(** *** The calls keep what is known *)

Lemma setStatus_Known P taskID status s :
  Known P s ->
  sameIDs s (defaultScheduler.setStatus taskID status s)
  /\ Known P (defaultScheduler.setStatus taskID status s).
Proof.
  intros HK. unfold defaultScheduler.setStatus.
  destruct (defaultScheduler.tasks s !! taskID) as [rec |];
    [| by split].
  assert (sameIDs s (defaultScheduler.set_mem
                       (updateTask (taskRecord.task rec)
                          (Task.set_Status status) (defaultScheduler.mem s)) s))
    as Hid.
  { intros p. simpl. by apply deref_updateTask_ID. }
  split; [done |]. by apply (Known_transfer P s).
Qed.

Lemma tryDispatch_Known P env s req :
  Known P s -> P (taskIDOf s req) ->
  let s' := snd (defaultScheduler.tryDispatch math_Exp env s req) in
  sameIDs s s'
  /\ defaultScheduler.queue s' = defaultScheduler.queue s
  /\ Known P s'.
Proof.
  intros HK HP. unfold defaultScheduler.tryDispatch.
  destruct (Env.ListProfiles env) as [candidates | err]; [| by split].
  destruct (length candidates =? 0)%nat; [by split |].
  destruct (if String.eqb (ScheduleRequest.Mode req) DirectMode then _ else _)
    as [decision | err]; [| by split].
  set (s1 := defaultScheduler.set_mem _ s).
  assert (sameIDs s s1) as Hid1.
  { intros p. unfold s1. simpl. by apply deref_updateTask_ID. }
  assert (Known P s1) as HK1 by (by apply (Known_transfer P s)).
  set (taskID := Task.ID (deref (defaultScheduler.mem s1)
                                (ScheduleRequest.Task req))).
  assert (P taskID) as HPid by (unfold taskID; by rewrite Hid1).
  set (s2 := defaultScheduler.set_tasks _ s1).
  assert (Known P s2) as HK2.
  { destruct HK1 as (Hheap & Hrec & Hitem).
    split; [done |]. split; [| done].
    intros id rec Hr. unfold s2 in Hr. simpl in Hr.
    apply lookup_insert_Some in Hr as [[<- <-] | [Hne Hr]].
    - split; [done |]. intros req' [= <-]. exact HPid.
    - by apply Hrec. }
  destruct (Env.Dispatch env _ _); simpl; [by split |].
  split; [done |]. split; [done |].
  apply (Known_transfer P s2); try done.
Qed.

Lemma Schedule_Known P env s req :
  Known P s ->
  (is_Some (ScheduleRequest.Task req) -> P (taskIDOf s req)) ->
  let s' := snd (defaultScheduler.Schedule math_Exp env s req) in
  sameIDs s s' /\ Known P s'.
Proof.
  intros HK HP. unfold defaultScheduler.Schedule.
  destruct (ScheduleRequest.Task req) as [p |] eqn:Hp; [| by split].
  specialize (HP ltac:(by eexists)).
  set (s0 := defaultScheduler.set_stats _ s).
  assert (Known P s0) as HK0 by (by apply (Known_transfer P s)).
  destruct (tryDispatch_Known P env s0 req HK0 HP) as (Hid & Hq & HK1).
  destruct (defaultScheduler.tryDispatch math_Exp env s0 req)
    as [[decision | err] s1]; simpl in *; [by split |].
  split; [done |].
  destruct HK1 as (Hheap & Hrec & Hitem).
  destruct (Enqueue_requests (defaultScheduler.mem s1)
              (defaultScheduler.queue s1) req Hheap) as [Hheap' Hitems].
  split; [done |]. split; [done |].
  intros item Hin. simpl in Hin.
  destruct (Hitems item Hin) as [-> | (item' & Hin' & <-)].
  - unfold taskIDOf in *. simpl. by rewrite Hid.
  - by apply Hitem.
Qed.

Lemma Cancel_Known P now s taskID :
  Known P s ->
  let s' := snd (defaultScheduler.Cancel now s taskID) in
  sameIDs s s' /\ Known P s'.
Proof.
  intros HK. unfold defaultScheduler.Cancel.
  pose proof HK as (Hheap & Hrec & Hitem).
  destruct (Remove_requests (defaultScheduler.mem s) (defaultScheduler.queue s)
              taskID Hheap) as [Hheap' Hitems].
  destruct (PriorityQueue.Remove _ _ _) as [removed q]. simpl in Hheap', Hitems.
  destruct removed; simpl.
  - set (s1 := defaultScheduler.set_stats _ _).
    assert (Known P s1) as HK1.
    { split; [done |]. split; [done |].
      intros item Hin. destruct (Hitems item Hin) as (item' & Hin' & <-).
      by apply Hitem. }
    destruct (setStatus_Known P taskID TaskStatusCancelled s1 HK1)
      as [Hid HK2].
    split; [done |]. by apply (Known_transfer P (defaultScheduler.setStatus
                                    taskID TaskStatusCancelled s1)).
  - set (s1 := defaultScheduler.set_stats _ _).
    assert (Known P s1) as HK1 by (by apply (Known_transfer P s)).
    destruct (setStatus_Known P taskID TaskStatusCancelled s1 HK1)
      as [Hid HK2].
    split; [done |]. by apply (Known_transfer P (defaultScheduler.setStatus
                                    taskID TaskStatusCancelled s1)).
Qed.

Lemma OnTaskTimeout_Known P now taskID s :
  Known P s ->
  sameIDs s (defaultScheduler.OnTaskTimeout now taskID s)
  /\ Known P (defaultScheduler.OnTaskTimeout now taskID s).
Proof.
  intros HK. unfold defaultScheduler.OnTaskTimeout.
  set (s1 := defaultScheduler.set_stats _ _).
  assert (Known P s1) as HK1 by (by apply (Known_transfer P s)).
  destruct (setStatus_Known P taskID TaskStatusTimedOut s1 HK1) as [Hid HK2].
  split; [done |].
  by apply (Known_transfer P (defaultScheduler.setStatus taskID
                                TaskStatusTimedOut s1)).
Qed.

Lemma OnTaskStalled_Known P now taskID s :
  Known P s ->
  sameIDs s (defaultScheduler.OnTaskStalled now taskID s)
  /\ Known P (defaultScheduler.OnTaskStalled now taskID s).
Proof.
  intros HK. unfold defaultScheduler.OnTaskStalled.
  destruct (defaultScheduler.tasks s !! taskID) as [rec |] eqn:Hr;
    [| by split].
  destruct (if _ <? _ then _ else _) as [req |] eqn:Hreq.
  - split; [done |].
    assert (taskRecord.request rec = Some req) as Hrq.
    { destruct (_ <? _); [done | discriminate]. }
    destruct HK as (Hheap & Hrec & Hitem).
    destruct (Hrec taskID rec Hr) as [HPid HPreq].
    destruct (Enqueue_requests (defaultScheduler.mem s)
                (defaultScheduler.queue s) req Hheap) as [Hheap' Hitems].
    split; [done |]. split.
    + intros id rec' Hr'. simpl in Hr'.
      apply lookup_insert_Some in Hr' as [[<- <-] | [Hne Hr']].
      * split; [done |]. simpl. exact HPreq.
      * by apply Hrec.
    + intros item Hin. simpl in Hin.
      destruct (Hitems item Hin) as [-> | (item' & Hin' & <-)].
      * by apply HPreq.
      * by apply Hitem.
  - split; [done |]. by apply (Known_transfer P s).
Qed.

Lemma monitorTick_Known P now s :
  Known P s ->
  sameIDs s (defaultScheduler.monitorTick now s)
  /\ Known P (defaultScheduler.monitorTick now s).
Proof.
  unfold defaultScheduler.monitorTick, taskMonitor.checkTasks.
  generalize (taskMonitor.snapshot now (defaultScheduler.monitor s)).
  intros checks. revert s.
  induction checks as [| c checks IH]; intros s HK; [by split |].
  cbn [foldl].
  set (s1 := taskMonitor.fire _ _ _ _ s c).
  assert (sameIDs s s1 /\ Known P s1) as [Hid HK1].
  { unfold s1, taskMonitor.fire. destruct (check.timeout c).
    - destruct (OnTaskTimeout_Known P now (check.id c) s HK) as [Hid HK1].
      split; [done |].
      by apply (Known_transfer P (defaultScheduler.OnTaskTimeout now
                                    (check.id c) s)).
    - destruct (check.stalled c); [| by split].
      by apply OnTaskStalled_Known. }
  destruct (IH s1 HK1) as [Hid' HK']. split; [| done].
  by eapply sameIDs_trans.
Qed.

Lemma processQueue_loop_Known P fuel env s :
  Known P s ->
  sameIDs s (defaultScheduler.processQueue_loop math_Exp fuel env s)
  /\ Known P (defaultScheduler.processQueue_loop math_Exp fuel env s).
Proof.
  revert s. induction fuel as [| fuel IH]; intros s HK; [by split |].
  cbn [defaultScheduler.processQueue_loop].
  destruct (PriorityQueue.Peek (defaultScheduler.queue s)) as [req |] eqn:Hpeek;
    [| by split].
  assert (P (taskIDOf s req)) as HP.
  { unfold PriorityQueue.Peek in Hpeek.
    destruct (PriorityQueue.heap (defaultScheduler.queue s) !! 0%nat)
      as [item |] eqn:Hitem; [| discriminate].
    injection Hpeek as <-. destruct HK as (_ & _ & Hitems).
    apply Hitems. by eapply list_elem_of_lookup_2. }
  destruct (tryDispatch_Known P env s req HK HP) as (Hid & Hq & HK1).
  destruct (defaultScheduler.tryDispatch math_Exp env s req)
    as [[decision | err] s1]; simpl in *; [| by split].
  set (s2 := defaultScheduler.set_queue _ s1).
  assert (Known P s2) as HK2.
  { destruct HK1 as (Hheap & Hrec & Hitem).
    destruct (Dequeue_requests (defaultScheduler.queue s1) Hheap)
      as [Hheap' Hitems].
    split; [done |]. split; [done |].
    intros item Hin. simpl in Hin.
    destruct (Hitems item Hin) as (item' & Hin' & <-). by apply Hitem. }
  destruct (IH s2 HK2) as [Hid' HK']. split; [| done].
  eapply sameIDs_trans; [exact Hid |]. exact Hid'.
Qed.

Lemma ReportProgress_Known P now s progress :
  Known P s ->
  sameIDs s (defaultScheduler.ReportProgress now s progress)
  /\ Known P (defaultScheduler.ReportProgress now s progress).
Proof.
  intros HK. split; [done |]. by apply (Known_transfer P s).
Qed.

Lemma ReportResult_Known P now s result :
  Known P s ->
  sameIDs s (defaultScheduler.ReportResult now s result)
  /\ Known P (defaultScheduler.ReportResult now s result).
Proof.
  intros HK.
  assert (sameIDs s (defaultScheduler.ReportResult now s result)
          /\ defaultScheduler.queue (defaultScheduler.ReportResult now s result)
             = defaultScheduler.queue s
          /\ defaultScheduler.tasks (defaultScheduler.ReportResult now s result)
             = defaultScheduler.tasks s) as (Hid & Hq & Ht).
  { unfold defaultScheduler.ReportResult. simpl.
    destruct (defaultScheduler.tasks s !! TaskResult.TaskID result) as [rec |];
      destruct (TaskResult.Success result); simpl;
      (split; [| by split]); intros p; simpl;
      try done; by apply deref_updateTask_ID. }
  split; [done |]. by apply (Known_transfer P s).
Qed.

Lemma step_Known P s c :
  Known P s ->
  (forall id, scheduledBy s c = Some id -> P id) ->
  sameIDs s (step s c) /\ Known P (step s c).
Proof.
  intros HK HP. destruct c; simpl.
  - apply Schedule_Known; [done |]. intros [p Hp]. apply HP. simpl.
    by rewrite Hp.
  - by apply Cancel_Known.
  - by apply ReportProgress_Known.
  - by apply ReportResult_Known.
  - by apply OnTaskTimeout_Known.
  - by apply OnTaskStalled_Known.
  - by apply monitorTick_Known.
  - by apply processQueue_loop_Known.
Qed.

Lemma run_Known P calls s :
  Known P s -> Forall P (scheduledIDs calls s) -> Known P (run calls s).
Proof.
  revert s. induction calls as [| c calls IH]; intros s HK HP; [done |].
  cbn [run foldl]. fold (run calls (step s c)). simpl in HP.
  apply IH.
  - apply step_Known; [done |]. intros id Hid. rewrite Hid in HP.
    by apply Forall_cons in HP as [? _].
  - destruct (scheduledBy s c); [by apply Forall_cons in HP as [_ ?] | done].
Qed.

Lemma New_Known P config mem : Known P (defaultScheduler.New config mem).
Proof.
  split; [| split].
  - intros k Hk. simpl in Hk. lia.
  - intros id rec Hr. simpl in Hr. by rewrite lookup_empty in Hr.
  - intros item Hin. simpl in Hin. by apply elem_of_nil in Hin.
Qed.

(** The scheduler has no record of a task ID that was never scheduled. *)
Lemma never_scheduled_unknown config mem calls taskID :
  taskID ∉ scheduledIDs calls (defaultScheduler.New config mem) ->
  unknownTask (run calls (defaultScheduler.New config mem)) taskID.
Proof.
  intros Hnot.
  pose proof (run_Known (fun id => id <> taskID) calls
                (defaultScheduler.New config mem) (New_Known _ config mem))
    as (_ & Hrec & _).
  { apply Forall_forall. intros id Hin ->. done. }
  unfold unknownTask.
  destruct (defaultScheduler.tasks _ !! taskID) as [rec |] eqn:Hr; [| done].
  by destruct (Hrec taskID rec Hr) as [Hne _].
Qed.

End Run.
End RunFacts.
Import RunFacts.

(** C10: take any history of calls on a new scheduler in which no
    [Schedule] call is for a task with the ID [taskID]. [Cancel] of
    [taskID] then returns nil after incrementing [TotalCancelled] and
    emitting a [Cancelled] event whose task pointer is nil. *)
Theorem Cancel_never_scheduled_side_effects math_Exp config mem calls
    now taskID :
  taskID ∉ scheduledIDs math_Exp calls (defaultScheduler.New config mem) ->
  let s := run math_Exp calls (defaultScheduler.New config mem) in
  fst (defaultScheduler.Cancel now s taskID) = None
  /\ totalCancelled (snd (defaultScheduler.Cancel now s taskID))
     = int64_add (totalCancelled s) 1
  /\ (totalCancelled s < maxInt64 -> minInt64 <= totalCancelled s ->
      totalCancelled (snd (defaultScheduler.Cancel now s taskID))
      = totalCancelled s + 1)
  /\ defaultScheduler.emitted (snd (defaultScheduler.Cancel now s taskID))
     = defaultScheduler.emitted s
       ++ [TaskEvent.mk EventTypeCancelled None None "" None None None now].
Proof.
  intros Hnever s. apply Cancel_without_record.
  by apply never_scheduled_unknown.
Qed.

(** After [t1] was dispatched and found stalled, a [Cancel] of an ID that
    was never scheduled counts and announces a cancellation. *)
Lemma Cancel_never_scheduled_witness :
  fst (defaultScheduler.Cancel (62 * second) stalledOnce "ghost") = None
  /\ totalCancelled
       (snd (defaultScheduler.Cancel (62 * second) stalledOnce "ghost")) = 1
  /\ eventTypes (snd (defaultScheduler.Cancel (62 * second) stalledOnce "ghost"))
     = [EventTypeAssigned; EventTypeRescheduled; EventTypeCancelled]
  /\ TaskEvent.Task
       <$> last (defaultScheduler.emitted
                   (snd (defaultScheduler.Cancel (62 * second) stalledOnce
                           "ghost")))
     = Some None.
Proof.
  destruct (Cancel_never_scheduled_side_effects (fun x => x)
              DefaultSchedulerConfig store1
              [DoSchedule (envOK 0) aiRequest; DoMonitorTick (61 * second)]
              (62 * second) "ghost") as (He & Hc & _ & Hev).
  { apply (bool_decide_unpack _). vm_compute. exact I. }
  change (run (fun x => x) _ _) with stalledOnce in *.
  split; [exact He |]. split; [rewrite Hc; reflexivity |].
  unfold eventTypes. rewrite Hev. split; [reflexivity |].
  rewrite last_snoc. reflexivity.
Defined.

(** ** More of the priority queue *)

Module QueueMore.
Import HeapFacts QueueFacts.

(** The queue a history leaves. *)
Definition queueAfter (ops : list QueueOp) : PriorityQueue.t :=
  (runQ ops PriorityQueue.NewPriorityQueue).1.

Lemma queueAfter_Inv ops :
  Z.of_nat (length (enqueued ops)) < 2 ^ 63 ->
  Inv (enqueued ops) (queueAfter ops).
Proof.
  intros Hlen. apply (runQ_Inv ops [] PriorityQueue.NewPriorityQueue);
    [apply Inv_New | done].
Qed.

(** The task ID of a queued item, read through the request's pointer. *)
Definition itemTaskID (mem : gmap TaskPtr Task.t) (x : heapItem.t) : string :=
  Task.ID (deref mem (ScheduleRequest.Task (heapItem.request x))).

Lemma request_of_core x y : core x = core y ->
  heapItem.request x = heapItem.request y.
Proof. intros H. by apply (f_equal heapItem.request) in H. Qed.

Lemma before_of_core x x' y y' :
  core x = core x' -> core y = core y' -> before x y -> before x' y'.
Proof.
  intros Hx Hy. change (before (core x) (core y) -> before (core x') (core y')).
  by rewrite Hx, Hy.
Qed.

Lemma Drain_loop_spec E fuel q result :
  Inv E q -> (length (PriorityQueue.heap q) <= fuel)%nat ->
  exists items,
    PriorityQueue.Drain_loop fuel (PriorityQueue.heap q) result
    = (result ++ (heapItem.request <$> items), [])
    /\ core <$> items ≡ₚ core <$> PriorityQueue.heap q
    /\ StronglySorted before items.
Proof.
  revert q result. induction fuel as [| fuel IH]; intros q result HInv Hfuel.
  - destruct (PriorityQueue.heap q) as [| r h] eqn:Hq; [| simpl in Hfuel; lia].
    exists []. simpl. rewrite app_nil_r. repeat split; constructor.
  - pose proof (DequeueItem_spec E q HInv) as Hspec.
    unfold PriorityQueue.DequeueItem, requestHeap.Len in Hspec.
    cbn [PriorityQueue.Drain_loop]. unfold requestHeap.Len.
    destruct (PriorityQueue.heap q) as [| r h] eqn:Hq.
    { exists []. simpl. rewrite app_nil_r. repeat split; constructor. }
    cbn [length Nat.eqb Nat.ltb Nat.leb] in *.
    destruct (heap.Pop (r :: h)) as [[m h'] |] eqn:Hpop.
    + destruct Hspec as (HInv' & Hseq & Hperm & Hmin).
      cbn [PriorityQueue.heap] in *.
      assert (S (length h') = S (length h)) as Hlen.
      { apply Permutation_length in Hperm. simpl in Hperm.
        rewrite !length_fmap in Hperm. lia. }
      destruct (IH (PriorityQueue.mk h' (PriorityQueue.seq q))
                  (result ++ [heapItem.request m]) HInv')
        as (items & Hdrain & Hperm' & Hsorted).
      { simpl. lia. }
      cbn [PriorityQueue.heap] in *.
      exists (m :: items). split; [| split].
      * rewrite Hdrain. by rewrite <- (assoc_L (++)).
      * rewrite Hperm. cbn [fmap list_fmap]. by rewrite Hperm'.
      * constructor; [done |].
        apply Forall_forall. intros y Hy.
        assert (core y ∈ core <$> h') as Hc.
        { rewrite <- Hperm'. by apply list_elem_of_fmap_2. }
        apply elem_of_core in Hc as (y' & Hy' & Hcore).
        apply (before_of_core m m y' y); [done | done |]. by apply Hmin.
    + destruct Hspec as [_ Hnil]. discriminate.
Qed.

End QueueMore.
Import QueueMore.

(** Two requests, for a low and a high priority task, enqueued in that
    order. *)
Definition lowThenHigh : list QueueFacts.QueueOp :=
  [QueueFacts.OpEnqueue store2 (requestFor 0%nat);
   QueueFacts.OpEnqueue store2 (requestFor 1%nat)].

(** X1: after any history of [Enqueue], [Dequeue] and [Remove] calls on a
    new queue (fewer than 2^63 [Enqueue] calls), [Drain] returns the
    request of every queued item, each once, in dequeue order (higher
    priority first, earlier insertion first among equals), and leaves the
    queue empty with its insertion counter as it was. *)
Theorem Drain_returns_all_in_order (ops : list QueueFacts.QueueOp) :
  Z.of_nat (length (QueueFacts.enqueued ops)) < 2 ^ 63 ->
  exists items,
    PriorityQueue.Drain (queueAfter ops)
    = (heapItem.request <$> items,
       PriorityQueue.mk [] (PriorityQueue.seq (queueAfter ops)))
    /\ HeapFacts.core <$> items
       ≡ₚ HeapFacts.core <$> PriorityQueue.heap (queueAfter ops)
    /\ forall i j x y, (i < j)%nat ->
         items !! i = Some x -> items !! j = Some y -> HeapFacts.before x y.
Proof.
  intros Hlen. pose proof (queueAfter_Inv ops Hlen) as HInv.
  destruct (Drain_loop_spec _ (length (PriorityQueue.heap (queueAfter ops)))
              (queueAfter ops) [] HInv ltac:(lia))
    as (items & Hdrain & Hperm & Hsorted).
  exists items. unfold PriorityQueue.Drain, requestHeap.Len.
  rewrite Hdrain. split; [done |]. split; [done |].
  intros i j x y Hij Hx Hy.
  by apply (SortFacts.StronglySorted_lookup _ items i j x y Hsorted).
Qed.

Lemma Drain_witness :
  exists items,
    PriorityQueue.Drain (queueAfter lowThenHigh)
    = (heapItem.request <$> items,
       PriorityQueue.mk [] (PriorityQueue.seq (queueAfter lowThenHigh)))
    /\ HeapFacts.core <$> items
       ≡ₚ HeapFacts.core <$> PriorityQueue.heap (queueAfter lowThenHigh)
    /\ forall i j x y, (i < j)%nat ->
         items !! i = Some x -> items !! j = Some y -> HeapFacts.before x y.
Proof.
  apply (Drain_returns_all_in_order lowThenHigh). vm_compute. reflexivity.
Defined.

(** X2: after any such history, [Peek] returns the request that the next
    [Dequeue] returns, and nil exactly when the queue is empty. *)
Theorem Peek_is_next_Dequeue (ops : list QueueFacts.QueueOp) :
  Z.of_nat (length (QueueFacts.enqueued ops)) < 2 ^ 63 ->
  PriorityQueue.Peek (queueAfter ops)
  = fst (PriorityQueue.Dequeue (queueAfter ops))
  /\ (PriorityQueue.Peek (queueAfter ops) = None
      <-> PriorityQueue.Len (queueAfter ops) = 0%nat).
Proof.
  intros Hlen. pose proof (queueAfter_Inv ops Hlen) as (Hheap & _).
  unfold PriorityQueue.Peek, PriorityQueue.Dequeue, PriorityQueue.DequeueItem,
    PriorityQueue.Len, requestHeap.Len.
  destruct (PriorityQueue.heap (queueAfter ops)) as [| r h] eqn:Hq.
  - split; [done |]. done.
  - destruct (HeapFacts.Pop_spec (r :: h) r Hheap eq_refl)
      as (x & h' & Hpop & Hcore & _).
    cbn [length Nat.eqb]. rewrite Hpop. simpl.
    split; [| split; intros; discriminate].
    f_equal. symmetry. by apply request_of_core.
Qed.

Lemma Peek_witness :
  PriorityQueue.Peek (queueAfter lowThenHigh)
  = fst (PriorityQueue.Dequeue (queueAfter lowThenHigh))
  /\ (PriorityQueue.Peek (queueAfter lowThenHigh) = None
      <-> PriorityQueue.Len (queueAfter lowThenHigh) = 0%nat).
Proof.
  apply (Peek_is_next_Dequeue lowThenHigh). vm_compute. reflexivity.
Defined.

(** X3: after any such history, [Enqueue] makes the queue one longer; on
    an empty queue [Dequeue] returns nil and changes nothing; on a
    non-empty queue it returns a request and makes the queue one
    shorter. *)
Theorem Len_counts_the_requests (ops : list QueueFacts.QueueOp)
    (mem : gmap TaskPtr Task.t) (req : ScheduleRequest.t) :
  Z.of_nat (length (QueueFacts.enqueued ops)) < 2 ^ 63 ->
  PriorityQueue.Len (PriorityQueue.Enqueue mem (queueAfter ops) req)
  = S (PriorityQueue.Len (queueAfter ops))
  /\ (PriorityQueue.Len (queueAfter ops) = 0%nat ->
      PriorityQueue.Dequeue (queueAfter ops) = (None, queueAfter ops))
  /\ ((0 < PriorityQueue.Len (queueAfter ops))%nat ->
      exists r q',
        PriorityQueue.Dequeue (queueAfter ops) = (Some r, q')
        /\ S (PriorityQueue.Len q') = PriorityQueue.Len (queueAfter ops)).
Proof.
  intros Hlen. pose proof (queueAfter_Inv ops Hlen) as (Hheap & _).
  unfold PriorityQueue.Len, requestHeap.Len.
  split; [| split].
  - unfold PriorityQueue.Enqueue. cbn [PriorityQueue.heap].
    by destruct (HeapFacts.Push_spec (PriorityQueue.heap (queueAfter ops))
                   (heapItem.mk req
                      (taskPriorityToInt
                         (Task.Priority (deref mem (ScheduleRequest.Task req))))
                      (int64_add (PriorityQueue.seq (queueAfter ops)) 1) 0)
                   Hheap) as (_ & Hl & _).
  - intros Hnil. unfold PriorityQueue.Dequeue, PriorityQueue.DequeueItem,
      requestHeap.Len. by rewrite Hnil.
  - intros Hpos. unfold PriorityQueue.Dequeue, PriorityQueue.DequeueItem,
      requestHeap.Len.
    destruct (PriorityQueue.heap (queueAfter ops)) as [| r h] eqn:Hq;
      [simpl in Hpos; lia |].
    destruct (HeapFacts.Pop_spec (r :: h) r Hheap eq_refl)
      as (x & h' & Hpop & _ & _ & Hl & _).
    cbn [length Nat.eqb]. rewrite Hpop. simpl.
    exists (heapItem.request x), (PriorityQueue.mk h'
                                    (PriorityQueue.seq (queueAfter ops))).
    split; [done |]. simpl in *. lia.
Qed.

Lemma Len_witness :
  PriorityQueue.Len
    (PriorityQueue.Enqueue store2 (queueAfter lowThenHigh) (requestFor 0%nat))
  = S (PriorityQueue.Len (queueAfter lowThenHigh))
  /\ (PriorityQueue.Len (queueAfter lowThenHigh) = 0%nat ->
      PriorityQueue.Dequeue (queueAfter lowThenHigh)
      = (None, queueAfter lowThenHigh))
  /\ ((0 < PriorityQueue.Len (queueAfter lowThenHigh))%nat ->
      exists r q',
        PriorityQueue.Dequeue (queueAfter lowThenHigh) = (Some r, q')
        /\ S (PriorityQueue.Len q')
           = PriorityQueue.Len (queueAfter lowThenHigh)).
Proof.
  apply (Len_counts_the_requests lowThenHigh). vm_compute. reflexivity.
Defined.

(** X4: after any such history, [Remove] returns false and leaves the
    queue as it is when no queued request is for a task with the given ID;
    otherwise it returns true and takes out exactly one item, one whose
    task has that ID, keeping every other item and the insertion
    counter. *)
Theorem Remove_takes_one_match (ops : list QueueFacts.QueueOp)
    (mem : gmap TaskPtr Task.t) (taskID : string) :
  Z.of_nat (length (QueueFacts.enqueued ops)) < 2 ^ 63 ->
  ((forall x, x ∈ PriorityQueue.heap (queueAfter ops) ->
              itemTaskID mem x <> taskID) ->
   PriorityQueue.Remove mem (queueAfter ops) taskID = (false, queueAfter ops))
  /\ ((exists x, x ∈ PriorityQueue.heap (queueAfter ops)
                 /\ itemTaskID mem x = taskID) ->
      exists r q',
        PriorityQueue.Remove mem (queueAfter ops) taskID = (true, q')
        /\ r ∈ PriorityQueue.heap (queueAfter ops)
        /\ itemTaskID mem r = taskID
        /\ HeapFacts.core <$> PriorityQueue.heap (queueAfter ops)
           ≡ₚ HeapFacts.core r :: (HeapFacts.core <$> PriorityQueue.heap q')
        /\ PriorityQueue.seq q' = PriorityQueue.seq (queueAfter ops)).
Proof.
  intros Hlen. pose proof (queueAfter_Inv ops Hlen) as (Hheap & _).
  unfold PriorityQueue.Remove, itemTaskID. split.
  - intros Hnone.
    destruct (list_find _ (PriorityQueue.heap (queueAfter ops)))
      as [[i r] |] eqn:Hfind; [| done].
    apply list_find_Some in Hfind as (Hi & Hid & _).
    exfalso. apply (Hnone r); [by eapply list_elem_of_lookup_2 | done].
  - intros (x & Hx & Hid).
    destruct (list_find _ (PriorityQueue.heap (queueAfter ops)))
      as [[i r] |] eqn:Hfind.
    + apply list_find_Some in Hfind as (Hi & Hid' & _).
      destruct (HeapFacts.Remove_spec _ i r Hheap Hi)
        as (y & h' & Hrem & _ & _ & _ & Hperm).
      rewrite Hrem. eexists r, _. split; [reflexivity |].
      split; [by eapply list_elem_of_lookup_2 |]. by split.
    + apply list_find_None in Hfind. rewrite Forall_forall in Hfind.
      by destruct (Hfind x Hx).
Qed.

Lemma Remove_witness :
  ((forall x, x ∈ PriorityQueue.heap (queueAfter lowThenHigh) ->
              itemTaskID store2 x <> "high"%string) ->
   PriorityQueue.Remove store2 (queueAfter lowThenHigh) "high"
   = (false, queueAfter lowThenHigh))
  /\ ((exists x, x ∈ PriorityQueue.heap (queueAfter lowThenHigh)
                 /\ itemTaskID store2 x = "high"%string) ->
      exists r q',
        PriorityQueue.Remove store2 (queueAfter lowThenHigh) "high" = (true, q')
        /\ r ∈ PriorityQueue.heap (queueAfter lowThenHigh)
        /\ itemTaskID store2 r = "high"%string
        /\ HeapFacts.core <$> PriorityQueue.heap (queueAfter lowThenHigh)
           ≡ₚ HeapFacts.core r :: (HeapFacts.core <$> PriorityQueue.heap q')
        /\ PriorityQueue.seq q' = PriorityQueue.seq (queueAfter lowThenHigh)).
Proof.
  apply (Remove_takes_one_match lowThenHigh). vm_compute. reflexivity.
Defined.

(** ** More of the selectors *)

Module SelectorMore.
Import CheckSpec SelectFacts.

(** [target] is the first candidate with the given node ID. *)
Definition firstWithID (candidates : list GolemProfile.t) (id : string)
    (i : nat) (target : GolemProfile.t) : Prop :=
  candidates !! i = Some target
  /\ NodeInfo.ID (GolemProfile.NodeInfo target) = id
  /\ forall j c, candidates !! j = Some c -> (j < i)%nat ->
                 NodeInfo.ID (GolemProfile.NodeInfo c) <> id.

(** A candidate passes every filter. *)
Definition passes (filters : list NodeFilter) (p : GolemProfile.t) : Prop :=
  Forall (fun f : NodeFilter => f p = true) filters.

Lemma forallb_passes filters p :
  forallb (fun f : NodeFilter => f p) filters = true <-> passes filters p.
Proof.
  unfold passes. rewrite forallb_forall, Forall_forall.
  split; intros H f Hf; apply H; by apply list_elem_of_In.
Qed.

Lemma elem_of_filtered fs candidates p :
  p ∈ FilterSelector.filtered fs candidates
  <-> passes (FilterSelector.filters fs) p /\ p ∈ candidates.
Proof.
  unfold FilterSelector.filtered. rewrite list_elem_of_filter.
  by rewrite forallb_passes.
Qed.

(** A node that passes the hard constraints is online and has every
    required feature. *)
Lemma check_None_online req p :
  constraintChecker.check req p = None ->
  OnlineFilter p = true
  /\ FeatureFilter (ScheduleRequest.RequiredFeatures req) p = true.
Proof.
  unfold constraintChecker.check, OnlineFilter, FeatureFilter.
  destruct (String.eqb _ "online"); simpl; [| discriminate].
  destruct (constraintChecker.firstMissing
              (ScheduleRequest.RequiredCapabilities req) _); [discriminate |].
  destruct (constraintChecker.firstMissing
              (ScheduleRequest.RequiredSkills req) _); [discriminate |].
  destruct (constraintChecker.firstMissing
              (ScheduleRequest.RequiredFeatures req) _) eqn:Hf; [discriminate |].
  intros _. split; [done |].
  apply forallb_forall. intros r Hr. apply list_elem_of_In in Hr.
  apply bool_decide_eq_true_2. revert r Hr. by apply firstMissing_None.
Qed.

Section AI.
Variable math_Exp : float -> float.
Variables (s : AISelector.t) (req : ScheduleRequest.t).

(** Dropping candidates that fail the hard constraints leaves the eligible
    scores as they are. *)
Lemma eligibleScores_filter (keep : GolemProfile.t -> Prop)
    `{!forall p, Decision (keep p)} candidates :
  (forall p, p ∈ candidates -> constraintChecker.check req p = None -> keep p) ->
  eligibleScores math_Exp s req (filter keep candidates)
  = eligibleScores math_Exp s req candidates.
Proof.
  unfold eligibleScores.
  induction candidates as [| c candidates IH]; intros Hkeep; [done |].
  assert (forall p, p ∈ candidates -> constraintChecker.check req p = None ->
                    keep p) as Hkeep'.
  { intros p Hp. apply Hkeep. by right. }
  rewrite filter_cons. case_decide as Hc.
  - rewrite !fmap_cons, !filter_cons. rewrite IH by done. done.
  - rewrite fmap_cons, filter_cons, decide_False; [by apply IH |].
    rewrite scoreCandidate_Eligible. intros Hcheck. apply Hc, Hkeep; [left | done].
Qed.

Lemma eligibleScores_nil_candidates candidates :
  eligibleScores math_Exp s req candidates <> [] -> candidates <> [].
Proof. by intros H ->. Qed.

(** With numeric scores and an eligible candidate, [Select] returns the
    head of the sorted eligible scores, which no eligible score
    outscores. *)
Lemma Select_head_best now candidates :
  Forall numeric (eligibleScores math_Exp s req candidates) ->
  eligibleScores math_Exp s req candidates <> [] ->
  exists m decision,
    AISelector.Select math_Exp s now req candidates = Ok decision
    /\ ScheduleDecision.SelectedNodeID decision = NodeScore.NodeID m
    /\ m ∈ eligibleScores math_Exp s req candidates
    /\ Forall (fun x => AISelector.byTotalScoreDesc x m = false)
              (eligibleScores math_Exp s req candidates).
Proof.
  intros Hok Hne. rewrite Select_unfold.
  set (eligible := eligibleScores math_Exp s req candidates) in *.
  replace (length candidates =? 0)%nat with false.
  2:{ symmetry. apply Nat.eqb_neq.
      pose proof (eligibleScores_nil_candidates candidates Hne).
      destruct candidates; [done | simpl; lia]. }
  replace (length eligible =? 0)%nat with false.
  2:{ symmetry. apply Nat.eqb_neq. destruct eligible; [done | simpl; lia]. }
  destruct (SortFacts.Slice_head_least_on AISelector.byTotalScoreDesc
              numeric
              (fun x _ => byTotalScoreDesc_irrefl x)
              (fun x y z _ _ _ => byTotalScoreDesc_trans x y z)
              byTotalScoreDesc_negtrans eligible Hok Hne)
    as (m & Hhead & Hin & Hbest).
  destruct (sort.Slice AISelector.byTotalScoreDesc eligible)
    as [| best rest]; [done |].
  injection Hhead as ->. by eexists m, _.
Qed.

End AI.

Lemma Select_loop_failed pre sel e lastErr now req candidates :
  Forall (fun sel : NodeSelector =>
            exists e, sel now req candidates = Failed e) pre ->
  sel now req candidates = Failed e ->
  CompositeSelector.Select_loop (pre ++ [sel]) lastErr now req candidates
  = inr (Some e).
Proof.
  intros Hall Hsel. revert lastErr.
  induction Hall as [| f pre [e' He] _ IH]; intros lastErr; simpl.
  - by rewrite Hsel.
  - by rewrite He, IH.
Qed.

Lemma Select_loop_first pre sel post d lastErr now req candidates :
  Forall (fun sel : NodeSelector =>
            exists e, sel now req candidates = Failed e) pre ->
  sel now req candidates = Chosen d ->
  CompositeSelector.Select_loop (pre ++ sel :: post) lastErr now req candidates
  = inl d.
Proof.
  intros Hall Hsel. revert lastErr.
  induction Hall as [| f pre [e He] _ IH]; intros lastErr; simpl.
  - by rewrite Hsel.
  - by rewrite He, IH.
Qed.

End SelectorMore.
Import SelectorMore CheckSpec SelectFacts.

(** X5: [DirectSelector.Select] returns a decision exactly when the target
    ID is not empty and the first candidate carrying that ID passes the
    hard constraints; the decision names the target and counts one
    eligible node among all candidates. When no candidate carries the ID
    the error says so with the number of candidates, and when the first
    one that does is rejected the error carries its rejection reason,
    whatever later candidates with the same ID would pass. *)
Theorem DirectSelector_takes_first_match (now : Time)
    (req : ScheduleRequest.t) (candidates : list GolemProfile.t) :
  (forall d,
     DirectSelector.Select now req candidates = Ok d
     <-> ScheduleRequest.TargetNodeID req <> ""%string
         /\ (exists i target,
               firstWithID candidates (ScheduleRequest.TargetNodeID req)
                           i target
               /\ constraintChecker.check req target = None)
         /\ d = ScheduleDecision.mk
                  "" DirectMode (ScheduleRequest.TargetNodeID req)
                  (ReasonDirect (ScheduleRequest.TargetNodeID req))
                  [] (length candidates) 1 now 0)
  /\ (ScheduleRequest.TargetNodeID req <> ""%string ->
      (forall c, c ∈ candidates ->
                 NodeInfo.ID (GolemProfile.NodeInfo c)
                 <> ScheduleRequest.TargetNodeID req) ->
      DirectSelector.Select now req candidates
      = Err (ErrTargetNotFound (ScheduleRequest.TargetNodeID req)
                               (length candidates)))
  /\ (forall i target reason,
        ScheduleRequest.TargetNodeID req <> ""%string ->
        firstWithID candidates (ScheduleRequest.TargetNodeID req) i target ->
        constraintChecker.check req target = Some reason ->
        DirectSelector.Select now req candidates
        = Err (ErrTargetRejected (ScheduleRequest.TargetNodeID req) reason)).
Proof.
  unfold DirectSelector.Select, firstWithID.
  destruct (String.eqb_spec (ScheduleRequest.TargetNodeID req) "") as [He | Hne].
  { split; [| split]; [| done | done].
    intros d. split; [discriminate | tauto]. }
  destruct (list_find _ candidates) as [[i target] |] eqn:Hfind.
  - apply list_find_Some in Hfind as (Hi & Hid & Hfirst).
    assert (forall j t,
              candidates !! j = Some t
              /\ NodeInfo.ID (GolemProfile.NodeInfo t)
                 = ScheduleRequest.TargetNodeID req
              /\ (forall k c, candidates !! k = Some c -> (k < j)%nat ->
                    NodeInfo.ID (GolemProfile.NodeInfo c)
                    <> ScheduleRequest.TargetNodeID req) ->
              j = i /\ t = target) as Huniq.
    { intros j t (Hj & Hjid & Hjfirst).
      assert (j = i) as ->.
      { destruct (Nat.lt_trichotomy j i) as [Hlt | [Heq | Hgt]]; [| done |].
        - by destruct (Hfirst j t Hj Hlt).
        - by destruct (Hjfirst i target Hi Hgt). }
      split; [done |]. congruence. }
    split; [| split].
    + intros d. split.
      * destruct (constraintChecker.check req target) eqn:Hc; [discriminate |].
        intros [= <-]. split; [done |]. split; [| by rewrite Hid].
        exists i, target. done.
      * intros (_ & (j & t & Hjt & Hc) & ->).
        destruct (Huniq j t Hjt) as [-> ->]. by rewrite Hc, Hid.
    + intros _ Hnone. exfalso.
      apply (Hnone target); [by eapply list_elem_of_lookup_2 | done].
    + intros j t reason _ Hjt Hc. destruct (Huniq j t Hjt) as [-> ->].
      by rewrite Hc.
  - apply list_find_None in Hfind. rewrite Forall_forall in Hfind.
    split; [| split].
    + intros d. split; [discriminate |].
      intros (_ & (j & t & (Hj & Hjid & _) & _) & _). exfalso.
      apply (Hfind t); [by eapply list_elem_of_lookup_2 | done].
    + done.
    + intros j t reason _ (Hj & Hjid & _) _. exfalso.
      apply (Hfind t); [by eapply list_elem_of_lookup_2 | done].
Qed.

(** X6: an [AISelector] behind a [FilterSelector] with [OnlineFilter] and
    [FeatureFilter] of the request's required features selects as the
    bare [AISelector] does: both fail, or both choose the same node with
    the same reason and eligible count. *)
Theorem implied_filters_keep_the_choice (math_Exp : float -> float)
    (s : AISelector.t) (now : Time) (req : ScheduleRequest.t)
    (candidates : list GolemProfile.t) :
  match AISelector.Select math_Exp s now req candidates,
        FilterSelector.Select
          (FilterSelector.NewFilterSelector (aiSel math_Exp s)
             [OnlineFilter;
              FeatureFilter (ScheduleRequest.RequiredFeatures req)])
          now req candidates with
  | Ok d, Chosen d' =>
      ScheduleDecision.SelectedNodeID d' = ScheduleDecision.SelectedNodeID d
      /\ ScheduleDecision.Reason d' = ScheduleDecision.Reason d
      /\ ScheduleDecision.EligibleCount d' = ScheduleDecision.EligibleCount d
  | Err _, Failed _ => True
  | _, _ => False
  end.
Proof.
  unfold FilterSelector.Select, FilterSelector.NewFilterSelector, aiSel,
    FilterSelector.filtered. cbn [FilterSelector.inner FilterSelector.filters].
  set (keep := fun profile : GolemProfile.t =>
                 forallb (fun f : GolemProfile.t -> bool => f profile)
                   [OnlineFilter;
                    FeatureFilter (ScheduleRequest.RequiredFeatures req)]
                 = true).
  assert (eligibleScores math_Exp s req (filter keep candidates)
          = eligibleScores math_Exp s req candidates) as Hsame.
  { apply eligibleScores_filter. intros p _ Hc. unfold keep. simpl.
    destruct (check_None_online req p Hc) as [-> ->]. done. }
  rewrite !Select_unfold, Hsame.
  destruct (eligibleScores math_Exp s req candidates) as [| x eligible']
    eqn:He.
  - destruct (length candidates =? 0)%nat,
      (length (filter keep candidates) =? 0)%nat; simpl; done.
  - assert (candidates <> []) as Hc.
    { apply (eligibleScores_nil_candidates math_Exp s req). by rewrite He. }
    assert (filter keep candidates <> []) as Hf.
    { apply (eligibleScores_nil_candidates math_Exp s req).
      by rewrite Hsame. }
    replace (length candidates =? 0)%nat with false
      by (destruct candidates; done).
    replace (length (filter keep candidates) =? 0)%nat with false
      by (destruct (filter keep candidates); done).
    cbn [length Nat.eqb].
    destruct (sort.Slice AISelector.byTotalScoreDesc (x :: eligible'));
      simpl; done.
Qed.

(** X7: an [AISelector] behind a [FilterSelector], when the scores of the
    candidates that pass the hard constraints are numbers: if some
    candidate passes every filter and the hard constraints, the selection
    succeeds with such a candidate, one that no other such candidate
    outscores; if no candidate passes every filter, the [AISelector]
    reports that it received no candidates. *)
Theorem FilterSelector_choice_passes_filters (math_Exp : float -> float)
    (s : AISelector.t) (filters : list NodeFilter) (now : Time)
    (req : ScheduleRequest.t) (candidates : list GolemProfile.t) :
  (forall p, p ∈ candidates -> constraintChecker.check req p = None ->
             is_nan (totalScore math_Exp s req p) = false) ->
  ((exists p, p ∈ candidates /\ passes filters p
              /\ constraintChecker.check req p = None) ->
   exists d p,
     FilterSelector.Select
       (FilterSelector.NewFilterSelector (aiSel math_Exp s) filters)
       now req candidates = Chosen d
     /\ ScheduleDecision.SelectedNodeID d
        = NodeInfo.ID (GolemProfile.NodeInfo p)
     /\ p ∈ candidates /\ passes filters p
     /\ constraintChecker.check req p = None
     /\ forall q, q ∈ candidates -> passes filters q ->
          constraintChecker.check req q = None ->
          (totalScore math_Exp s req p <? totalScore math_Exp s req q)%float
          = false)
  /\ ((forall p, p ∈ candidates -> ~ passes filters p) ->
      FilterSelector.Select
        (FilterSelector.NewFilterSelector (aiSel math_Exp s) filters)
        now req candidates = Failed (SelectorErr ErrAINoCandidates)).
Proof.
  intros Hnum.
  set (fs := FilterSelector.NewFilterSelector (aiSel math_Exp s) filters).
  unfold FilterSelector.Select. cbn [FilterSelector.inner fs
    FilterSelector.NewFilterSelector]. unfold aiSel.
  split.
  - intros (p0 & Hp0 & Hpass0 & Hc0).
    set (kept := FilterSelector.filtered fs candidates).
    assert (forall x, x ∈ eligibleScores math_Exp s req kept <->
              exists p, p ∈ candidates /\ passes filters p
                        /\ constraintChecker.check req p = None
                        /\ x = AISelector.scoreCandidate math_Exp s req p)
      as Helig.
    { intros x. rewrite elem_of_eligibleScores. split.
      - intros (i & p & [Hi Hc] & ->). exists p.
        apply list_elem_of_lookup_2 in Hi.
        apply elem_of_filtered in Hi as [Hpass Hin]. done.
      - intros (p & Hin & Hpass & Hc & ->).
        assert (p ∈ kept) as Hk by (by apply elem_of_filtered).
        apply list_elem_of_lookup_1 in Hk as [i Hi]. by exists i, p. }
    destruct (Select_head_best math_Exp s req now kept)
      as (m & d & Hsel & Hid & Hm & Hbest).
    { apply Forall_forall. intros x Hx.
      apply Helig in Hx as (p & Hin & _ & Hc & ->).
      unfold numeric. rewrite scoreCandidate_TotalScore. by apply Hnum. }
    { intros Hnil.
      assert (AISelector.scoreCandidate math_Exp s req p0
              ∈ eligibleScores math_Exp s req kept) as Hin.
      { apply Helig. by exists p0. }
      rewrite Hnil in Hin. by apply elem_of_nil in Hin. }
    apply Helig in Hm as (p & Hin & Hpass & Hc & ->).
    exists d, p. fold kept. rewrite Hsel. split; [done |].
    split; [by rewrite Hid, scoreCandidate_NodeID |].
    split; [done |]. split; [done |]. split; [done |].
    intros q Hq Hqpass Hqc. rewrite Forall_forall in Hbest.
    specialize (Hbest (AISelector.scoreCandidate math_Exp s req q)).
    unfold AISelector.byTotalScoreDesc in Hbest.
    rewrite !scoreCandidate_TotalScore in Hbest. apply Hbest.
    apply Helig. by exists q.
  - intros Hnone.
    assert (FilterSelector.filtered fs candidates = []) as ->.
    { destruct (FilterSelector.filtered fs candidates) as [| p l] eqn:E;
        [done |]. exfalso.
      assert (p ∈ FilterSelector.filtered fs candidates) as Hp
        by (rewrite E; left).
      apply elem_of_filtered in Hp as [Hpass Hin]. by apply (Hnone p). }
    done.
Qed.

(** Two idle nodes, the second with a health score below one half. *)
Definition weakNode (id : string) : GolemProfile.t :=
  GolemProfile.mk
    (NodeInfo.mk id [] (SystemInfo.mk 4 8192 20480) "online")
    (NodeLoadInfo.mk 10 20 0 0) [] [] ∅ 0.25 0.

Lemma FilterSelector_choice_witness :
  (exists d p,
     FilterSelector.Select
       (FilterSelector.NewFilterSelector
          (aiSel (fun x => x) AISelector.NewDefaultAISelector)
          [OnlineFilter; HealthyFilter 0.5])
       0 aiRequest [weakNode "g1"; idleNode "g2"] = Chosen d
     /\ ScheduleDecision.SelectedNodeID d
        = NodeInfo.ID (GolemProfile.NodeInfo p)
     /\ p ∈ [weakNode "g1"; idleNode "g2"]
     /\ passes [OnlineFilter; HealthyFilter 0.5] p
     /\ constraintChecker.check aiRequest p = None
     /\ forall q, q ∈ [weakNode "g1"; idleNode "g2"] ->
          passes [OnlineFilter; HealthyFilter 0.5] q ->
          constraintChecker.check aiRequest q = None ->
          (totalScore (fun x => x) AISelector.NewDefaultAISelector aiRequest p
           <? totalScore (fun x => x) AISelector.NewDefaultAISelector
                         aiRequest q)%float
          = false).
Proof.
  apply (FilterSelector_choice_passes_filters
           (fun x => x) AISelector.NewDefaultAISelector
           [OnlineFilter; HealthyFilter 0.5] 0 aiRequest
           [weakNode "g1"; idleNode "g2"]).
  - intros p Hp _.
    apply elem_of_cons in Hp as [-> | Hp]; [vm_compute; reflexivity |].
    apply list_elem_of_singleton in Hp as ->. vm_compute. reflexivity.
  - exists (idleNode "g2"). split; [right; left |].
    split; [| reflexivity].
    repeat constructor.
Defined.

(** X8: [CompositeSelector.Select] returns the decision of the first
    selector that succeeds; when every selector fails, the error counts
    the selectors and wraps the error of the last one; with no selector at
    all it wraps a nil error. *)
Theorem CompositeSelector_first_success (now : Time)
    (req : ScheduleRequest.t) (candidates : list GolemProfile.t) :
  (forall pre sel post d,
     Forall (fun f : NodeSelector =>
               exists e, f now req candidates = Failed e) pre ->
     sel now req candidates = Chosen d ->
     CompositeSelector.Select
       (CompositeSelector.NewCompositeSelector (pre ++ sel :: post))
       now req candidates = Chosen d)
  /\ (forall pre sel e,
        Forall (fun f : NodeSelector =>
                  exists e, f now req candidates = Failed e) pre ->
        sel now req candidates = Failed e ->
        CompositeSelector.Select
          (CompositeSelector.NewCompositeSelector (pre ++ [sel]))
          now req candidates
        = Failed (ErrAllSelectorsFailed (S (length pre)) (Some e)))
  /\ CompositeSelector.Select (CompositeSelector.NewCompositeSelector [])
                              now req candidates
     = Failed (ErrAllSelectorsFailed 0 None).
Proof.
  unfold CompositeSelector.Select, CompositeSelector.NewCompositeSelector.
  cbn [CompositeSelector.selectors]. split; [| split; [| done]].
  - intros pre sel post d Hpre Hsel.
    by rewrite (Select_loop_first pre sel post d None).
  - intros pre sel e Hpre Hsel.
    rewrite (Select_loop_failed pre sel e None) by done.
    rewrite length_app. simpl.
    by replace (length pre + 1)%nat with (S (length pre)) by lia.
Qed.

(** ** More of the monitor and of the statistics *)

Module MonitorMore.
Import MonitorFacts.

Lemma elem_of_ActiveTasks m id :
  id ∈ taskMonitor.ActiveTasks m <-> is_Some (taskMonitor.watched m !! id).
Proof.
  unfold taskMonitor.ActiveTasks. rewrite list_elem_of_fmap. split.
  - intros ([k wt] & -> & Hin). apply elem_of_map_to_list in Hin. by exists wt.
  - intros [wt Hwt]. exists (id, wt). split; [done |].
    by apply elem_of_map_to_list.
Qed.

(** The call [checkTasks] makes for a task ID comes from the entry
    watched under that ID. *)
Lemma call_of_watched now m id wt call :
  taskMonitor.watched m !! id = Some wt ->
  call ∈ snd (recordingHandler.checkTasks now m) ->
  (call = CallOnTaskTimeout id -> timedOut now wt)
  /\ (call = CallOnTaskStalled id -> ~ timedOut now wt /\ stalled m now wt).
Proof.
  intros Hwt. rewrite checkTasks_recording. simpl. intros Hcall.
  apply list_elem_of_fmap in Hcall as (c & -> & Hc).
  apply elem_of_snapshot in Hc as (wt' & Hwt' & Ht & Hs & Hor).
  unfold callOf, timedOut, stalled.
  destruct (check.timeout c) eqn:Et.
  - split; [| discriminate]. intros [= Hid]. rewrite Hid, Hwt in Hwt'.
    injection Hwt' as <-. symmetry in Ht. by apply Z.ltb_lt in Ht.
  - split; [discriminate |]. intros [= Hid]. rewrite Hid, Hwt in Hwt'.
    injection Hwt' as <-. simpl in Hor. rewrite Hor in Hs.
    symmetry in Ht, Hs. apply Z.ltb_lt in Hs. apply Z.ltb_ge in Ht.
    split; [lia | done].
Qed.

Lemma timeout_call now m id wt :
  taskMonitor.watched m !! id = Some wt ->
  timedOut now wt ->
  CallOnTaskTimeout id ∈ snd (recordingHandler.checkTasks now m).
Proof.
  intros Hwt Hto. rewrite checkTasks_recording. simpl.
  apply list_elem_of_fmap.
  exists (check.mk id true
            (MonitorConfig.StallThreshold (taskMonitor.config m)
               <? Time_Sub now (watchedTask.lastHeartbeat wt))).
  split; [done |]. apply elem_of_snapshot. exists wt. simpl.
  split; [done |]. split; [| done].
  symmetry. by apply Z.ltb_lt.
Qed.

End MonitorMore.

Module StatsMore.

(** The sum of the samples stays between the bounds of its terms, as long
    as no partial sum leaves the int64 range. *)
Lemma total_between (lo hi : Z) (samples : list Duration) :
  forall (acc k : Z),
    Forall (fun x => lo <= x <= hi) samples ->
    0 <= k ->
    k * lo <= acc <= k * hi ->
    (forall j, 0 <= j <= k + Z.of_nat (length samples) ->
               minInt64 <= j * lo /\ j * hi <= maxInt64) ->
    (k + Z.of_nat (length samples)) * lo
    <= foldl int64_add acc samples
    <= (k + Z.of_nat (length samples)) * hi.
Proof.
  induction samples as [| x samples IH]; intros acc k Hall Hk Hacc Hrange.
  - cbn [foldl length]. change (Z.of_nat 0) with 0.
    rewrite Z.add_0_r. exact Hacc.
  - apply Forall_cons in Hall as [Hx Hall]. cbn [foldl length] in *.
    rewrite Nat2Z.inj_succ in *.
    assert (int64_add acc x = acc + x) as ->.
    { unfold int64_add. apply wrap64_small.
      destruct (Hrange (k + 1)) as [H1 H2]; [lia |].
      rewrite Z.mul_add_distr_r, Z.mul_1_l in H1, H2. lia. }
    replace (k + Z.succ (Z.of_nat (length samples)))
      with ((k + 1) + Z.of_nat (length samples)) by lia.
    apply IH; [done | lia | rewrite !Z.mul_add_distr_r, !Z.mul_1_l; lia |].
    intros j Hj. apply Hrange. lia.
Qed.

Lemma quot_between (n lo hi total : Z) :
  0 < n -> n * lo <= total <= n * hi -> lo <= Z.quot total n <= hi.
Proof.
  intros Hn Htotal.
  pose proof (Z.quot_rem' total n) as Hqr.
  destruct (Z.le_gt_cases 0 total) as [Hpos | Hneg].
  - pose proof (Z.rem_bound_pos total n Hpos Hn). nia.
  - pose proof (Z.rem_nonpos total n ltac:(lia) ltac:(lia)).
    pose proof (Z.rem_bound_abs total n ltac:(lia)). nia.
Qed.

End StatsMore.
Import MonitorFacts MonitorMore StatsMore.

(** X9: [RecordHeartbeat] for an ID that is not watched changes nothing.
    For a watched ID it resets the stall timer only: at a tick no later
    than [StallThreshold] after the heartbeat the task is not reported
    stalled, while it is reported timed out exactly when its timeout,
    counted from [startedAt], has passed; the other entries stay as they
    are. *)
Theorem RecordHeartbeat_defers_stall_only (now : Time) (m : taskMonitor.t)
    (id : string) :
  (taskMonitor.watched m !! id = None ->
   taskMonitor.RecordHeartbeat now m id = m)
  /\ (forall id', id' <> id ->
        taskMonitor.watched (taskMonitor.RecordHeartbeat now m id) !! id'
        = taskMonitor.watched m !! id')
  /\ (forall wt tick,
        taskMonitor.watched m !! id = Some wt ->
        Time_Sub tick now
        <= MonitorConfig.StallThreshold (taskMonitor.config m) ->
        let calls :=
          snd (recordingHandler.checkTasks
                 tick (taskMonitor.RecordHeartbeat now m id)) in
        (CallOnTaskStalled id ∉ calls)
        /\ (CallOnTaskTimeout id ∈ calls <-> timedOut tick wt)).
Proof.
  split; [| split].
  - intros Hnone. unfold taskMonitor.RecordHeartbeat. destruct m as [c w].
    simpl in *. f_equal. apply map_eq. intros k.
    rewrite lookup_alter. case_decide as Hk; [| done]. subst k.
    by rewrite Hnone.
  - intros id' Hne. unfold taskMonitor.RecordHeartbeat. simpl.
    by rewrite lookup_alter_ne.
  - intros wt tick Hwt Hfresh calls.
    set (m1 := taskMonitor.RecordHeartbeat now m id) in *.
    assert (taskMonitor.watched m1 !! id
            = Some (watchedTask.set_lastHeartbeat now wt)) as Hwt1.
    { unfold m1, taskMonitor.RecordHeartbeat. simpl.
      by rewrite lookup_alter_eq, Hwt. }
    split.
    + intros Hcall.
      destruct (call_of_watched tick m1 id _ _ Hwt1 Hcall) as [_ Hst].
      destruct (Hst eq_refl) as [_ Hstalled].
      unfold stalled in Hstalled. simpl in Hstalled. lia.
    + split.
      * intros Hcall.
        destruct (call_of_watched tick m1 id _ _ Hwt1 Hcall) as [Hto _].
        exact (Hto eq_refl).
      * intros Hto. by apply (timeout_call tick m1 id _ Hwt1).
Qed.

(** X10: [ActiveTasks] lists every watched ID once. A new monitor watches
    nothing; [Watch] adds the ID of its task, [Unwatch] takes the given ID
    out, and [RecordHeartbeat] leaves the IDs as they are. *)
Theorem ActiveTasks_is_the_watched_set (m : taskMonitor.t) :
  NoDup (taskMonitor.ActiveTasks m)
  /\ (forall config, taskMonitor.ActiveTasks (taskMonitor.NewMonitor config)
                     = [])
  /\ (forall mem now p id,
        id ∈ taskMonitor.ActiveTasks (taskMonitor.Watch mem now m (Some p))
        <-> id = Task.ID (deref mem (Some p))
            \/ id ∈ taskMonitor.ActiveTasks m)
  /\ (forall taskID id,
        id ∈ taskMonitor.ActiveTasks (taskMonitor.Unwatch m taskID)
        <-> id <> taskID /\ id ∈ taskMonitor.ActiveTasks m)
  /\ (forall now taskID id,
        id ∈ taskMonitor.ActiveTasks (taskMonitor.RecordHeartbeat now m taskID)
        <-> id ∈ taskMonitor.ActiveTasks m).
Proof.
  split; [apply NoDup_fst_map_to_list |].
  split.
  { intros config. unfold taskMonitor.ActiveTasks. simpl.
    by rewrite map_to_list_empty. }
  split; [| split].
  - intros mem now p id. rewrite !elem_of_ActiveTasks.
    unfold taskMonitor.Watch. cbn [taskMonitor.watched].
    rewrite lookup_insert_is_Some.
    destruct (decide (Task.ID (deref mem (Some p)) = id)) as [-> | Hne];
      naive_solver.
  - intros taskID id. rewrite !elem_of_ActiveTasks.
    unfold taskMonitor.Unwatch. cbn [taskMonitor.watched].
    rewrite lookup_delete_is_Some. naive_solver.
  - intros now taskID id. rewrite !elem_of_ActiveTasks.
    unfold taskMonitor.RecordHeartbeat. cbn [taskMonitor.watched].
    rewrite lookup_alter. case_decide as Hk; [| done]. subst.
    by rewrite fmap_is_Some.
Qed.

(** X11: [averageDuration] of no samples is 0; of samples that all lie
    between [lo] and [hi] it lies between [lo] and [hi] too, provided the
    sum of that many bounds fits an int64. *)
Theorem averageDuration_between (samples : list Duration) (lo hi : Z) :
  Forall (fun x => lo <= x <= hi) samples ->
  minInt64 <= Z.of_nat (length samples) * lo ->
  Z.of_nat (length samples) * hi <= maxInt64 ->
  averageDuration [] = 0
  /\ (samples <> [] -> lo <= averageDuration samples <= hi).
Proof.
  intros Hall Hlo Hhi. split; [done |]. intros Hne.
  unfold averageDuration.
  destruct samples as [| x samples]; [done |].
  set (l := x :: samples) in *.
  assert (0 < Z.of_nat (length l)) as Hn by (unfold l; simpl; lia).
  replace (length l =? 0)%nat with false
    by (symmetry; apply Nat.eqb_neq; lia).
  apply quot_between; [done |].
  assert (lo <= hi) as Hle.
  { apply Forall_cons in Hall as [Hx _]. lia. }
  pose proof (total_between lo hi l 0 0 Hall ltac:(lia) ltac:(lia)) as Hsum.
  rewrite !Z.add_0_l in Hsum. apply Hsum.
  intros j Hj. unfold minInt64, maxInt64 in *. nia.
Qed.

Lemma averageDuration_witness :
  averageDuration [] = 0
  /\ ([2 * second; 5 * second] <> [] ->
      2 * second <= averageDuration [2 * second; 5 * second] <= 5 * second).
Proof.
  apply (averageDuration_between [2 * second; 5 * second]
           (2 * second) (5 * second)).
  - repeat constructor; vm_compute; discriminate.
  - vm_compute. discriminate.
  - vm_compute. discriminate.
Defined.

(** ** More of the scheduler facade *)

Module FacadeMore.
Import defaultScheduler SchedulerFacts RunFacts.

(** What a call does before anything else that is specific to it:
    [Schedule] of a task counts the submission, [Cancel] counts the
    cancellation. *)
Definition counted (c : SchedulerCall) (s : t) : t :=
  match c with
  | DoSchedule _ req =>
      match ScheduleRequest.Task req with
      | Some _ => set_stats (StatsCollector.RecordSubmission (stats s)) s
      | None => s
      end
  | DoCancel _ taskID =>
      set_stats (StatsCollector.RecordCancellation (stats s) taskID) s
  | _ => s
  end.

(** A relation between the states before and after, kept by every write
    the calls are made of, is kept by every call. *)
Section Footprint.
Variable math_Exp : float -> float.
Variable R : t -> t -> Prop.
Hypothesis R_refl : forall s, R s s.
Hypothesis R_trans : forall s1 s2 s3, R s1 s2 -> R s2 s3 -> R s1 s3.
Hypothesis R_mem : forall s m, R s (set_mem m s).
Hypothesis R_tasks :
  forall s id rec, R s (set_tasks (<[id := rec]> (tasks s)) s).
Hypothesis R_monitor : forall s m, R s (set_monitor m s).
Hypothesis R_queue : forall s q, R s (set_queue q s).
Hypothesis R_emit : forall s e, R s (emitEvent e s).
Hypothesis R_Assignment :
  forall s now taskID nodeID latency,
    R s (set_stats (StatsCollector.RecordAssignment now (stats s) taskID
                      nodeID latency) s).
Hypothesis R_Completion :
  forall s now taskID nodeID,
    R s (set_stats (StatsCollector.RecordCompletion now (stats s) taskID
                      nodeID) s).
Hypothesis R_Failure :
  forall s taskID nodeID,
    R s (set_stats (StatsCollector.RecordFailure (stats s) taskID nodeID) s).
Hypothesis R_Timeout :
  forall s taskID,
    R s (set_stats (StatsCollector.RecordTimeout (stats s) taskID) s).

Ltac writes :=
  repeat first
    [ apply R_refl
    | eapply R_trans; [| apply R_emit]
    | eapply R_trans; [| apply R_queue]
    | eapply R_trans; [| apply R_monitor]
    | eapply R_trans; [| apply R_mem]
    | eapply R_trans; [| apply R_tasks]
    | eapply R_trans; [| apply R_Assignment]
    | eapply R_trans; [| apply R_Completion]
    | eapply R_trans; [| apply R_Failure]
    | eapply R_trans; [| apply R_Timeout] ].

Lemma setStatus_writes taskID status s : R s (setStatus taskID status s).
Proof. unfold setStatus. destruct (tasks s !! taskID); writes. Qed.

Lemma tryDispatch_writes env s req :
  R s (snd (tryDispatch math_Exp env s req)).
Proof.
  unfold tryDispatch.
  destruct (Env.ListProfiles env) as [candidates | err]; [| apply R_refl].
  destruct (length candidates =? 0)%nat; [apply R_refl |].
  destruct (if String.eqb (ScheduleRequest.Mode req) DirectMode then _ else _)
    as [decision | err]; [| apply R_refl].
  cbv zeta. destruct (Env.Dispatch env _ _); cbn [snd]; writes.
Qed.

Lemma OnTaskTimeout_writes now taskID s : R s (OnTaskTimeout now taskID s).
Proof.
  unfold OnTaskTimeout. cbv zeta.
  eapply R_trans; [| apply R_emit].
  eapply R_trans; [| apply setStatus_writes]. writes.
Qed.

Lemma OnTaskStalled_writes now taskID s : R s (OnTaskStalled now taskID s).
Proof.
  unfold OnTaskStalled. destruct (tasks s !! taskID) as [rec |]; [| writes].
  destruct (if taskRecord.retries rec <? _ then _ else _); cbv zeta; writes.
Qed.

Lemma monitorTick_writes now s : R s (monitorTick now s).
Proof.
  unfold monitorTick, taskMonitor.checkTasks.
  generalize (taskMonitor.snapshot now (monitor s)). intros checks.
  revert s. induction checks as [| c checks IH]; intros s; [apply R_refl |].
  cbn [foldl]. eapply R_trans; [| apply IH].
  unfold taskMonitor.fire. destruct (check.timeout c).
  - eapply R_trans; [| apply R_monitor]. apply OnTaskTimeout_writes.
  - destruct (check.stalled c); [apply OnTaskStalled_writes | apply R_refl].
Qed.

Lemma processQueue_loop_writes fuel env s :
  R s (processQueue_loop math_Exp fuel env s).
Proof.
  revert s. induction fuel as [| fuel IH]; intros s; [apply R_refl |].
  cbn [processQueue_loop].
  destruct (PriorityQueue.Peek (queue s)) as [req |]; [| apply R_refl].
  pose proof (tryDispatch_writes env s req) as Hd.
  destruct (tryDispatch math_Exp env s req) as [[d | e] s1]; [| exact Hd].
  eapply R_trans; [exact Hd |]. eapply R_trans; [| apply IH]. writes.
Qed.

Lemma ReportProgress_writes now s progress :
  R s (ReportProgress now s progress).
Proof. unfold ReportProgress. cbv zeta. writes. Qed.

Lemma ReportResult_writes now s result : R s (ReportResult now s result).
Proof.
  unfold ReportResult. cbv zeta. cbn [tasks set_monitor].
  destruct (tasks s !! TaskResult.TaskID result) as [rec |],
    (TaskResult.Success result); writes.
Qed.

Lemma Schedule_writes env s req :
  R (counted (DoSchedule env req) s) (snd (Schedule math_Exp env s req)).
Proof.
  unfold Schedule, counted.
  destruct (ScheduleRequest.Task req) as [p |]; [| apply R_refl].
  cbv zeta.
  pose proof (tryDispatch_writes env
                (set_stats (StatsCollector.RecordSubmission (stats s)) s) req)
    as Hd.
  destruct (tryDispatch math_Exp env _ req) as [[d | e] s1]; [exact Hd |].
  cbn [snd] in *. eapply R_trans; [exact Hd |]. writes.
Qed.

Lemma Cancel_writes now s taskID :
  R (counted (DoCancel now taskID) s) (snd (Cancel now s taskID)).
Proof.
  unfold Cancel, counted.
  destruct (PriorityQueue.Remove (mem s) (queue s) taskID) as [[] q];
    cbv zeta; cbn [snd].
  - eapply R_trans; [| apply R_emit].
    eapply R_trans; [| apply setStatus_writes].
    exact (R_queue (set_stats _ s) q).
  - eapply R_trans; [| apply R_emit].
    eapply R_trans; [| apply setStatus_writes].
    exact (R_monitor (set_stats _ s) _).
Qed.

Lemma step_writes s c : R (counted c s) (step math_Exp s c).
Proof.
  destruct c; cbn [step counted].
  - apply Schedule_writes.
  - apply Cancel_writes.
  - apply ReportProgress_writes.
  - apply ReportResult_writes.
  - apply OnTaskTimeout_writes.
  - apply OnTaskStalled_writes.
  - apply monitorTick_writes.
  - apply processQueue_loop_writes.
Qed.

End Footprint.

(** *** The sample windows *)

(** The collector keeps its cap, and no more samples than the cap, in both
    windows. *)
Definition windowsOK (c : StatsCollector.t) : Prop :=
  StatsCollector.maxSampleCount c = 1000%nat
  /\ (length (StatsCollector.latencySamples c) <= 1000)%nat
  /\ (length (StatsCollector.executionSamples c) <= 1000)%nat.

Lemma addSample_length cap samples x :
  (length samples <= cap)%nat ->
  (length (StatsCollector.addSample cap samples x) <= cap)%nat.
Proof.
  intros Hlen. unfold StatsCollector.addSample.
  destruct (Nat.ltb_spec cap (length (samples ++ [x]))) as [Hlt | Hle].
  - rewrite length_drop, length_app. simpl. lia.
  - done.
Qed.

Lemma addSample_last cap samples x :
  (0 < cap)%nat -> (length samples <= cap)%nat ->
  last (StatsCollector.addSample cap samples x) = Some x.
Proof.
  intros Hcap Hlen. unfold StatsCollector.addSample.
  destruct (Nat.ltb_spec cap (length (samples ++ [x]))) as [Hlt | Hle].
  - destruct samples as [| y samples]; [simpl in *; lia |].
    simpl. rewrite drop_0. apply last_snoc.
  - apply last_snoc.
Qed.

Lemma windowsOK_Assignment now c taskID nodeID latency :
  windowsOK c ->
  windowsOK (StatsCollector.RecordAssignment now c taskID nodeID latency).
Proof.
  intros (Hcap & Hl & He). unfold windowsOK. simpl.
  split; [done |]. split; [| done].
  rewrite Hcap. apply addSample_length. lia.
Qed.

Lemma windowsOK_Completion now c taskID nodeID :
  windowsOK c -> windowsOK (StatsCollector.RecordCompletion now c taskID nodeID).
Proof.
  intros (Hcap & Hl & He). unfold windowsOK, StatsCollector.RecordCompletion.
  simpl. destruct (StatsCollector.running c !! taskID); simpl; [| done].
  split; [done |]. split; [done |].
  rewrite Hcap. apply addSample_length. lia.
Qed.

Lemma windowsOK_Failure c taskID nodeID :
  windowsOK c -> windowsOK (StatsCollector.RecordFailure c taskID nodeID).
Proof.
  intros H. unfold windowsOK, StatsCollector.RecordFailure.
  destruct (negb (String.eqb nodeID "")); simpl; exact H.
Qed.

Section Windows.
Variable math_Exp : float -> float.

Lemma step_windowsOK s c :
  windowsOK (stats s) -> windowsOK (stats (step math_Exp s c)).
Proof.
  intros Hs.
  assert (windowsOK (stats (counted c s))) as Hc.
  { destruct c; simpl; try done.
    by destruct (ScheduleRequest.Task req). }
  revert Hc.
  apply (step_writes math_Exp
           (fun s s' => windowsOK (stats s) -> windowsOK (stats s')));
    try done.
  - intros s1 s2 s3 H12 H23 H1. auto.
  - intros s0 now taskID nodeID latency. apply windowsOK_Assignment.
  - intros s0 now taskID nodeID. apply windowsOK_Completion.
  - intros s0 taskID nodeID. apply windowsOK_Failure.
Qed.

Lemma run_windowsOK calls s :
  windowsOK (stats s) -> windowsOK (stats (run math_Exp calls s)).
Proof.
  revert s. induction calls as [| c calls IH]; intros s Hs; [done |].
  cbn [run foldl]. apply IH. by apply step_windowsOK.
Qed.

End Windows.

(** *** The counters of submissions and cancellations *)

Definition isSubmission (c : SchedulerCall) : bool :=
  match c with
  | DoSchedule _ req =>
      match ScheduleRequest.Task req with Some _ => true | None => false end
  | _ => false
  end.

Definition isCancellation (c : SchedulerCall) : bool :=
  match c with DoCancel _ _ => true | _ => false end.

(** The number of calls of a history that satisfy [f]. *)
Definition countCalls (f : SchedulerCall -> bool)
    (calls : list SchedulerCall) : Z :=
  Z.of_nat (length (filter (fun c => f c = true) calls)).

Lemma countCalls_cons f c calls :
  countCalls f (c :: calls)
  = (if f c then 1 else 0) + countCalls f calls.
Proof.
  unfold countCalls. rewrite filter_cons.
  destruct (f c) eqn:E.
  - rewrite decide_True by done. simpl length. lia.
  - rewrite decide_False by done. lia.
Qed.

Lemma countCalls_bound f calls :
  0 <= countCalls f calls <= Z.of_nat (length calls).
Proof.
  unfold countCalls. pose proof (length_filter (fun c => f c = true) calls).
  lia.
Qed.

Section Counters.
Variable math_Exp : float -> float.

Lemma step_counters s c :
  totalSubmitted (step math_Exp s c) = totalSubmitted (counted c s)
  /\ totalCancelled (step math_Exp s c) = totalCancelled (counted c s).
Proof.
  apply (step_writes math_Exp
           (fun s s' => totalSubmitted s' = totalSubmitted s
                        /\ totalCancelled s' = totalCancelled s));
    try done.
  - intros s1 s2 s3 [H1 H2] [H3 H4]. split; congruence.
  - intros s0 now taskID nodeID.
    unfold totalSubmitted, totalCancelled, StatsCollector.RecordCompletion.
    simpl. destruct (StatsCollector.running (stats s0) !! taskID); simpl;
      [| done].
    destruct (negb (String.eqb nodeID "")); done.
  - intros s0 taskID nodeID.
    unfold totalSubmitted, totalCancelled, StatsCollector.RecordFailure.
    simpl. destruct (negb (String.eqb nodeID "")); done.
Qed.

Lemma run_counters calls : forall s,
  0 <= totalSubmitted s -> 0 <= totalCancelled s ->
  totalSubmitted s + Z.of_nat (length calls) <= maxInt64 ->
  totalCancelled s + Z.of_nat (length calls) <= maxInt64 ->
  totalSubmitted (run math_Exp calls s)
  = totalSubmitted s + countCalls isSubmission calls
  /\ totalCancelled (run math_Exp calls s)
     = totalCancelled s + countCalls isCancellation calls.
Proof.
  induction calls as [| c calls IH]; intros s Hs Hc Hsb Hcb.
  - unfold countCalls. simpl. lia.
  - cbn [run foldl]. rewrite !countCalls_cons.
    cbn [length] in Hsb, Hcb. rewrite Nat2Z.inj_succ in Hsb, Hcb.
    destruct (step_counters s c) as [Hs1 Hc1].
    assert (totalSubmitted (counted c s)
            = totalSubmitted s + (if isSubmission c then 1 else 0)) as Hs2.
    { destruct c; simpl; try lia.
      - destruct (ScheduleRequest.Task req); [| lia].
        unfold totalSubmitted. simpl. apply int64_add_1.
        unfold totalSubmitted, minInt64 in *. lia.
      - unfold totalSubmitted. simpl. lia. }
    assert (totalCancelled (counted c s)
            = totalCancelled s + (if isCancellation c then 1 else 0)) as Hc2.
    { destruct c; simpl; try lia.
      - destruct (ScheduleRequest.Task req); [| lia].
        unfold totalCancelled. simpl. lia.
      - unfold totalCancelled. simpl. apply int64_add_1.
        unfold totalCancelled, minInt64 in *. lia. }
    destruct (IH (step math_Exp s c)) as [H1 H2].
    + rewrite Hs1, Hs2. destruct (isSubmission c); lia.
    + rewrite Hc1, Hc2. destruct (isCancellation c); lia.
    + rewrite Hs1, Hs2. destruct (isSubmission c); lia.
    + rewrite Hc1, Hc2. destruct (isCancellation c); lia.
    + fold (run math_Exp calls (step math_Exp s c)).
      rewrite H1, H2, Hs1, Hs2, Hc1, Hc2. lia.
Qed.

End Counters.

(** *** The task table *)

(** Every task ID with a record before has one after. *)
Definition recordsKept (s s' : t) : Prop :=
  forall id, is_Some (tasks s !! id) -> is_Some (tasks s' !! id).

Section Records.
Variable math_Exp : float -> float.

Lemma step_recordsKept s c : recordsKept s (step math_Exp s c).
Proof.
  assert (recordsKept s (counted c s)) as Hc.
  { intros id Hid. destruct c; simpl; try done.
    by destruct (ScheduleRequest.Task req). }
  intros id Hid. apply Hc in Hid. revert id Hid.
  apply (step_writes math_Exp
           (fun s s' => forall id, is_Some (tasks s !! id) ->
                                   is_Some (tasks s' !! id))); try done.
  - intros s1 s2 s3 H12 H23 id Hid. auto.
  - intros s0 id rec id' Hid'. simpl.
    rewrite lookup_insert_is_Some. destruct (decide (id = id')); auto.
Qed.

Lemma run_recordsKept calls s : recordsKept s (run math_Exp calls s).
Proof.
  revert s. induction calls as [| c calls IH]; intros s; [by intros id |].
  cbn [run foldl]. intros id Hid. apply IH. by apply step_recordsKept.
Qed.

End Records.

End FacadeMore.
Import FacadeMore.

(** X12: in every state a new scheduler reaches, the statistics keep at
    most 1000 latency samples and at most 1000 execution samples; an
    assignment recorded by a collector with a positive cap puts its
    latency last in the window. *)
Theorem sample_windows_stay_bounded (math_Exp : float -> float)
    (config : SchedulerConfig.t) (mem : gmap TaskPtr Task.t)
    (calls : list RunFacts.SchedulerCall) :
  (let c := defaultScheduler.stats
              (RunFacts.run math_Exp calls (defaultScheduler.New config mem)) in
   (length (StatsCollector.latencySamples c) <= 1000)%nat
   /\ (length (StatsCollector.executionSamples c) <= 1000)%nat)
  /\ (forall now c taskID nodeID latency,
        (0 < StatsCollector.maxSampleCount c)%nat ->
        (length (StatsCollector.latencySamples c)
         <= StatsCollector.maxSampleCount c)%nat ->
        last (StatsCollector.latencySamples
                (StatsCollector.RecordAssignment now c taskID nodeID latency))
        = Some latency).
Proof.
  split.
  - destruct (run_windowsOK math_Exp calls (defaultScheduler.New config mem))
      as (_ & Hl & He); [| done].
    split; [done |]. simpl. lia.
  - intros now c taskID nodeID latency Hcap Hlen. simpl.
    by apply addSample_last.
Qed.

(** X13: after a history of fewer than 2^63 calls on a new scheduler,
    [TotalSubmitted] is the number of [Schedule] calls with a task,
    whatever became of them, and [TotalCancelled] is the number of
    [Cancel] calls, whatever their task ID. *)
Theorem counters_count_calls (math_Exp : float -> float)
    (config : SchedulerConfig.t) (mem : gmap TaskPtr Task.t)
    (calls : list RunFacts.SchedulerCall) :
  Z.of_nat (length calls) < 2 ^ 63 ->
  totalSubmitted
    (RunFacts.run math_Exp calls (defaultScheduler.New config mem))
  = countCalls isSubmission calls
  /\ totalCancelled
       (RunFacts.run math_Exp calls (defaultScheduler.New config mem))
     = countCalls isCancellation calls.
Proof.
  intros Hlen.
  assert (totalSubmitted (defaultScheduler.New config mem) = 0) as Hs by done.
  assert (totalCancelled (defaultScheduler.New config mem) = 0) as Hc by done.
  destruct (run_counters math_Exp calls (defaultScheduler.New config mem))
    as [H1 H2]; rewrite ?Hs, ?Hc; unfold maxInt64; lia.
Qed.

Lemma counters_count_calls_witness :
  totalSubmitted
    (RunFacts.run (fun x => x)
       [RunFacts.DoSchedule (envOK 0) aiRequest;
        RunFacts.DoCancel 1 "t1"; RunFacts.DoCancel 2 "t1";
        RunFacts.DoCancel 3 "ghost"]
       (defaultScheduler.New DefaultSchedulerConfig store1))
  = countCalls isSubmission
      [RunFacts.DoSchedule (envOK 0) aiRequest;
       RunFacts.DoCancel 1 "t1"; RunFacts.DoCancel 2 "t1";
       RunFacts.DoCancel 3 "ghost"]
  /\ totalCancelled
       (RunFacts.run (fun x => x)
          [RunFacts.DoSchedule (envOK 0) aiRequest;
           RunFacts.DoCancel 1 "t1"; RunFacts.DoCancel 2 "t1";
           RunFacts.DoCancel 3 "ghost"]
          (defaultScheduler.New DefaultSchedulerConfig store1))
     = countCalls isCancellation
         [RunFacts.DoSchedule (envOK 0) aiRequest;
          RunFacts.DoCancel 1 "t1"; RunFacts.DoCancel 2 "t1";
          RunFacts.DoCancel 3 "ghost"].
Proof.
  apply (counters_count_calls (fun x => x) DefaultSchedulerConfig store1).
  vm_compute. reflexivity.
Defined.

(** X14: the scheduler never drops a record: once [Status] returns a task
    for an ID it does so after any further calls; and in every state a new
    scheduler reaches, [Status] of an ID that no [Schedule] call was for
    returns the not-found error. *)
Theorem Status_known_stays_known (math_Exp : float -> float)
    (calls : list RunFacts.SchedulerCall) (taskID : string) :
  (forall s p,
     defaultScheduler.Status s taskID = Ok p ->
     exists p', defaultScheduler.Status (RunFacts.run math_Exp calls s) taskID
                = Ok p')
  /\ (forall config mem,
        taskID ∉ RunFacts.scheduledIDs math_Exp calls
                   (defaultScheduler.New config mem) ->
        defaultScheduler.Status
          (RunFacts.run math_Exp calls (defaultScheduler.New config mem))
          taskID
        = Err (ErrTaskNotFound taskID)).
Proof.
  unfold defaultScheduler.Status. split.
  - intros s p Hp.
    destruct (run_recordsKept math_Exp calls s taskID) as [rec Hrec].
    + destruct (defaultScheduler.tasks s !! taskID); [done | discriminate].
    + rewrite Hrec. by eexists.
  - intros config mem Hnever.
    pose proof (RunFacts.never_scheduled_unknown math_Exp config mem calls
                  taskID Hnever) as Hu.
    unfold unknownTask in Hu. by rewrite Hu.
Qed.

(** ** Calls of the facade, one by one *)

Module CallFacts.
Import defaultScheduler SchedulerFacts RunFacts HeapFacts.

(** The task object after [tryDispatch] assigned it to a node. *)
Definition assignedTo (nodeID : string) (now : Time) (x : Task.t) : Task.t :=
  Task.set_StartedAt (Some now)
    (Task.set_Status TaskStatusAssigned (Task.set_AssignedNodeID nodeID x)).

(** The state after a successful [tryDispatch] of [req], whose task [p]
    holds [x], with the selector's decision [d]. *)
Definition dispatched (now : Time) (req : ScheduleRequest.t) (p : TaskPtr)
    (x : Task.t) (d : ScheduleDecision.t) (s : t) : t :=
  let nodeID := ScheduleDecision.SelectedNodeID d in
  let d' := ScheduleDecision.set_RequestID (Task.ID x) d in
  let mem' := <[p := assignedTo nodeID now x]> (mem s) in
  mk (config s) (queue s) (aiSel s)
     (taskMonitor.Watch mem' now (monitor s) (Some p))
     (StatsCollector.RecordAssignment now (stats s) (Task.ID x) nodeID
        (ScheduleDecision.Latency d'))
     (<[Task.ID x := taskRecord.mk (Some p) (Some d') (Some req) 0]> (tasks s))
     mem'
     (emitted s
      ++ [TaskEvent.mk EventTypeAssigned (Some p) (Some d') nodeID None None
                       None now]).

Section Calls.
Variable math_Exp : float -> float.

(** The selector [tryDispatch] consults for a request. *)
Definition selected (now : Time) (s : t) (req : ScheduleRequest.t)
    (candidates : list GolemProfile.t) : Result ScheduleDecision.t :=
  if String.eqb (ScheduleRequest.Mode req) DirectMode then
    DirectSelector.Select now req candidates
  else if String.eqb (ScheduleRequest.Mode req) AIMode then
    AISelector.Select math_Exp (aiSel s) now req candidates
  else Err (ErrUnknownMode (ScheduleRequest.Mode req)).

Lemma tryDispatch_Ok env s req p x d s' :
  ScheduleRequest.Task req = Some p -> mem s !! p = Some x ->
  tryDispatch math_Exp env s req = (Ok d, s') ->
  exists candidates d0,
    Env.ListProfiles env = Ok candidates
    /\ selected (Env.now env) s req candidates = Ok d0
    /\ Env.Dispatch env (ScheduleDecision.SelectedNodeID d0) (Some p) = None
    /\ d = ScheduleDecision.set_RequestID (Task.ID x) d0
    /\ s' = dispatched (Env.now env) req p x d0 s.
Proof.
  intros Hp Hx. unfold tryDispatch.
  destruct (Env.ListProfiles env) as [candidates | err]; [| discriminate].
  destruct (length candidates =? 0)%nat; [discriminate |].
  cbv zeta. fold (selected (Env.now env) s req candidates).
  destruct (selected (Env.now env) s req candidates) as [d0 | err] eqn:Hsel;
    [| discriminate].
  rewrite Hp. cbn [mem set_mem set_tasks updateTask].
  assert (alter (fun x0 : Task.t =>
                   Task.set_StartedAt (Some (Env.now env))
                     (Task.set_Status TaskStatusAssigned
                        (Task.set_AssignedNodeID
                           (ScheduleDecision.SelectedNodeID d0) x0)))
                p (mem s)
          = <[p := assignedTo (ScheduleDecision.SelectedNodeID d0)
                              (Env.now env) x]> (mem s)) as ->.
  { apply map_eq. intros k. rewrite lookup_alter.
    case_decide as Hk.
    - subst k. by rewrite Hx, lookup_insert_eq.
    - by rewrite lookup_insert_ne. }
  assert (deref (<[p := assignedTo (ScheduleDecision.SelectedNodeID d0)
                                   (Env.now env) x]> (mem s)) (Some p)
          = assignedTo (ScheduleDecision.SelectedNodeID d0) (Env.now env) x)
    as Hderef.
  { unfold deref. simpl. by rewrite lookup_insert_eq. }
  rewrite Hderef. cbn [Task.ID assignedTo Task.set_StartedAt Task.set_Status
                        Task.set_AssignedNodeID].
  destruct (Env.Dispatch env _ _) eqn:Hdisp; [discriminate |].
  intros [= <- <-]. exists candidates, d0.
  split; [done |]. split; [done |]. split; [done |]. split; [done |].
  reflexivity.
Qed.

(** The answer of [tryDispatch] depends on the state only through the
    selector and the ID of the request's task. *)
Lemma tryDispatch_answer env s1 s2 req :
  aiSel s2 = aiSel s1 ->
  (forall p, Task.ID (deref (mem s2) p) = Task.ID (deref (mem s1) p)) ->
  fst (tryDispatch math_Exp env s2 req) = fst (tryDispatch math_Exp env s1 req).
Proof.
  intros Hsel Hid. unfold tryDispatch. rewrite Hsel.
  destruct (Env.ListProfiles env) as [candidates | err]; [| done].
  destruct (length candidates =? 0)%nat; [done |].
  destruct (if String.eqb (ScheduleRequest.Mode req) DirectMode then _ else _)
    as [d | err]; [| done].
  cbv zeta. cbn [mem set_mem set_tasks].
  rewrite !(deref_updateTask_ID (ScheduleRequest.Task req)) by done.
  rewrite Hid.
  destruct (Env.Dispatch env _ _); done.
Qed.

(** [tryDispatch] leaves the queue and the selector alone, keeps the IDs
    of the task objects, and emits one [Assigned] event when it succeeds
    and none when it fails. *)
Lemma tryDispatch_frame env s req :
  let r := tryDispatch math_Exp env s req in
  queue (snd r) = queue s
  /\ aiSel (snd r) = aiSel s
  /\ (forall p, Task.ID (deref (mem (snd r)) p) = Task.ID (deref (mem s) p))
  /\ eventTypes (snd r)
     = eventTypes s ++ match fst r with
                       | Ok _ => [EventTypeAssigned]
                       | Err _ => []
                       end.
Proof.
  unfold tryDispatch, eventTypes.
  destruct (Env.ListProfiles env) as [candidates | err];
    [| by rewrite app_nil_r].
  destruct (length candidates =? 0)%nat; [by rewrite app_nil_r |].
  destruct (if String.eqb (ScheduleRequest.Mode req) DirectMode then _ else _)
    as [d | err]; [| by rewrite app_nil_r].
  cbv zeta.
  destruct (Env.Dispatch env _ _); cbn [fst snd queue aiSel mem emitted
    set_mem set_tasks set_stats set_monitor emitEvent].
  - split; [done |]. split; [done |]. rewrite app_nil_r.
    split; [| done]. intros p. by apply deref_updateTask_ID.
  - split; [done |]. split; [done |]. rewrite fmap_app.
    split; [| done]. intros p. by apply deref_updateTask_ID.
Qed.

Lemma Peek_None q : PriorityQueue.Peek q = None <-> PriorityQueue.Len q = 0%nat.
Proof.
  unfold PriorityQueue.Peek, PriorityQueue.Len, requestHeap.Len.
  destruct (PriorityQueue.heap q); simpl; split; done.
Qed.

Lemma Dequeue_Len q :
  Heap (PriorityQueue.heap q) (length (PriorityQueue.heap q)) ->
  (0 < PriorityQueue.Len q)%nat ->
  let q' := snd (PriorityQueue.Dequeue q) in
  S (PriorityQueue.Len q') = PriorityQueue.Len q
  /\ Heap (PriorityQueue.heap q') (length (PriorityQueue.heap q')).
Proof.
  unfold PriorityQueue.Dequeue, PriorityQueue.DequeueItem, PriorityQueue.Len,
    requestHeap.Len.
  intros Hheap Hpos.
  destruct (PriorityQueue.heap q) as [| r h] eqn:Hq; [simpl in Hpos; lia |].
  destruct (Pop_spec (r :: h) r Hheap eq_refl)
    as (x & h' & Hpop & _ & Hheap' & Hlen & _).
  cbn [length Nat.eqb]. rewrite Hpop. simpl. split; [| done].
  simpl in Hlen. lia.
Qed.

Lemma processQueue_loop_spec env fuel : forall s,
  Heap (PriorityQueue.heap (queue s)) (length (PriorityQueue.heap (queue s))) ->
  (PriorityQueue.Len (queue s) < fuel)%nat ->
  let s' := processQueue_loop math_Exp fuel env s in
  exists n : nat,
    (PriorityQueue.Len (queue s') + n = PriorityQueue.Len (queue s))%nat
    /\ eventTypes s' = eventTypes s ++ replicate n EventTypeAssigned
    /\ match PriorityQueue.Peek (queue s') with
       | None => PriorityQueue.Len (queue s') = 0%nat
       | Some req => exists e, fst (tryDispatch math_Exp env s' req) = Err e
       end
    /\ forall k, processQueue_loop math_Exp (fuel + k) env s = s'.
Proof.
  induction fuel as [| fuel IH]; intros s Hheap Hfuel; [lia |].
  cbn [processQueue_loop Nat.add].
  destruct (PriorityQueue.Peek (queue s)) as [req |] eqn:Hpeek.
  - destruct (tryDispatch_frame env s req) as (Hq & Hsel & Hid & Hev).
    destruct (tryDispatch math_Exp env s req) as [[d | e] s1] eqn:Htry;
      cbn [fst snd] in *.
    + pose proof (f_equal PriorityQueue.Len Hq) as Hql.
      assert (0 < PriorityQueue.Len (queue s1))%nat as Hpos.
      { rewrite Hq. destruct (PriorityQueue.Len (queue s)) eqn:E; [| lia].
        apply Peek_None in E. congruence. }
      destruct (Dequeue_Len (queue s1)) as [Hlen Hheap'];
        [by rewrite Hq | done |].
      set (q2 := snd (PriorityQueue.Dequeue (queue s1))) in *.
      destruct (IH (set_queue q2 s1)) as (n & Hn & Hevs & Hstop & Hmore).
      { done. }
      { cbn [queue set_queue]. lia. }
      cbn [queue set_queue] in Hn.
      exists (S n). split; [lia |]. split; [| done].
      rewrite Hevs. unfold eventTypes. cbn [emitted set_queue].
      fold (eventTypes s1). rewrite Hev. by rewrite <- (assoc_L (++)).
    + exists 0%nat. split; [by rewrite Hq, Nat.add_0_r |].
      split; [by rewrite Hev |]. split; [| done].
      rewrite Hq, Hpeek. exists e.
      rewrite (tryDispatch_answer env s s1 req) by done. by rewrite Htry.
  - exists 0%nat. split; [lia |]. split; [by rewrite app_nil_r |].
    rewrite Hpeek. split; [by apply Peek_None | done].
Qed.

End Calls.

Definition totalCompleted (s : t) : Z :=
  SchedulerStats.TotalCompleted (StatsCollector.stats (stats s)).

Definition totalFailed (s : t) : Z :=
  SchedulerStats.TotalFailed (StatsCollector.stats (stats s)).

(** The task object after [ReportResult] recorded a result for it. *)
Definition finished (success : bool) (now : Time) (x : Task.t) : Task.t :=
  Task.set_Status (if success then TaskStatusCompleted else TaskStatusFailed)
                  (Task.set_CompletedAt (Some now) x).

End CallFacts.
Import CallFacts.

(** X15: when [Schedule] returns a decision for a request whose task [p]
    holds [x], the task object is assigned to the selected node with
    [StartedAt] set, the decision carries the task's ID, [Status] of that
    ID returns the task, the record holds the decision and the request with
    no retries, the task is watched with its timeout (or the default one),
    the queue is as before, one [Assigned] event is emitted, the
    submission is counted and the dispatcher accepted the task. *)
Theorem Schedule_success_is_recorded (math_Exp : float -> float)
    (env : Env.t) (s : defaultScheduler.t) (req : ScheduleRequest.t)
    (p : TaskPtr) (x : Task.t) (d : ScheduleDecision.t) :
  ScheduleRequest.Task req = Some p ->
  defaultScheduler.mem s !! p = Some x ->
  fst (defaultScheduler.Schedule math_Exp env s req) = Ok d ->
  let s' := snd (defaultScheduler.Schedule math_Exp env s req) in
  let nodeID := ScheduleDecision.SelectedNodeID d in
  defaultScheduler.Status s' (Task.ID x) = Ok (Some p)
  /\ defaultScheduler.mem s'
     = <[p := assignedTo nodeID (Env.now env) x]> (defaultScheduler.mem s)
  /\ ScheduleDecision.RequestID d = Task.ID x
  /\ defaultScheduler.tasks s'
     = <[Task.ID x := taskRecord.mk (Some p) (Some d) (Some req) 0]>
         (defaultScheduler.tasks s)
  /\ taskMonitor.watched (defaultScheduler.monitor s')
     = <[Task.ID x :=
           watchedTask.mk (Some p) (Env.now env) (Env.now env)
             (if Task.Timeout x =? 0
              then MonitorConfig.DefaultTimeout
                     (taskMonitor.config (defaultScheduler.monitor s))
              else Task.Timeout x)]>
         (taskMonitor.watched (defaultScheduler.monitor s))
  /\ defaultScheduler.queue s' = defaultScheduler.queue s
  /\ defaultScheduler.emitted s'
     = defaultScheduler.emitted s
       ++ [TaskEvent.mk EventTypeAssigned (Some p) (Some d) nodeID None None
                        None (Env.now env)]
  /\ totalSubmitted s' = int64_add (totalSubmitted s) 1
  /\ Env.Dispatch env nodeID (Some p) = None.
Proof.
  intros Hp Hx. unfold defaultScheduler.Schedule. rewrite Hp. cbv zeta.
  set (s0 := defaultScheduler.set_stats _ s).
  destruct (defaultScheduler.tryDispatch math_Exp env s0 req)
    as [[d' | e] s1] eqn:Htry; cbn [fst snd]; [| discriminate].
  intros [= ->].
  destruct (tryDispatch_Ok math_Exp env s0 req p x d s1 Hp Hx Htry)
    as (candidates & d0 & _ & _ & Hdisp & -> & ->).
  unfold dispatched, defaultScheduler.Status, taskMonitor.Watch.
  cbn [defaultScheduler.tasks defaultScheduler.mem defaultScheduler.monitor
       defaultScheduler.queue defaultScheduler.emitted taskMonitor.watched
       ScheduleDecision.SelectedNodeID ScheduleDecision.set_RequestID
       ScheduleDecision.RequestID s0 defaultScheduler.set_stats
       taskMonitor.config].
  rewrite lookup_insert_eq.
  assert (deref (<[p := assignedTo (ScheduleDecision.SelectedNodeID d0)
                                   (Env.now env) x]>
                   (defaultScheduler.mem s)) (Some p)
          = assignedTo (ScheduleDecision.SelectedNodeID d0) (Env.now env) x)
    as ->.
  { unfold deref. simpl. by rewrite lookup_insert_eq. }
  repeat split; done.
Qed.

Lemma Schedule_success_witness :
  exists d,
    fst (defaultScheduler.Schedule (fun x => x) (envOK 0) scheduler0 aiRequest)
    = Ok d
    /\ defaultScheduler.Status
         (snd (defaultScheduler.Schedule (fun x => x) (envOK 0) scheduler0
                 aiRequest)) "t1"
       = Ok (Some 0%nat)
    /\ ScheduleDecision.RequestID d = "t1"%string.
Proof.
  eexists. split; [vm_compute; reflexivity |].
  match goal with
  | |- context [ScheduleDecision.RequestID ?d] =>
      pose proof (Schedule_success_is_recorded (fun x => x) (envOK 0)
                    scheduler0 aiRequest 0%nat task1 d eq_refl eq_refl)
        as H
  end.
  destruct H as (Hstatus & _ & Hid & _); [vm_compute; reflexivity |].
  split; [exact Hstatus | exact Hid].
Defined.

(** X16: [ReportResult] counts every result it is given: [TotalCompleted]
    for a success, [TotalFailed] otherwise, whether or not the scheduler
    has a record of the task. It stops watching the ID, leaves the queue
    and the task table as they are, and emits one event with the task of
    the record, nil when there is none. It writes the status and
    [CompletedAt] into the task object of the record, and changes no task
    object when there is no record, as for every ID that was never
    scheduled on a new scheduler. *)
Theorem ReportResult_always_counts (now : Time) (s : defaultScheduler.t)
    (result : TaskResult.t) :
  let taskID := TaskResult.TaskID result in
  let s' := defaultScheduler.ReportResult now s result in
  (if TaskResult.Success result
   then totalCompleted s' = int64_add (totalCompleted s) 1
        /\ totalFailed s' = totalFailed s
   else totalFailed s' = int64_add (totalFailed s) 1
        /\ totalCompleted s' = totalCompleted s)
  /\ taskMonitor.watched (defaultScheduler.monitor s') !! taskID = None
  /\ defaultScheduler.queue s' = defaultScheduler.queue s
  /\ defaultScheduler.tasks s' = defaultScheduler.tasks s
  /\ (exists ev,
        defaultScheduler.emitted s' = defaultScheduler.emitted s ++ [ev]
        /\ TaskEvent.Type_ ev
           = (if TaskResult.Success result then EventTypeCompleted
              else EventTypeFailed)
        /\ TaskEvent.Task ev = defaultScheduler.getTask s taskID
        /\ TaskEvent.Result ev = Some result)
  /\ (forall rec,
        defaultScheduler.tasks s !! taskID = Some rec ->
        defaultScheduler.mem s'
        = updateTask (taskRecord.task rec)
            (finished (TaskResult.Success result) now)
            (defaultScheduler.mem s))
  /\ (defaultScheduler.tasks s !! taskID = None ->
      defaultScheduler.mem s' = defaultScheduler.mem s)
  /\ (forall math_Exp config mem calls,
        s = RunFacts.run math_Exp calls (defaultScheduler.New config mem) ->
        taskID ∉ RunFacts.scheduledIDs math_Exp calls
                   (defaultScheduler.New config mem) ->
        defaultScheduler.mem s' = defaultScheduler.mem s
        /\ TaskEvent.Task <$> last (defaultScheduler.emitted s') = Some None).
Proof.
  intros taskID s'.
  assert (defaultScheduler.tasks s !! taskID = None ->
          defaultScheduler.mem s' = defaultScheduler.mem s
          /\ TaskEvent.Task <$> last (defaultScheduler.emitted s') = Some None)
    as Hnone.
  { intros Hu. unfold s', defaultScheduler.ReportResult,
      defaultScheduler.getTask. cbv zeta.
    cbn [defaultScheduler.tasks defaultScheduler.set_monitor].
    fold taskID. rewrite Hu.
    destruct (TaskResult.Success result);
      cbn [defaultScheduler.emitted defaultScheduler.emitEvent
           defaultScheduler.mem defaultScheduler.set_stats
           defaultScheduler.tasks];
      rewrite ?Hu, last_snoc; simpl; rewrite ?Hu; done. }
  unfold s', defaultScheduler.ReportResult, defaultScheduler.getTask,
    totalCompleted, totalFailed, StatsCollector.RecordCompletion,
    StatsCollector.RecordFailure, finished.
  cbv zeta. cbn [defaultScheduler.tasks defaultScheduler.set_monitor].
  fold taskID.
  split; [| split; [| split; [| split; [| split; [| split; [| split]]]]]].
  - destruct (defaultScheduler.tasks s !! taskID) as [rec |],
      (TaskResult.Success result); simpl;
      repeat match goal with
             | |- context [StatsCollector.running ?c !! ?k] =>
                 destruct (StatsCollector.running c !! k); simpl
             | |- context [negb ?b] => destruct (negb b); simpl
             end; done.
  - destruct (defaultScheduler.tasks s !! taskID) as [rec |],
      (TaskResult.Success result); simpl; apply lookup_delete_eq.
  - destruct (defaultScheduler.tasks s !! taskID) as [rec |],
      (TaskResult.Success result); done.
  - destruct (defaultScheduler.tasks s !! taskID) as [rec |],
      (TaskResult.Success result); done.
  - destruct (defaultScheduler.tasks s !! taskID) as [rec |] eqn:Hrec,
      (TaskResult.Success result); simpl; rewrite ?Hrec;
      eexists; (split; [reflexivity |]); done.
  - intros rec Hrec. rewrite Hrec.
    destruct (TaskResult.Success result); done.
  - apply Hnone.
  - intros math_Exp config mem calls -> Hnever. apply Hnone.
    by apply RunFacts.never_scheduled_unknown.
Qed.

(** X17: [processQueue], in any state a new scheduler reaches, dispatches
    some number [n] of the queued requests: the queue gets [n] shorter
    and [n] [Assigned] events are emitted, nothing else. It stops with
    the queue empty or with a request at its head that [tryDispatch]
    refuses; more turns of the loop than the queue is long change
    nothing. *)
Theorem processQueue_until_empty_or_refused (math_Exp : float -> float)
    (config : SchedulerConfig.t) (mem : gmap TaskPtr Task.t)
    (calls : list RunFacts.SchedulerCall) (env : Env.t) :
  let s := RunFacts.run math_Exp calls (defaultScheduler.New config mem) in
  let s' := defaultScheduler.processQueue math_Exp env s in
  exists n : nat,
    (PriorityQueue.Len (defaultScheduler.queue s') + n
     = PriorityQueue.Len (defaultScheduler.queue s))%nat
    /\ eventTypes s' = eventTypes s ++ replicate n EventTypeAssigned
    /\ match PriorityQueue.Peek (defaultScheduler.queue s') with
       | None => PriorityQueue.Len (defaultScheduler.queue s') = 0%nat
       | Some req =>
           exists e,
             fst (defaultScheduler.tryDispatch math_Exp env s' req) = Err e
       end
    /\ forall k,
         defaultScheduler.processQueue_loop math_Exp
           (S (PriorityQueue.Len (defaultScheduler.queue s)) + k) env s
         = s'.
Proof.
  intros s s'. apply processQueue_loop_spec; [| lia].
  pose proof (RunFacts.run_Known math_Exp (fun _ => True) calls
                (defaultScheduler.New config mem)
                (RunFacts.New_Known _ config mem)) as [Hheap _];
    [| exact Hheap].
  apply Forall_forall. done.
Qed.

(** ** What the task table and the queue hold *)

Module TableFacts.
Import defaultScheduler SchedulerFacts RunFacts HeapFacts.

(** A record under the key [id]: it holds a task, the request that task
    came with and a decision made for it, and the task's ID is [id]. *)
Definition recordOK (s : t) (id : string) (rec : taskRecord.t) : Prop :=
  exists p req d,
    taskRecord.task rec = Some p
    /\ taskRecord.request rec = Some req
    /\ ScheduleRequest.Task req = Some p
    /\ taskRecord.decision rec = Some d
    /\ ScheduleDecision.RequestID d = id
    /\ Task.ID (deref (mem s) (Some p)) = id.

(** Every record is as above, every queued request has a task, every
    running and every watched ID has a record, and every running ID is
    watched. *)
Definition Sound (s : t) : Prop :=
  Heap (PriorityQueue.heap (queue s)) (length (PriorityQueue.heap (queue s)))
  /\ (forall id rec, tasks s !! id = Some rec -> recordOK s id rec)
  /\ (forall item, item ∈ PriorityQueue.heap (queue s) ->
        is_Some (ScheduleRequest.Task (heapItem.request item)))
  /\ (forall id, is_Some (taskMonitor.watched (monitor s) !! id) ->
        is_Some (tasks s !! id))
  /\ (forall id, is_Some (StatsCollector.running (stats s) !! id) ->
        is_Some (taskMonitor.watched (monitor s) !! id)).

Lemma recordOK_sameIDs s s' id rec :
  sameIDs s s' -> recordOK s id rec -> recordOK s' id rec.
Proof.
  intros Hid (p & req & d & H1 & H2 & H3 & H4 & H5 & H6).
  exists p, req, d. rewrite Hid. done.
Qed.

(** A write to the task objects that keeps their IDs. *)
Lemma Sound_mem s q f :
  (forall x, Task.ID (f x) = Task.ID x) ->
  Sound s -> Sound (set_mem (updateTask q f (mem s)) s).
Proof.
  intros Hf (Hheap & Hrec & Hitem & Hw & Hr).
  split; [done |]. split; [| done].
  intros id rec Hrec'. apply (recordOK_sameIDs s); [| by apply Hrec].
  intros p. simpl. by apply deref_updateTask_ID.
Qed.

Lemma Sound_emit s e : Sound s -> Sound (emitEvent e s).
Proof. done. Qed.

Lemma Sound_setStatus taskID status s :
  Sound s -> Sound (setStatus taskID status s).
Proof.
  intros HS. unfold setStatus. destruct (tasks s !! taskID); [| done].
  by apply Sound_mem.
Qed.

(** Statistics that forget running IDs, or keep them. *)
Lemma Sound_stats s c :
  (forall id, is_Some (StatsCollector.running c !! id) ->
              is_Some (StatsCollector.running (stats s) !! id)) ->
  Sound s -> Sound (set_stats c s).
Proof.
  intros Hc (Hheap & Hrec & Hitem & Hw & Hr).
  split; [done |]. split; [done |]. split; [done |]. split; [done |].
  intros id Hid. apply Hr. by apply Hc.
Qed.

Lemma running_Completion now c taskID nodeID id :
  is_Some (StatsCollector.running
             (StatsCollector.RecordCompletion now c taskID nodeID) !! id) ->
  is_Some (StatsCollector.running c !! id) /\ id <> taskID.
Proof.
  unfold StatsCollector.RecordCompletion. simpl.
  destruct (StatsCollector.running c !! taskID) eqn:E; simpl.
  - rewrite lookup_delete_is_Some. intros [Hne Hid]. by split.
  - intros Hid. split; [done |]. intros ->. rewrite E in Hid.
    by destruct Hid.
Qed.

Lemma running_Failure c taskID nodeID id :
  is_Some (StatsCollector.running
             (StatsCollector.RecordFailure c taskID nodeID) !! id) ->
  is_Some (StatsCollector.running c !! id) /\ id <> taskID.
Proof.
  unfold StatsCollector.RecordFailure.
  destruct (negb (String.eqb nodeID "")); simpl;
    rewrite lookup_delete_is_Some; intros [Hne Hid]; by split.
Qed.

Section Table.
Variable math_Exp : float -> float.

Lemma tryDispatch_Sound env s req :
  Sound s -> is_Some (ScheduleRequest.Task req) ->
  Sound (snd (tryDispatch math_Exp env s req)).
Proof.
  intros HS [p Hp]. unfold tryDispatch.
  destruct (Env.ListProfiles env) as [candidates | err]; [| done].
  destruct (length candidates =? 0)%nat; [done |].
  destruct (if String.eqb (ScheduleRequest.Mode req) DirectMode then _ else _)
    as [decision | err]; [| done].
  cbv zeta.
  set (s1 := set_mem _ s).
  assert (Sound s1) as HS1 by (by apply Sound_mem).
  set (taskID := Task.ID (deref (mem s1) (ScheduleRequest.Task req))).
  set (s2 := set_tasks _ s1).
  assert (Sound s2) as HS2.
  { destruct HS1 as (Hheap & Hrec & Hitem & Hw & Hr).
    split; [done |]. split; [| split; [done |]; split; [| done]].
    - intros id rec Hrec'. unfold s2 in Hrec'. simpl in Hrec'.
      apply lookup_insert_Some in Hrec' as [[<- <-] | [Hne Hrec']].
      + exists p, req, (ScheduleDecision.set_RequestID taskID decision).
        unfold taskID. rewrite Hp. done.
      + by apply Hrec.
    - intros id Hid. unfold s2. simpl. rewrite lookup_insert_is_Some.
      destruct (decide (taskID = id)); [by left | right].
      split; [done |]. by apply Hw. }
  destruct (Env.Dispatch env _ _); cbn [snd]; [done |].
  destruct HS2 as (Hheap & Hrec & Hitem & Hw & Hr).
  split; [done |]. split; [done |]. split; [done |]. split.
  - intros id. cbn [monitor emitEvent set_monitor set_stats tasks].
    unfold taskMonitor.Watch. cbn [taskMonitor.watched mem].
    fold taskID. rewrite lookup_insert_is_Some. intros [<- | [Hne Hid]].
    + unfold s2. simpl. rewrite lookup_insert_eq. by eexists.
    + by apply Hw.
  - intros id. cbn [monitor emitEvent set_monitor set_stats stats].
    unfold taskMonitor.Watch, StatsCollector.RecordAssignment.
    cbn [taskMonitor.watched StatsCollector.running mem].
    fold taskID. rewrite !lookup_insert_is_Some.
    intros [<- | [Hne Hid]]; [by left |].
    right. split; [done |]. by apply Hr.
Qed.

Lemma Enqueue_Sound s req :
  Sound s -> is_Some (ScheduleRequest.Task req) ->
  Sound (set_queue (PriorityQueue.Enqueue (mem s) (queue s) req) s).
Proof.
  intros (Hheap & Hrec & Hitem & Hw & Hr) Hreq.
  destruct (Enqueue_requests (mem s) (queue s) req Hheap) as [Hheap' Hitems].
  split; [done |]. split; [done |]. split; [| done].
  intros item Hin. simpl in Hin.
  destruct (Hitems item Hin) as [-> | (item' & Hin' & <-)]; [done |].
  by apply Hitem.
Qed.

Lemma Schedule_Sound env s req :
  Sound s -> Sound (snd (Schedule math_Exp env s req)).
Proof.
  intros HS. unfold Schedule.
  destruct (ScheduleRequest.Task req) as [p |] eqn:Hp; [| done].
  cbv zeta. set (s0 := set_stats _ s).
  assert (Sound s0) as HS0 by (by apply Sound_stats).
  pose proof (tryDispatch_Sound env s0 req HS0 ltac:(by rewrite Hp)) as HS1.
  destruct (tryDispatch math_Exp env s0 req) as [[d | e] s1]; cbn [snd] in *;
    [done |].
  apply Sound_emit, Enqueue_Sound; [done | by rewrite Hp].
Qed.

Lemma Cancel_Sound now s taskID :
  Sound s -> Sound (snd (Cancel now s taskID)).
Proof.
  intros HS. unfold Cancel.
  pose proof HS as (Hheap & Hrec & Hitem & Hw & Hr).
  destruct (Remove_requests (mem s) (queue s) taskID Hheap)
    as [Hheap' Hitems].
  destruct (PriorityQueue.Remove _ _ _) as [[] q]; cbn [snd] in *; cbv zeta.
  - apply Sound_emit, Sound_setStatus, Sound_stats.
    { intros id. simpl. rewrite lookup_delete_is_Some. tauto. }
    split; [done |]. split; [done |]. split; [| done].
    intros item Hin. destruct (Hitems item Hin) as (item' & Hin' & <-).
    by apply Hitem.
  - apply Sound_emit, Sound_setStatus.
    split; [done |]. split; [done |]. split; [done |]. split.
    + intros id. simpl. rewrite lookup_delete_is_Some.
      intros [_ Hid]. by apply Hw.
    + intros id. simpl. rewrite !lookup_delete_is_Some.
      intros [Hne Hid]. split; [done |]. by apply Hr.
Qed.

Lemma OnTaskTimeout_Sound now taskID s :
  Sound s -> Sound (OnTaskTimeout now taskID s).
Proof.
  intros HS. unfold OnTaskTimeout. cbv zeta.
  apply Sound_emit, Sound_setStatus, Sound_stats; [| done].
  intros id. simpl. rewrite lookup_delete_is_Some. tauto.
Qed.

Lemma OnTaskStalled_Sound now taskID s :
  Sound s -> Sound (OnTaskStalled now taskID s).
Proof.
  intros HS. unfold OnTaskStalled.
  destruct (tasks s !! taskID) as [rec |] eqn:Hrec; [| done].
  destruct (if _ <? _ then _ else _) as [req |] eqn:Hreq; cbv zeta.
  - assert (taskRecord.request rec = Some req) as Hrq.
    { destruct (_ <? _); [done | discriminate]. }
    pose proof HS as (Hheap & Hrecs & Hitem & Hw & Hr).
    destruct (Hrecs taskID rec Hrec)
      as (p & req' & d & H1 & H2 & H3 & H4 & H5 & H6).
    assert (req' = req) as -> by congruence.
    apply Sound_emit.
    set (s1 := set_tasks _ s).
    assert (Sound s1) as HS1.
    { split; [done |]. split; [| split; [done |]; split; [| done]].
      - intros id rec' Hrec'. unfold s1 in Hrec'. simpl in Hrec'.
        apply lookup_insert_Some in Hrec' as [[<- <-] | [Hne Hrec']].
        + by exists p, req, d.
        + by apply Hrecs.
      - intros id Hid. unfold s1. simpl. rewrite lookup_insert_is_Some.
        destruct (decide (taskID = id)); [by left | right].
        split; [done |]. by apply Hw. }
    apply (Enqueue_Sound s1 req HS1). by rewrite H3.
  - apply Sound_emit, Sound_stats; [| done].
    intros id Hid. by apply running_Failure in Hid as [? _].
Qed.

Lemma monitorTick_Sound now s : Sound s -> Sound (monitorTick now s).
Proof.
  unfold monitorTick, taskMonitor.checkTasks.
  generalize (taskMonitor.snapshot now (monitor s)). intros checks.
  revert s. induction checks as [| c checks IH]; intros s HS; [done |].
  cbn [foldl]. apply IH. unfold taskMonitor.fire.
  destruct (check.timeout c).
  - pose proof (OnTaskTimeout_Sound now (check.id c) s HS) as HS1.
    assert (forall id,
              is_Some (StatsCollector.running
                         (stats (OnTaskTimeout now (check.id c) s)) !! id) ->
              id <> check.id c) as Hgone.
    { intros id. unfold OnTaskTimeout, setStatus. cbv zeta.
      cbn [tasks set_stats].
      destruct (tasks s !! check.id c); simpl;
        rewrite lookup_delete_is_Some; intros [Hne _]; by apply not_eq_sym. }
    destruct HS1 as (Hheap & Hrec & Hitem & Hw & Hr).
    split; [done |]. split; [done |]. split; [done |]. split.
    + intros id. simpl. rewrite lookup_delete_is_Some.
      intros [_ Hid]. by apply Hw.
    + intros id Hid. simpl. rewrite lookup_delete_is_Some.
      split; [by apply not_eq_sym, Hgone | by apply Hr].
  - destruct (check.stalled c); [by apply OnTaskStalled_Sound | done].
Qed.

Lemma processQueue_loop_Sound fuel env s :
  Sound s -> Sound (processQueue_loop math_Exp fuel env s).
Proof.
  revert s. induction fuel as [| fuel IH]; intros s HS; [done |].
  cbn [processQueue_loop].
  destruct (PriorityQueue.Peek (queue s)) as [req |] eqn:Hpeek; [| done].
  assert (is_Some (ScheduleRequest.Task req)) as Hreq.
  { unfold PriorityQueue.Peek in Hpeek.
    destruct (PriorityQueue.heap (queue s) !! 0%nat) as [item |] eqn:Hitem;
      [| discriminate].
    injection Hpeek as <-. destruct HS as (_ & _ & Hitems & _).
    apply Hitems. by eapply list_elem_of_lookup_2. }
  pose proof (tryDispatch_Sound env s req HS Hreq) as HS1.
  destruct (tryDispatch math_Exp env s req) as [[d | e] s1]; cbn [snd] in *;
    [| done].
  apply IH. destruct HS1 as (Hheap & Hrec & Hitem & Hw & Hr).
  destruct (Dequeue_requests (queue s1) Hheap) as [Hheap' Hitems].
  split; [done |]. split; [done |]. split; [| done].
  intros item Hin. simpl in Hin.
  destruct (Hitems item Hin) as (item' & Hin' & <-). by apply Hitem.
Qed.

Lemma ReportProgress_Sound now s progress :
  Sound s -> Sound (ReportProgress now s progress).
Proof.
  intros (Hheap & Hrec & Hitem & Hw & Hr). unfold ReportProgress. cbv zeta.
  apply Sound_emit.
  split; [done |]. split; [done |]. split; [done |]. split.
  - intros id. simpl. rewrite lookup_alter_is_Some. apply Hw.
  - intros id Hid. simpl. rewrite lookup_alter_is_Some. by apply Hr.
Qed.

Lemma ReportResult_Sound now s result :
  Sound s -> Sound (ReportResult now s result).
Proof.
  intros HS. unfold ReportResult. cbv zeta.
  set (taskID := TaskResult.TaskID result).
  set (s1 := set_monitor (taskMonitor.Unwatch (monitor s) taskID) s).
  (* everything but the last clause survives the [Unwatch] *)
  assert (forall c,
            (forall id, is_Some (StatsCollector.running c !! id) ->
                        is_Some (StatsCollector.running (stats s) !! id)
                        /\ id <> taskID) ->
            forall q f, (forall x, Task.ID (f x) = Task.ID x) ->
            Sound (set_stats c (set_mem (updateTask q f (mem s1)) s1)))
    as Hfin.
  { intros c Hc q f Hf. pose proof (Sound_mem s q f Hf HS)
      as (Hheap & Hrec & Hitem & Hw & Hr).
    split; [done |]. split; [done |]. split; [done |]. split.
    - intros id. simpl. rewrite lookup_delete_is_Some.
      intros [_ Hid]. by apply Hw.
    - intros id Hid. simpl. apply Hc in Hid as [Hid Hne].
      rewrite lookup_delete_is_Some. split; [done |]. by apply Hr. }
  assert (set_mem (updateTask None (fun x => x) (mem s1)) s1 = s1) as Hsame
    by done.
  cbn [tasks s1 set_monitor].
  destruct (tasks s !! taskID) as [rec |], (TaskResult.Success result);
    apply Sound_emit.
  - apply (Hfin _ (fun id => running_Completion now _ taskID _ id)). done.
  - apply (Hfin _ (fun id => running_Failure _ taskID _ id)). done.
  - fold s1. rewrite <- Hsame.
    apply (Hfin _ (fun id => running_Completion now _ taskID _ id)).
    done.
  - fold s1. rewrite <- Hsame.
    apply (Hfin _ (fun id => running_Failure _ taskID _ id)). done.
Qed.

Lemma step_Sound s c : Sound s -> Sound (step math_Exp s c).
Proof.
  intros HS. destruct c; cbn [step].
  - by apply Schedule_Sound.
  - by apply Cancel_Sound.
  - by apply ReportProgress_Sound.
  - by apply ReportResult_Sound.
  - by apply OnTaskTimeout_Sound.
  - by apply OnTaskStalled_Sound.
  - by apply monitorTick_Sound.
  - by apply processQueue_loop_Sound.
Qed.

Lemma run_Sound calls s : Sound s -> Sound (run math_Exp calls s).
Proof.
  revert s. induction calls as [| c calls IH]; intros s HS; [done |].
  cbn [run foldl]. apply IH. by apply step_Sound.
Qed.

Lemma New_Sound config mem : Sound (New config mem).
Proof.
  split; [| split; [| split; [| split]]].
  - intros k Hk. simpl in Hk. lia.
  - intros id rec Hr. simpl in Hr. by rewrite lookup_empty in Hr.
  - intros item Hin. simpl in Hin. by apply elem_of_nil in Hin.
  - intros id [wt Hid]. simpl in Hid. by rewrite lookup_empty in Hid.
  - intros id [a Hid]. simpl in Hid. by rewrite lookup_empty in Hid.
Qed.

End Table.
End TableFacts.
Import TableFacts.

(** X18: in every state a new scheduler reaches, [Status] never answers
    with a nil task: the task it returns for an ID is the task of the
    record under that ID, its ID is the one asked for, and the record
    holds the request the task came with and a decision that names the
    ID. *)
Theorem Status_returns_the_task_asked_for (math_Exp : float -> float)
    (config : SchedulerConfig.t) (mem : gmap TaskPtr Task.t)
    (calls : list RunFacts.SchedulerCall) (taskID : string)
    (p : option TaskPtr) :
  let s := RunFacts.run math_Exp calls (defaultScheduler.New config mem) in
  defaultScheduler.Status s taskID = Ok p ->
  exists a rec req d,
    p = Some a
    /\ Task.ID (deref (defaultScheduler.mem s) (Some a)) = taskID
    /\ defaultScheduler.tasks s !! taskID = Some rec
    /\ taskRecord.task rec = Some a
    /\ taskRecord.request rec = Some req
    /\ ScheduleRequest.Task req = Some a
    /\ taskRecord.decision rec = Some d
    /\ ScheduleDecision.RequestID d = taskID.
Proof.
  intros s. unfold defaultScheduler.Status.
  destruct (defaultScheduler.tasks s !! taskID) as [rec |] eqn:Hrec;
    [| discriminate].
  intros [= <-].
  destruct (run_Sound math_Exp calls (defaultScheduler.New config mem)
              (New_Sound config mem)) as (_ & Hrecs & _).
  destruct (Hrecs taskID rec Hrec)
    as (a & req & d & H1 & H2 & H3 & H4 & H5 & H6).
  exists a, rec, req, d. done.
Qed.

(** One task dispatched, then cancelled. *)
Definition scheduleThenCancel : list RunFacts.SchedulerCall :=
  [RunFacts.DoSchedule (envOK 0) aiRequest; RunFacts.DoCancel 1 "t1"].

Lemma Status_witness :
  exists a rec req d,
    Some 0%nat = Some a
    /\ Task.ID
         (deref (defaultScheduler.mem
                   (RunFacts.run (fun x => x) scheduleThenCancel
                      (defaultScheduler.New DefaultSchedulerConfig store1)))
                (Some a))
       = "t1"%string
    /\ defaultScheduler.tasks
         (RunFacts.run (fun x => x) scheduleThenCancel
            (defaultScheduler.New DefaultSchedulerConfig store1))
       !! "t1"%string = Some rec
    /\ taskRecord.task rec = Some a
    /\ taskRecord.request rec = Some req
    /\ ScheduleRequest.Task req = Some a
    /\ taskRecord.decision rec = Some d
    /\ ScheduleDecision.RequestID d = "t1"%string.
Proof.
  apply (Status_returns_the_task_asked_for (fun x => x)
           DefaultSchedulerConfig store1 scheduleThenCancel
           "t1" (Some 0%nat)).
  vm_compute. reflexivity.
Defined.

(** X19: in every state a new scheduler reaches, every monitored task ID
    has a record, so that [Status] returns its task; every running task
    the statistics count is monitored, so that [Stats] reports no more
    running tasks than [ActiveTasks] lists; [Stats] reports the length of
    the queue as [CurrentQueued]; and the request at the head of the
    queue has a task. *)
Theorem reachable_states_are_consistent (math_Exp : float -> float)
    (config : SchedulerConfig.t) (mem : gmap TaskPtr Task.t)
    (calls : list RunFacts.SchedulerCall) (now : Time) :
  let s := RunFacts.run math_Exp calls (defaultScheduler.New config mem) in
  (forall id, id ∈ taskMonitor.ActiveTasks (defaultScheduler.monitor s) ->
              exists a, defaultScheduler.Status s id = Ok (Some a))
  /\ StatsSnapshot.CurrentRunning (defaultScheduler.Stats now s)
     <= Z.of_nat (length (taskMonitor.ActiveTasks (defaultScheduler.monitor s)))
  /\ StatsSnapshot.CurrentQueued (defaultScheduler.Stats now s)
     = Z.of_nat (PriorityQueue.Len (defaultScheduler.queue s))
  /\ (forall req, PriorityQueue.Peek (defaultScheduler.queue s) = Some req ->
                  is_Some (ScheduleRequest.Task req)).
Proof.
  intros s.
  destruct (run_Sound math_Exp calls (defaultScheduler.New config mem)
              (New_Sound config mem)) as (_ & Hrecs & Hitems & Hw & Hr).
  fold s in Hrecs, Hitems, Hw, Hr.
  split; [| split; [| split]].
  - intros id Hid. apply MonitorMore.elem_of_ActiveTasks in Hid.
    destruct (Hw id Hid) as [rec Hrec].
    destruct (Hrecs id rec Hrec) as (a & _ & _ & Ha & _).
    exists a. unfold defaultScheduler.Status. by rewrite Hrec, Ha.
  - unfold defaultScheduler.Stats, StatsCollector.Snapshot,
      taskMonitor.ActiveTasks. cbn [StatsSnapshot.CurrentRunning].
    rewrite length_fmap, length_map_to_list.
    rewrite <- !size_dom. apply inj_le, subseteq_size.
    intros id. rewrite !elem_of_dom. apply Hr.
  - done.
  - intros req Hpeek. unfold PriorityQueue.Peek in Hpeek.
    destruct (PriorityQueue.heap (defaultScheduler.queue s) !! 0%nat)
      as [item |] eqn:Hitem; [| discriminate].
    injection Hpeek as <-. apply Hitems. by eapply list_elem_of_lookup_2.
Qed.

(** ** Configuration and listeners *)

(** X20: [Complete] refuses a nil provider first, then a nil dispatcher.
    Otherwise it seals the two with a configuration whose
    [DispatchConcurrency] and [ScheduleLoopInterval] are positive: the
    given values when they are positive, 8 and 500 ms when they are not.
    [MaxRetries], the weights and the monitor's configuration pass as they
    are, whatever their values, and completing the sealed configuration
    again changes nothing. *)
Theorem Complete_defaults_and_refusals {P D : Type} (c : SchedulerConfig.t)
    (provider : option P) (dispatcher : option D) :
  match SchedulerConfig_Complete c provider dispatcher with
  | inl cc =>
      let c' := CompletedSchedulerConfig.config cc in
      provider = Some (CompletedSchedulerConfig.provider cc)
      /\ dispatcher = Some (CompletedSchedulerConfig.dispatcher cc)
      /\ 0 < SchedulerConfig.DispatchConcurrency c'
      /\ 0 < SchedulerConfig.ScheduleLoopInterval c'
      /\ SchedulerConfig.DispatchConcurrency c'
         = (if 0 <? SchedulerConfig.DispatchConcurrency c
            then SchedulerConfig.DispatchConcurrency c else 8)
      /\ SchedulerConfig.ScheduleLoopInterval c'
         = (if 0 <? SchedulerConfig.ScheduleLoopInterval c
            then SchedulerConfig.ScheduleLoopInterval c
            else 500 * millisecond)
      /\ SchedulerConfig.MaxRetries c' = SchedulerConfig.MaxRetries c
      /\ SchedulerConfig.DefaultScoringWeights c'
         = SchedulerConfig.DefaultScoringWeights c
      /\ SchedulerConfig.MonitorConfig c' = SchedulerConfig.MonitorConfig c
      /\ SchedulerConfig_Complete c' provider dispatcher = inl cc
  | inr ErrNilProvider => provider = None
  | inr ErrNilDispatcher => provider <> None /\ dispatcher = None
  end.
Proof.
  unfold SchedulerConfig_Complete.
  destruct provider as [pr |]; [| done].
  destruct dispatcher as [di |]; [| done].
  cbv zeta. cbn [CompletedSchedulerConfig.config
                 CompletedSchedulerConfig.provider
                 CompletedSchedulerConfig.dispatcher
                 SchedulerConfig.DispatchConcurrency
                 SchedulerConfig.ScheduleLoopInterval
                 SchedulerConfig.MaxRetries
                 SchedulerConfig.DefaultScoringWeights
                 SchedulerConfig.MonitorConfig].
  destruct (Z.leb_spec (SchedulerConfig.DispatchConcurrency c) 0) as [Hc | Hc],
    (Z.leb_spec (SchedulerConfig.ScheduleLoopInterval c) 0) as [Hi | Hi];
    repeat match goal with
           | |- context [0 <? ?x] => destruct (Z.ltb_spec 0 x); try lia
           | |- context [?x <=? 0] => destruct (Z.leb_spec x 0); try lia
           end;
    unfold millisecond in *; repeat split; try done; try lia.
Qed.

(** X21: [Unsubscribe] takes out the first registration of the listener
    and nothing else: it leaves a slice without the listener as it is,
    and from a slice that has it, it removes the earliest occurrence. So
    after [Subscribe] and [Unsubscribe] of a listener that was registered
    before, it is the older registration that is gone. *)
Theorem Unsubscribe_removes_first_registration {L : Type} `{EqDecision L}
    (listeners : list L) (listener : L) :
  (listener ∉ listeners ->
   defaultScheduler.Unsubscribe listeners listener = listeners)
  /\ (forall pre post,
        listeners = pre ++ listener :: post -> listener ∉ pre ->
        defaultScheduler.Unsubscribe listeners listener = pre ++ post)
  /\ (listener ∉ listeners ->
      defaultScheduler.Unsubscribe
        (defaultScheduler.Subscribe listeners listener) listener
      = listeners)
  /\ (forall pre post,
        listeners = pre ++ listener :: post -> listener ∉ pre ->
        defaultScheduler.Unsubscribe
          (defaultScheduler.Subscribe listeners listener) listener
        = pre ++ post ++ [listener]).
Proof.
  assert (forall pre post, listener ∉ pre ->
            defaultScheduler.Unsubscribe (pre ++ listener :: post) listener
            = pre ++ post) as Hfirst.
  { intros pre post. induction pre as [| l pre IH]; intros Hpre; simpl.
    - by rewrite decide_True.
    - apply not_elem_of_cons in Hpre as [Hne Hpre].
      rewrite decide_False by done. by rewrite IH. }
  assert (forall ls, listener ∉ ls ->
            defaultScheduler.Unsubscribe ls listener = ls) as Hnone.
  { intros ls. induction ls as [| l ls IH]; intros Hls; simpl; [done |].
    apply not_elem_of_cons in Hls as [Hne Hls].
    rewrite decide_False by done. by rewrite IH. }
  split; [by apply Hnone |]. split.
  - intros pre post -> Hpre. by apply Hfirst.
  - split.
    + intros Hls. unfold defaultScheduler.Subscribe.
      rewrite (Hfirst listeners []) by done. by rewrite app_nil_r.
    + intros pre post -> Hpre. unfold defaultScheduler.Subscribe.
      rewrite <- (assoc_L (++)). simpl. by rewrite Hfirst.
Qed.

(** ** Requests from the builder, and requests that cannot be dispatched *)

Module RequestFacts.
Import defaultScheduler SchedulerFacts SelectorMore.

Lemma DirectSelector_first now req candidates i target :
  ScheduleRequest.TargetNodeID req <> ""%string ->
  firstWithID candidates (ScheduleRequest.TargetNodeID req) i target ->
  constraintChecker.check req target = None ->
  DirectSelector.Select now req candidates
  = Ok (ScheduleDecision.mk
          "" DirectMode (ScheduleRequest.TargetNodeID req)
          (ReasonDirect (ScheduleRequest.TargetNodeID req))
          [] (length candidates) 1 now 0).
Proof.
  intros Hne (Hi & Hid & Hfirst) Hcheck. unfold DirectSelector.Select.
  destruct (String.eqb_spec (ScheduleRequest.TargetNodeID req) "");
    [done |].
  destruct (list_find _ candidates) as [[j t] |] eqn:Hfind.
  - apply list_find_Some in Hfind as (Hj & Hjid & Hjfirst).
    assert (j = i) as ->.
    { destruct (Nat.lt_trichotomy j i) as [Hlt | [Heq | Hgt]]; [| done |].
      - by destruct (Hfirst j t Hj Hlt).
      - by destruct (Hjfirst i target Hi Hgt). }
    assert (t = target) as -> by congruence.
    by rewrite Hcheck, Hid.
  - apply list_find_None in Hfind. rewrite Forall_forall in Hfind.
    destruct (Hfind target); [by eapply list_elem_of_lookup_2 | done].
Qed.

(** A request without requirements is met by every online node. *)
Lemma check_online_only req profile :
  ScheduleRequest.RequiredCapabilities req = [] ->
  ScheduleRequest.RequiredSkills req = [] ->
  ScheduleRequest.RequiredFeatures req = [] ->
  ScheduleRequest.ResourceRequirements req = None ->
  NodeInfo.Status (GolemProfile.NodeInfo profile) = "online"%string ->
  constraintChecker.check req profile = None.
Proof.
  intros Hc Hs Hf Hr Ho. unfold constraintChecker.check.
  by rewrite Ho, Hc, Hs, Hf, Hr.
Qed.

End RequestFacts.
Import RequestFacts SelectorMore SchedulerFacts.

(** X22: a request at the head of the queue with an unknown mode, or in
    direct mode without a target, blocks the queue: [processQueue]
    changes nothing, whatever the provider and the dispatcher answer, so
    the requests behind it are never dispatched by it. *)
Theorem invalid_head_blocks_the_queue (math_Exp : float -> float)
    (env : Env.t) (s : defaultScheduler.t) (req : ScheduleRequest.t) :
  PriorityQueue.Peek (defaultScheduler.queue s) = Some req ->
  unknownMode req \/ directWithoutTarget req ->
  defaultScheduler.processQueue math_Exp env s = s.
Proof.
  intros Hpeek Hbad. unfold defaultScheduler.processQueue.
  cbn [defaultScheduler.processQueue_loop]. rewrite Hpeek.
  destruct (tryDispatch_invalid math_Exp env s req Hbad) as [err ->]. done.
Qed.

Lemma invalid_head_witness :
  defaultScheduler.processQueue (fun x => x) (envOK 1)
    (snd (defaultScheduler.Schedule (fun x => x) (envOK 0) scheduler0
            bogusModeRequest))
  = snd (defaultScheduler.Schedule (fun x => x) (envOK 0) scheduler0
           bogusModeRequest).
Proof.
  apply (invalid_head_blocks_the_queue (fun x => x) (envOK 1) _
           bogusModeRequest).
  - vm_compute. reflexivity.
  - left. split; vm_compute; discriminate.
Defined.

(** X23: a request built with [NewScheduleRequest] and [WithDirectMode]
    for a node ID, and nothing else, is dispatched by [Schedule] to the
    first listed node with that ID as soon as that node is online and the
    dispatcher accepts the task, whatever the node's load, health or
    features; when that node is not online, [Schedule] queues the request
    with the node's status as the reason. *)
Theorem direct_request_reaches_online_target (math_Exp : float -> float)
    (env : Env.t) (s : defaultScheduler.t) (now : Time) (p : TaskPtr)
    (nodeID : string) (candidates : list GolemProfile.t) (i : nat)
    (target : GolemProfile.t) :
  nodeID <> ""%string ->
  Env.ListProfiles env = Ok candidates ->
  firstWithID candidates nodeID i target ->
  let req :=
    ScheduleRequestBuilder.Build
      (ScheduleRequestBuilder.WithDirectMode nodeID
         (ScheduleRequestBuilder.NewScheduleRequest now (Some p))) in
  let status := NodeInfo.Status (GolemProfile.NodeInfo target) in
  (status = "online"%string ->
   Env.Dispatch env nodeID (Some p) = None ->
   exists d,
     fst (defaultScheduler.Schedule math_Exp env s req) = Ok d
     /\ ScheduleDecision.SelectedNodeID d = nodeID
     /\ ScheduleDecision.Mode d = DirectMode
     /\ ScheduleDecision.EligibleCount d = 1%nat)
  /\ (status <> "online"%string ->
      fst (defaultScheduler.Schedule math_Exp env s req)
      = Err (ErrQueued
               (ErrTargetRejected nodeID (NodeStatusNotOnline status))
               (Task.ID (deref (defaultScheduler.mem s) (Some p))))).
Proof.
  intros Hne Hlist Hfirst req status.
  assert (candidates <> []) as Hcand.
  { destruct Hfirst as [Hi _]. intros ->. by rewrite lookup_nil in Hi. }
  unfold defaultScheduler.Schedule, defaultScheduler.tryDispatch.
  cbn [ScheduleRequest.Task req ScheduleRequestBuilder.Build
       ScheduleRequestBuilder.WithDirectMode
       ScheduleRequestBuilder.NewScheduleRequest ScheduleRequest.Mode].
  rewrite Hlist.
  replace (length candidates =? 0)%nat with false
    by (destruct candidates; done).
  change (String.eqb DirectMode DirectMode) with true. cbv iota.
  split.
  - intros Honline Hdisp.
    rewrite (DirectSelector_first (Env.now env) _ candidates i target);
      [| done | done |].
    2:{ by apply check_online_only. }
    cbv zeta. cbn [ScheduleDecision.SelectedNodeID ScheduleRequest.TargetNodeID
                   ScheduleRequest.Task].
    change (ScheduleRequest.TargetNodeID req) with nodeID.
    rewrite Hdisp. cbn [fst]. eexists. split; [reflexivity |]. done.
  - intros Hoff.
    assert (constraintChecker.check req target
            = Some (NodeStatusNotOnline status)) as Hcheck.
    { unfold constraintChecker.check. fold status.
      destruct (String.eqb_spec status "online"); [done |]. done. }
    unfold DirectSelector.Select.
    change (ScheduleRequest.TargetNodeID req) with nodeID.
    destruct (String.eqb_spec nodeID ""); [done |].
    destruct (list_find _ candidates) as [[j t] |] eqn:Hfind.
    + apply list_find_Some in Hfind as (Hj & Hjid & Hjfirst).
      destruct Hfirst as (Hi & Hid & Hfirst).
      assert (j = i) as ->.
      { destruct (Nat.lt_trichotomy j i) as [Hlt | [Heq | Hgt]]; [| done |].
        - by destruct (Hfirst j t Hj Hlt).
        - by destruct (Hjfirst i target Hi Hgt). }
      assert (t = target) as -> by congruence.
      rewrite Hcheck. done.
    + apply list_find_None in Hfind. rewrite Forall_forall in Hfind.
      destruct Hfirst as (Hi & Hid & _).
      destruct (Hfind target); [by eapply list_elem_of_lookup_2 | done].
Qed.

(** A busy node with a poor health score, listed after another node. *)
Definition busyNode (id : string) : GolemProfile.t :=
  GolemProfile.mk
    (NodeInfo.mk id [] (SystemInfo.mk 1 512 10) "online")
    (NodeLoadInfo.mk 99 99 40 40) [] [] ∅ 0.125 0.

Lemma direct_request_witness :
  exists d,
    fst (defaultScheduler.Schedule (fun x => x)
           (Env.mk 0 (Ok [idleNode "g1"; busyNode "g2"]) (fun _ _ => None))
           scheduler0
           (ScheduleRequestBuilder.Build
              (ScheduleRequestBuilder.WithDirectMode "g2"
                 (ScheduleRequestBuilder.NewScheduleRequest 0 (Some 0%nat)))))
    = Ok d
    /\ ScheduleDecision.SelectedNodeID d = "g2"%string
    /\ ScheduleDecision.Mode d = DirectMode
    /\ ScheduleDecision.EligibleCount d = 1%nat.
Proof.
  refine (proj1 (direct_request_reaches_online_target (fun x => x)
                   (Env.mk 0 (Ok [idleNode "g1"; busyNode "g2"])
                           (fun _ _ => None))
                   scheduler0 0 0%nat "g2" [idleNode "g1"; busyNode "g2"]
                   1%nat (busyNode "g2") _ _ _) _ _).
  - discriminate.
  - reflexivity.
  - split; [reflexivity |]. split; [reflexivity |].
    intros j c Hj Hlt. destruct j as [| j]; [| lia].
    injection Hj as <-. discriminate.
  - reflexivity.
  - reflexivity.
Defined.
